(** * vdom-plugins: plugin orchestration runtime and spatial table detection

    A shallow embedding of [src/utils.ts] (geometry), of
    [src/plugins/coord-table-detector/index.ts] (row/column clustering,
    confidence scoring and the handler of the plugin), of [src/runtime.ts]
    (the [VdomPluginManager]), of the orphan-detector plugin (coverage
    filter and statistics) and of [validatePluginConfig] of [src/types.ts],
    followed by the properties established about them.

    The numbers of [overlapRatio], of the orphan detector and of
    [validatePluginConfig] are IEEE 754 doubles ([Float64]), with their
    rounding, overflow, signed zeros and [NaN].  The table detector is
    modelled over exact rationals ([Q]); what is stated about it are
    comparisons, counts and values that are computed without rounding.
    Maps and sets that the source iterates in insertion order ([Map],
    [Set]) are modelled as association lists and duplicate-free lists.

    The manager is modelled twice.  [Runtime] has all its methods, with
    bus listeners that observe the payload and return or throw.
    [Reentrant] has the bus and the synchronous registry methods with
    listeners that call back into the manager while [emit] runs. *)

From Stdlib Require Import QArith Qminmax Qabs Lia Lqa String Ascii Bool Arith
  Permutation Sorted SpecFloat List.
Import ListNotations.
Local Open Scope Q_scope.

(* ===================================================================== *)
(** * Part I: definitions                                                 *)
(* ===================================================================== *)

(** ** Numbers *)

(** [a > b] on JavaScript numbers. *)
Definition Qgt_bool (a b : Q) : bool := negb (Qle_bool a b).

(** [a >= b] on JavaScript numbers. *)
Definition Qge_bool (a b : Q) : bool := Qle_bool b a.

(** [a < b] on JavaScript numbers. *)
Definition Qlt_bool (a b : Q) : bool := negb (Qle_bool b a).

(** ** Numbers in double precision *)

Module Float64.

Definition prec : Z := 53.
Definition emax : Z := 1024.

(** A JavaScript number: an IEEE 754 binary64 value. *)
Definition float : Type := spec_float.

Definition nan : float := S754_nan.
Definition zero : float := S754_zero false.
Definition one : float := S754_finite false 4503599627370496 (-52).

(** The number an integer literal denotes: the nearest double. *)
Definition ofZ (z : Z) : float := binary_normalize prec emax z 0 false.

Definition sub (x y : float) : float := SFsub prec emax x y.
Definition mul (x y : float) : float := SFmul prec emax x y.
Definition div (x y : float) : float := SFdiv prec emax x y.

(** [x < y], [x <= y], [x > y], [x >= y]: false when either is [NaN]. *)
Definition ltb (x y : float) : bool := SFltb x y.
Definition leb (x y : float) : bool := SFleb x y.
Definition gtb (x y : float) : bool := SFltb y x.
Definition geb (x y : float) : bool := SFleb y x.

(** [Math.max(x, y)]: [NaN] if either is, and [+0] above [-0]. *)
Definition max (x y : float) : float :=
  match SFcompare x y with
  | None => nan
  | Some Lt => y
  | Some Gt => x
  | Some Eq => match x with S754_zero true => y | _ => x end
  end.

(** [Math.min(x, y)]: [NaN] if either is, and [-0] below [+0]. *)
Definition min (x y : float) : float :=
  match SFcompare x y with
  | None => nan
  | Some Lt => x
  | Some Gt => y
  | Some Eq => match x with S754_zero false => y | _ => x end
  end.

(** *** Vocabulary for the properties *)

Definition isNumber (x : float) : Prop := x <> nan.

Definition isZero (x : float) : Prop := exists s, x = S754_zero s.

(** Positive and finite. *)
Definition finitePositive (x : float) : Prop :=
  exists m e, x = S754_finite false m e.

(** The same number: equal, or zeros of either sign. *)
Definition same (x y : float) : Prop := x = y \/ (isZero x /\ isZero y).

(** The place of a number in the order of the doubles: the sign class,
    then exponent and mantissa, both negated for negative numbers. *)
Definition key (x : float) : option (Z * Z * Z) :=
  match x with
  | S754_nan => None
  | S754_infinity true => Some (-2, 0, 0)%Z
  | S754_finite true m e => Some (-1, - e, - Zpos m)%Z
  | S754_zero _ => Some (0, 0, 0)%Z
  | S754_finite false m e => Some (1, e, Zpos m)%Z
  | S754_infinity false => Some (2, 0, 0)%Z
  end.

Definition keyLt (a b : Z * Z * Z) : Prop :=
  let '(a1, a2, a3) := a in
  let '(b1, b2, b3) := b in
  (a1 < b1 \/ (a1 = b1 /\ (a2 < b2 \/ (a2 = b2 /\ a3 < b3))))%Z.

End Float64.

(** ** Geometry utilities (src/utils.ts) *)

Module Utils.
Import Float64.

(** [BBox] (types.ts): four numbers. *)
Record BBox : Type := mkBBox { x1 : float; y1 : float; x2 : float; y2 : float }.

(** [overlapRatio(a, b)]. *)
Definition overlapRatio (a b : BBox) : float :=
  let intersectX1 := max (x1 a) (x1 b) in
  let intersectY1 := max (y1 a) (y1 b) in
  let intersectX2 := min (x2 a) (x2 b) in
  let intersectY2 := min (y2 a) (y2 b) in
  if geb intersectX1 intersectX2 || geb intersectY1 intersectY2
  then zero
  else
    let intersectArea :=
      mul (sub intersectX2 intersectX1) (sub intersectY2 intersectY1) in
    let aArea := mul (sub (x2 a) (x1 a)) (sub (y2 a) (y1 a)) in
    if gtb aArea zero then div intersectArea aArea else zero.

(** [bboxContains(outer, inner, threshold = 0.5)]. *)
Definition bboxContains (outer inner : BBox) (threshold : float) : bool :=
  geb (overlapRatio inner outer) threshold.

(** *** Vocabulary for the properties *)

(** No coordinate is [NaN]. *)
Definition numbers (a : BBox) : Prop :=
  isNumber (x1 a) /\ isNumber (y1 a) /\ isNumber (x2 a) /\ isNumber (y2 a).

(** [x1 < x2] and [y1 < y2]. *)
Definition wellFormed (a : BBox) : Prop :=
  ltb (x1 a) (x2 a) = true /\ ltb (y1 a) (y2 a) = true.

(** [x1 >= x2] or [y1 >= y2]. *)
Definition degenerate (a : BBox) : Prop :=
  geb (x1 a) (x2 a) = true \/ geb (y1 a) (y2 a) = true.

(** The boxes share no interior point. *)
Definition disjoint (a b : BBox) : Prop :=
  leb (x2 a) (x1 b) = true \/ leb (x2 b) (x1 a) = true
  \/ leb (y2 a) (y1 b) = true \/ leb (y2 b) (y1 a) = true.

(** [a] lies fully inside [b]. *)
Definition inside (a b : BBox) : Prop :=
  leb (x1 b) (x1 a) = true /\ leb (x2 a) (x2 b) = true
  /\ leb (y1 b) (y1 a) = true /\ leb (y2 a) (y2 b) = true.

(** The area as [overlapRatio] computes it: a rounded product of rounded
    differences. *)
Definition area (a : BBox) : float :=
  mul (sub (x2 a) (x1 a)) (sub (y2 a) (y1 a)).

Definition intersection (a b : BBox) : BBox :=
  {| x1 := max (x1 a) (x1 b); y1 := max (y1 a) (y1 b);
     x2 := min (x2 a) (x2 b); y2 := min (y2 a) (y2 b) |}.

(** *** Boxes used as examples *)

(** The box with the given integer corners. *)
Definition boxOf (left top right bottom : Z) : BBox :=
  {| x1 := ofZ left; y1 := ofZ top; x2 := ofZ right; y2 := ofZ bottom |}.

Definition boxSmall : BBox := boxOf 0 0 10 10.

Definition boxLarge : BBox := boxOf 0 0 20 20.

Definition boxAway : BBox := boxOf 30 0 40 10.

Definition boxFlat : BBox := boxOf 5 5 5 9.

Definition boxUnit : BBox := boxOf 0 0 1 1.

(** A square of side [1e200]: its area exceeds the largest double. *)
Definition boxHuge : BBox := boxOf 0 0 (10 ^ 200) (10 ^ 200).

(** A square of side [2 ** -600]: its area is below the smallest positive
    double. *)
Definition boxTiny : BBox :=
  {| x1 := zero; y1 := zero;
     x2 := S754_finite false 4503599627370496 (-652);
     y2 := S754_finite false 4503599627370496 (-652) |}.

(** [0.25] and [0.5]. *)
Definition quarter : float := S754_finite false 4503599627370496 (-54).

Definition half : float := S754_finite false 4503599627370496 (-53).

End Utils.

(** ** Bounding boxes of the table detector (src/types.ts) *)

Record BBox : Type := mkBBox { x1 : Q; y1 : Q; x2 : Q; y2 : Q }.

Module Geometry.

(** [a] lies fully inside [b]. *)
Definition inside (a b : BBox) : Prop :=
  x1 b <= x1 a /\ x2 a <= x2 b /\ y1 b <= y1 a /\ y2 a <= y2 b.

End Geometry.

(** ** Spatial table detection (src/plugins/coord-table-detector) *)

Module TableDetector.

Local Open Scope string_scope.

(** *** Types (types.ts) *)

Record ClusterBlock : Type := mkClusterBlock {
  id : string;
  bbox : BBox;
  xCenter : Q;
  yCenter : Q;
  text : option string
}.

Record RowCluster : Type := mkRowCluster {
  rowYCenter : Q;                 (* RowCluster.yCenter *)
  blocks : list ClusterBlock
}.

Record GridCell : Type := mkGridCell {
  blockId : option string;        (* string | null *)
  cellBBox : BBox;                (* GridCell.bbox *)
  cellText : option string;       (* GridCell.text *)
  row : nat;
  col : nat
}.

(** [CoordTableDetectorConfig]; the two minimum counts are natural
    numbers. *)
Record CoordTableDetectorConfig : Type := mkConfig {
  rowTolerance : Q;
  columnTolerance : Q;
  minColumns : nat;
  minRows : nat;
  confidenceThreshold : Q;
  showOverlays : bool;
  overlayBorderStyle : string;
  debug : bool
}.

(** The table id is [`coord-table-p${pageNumber}-${Date.now()}`]; the clock
    reading is an input of the model. *)
Record TableId : Type := mkTableId { idPage : nat; idStamp : Z }.

Record DetectedTable : Type := mkDetectedTable {
  tableId : TableId;              (* DetectedTable.id *)
  tableBBox : BBox;               (* DetectedTable.bbox *)
  pageNumber : nat;
  rowCount : nat;
  columnCount : nat;
  confidence : Q;
  blockIds : list string;
  grid : list (list GridCell)
}.

(** *** Array helpers *)

(** [Array.prototype.sort] with the comparator [(a, b) => key a - key b].
    The sort of ECMAScript is stable; so is this insertion sort. *)
Section Sorting.
Context {A : Type} (key : A -> Q).

Fixpoint insertBy (a : A) (l : list A) : list A :=
  match l with
  | [] => [a]
  | b :: l' => if Qle_bool (key a) (key b) then a :: b :: l'
               else b :: insertBy a l'
  end.

Definition sortBy (l : list A) : list A := fold_right insertBy [] l.

End Sorting.

(** [arr.forEach((v, i) => ...)]: the elements with their indices. *)
Definition indexed {A : Type} (l : list A) : list (nat * A) :=
  combine (seq 0 (length l)) l.

(** [arr.length] as a JavaScript number. *)
Definition len {A : Type} (l : list A) : Q := inject_Z (Z.of_nat (length l)).

(** [arr.reduce((a, b) => a + b, 0)]. *)
Definition sum (l : list Q) : Q := fold_left Qplus l 0.

(** [Math.min(...arr)] and [Math.max(...arr)] on a non-empty array (the
    callers below only pass the blocks of a row, and a row holds at least
    one block); the value on the empty array is a placeholder. *)
Definition minOf (l : list Q) : Q :=
  match l with [] => 0 | a :: l' => fold_left Qmin l' a end.

Definition maxOf (l : list Q) : Q :=
  match l with [] => 0 | a :: l' => fold_left Qmax l' a end.

(** *** The algorithm (index.ts) *)

Definition getBBoxCenter (b : BBox) : Q * Q :=
  ((x1 b + x2 b) / 2, (y1 b + y2 b) / 2).

(** [currentRow.blocks.reduce((sum, b) => sum + b.yCenter, 0) /
    currentRow.blocks.length]. *)
Definition meanYCenter (bs : list ClusterBlock) : Q :=
  fold_left (fun sum b => sum + yCenter b) bs 0 / len bs.

(** The [for] loop of [clusterIntoRows] over [sorted[1..]]. *)
Fixpoint rowLoop (tolerance : Q) (rest : list ClusterBlock)
    (rows : list RowCluster) (currentRow : RowCluster) : list RowCluster :=
  match rest with
  | [] =>
      rows ++ [ {| rowYCenter := meanYCenter (blocks currentRow);
                   blocks := blocks currentRow |} ]
  | block :: rest' =>
      let rowYCenter' := meanYCenter (blocks currentRow) in
      if Qle_bool (Qabs (yCenter block - rowYCenter')) tolerance
      then rowLoop tolerance rest' rows
             {| rowYCenter := rowYCenter currentRow;
                blocks := blocks currentRow ++ [block] |}
      else rowLoop tolerance rest'
             (rows ++ [ {| rowYCenter := rowYCenter';
                           blocks := blocks currentRow |} ])
             {| rowYCenter := yCenter block; blocks := [block] |}
  end.

Definition clusterIntoRows (blocks : list ClusterBlock) (tolerance : Q)
    : list RowCluster :=
  match sortBy yCenter blocks with
  | [] => []
  | first :: rest =>
      rowLoop tolerance rest []
        {| rowYCenter := yCenter first; blocks := [first] |}
  end.

Record XItem : Type := mkXItem { itemX : Q; rowIdx : nat }.

Record ColumnCluster : Type := mkColumnCluster {
  colXCenter : Q;                 (* xCenter *)
  rowSet : list nat               (* Set<number>, insertion order *)
}.

(** [set.add(n)]. *)
Definition setAdd (n : nat) (s : list nat) : list nat :=
  if existsb (Nat.eqb n) s then s else s ++ [n].

(** The inner [for (const cluster of columnClusters)] loop: the first
    cluster within [tolerance] of the item absorbs it ([found = true; break]);
    [None] when no cluster does.  As in the source, the row index is added
    to [rowSet] first and [rowSet.size] is read afterwards. *)
Fixpoint mergeIntoCluster (tolerance : Q) (item : XItem)
    (columnClusters : list ColumnCluster) : option (list ColumnCluster) :=
  match columnClusters with
  | [] => None
  | cluster :: rest =>
      if Qle_bool (Qabs (itemX item - colXCenter cluster)) tolerance
      then
        let rowSet' := setAdd (rowIdx item) (rowSet cluster) in
        Some ({| colXCenter :=
                   (colXCenter cluster * len rowSet' + itemX item)
                   / (len rowSet' + 1);
                 rowSet := rowSet' |} :: rest)
      else option_map (cons cluster) (mergeIntoCluster tolerance item rest)
  end.

(** One iteration of [for (const item of sorted)]. *)
Definition addItem (tolerance : Q) (columnClusters : list ColumnCluster)
    (item : XItem) : list ColumnCluster :=
  match mergeIntoCluster tolerance item columnClusters with
  | Some merged => merged
  | None =>
      columnClusters ++
      [ {| colXCenter := itemX item; rowSet := [rowIdx item] |} ]
  end.

Definition clusterColumns (tolerance : Q) (sorted : list XItem)
    : list ColumnCluster :=
  fold_left (addItem tolerance) sorted [].

(** [allXCenters]: every block's x-center with the index of its row. *)
Definition collectXCenters (rows : list RowCluster) : list XItem :=
  flat_map (fun ir => map (fun b => {| itemX := xCenter b; rowIdx := fst ir |})
                          (blocks (snd ir)))
           (indexed rows).

Definition detectColumns (rows : list RowCluster) (tolerance : Q)
    (minRows : nat) : list Q :=
  if (length rows <? minRows)%nat then []
  else
    let allXCenters := collectXCenters rows in
    if (length allXCenters =? 0)%nat then []
    else
      let sorted := sortBy itemX allXCenters in
      let columnClusters := clusterColumns tolerance sorted in
      sortBy (fun c => c)
        (map colXCenter
           (filter (fun c => (minRows <=? length (rowSet c))%nat)
                   columnClusters)).

Definition buildGrid (rows : list RowCluster) (columns : list Q)
    (tolerance : Q) : list (list GridCell) :=
  map (fun ir =>
    let rowIdx := fst ir in
    let row := snd ir in
    map (fun ic =>
      let colIdx := fst ic in
      let colX := snd ic in
      match find (fun b => Qle_bool (Qabs (xCenter b - colX)) tolerance)
                 (blocks row) with
      | Some matchingBlock =>
          {| blockId := Some (id matchingBlock);
             cellBBox := bbox matchingBlock;
             cellText := text matchingBlock;
             row := rowIdx; col := colIdx |}
      | None =>
          let colWidth :=
            if (1 <? length columns)%nat
            then (if (colIdx <? length columns - 1)%nat
                  then nth (colIdx + 1) columns 0 - colX
                  else colX - nth (colIdx - 1) columns 0)
            else 100 in
          let rowBlocks := blocks row in
          let minY := minOf (map (fun b => y1 (bbox b)) rowBlocks) in
          let maxY := maxOf (map (fun b => y2 (bbox b)) rowBlocks) in
          {| blockId := None;
             cellBBox := {| x1 := colX - colWidth / 2; y1 := minY;
                            x2 := colX + colWidth / 2; y2 := maxY |};
             cellText := None;
             row := rowIdx; col := colIdx |}
      end) (indexed columns)) (indexed rows).

(** [cell.blockId !== null]. *)
Definition filled (c : GridCell) : bool :=
  match blockId c with Some _ => true | None => false end.

(** [1 / (1 + variance / mean)] when [mean > 0], else [0]. *)
Definition consistency (mean variance : Q) : Q :=
  if Qgt_bool mean 0 then 1 / (1 + variance / mean) else 0.

(** [calculateConfidence]; [grid.map((row) => row[col])] reads column
    [col] of every row, all rows of a grid built by [buildGrid] having
    [colCount] cells. *)
Definition calculateConfidence (grid : list (list GridCell)) : Q :=
  match grid with
  | [] => 0
  | row0 :: _ =>
    if (length row0 =? 0)%nat then 0
    else
      let rowCount := length grid in
      let colCount := length row0 in
      (* Factor 1: cell fill ratio *)
      let filledCells :=
        fold_left (fun n row =>
                     fold_left (fun n c => if filled c then S n else n) row n)
                  grid 0%nat in
      let fillRatio :=
        inject_Z (Z.of_nat filledCells)
        / inject_Z (Z.of_nat (rowCount * colCount)) in
      (* Factor 2: row height consistency *)
      let rowHeights :=
        map (fun row =>
               let heights :=
                 map (fun c => y2 (cellBBox c) - y1 (cellBBox c))
                     (filter filled row) in
               if (0 <? length heights)%nat
               then sum heights / len heights else 0) grid in
      let avgRowHeight := sum rowHeights / len rowHeights in
      let rowHeightVariance :=
        fold_left (fun s h => s + (h - avgRowHeight) ^ 2) rowHeights 0
        / len rowHeights in
      let rowHeightConsistency := consistency avgRowHeight rowHeightVariance in
      (* Factor 3: column width consistency *)
      let colWidths :=
        flat_map (fun col =>
          let widths :=
            map (fun c => x2 (cellBBox c) - x1 (cellBBox c))
                (filter filled
                   (flat_map (fun row => match nth_error row col with
                                         | Some c => [c] | None => [] end)
                             grid)) in
          if (0 <? length widths)%nat
          then [sum widths / len widths] else []) (seq 0 colCount) in
      let avgColWidth :=
        if (0 <? length colWidths)%nat
        then sum colWidths / len colWidths else 0 in
      let colWidthVariance :=
        if (0 <? length colWidths)%nat
        then fold_left (fun s w => s + (w - avgColWidth) ^ 2) colWidths 0
             / len colWidths
        else 0 in
      let colWidthConsistency := consistency avgColWidth colWidthVariance in
      (* Weighted combination *)
      let confidence :=
        fillRatio * (4 # 10) + rowHeightConsistency * (3 # 10)
        + colWidthConsistency * (3 # 10) in
      Qmin 1 (Qmax 0 confidence)
  end.

Definition computeTableBBox (blocks : list ClusterBlock) : BBox :=
  match blocks with
  | [] => {| x1 := 0; y1 := 0; x2 := 0; y2 := 0 |}
  | _ =>
      {| x1 := minOf (map (fun b => x1 (bbox b)) blocks);
         y1 := minOf (map (fun b => y1 (bbox b)) blocks);
         x2 := maxOf (map (fun b => x2 (bbox b)) blocks);
         y2 := maxOf (map (fun b => y2 (bbox b)) blocks) |}
  end.

(** [detectTablesOnPage]; the [log] argument only receives debug text and
    is left out, [now] is the reading of [Date.now()]. *)
Definition detectTablesOnPage (blocks : list ClusterBlock) (pageNumber : nat)
    (config : CoordTableDetectorConfig) (now : Z) : list DetectedTable :=
  if (length blocks <? minRows config * minColumns config)%nat then []
  else
    (* Step 1: cluster into rows *)
    let rows := clusterIntoRows blocks (rowTolerance config) in
    if (length rows <? minRows config)%nat then []
    else
      (* Step 2: detect columns *)
      let columns :=
        detectColumns rows (columnTolerance config) (minRows config) in
      if (length columns <? minColumns config)%nat then []
      else
        (* Step 3: build grid *)
        let grid := buildGrid rows columns (columnTolerance config) in
        (* Step 4: calculate confidence *)
        let confidence := calculateConfidence grid in
        if Qlt_bool confidence (confidenceThreshold config) then []
        else
          (* Step 5: create table *)
          let allBlocks := flat_map TableDetector.blocks rows in
          [ {| tableId := {| idPage := pageNumber; idStamp := now |};
               tableBBox := computeTableBBox allBlocks;
               pageNumber := pageNumber;
               rowCount := length rows;
               columnCount := length columns;
               confidence := confidence;
               blockIds := map id allBlocks;
               grid := grid |} ].

(** *** Vocabulary for the properties *)

(** No two of the numbers are within [tol] of each other. *)
Fixpoint scatteredQ (tol : Q) (l : list Q) : Prop :=
  match l with
  | [] => True
  | a :: l' => Forall (fun b => tol < Qabs (a - b)) l' /\ scatteredQ tol l'
  end.

(** No two elements have keys within [tol] of each other. *)
Definition scattered {A : Type} (key : A -> Q) (tol : Q) (l : list A) : Prop :=
  scatteredQ tol (map key l).

(** A row cluster made of one block. *)
Definition singletonRow (b : ClusterBlock) : RowCluster :=
  {| rowYCenter := meanYCenter [b]; blocks := [b] |}.

(** A column cluster made of one item. *)
Definition singletonColumn (it : XItem) : ColumnCluster :=
  {| colXCenter := itemX it; rowSet := [rowIdx it] |}.

(** The arithmetic mean. *)
Definition mean (l : list Q) : Q := sum l / len l.

(** A grid cell bound to block [b]. *)
Definition cellOf (b : ClusterBlock) (r c : nat) : GridCell :=
  {| blockId := Some (id b); cellBBox := bbox b; cellText := text b;
     row := r; col := c |}.

(** *** Pages used as scenarios *)

(** A block of width [w] and height [h] centred at [(cx, cy)]. *)
Definition blockAt (i : string) (cx cy w h : Q) : ClusterBlock :=
  {| id := i;
     bbox := {| x1 := cx - w / 2; y1 := cy - h / 2;
                x2 := cx + w / 2; y2 := cy + h / 2 |};
     xCenter := cx; yCenter := cy; text := None |}.

(** Six blocks of one size in three rows and two columns. *)
Definition gridPage (w h : Q) : list ClusterBlock :=
  [ blockAt "b1" 20 10 w h; blockAt "b2" 80 10 w h;
    blockAt "b3" 20 50 w h; blockAt "b4" 80 50 w h;
    blockAt "b5" 20 90 w h; blockAt "b6" 80 90 w h ].

Definition gridRows (w h : Q) : list RowCluster :=
  [ mkRowCluster (20 # 2) [blockAt "b1" 20 10 w h; blockAt "b2" 80 10 w h];
    mkRowCluster (100 # 2) [blockAt "b3" 20 50 w h; blockAt "b4" 80 50 w h];
    mkRowCluster (180 # 2) [blockAt "b5" 20 90 w h; blockAt "b6" 80 90 w h] ].

Definition gridCells (w h : Q) : list (list GridCell) :=
  [ [cellOf (blockAt "b1" 20 10 w h) 0 0; cellOf (blockAt "b2" 80 10 w h) 0 1];
    [cellOf (blockAt "b3" 20 50 w h) 1 0; cellOf (blockAt "b4" 80 50 w h) 1 1];
    [cellOf (blockAt "b5" 20 90 w h) 2 0; cellOf (blockAt "b6" 80 90 w h) 2 1] ].

(** The defaults of [coordTableDetectorConfigSchema]. *)
Definition defaultConfig : CoordTableDetectorConfig :=
  {| rowTolerance := 15; columnTolerance := 20; minColumns := 2;
     minRows := 2; confidenceThreshold := 7 # 10; showOverlays := true;
     overlayBorderStyle := "2px solid #3b82f6"; debug := false |}.

(** Four blocks far apart vertically, aligned in two columns. *)
Definition alignedPage : list ClusterBlock :=
  [ blockAt "a" 20 10 40 20; blockAt "b" 80 110 40 20;
    blockAt "c" 20 210 40 20; blockAt "d" 80 310 40 20 ].

(** Four blocks far apart both vertically and horizontally. *)
Definition scatteredPage : list ClusterBlock :=
  [ blockAt "a" 20 10 40 20; blockAt "b" 80 110 40 20;
    blockAt "c" 140 210 40 20; blockAt "d" 200 310 40 20 ].

(** Two x-centers, 20 in row 0 and 30 in row 1. *)
Definition twoItems : list XItem :=
  [ {| itemX := 20; rowIdx := 0 |}; {| itemX := 30; rowIdx := 1 |} ].

Definition twoRows : list RowCluster :=
  [ mkRowCluster 10 [blockAt "a" 20 10 40 20];
    mkRowCluster 50 [blockAt "b" 30 50 40 20] ].


(** *** Further vocabulary *)

(** The keys of the elements do not decrease along the list. *)
Definition ascending {A : Type} (key : A -> Q) (l : list A) : Prop :=
  StronglySorted (fun a b => key a <= key b) l.

(** Every block after the first lay within [tol] of the mean vertical
    center of the blocks before it: the test under which
    [clusterIntoRows] adds a block to the current row. *)
Definition accreted (tol : Q) (bs : list ClusterBlock) : Prop :=
  forall pre b post, bs = (pre ++ b :: post)%list -> pre <> [] ->
    Qabs (yCenter b - meanYCenter pre) <= tol.

(** The first block of [next] lies further than [tol] from the mean
    vertical center of [prev]: the test under which [clusterIntoRows]
    opens a new row. *)
Definition startsFar (tol : Q) (prev next : RowCluster) : Prop :=
  match blocks next with
  | b :: _ => tol < Qabs (yCenter b - meanYCenter (blocks prev))
  | [] => True
  end.

(** The number of row indices the clusters hold, all clusters together. *)
Definition support (cs : list ColumnCluster) : nat :=
  list_sum (map (fun c => length (rowSet c)) cs).

End TableDetector.

(** ** Plugin orchestration runtime (src/types.ts, src/runtime.ts) *)

Module Runtime.

Local Open Scope string_scope.

(** *** Insertion-ordered maps and sets

    A JavaScript [Map] iterates in insertion order, [set] on a present key
    keeps the key's position, [delete] removes the entry. *)
Section OrderedMap.
Context {K V : Type} (eqb : K -> K -> bool).

Fixpoint mapGet (k : K) (m : list (K * V)) : option V :=
  match m with
  | [] => None
  | (k', v) :: m' => if eqb k k' then Some v else mapGet k m'
  end.

Definition mapHas (k : K) (m : list (K * V)) : bool :=
  match mapGet k m with Some _ => true | None => false end.

Fixpoint mapSet (k : K) (v : V) (m : list (K * V)) : list (K * V) :=
  match m with
  | [] => [(k, v)]
  | (k', v') :: m' =>
      if eqb k k' then (k, v) :: m' else (k', v') :: mapSet k v m'
  end.

Definition mapDelete (k : K) (m : list (K * V)) : list (K * V) :=
  filter (fun kv => negb (eqb k (fst kv))) m.

Definition mapKeys (m : list (K * V)) : list K := map fst m.

Definition mapValues (m : list (K * V)) : list V := map snd m.

End OrderedMap.

Definition setHas (n : string) (s : list string) : bool :=
  existsb (String.eqb n) s.

Definition setAdd (n : string) (s : list string) : list string :=
  if setHas n s then s else s ++ [n].

Definition setDelete (n : string) (s : list string) : list string :=
  filter (fun n' => negb (String.eqb n n')) s.

(** *** Types (types.ts) *)

Inductive VdomLifecycleEvent : Type :=
| loading | ready | interactive | complete | nodeAdded | nodeRemoved
| nodeUpdated | selectionChanged | pageChanged.

Definition VdomLifecycleEvent_eq_dec (a b : VdomLifecycleEvent)
  : {a = b} + {a <> b}.
Proof. decide equality. Defined.

(** [PluginManagerEvent]: ['plugin:registered'] and so on, with [_] for
    the colon. *)
Inductive PluginManagerEvent : Type :=
| plugin_registered | plugin_unregistered | plugin_enabled | plugin_disabled
| plugin_configChanged | plugin_started | plugin_completed | plugin_error
| lifecycle_emit | command_started | command_completed | command_error.

Definition PluginManagerEvent_eq_dec (a b : PluginManagerEvent)
  : {a = b} + {a <> b}.
Proof. decide equality. Defined.

Definition topicEqb (a b : PluginManagerEvent) : bool :=
  if PluginManagerEvent_eq_dec a b then true else false.

(** [PluginEmitType]; [emitError] is the source's ['error']. *)
Inductive PluginEmitType : Type :=
| overlays | badges | annotations | stats | emitError | transformation.

(** Values of type [unknown] that the runtime only stores and forwards. *)
Inductive JsValue : Type :=
| VUndefined
| VBool (b : bool)
| VNum (q : Q)
| VStr (s : string).

(** [Record<string, unknown>]. *)
Definition JsRecord : Type := list (string * JsValue).

(** [ConfigField], the fields [register] reads. *)
Record ConfigField : Type := mkConfigField {
  fieldType : string;
  label : string;
  default : JsValue
}.

Definition PluginConfigSchema : Type := list (string * ConfigField).

(** A thrown value: an [Error] with its [message], or any other value with
    what [String(error)] yields for it. *)
Inductive Thrown : Type :=
| ThrownError (message : string)
| ThrownOther (asString : string).

(** [error instanceof Error ? error.message : String(error)]. *)
Definition errorText (e : Thrown) : string :=
  match e with ThrownError m => m | ThrownOther s => s end.

(** [PluginResult]; [data] keeps the statistics record, the decorations
    being opaque to the runtime. *)
Record PluginResult : Type := mkPluginResult {
  success : bool;
  data : option JsRecord;
  error : option string
}.

(** [CommandResult]; [cmdSuccess] and [cmdError] are its [success] and
    [error]. *)
Record CommandResult : Type := mkCommandResult {
  cmdSuccess : bool;
  content : option string;
  cmdError : option string
}.

(** [VdomNode], the fields the runtime reads: [id], [type], [bbox],
    [pageNumber]. *)
Record VdomNode : Type := mkVdomNode {
  nodeId : string;
  nodeType : string;
  nodeBBox : BBox;
  nodePageNumber : nat
}.

(** The part of [PluginContext] the host supplies to [runEvent]
    ([Omit<PluginContext, 'event' | 'config' | 'emit' | 'log'>]). *)
Record HostContext : Type := mkHostContext {
  documentId : string;
  hostPageNumber : option nat
}.

(** [PluginContext]; its [emit] and [log] callbacks are not data: what a
    handler does with them is part of the handler's run (below). *)
Record PluginContext : Type := mkPluginContext {
  host : HostContext;
  event : VdomLifecycleEvent;
  config : JsRecord
}.

(** [Omit<CommandContext, 'config' | 'log'>] and [CommandContext]. *)
Record EntityContext : Type := mkEntityContext {
  entity : VdomNode;
  entityBBox : BBox;
  entityPageNumber : nat;
  entityDocumentId : string
}.

Record CommandContext : Type := mkCommandContext {
  target : EntityContext;
  cmdConfig : JsRecord
}.

(** How an awaited handler settles. *)
Inductive Settles (A : Type) : Type :=
| Returns (r : A)            (* returns or resolves *)
| Rejects (e : Thrown)       (* throws or rejects *)
| NeverSettles.              (* the promise stays pending *)
Arguments Returns {A} r.
Arguments Rejects {A} e.
Arguments NeverSettles {A}.

(** What a handler closure does with the manager while it runs: the calls
    it makes on the manager it closes over, and the [ctx.emit] calls. *)
Inductive MgrOp (P : Type) : Type :=
| OpRegister (p : P)
| OpUnregister (n : string)
| OpEnable (n : string)
| OpDisable (n : string)
| OpSetConfig (n : string) (c : JsRecord)
| OpEmit (type : PluginEmitType) (payload : JsValue).
Arguments OpRegister {P} p.
Arguments OpUnregister {P} n.
Arguments OpEnable {P} n.
Arguments OpDisable {P} n.
Arguments OpSetConfig {P} n c.
Arguments OpEmit {P} type payload.

(** One run of a handler: the manager calls it makes, in order, and how
    the promise it returns settles. *)
Record HandlerRun (P : Type) : Type := mkHandlerRun {
  ops : list (MgrOp P);
  outcome : Settles PluginResult
}.
Arguments mkHandlerRun {P} ops outcome.
Arguments ops {P} h.
Arguments outcome {P} h.

(** [cleanup?: () => void | Promise<void>]: what one call does. *)
Inductive CleanupRun : Type :=
| CleanupVoid                  (* returns undefined *)
| CleanupThrows (e : Thrown)   (* throws synchronously *)
| CleanupAsync.                (* returns a promise, settled on a later
                                  turn of the event loop *)

(** [EntityContextType]: an entity type, ['all'] or ['selection']. *)
Inductive EntityContextType : Type :=
| ctxEntity (t : string)
| ctxAll
| ctxSelection.

(** [boolean | ((entity: VdomNode) => boolean)]. *)
Inductive Flag : Type :=
| Static (b : bool)
| Dynamic (f : VdomNode -> bool).

(** [PluginCommand]; [commandId] and [commandHandler] are its [id] and
    [handler]. *)
Record PluginCommand : Type := mkPluginCommand {
  commandId : string;
  title : string;
  contexts : list EntityContextType;
  outputFormat : string;
  enabled : option Flag;
  visible : option Flag;
  commandHandler : CommandContext -> Settles CommandResult
}.

#[local] Unset Elimination Schemes.
(** [VdomPlugin], the manifest.  [handler] maps the context to the run it
    makes; optional fields are options. *)
Inductive VdomPlugin : Type := mkVdomPlugin {
  name : string;
  description : string;
  runsOn : list VdomLifecycleEvent;
  handler : PluginContext -> HandlerRun VdomPlugin;
  commands : option (list PluginCommand);
  configSchema : option PluginConfigSchema;
  defaultEnabled : option bool;
  cleanup : option CleanupRun;
  dependencies : option (list string)
}.
#[local] Set Elimination Schemes.

(** [PluginManagerEventData]; the [duration] fields, differences of two
    clock readings, are left out. *)
Inductive EventData : Type :=
| DName (n : string)
| DConfigChanged (n : string) (c : JsRecord)
| DStarted (n : string) (ev : VdomLifecycleEvent)
| DCompleted (n : string) (result : PluginResult)
| DError (n : string) (e : Thrown)
| DLifecycleEmit (pluginName : string) (type : PluginEmitType)
    (payload : JsValue)
| DCommandStarted (pluginName commandId entityId : string)
| DCommandCompleted (pluginName commandId : string) (result : CommandResult)
| DCommandError (pluginName commandId : string) (e : Thrown).

(** A bus listener of this model: a function object (identified by
    [listenerId], as a [Set] of functions compares them) that observes the
    payload and returns, or throws, and makes no call on the manager.
    Listeners that call the manager while [emit] runs are those of
    [Reentrant] below. *)
Record Listener : Type := mkListener {
  listenerId : nat;
  listenerRun : EventData -> option Thrown
}.

(** *** The manager's state and what can be observed of a run *)

Record Manager : Type := mkManager {
  plugins : list (string * VdomPlugin);          (* Map<string, VdomPlugin> *)
  enabledPlugins : list string;                  (* Set<string> *)
  pluginConfigs : list (string * JsRecord);      (* Map<string, Record> *)
  listeners : list (PluginManagerEvent * list Listener)
}.

Definition emptyManager : Manager :=
  {| plugins := []; enabledPlugins := []; pluginConfigs := [];
     listeners := [] |}.

Inductive LogEntry : Type :=
| Emitted (topic : PluginManagerEvent) (d : EventData)
    (* this.emit(topic, d) was called *)
| ListenerCalled (l : nat) (topic : PluginManagerEvent) (d : EventData)
    (* a subscribed function was invoked *)
| ConsoleError (text : string)
| HandlerCalled (n : string) (ctx : PluginContext)
    (* plugin.handler(ctx) was invoked *)
| CleanupCalled (n : string) (registered : list string)
    (* plugin.cleanup() was invoked; [registered] are the names
       getPlugins() holds at that moment *)
| CommandHandlerCalled (pluginName commandId : string).

Record World : Type := mkWorld {
  mgr : Manager;
  log : list LogEntry;
  floating : list string
    (* promises returned by cleanup() calls that nothing awaits,
       by plugin name *)
}.

Definition initWorld (m : Manager) : World :=
  {| mgr := m; log := []; floating := [] |}.

(** *** A monad for the manager's methods

    State is the [World]; a computation returns, throws, waits for ever on
    a promise that never settles, or exceeds the recursion bound. *)
Inductive Res (A : Type) : Type :=
| Ok (a : A)
| Throw (e : Thrown)
| Pending
| Overflow.
Arguments Ok {A} a.
Arguments Throw {A} e.
Arguments Pending {A}.
Arguments Overflow {A}.

Definition M (A : Type) : Type := World -> Res A * World.

Definition ret {A} (a : A) : M A := fun w => (Ok a, w).

Definition bind {A B} (c : M A) (k : A -> M B) : M B :=
  fun w =>
    match c w with
    | (Ok a, w') => k a w'
    | (Throw e, w') => (Throw e, w')
    | (Pending, w') => (Pending, w')
    | (Overflow, w') => (Overflow, w')
    end.

Declare Scope mgr_scope.
Delimit Scope mgr_scope with mgr.
Notation "x <- c ;; k" := (bind c (fun x => k))
  (at level 61, c at next level, right associativity) : mgr_scope.
Notation "c ;;; k" := (bind c (fun _ => k))
  (at level 61, right associativity) : mgr_scope.
Local Open Scope mgr_scope.

Definition throw {A} (e : Thrown) : M A := fun w => (Throw e, w).

Definition pending {A} : M A := fun w => (Pending, w).

Definition overflow {A} : M A := fun w => (Overflow, w).

(** [try { c } catch (e) { h e }]. *)
Definition tryCatch {A} (c : M A) (h : Thrown -> M A) : M A :=
  fun w =>
    match c w with
    | (Throw e, w') => h e w'
    | r => r
    end.

Definition getMgr : M Manager := fun w => (Ok (mgr w), w).

Definition modifyMgr (f : Manager -> Manager) : M unit :=
  fun w => (Ok tt, {| mgr := f (mgr w); log := log w;
                      floating := floating w |}).

Definition record (e : LogEntry) : M unit :=
  fun w => (Ok tt, {| mgr := mgr w; log := log w ++ [e];
                      floating := floating w |}).

Definition float (n : string) : M unit :=
  fun w => (Ok tt, {| mgr := mgr w; log := log w;
                      floating := floating w ++ [n] |}).

(** [for (const a of l) { body a }]. *)
Fixpoint forEach {A} (l : list A) (body : A -> M unit) : M unit :=
  match l with
  | [] => ret tt
  | a :: l' => body a ;;; forEach l' body
  end.

(** *** The manager (runtime.ts) *)

(** The double quote character, as it appears in the error messages. *)
Definition quote : string := String (ascii_of_nat 34) EmptyString.

(** [emit(event, data)]: every subscribed function is called inside its
    own [try]/[catch]; a caught error goes to [console.error]. *)
Definition callListener (topic : PluginManagerEvent) (d : EventData)
    (l : Listener) : M unit :=
  record (ListenerCalled (listenerId l) topic d) ;;;
  match listenerRun l d with
  | None => ret tt
  | Some e => throw e
  end.

(** The topics as the source writes them. *)
Definition topicName (t : PluginManagerEvent) : string :=
  match t with
  | plugin_registered => "plugin:registered"
  | plugin_unregistered => "plugin:unregistered"
  | plugin_enabled => "plugin:enabled"
  | plugin_disabled => "plugin:disabled"
  | plugin_configChanged => "plugin:configChanged"
  | plugin_started => "plugin:started"
  | plugin_completed => "plugin:completed"
  | plugin_error => "plugin:error"
  | lifecycle_emit => "lifecycle:emit"
  | command_started => "command:started"
  | command_completed => "command:completed"
  | command_error => "command:error"
  end.

(** What [console.error] receives in [emit]'s [catch]. *)
Definition handlerErrorLine (topic : PluginManagerEvent) (e : Thrown)
    : string :=
  "Error in event handler for " ++ topicName topic ++ ": " ++ errorText e.

(** The body of [emit]'s loop: [try { handler(data) } catch (e) { ... }]. *)
Definition notify (topic : PluginManagerEvent) (d : EventData)
    (l : Listener) : M unit :=
  tryCatch (callListener topic d l)
           (fun e => record (ConsoleError (handlerErrorLine topic e))).

Definition emit (topic : PluginManagerEvent) (d : EventData) : M unit :=
  record (Emitted topic d) ;;;
  m <- getMgr ;;
  match mapGet topicEqb topic (listeners m) with
  | Some handlers => forEach handlers (notify topic d)
  | None => ret tt
  end.

(** [on(event, handler)]; the unsubscribe closure it returns is [off]. *)
Definition on (topic : PluginManagerEvent) (l : Listener) : M unit :=
  modifyMgr (fun m =>
    let current :=
      match mapGet topicEqb topic (listeners m) with
      | Some ls => ls
      | None => []
      end in
    let added :=
      if existsb (fun l' => Nat.eqb (listenerId l) (listenerId l')) current
      then current else (current ++ [l])%list in
    {| plugins := plugins m; enabledPlugins := enabledPlugins m;
       pluginConfigs := pluginConfigs m;
       listeners := mapSet topicEqb topic added (listeners m) |}).

Definition off (topic : PluginManagerEvent) (l : nat) : M unit :=
  modifyMgr (fun m =>
    match mapGet topicEqb topic (listeners m) with
    | Some ls =>
        {| plugins := plugins m; enabledPlugins := enabledPlugins m;
           pluginConfigs := pluginConfigs m;
           listeners :=
             mapSet topicEqb topic
               (filter (fun l' => negb (Nat.eqb l (listenerId l'))) ls)
               (listeners m) |}
    | None => m
    end).

Definition register (plugin : VdomPlugin) : M unit :=
  m <- getMgr ;;
  if mapHas String.eqb (name plugin) (plugins m)
  then throw (ThrownError ("Plugin " ++ quote ++ name plugin ++ quote
                           ++ " is already registered"))
  else
    modifyMgr (fun m =>
      {| plugins := mapSet String.eqb (name plugin) plugin (plugins m);
         enabledPlugins :=
           match defaultEnabled plugin with
           | Some true => setAdd (name plugin) (enabledPlugins m)
           | _ => enabledPlugins m
           end;
         pluginConfigs :=
           match configSchema plugin with
           | Some schema =>
               mapSet String.eqb (name plugin)
                 (fold_left (fun defaultConfig kf =>
                               mapSet String.eqb (fst kf) (default (snd kf))
                                      defaultConfig)
                            schema [])
                 (pluginConfigs m)
           | None => pluginConfigs m
           end;
         listeners := listeners m |}) ;;;
    emit plugin_registered (DName (name plugin)).

(** The names of the plugins [getPlugins()] returns. *)
Definition registeredNames (m : Manager) : list string :=
  map name (mapValues (plugins m)).

(** [plugin.cleanup()]: the call is a statement of its own, its value is
    dropped; a promise it returns is awaited by nothing. *)
Definition callCleanup (n : string) (c : CleanupRun) : M unit :=
  m <- getMgr ;;
  record (CleanupCalled n (registeredNames m)) ;;;
  match c with
  | CleanupVoid => ret tt
  | CleanupThrows e => throw e
  | CleanupAsync => float n
  end.

Definition unregister (n : string) : M unit :=
  m <- getMgr ;;
  match mapGet String.eqb n (plugins m) with
  | Some plugin =>
      match cleanup plugin with
      | Some c => callCleanup n c
      | None => ret tt
      end
  | None => ret tt
  end ;;;
  modifyMgr (fun m =>
    {| plugins := mapDelete String.eqb n (plugins m);
       enabledPlugins := setDelete n (enabledPlugins m);
       pluginConfigs := mapDelete String.eqb n (pluginConfigs m);
       listeners := listeners m |}) ;;;
  emit plugin_unregistered (DName n).

Definition enable (n : string) : M unit :=
  m <- getMgr ;;
  if negb (mapHas String.eqb n (plugins m))
  then throw (ThrownError ("Plugin " ++ quote ++ n ++ quote
                           ++ " is not registered"))
  else
    modifyMgr (fun m =>
      {| plugins := plugins m;
         enabledPlugins := setAdd n (enabledPlugins m);
         pluginConfigs := pluginConfigs m;
         listeners := listeners m |}) ;;;
    emit plugin_enabled (DName n).

Definition disable (n : string) : M unit :=
  modifyMgr (fun m =>
    {| plugins := plugins m;
       enabledPlugins := setDelete n (enabledPlugins m);
       pluginConfigs := pluginConfigs m;
       listeners := listeners m |}) ;;;
  emit plugin_disabled (DName n).

Definition isEnabled (n : string) : M bool :=
  m <- getMgr ;; ret (setHas n (enabledPlugins m)).

(** [this.pluginConfigs.get(name) || {}]. *)
Definition configOf (n : string) (m : Manager) : JsRecord :=
  match mapGet String.eqb n (pluginConfigs m) with
  | Some c => c
  | None => []
  end.

Definition getConfig (n : string) : M JsRecord :=
  m <- getMgr ;; ret (configOf n m).

(** [{ ...existing, ...config }]. *)
Definition spread (existing config : JsRecord) : JsRecord :=
  fold_left (fun acc kv => mapSet String.eqb (fst kv) (snd kv) acc)
            config existing.

Definition setConfig (n : string) (c : JsRecord) : M unit :=
  m <- getMgr ;;
  if negb (mapHas String.eqb n (plugins m))
  then throw (ThrownError ("Plugin " ++ quote ++ n ++ quote
                           ++ " is not registered"))
  else
    existing <- getConfig n ;;
    modifyMgr (fun m =>
      {| plugins := plugins m;
         enabledPlugins := enabledPlugins m;
         pluginConfigs :=
           mapSet String.eqb n (spread existing c) (pluginConfigs m);
         listeners := listeners m |}) ;;;
    merged <- getConfig n ;;
    emit plugin_configChanged (DConfigChanged n merged).

Definition getPlugins : M (list VdomPlugin) :=
  m <- getMgr ;; ret (mapValues (plugins m)).

Definition getPlugin (n : string) : M (option VdomPlugin) :=
  m <- getMgr ;; ret (mapGet String.eqb n (plugins m)).

Definition getEnabledPlugins : M (list string) :=
  m <- getMgr ;; ret (enabledPlugins m).

(** [plugin.runsOn.includes(event)]. *)
Definition includes (ev : VdomLifecycleEvent) (l : list VdomLifecycleEvent)
    : bool :=
  existsb (fun ev' => if VdomLifecycleEvent_eq_dec ev ev' then true else false)
          l.

(** The state of [getPluginsForEvent]: the [plugins] array being built and
    the [resolved] set. *)
Definition ResolveState : Type := (list VdomPlugin * list string)%type.

(** The closure [resolve] of [getPluginsForEvent].  Its recursion follows
    the [dependencies] and is not structural: [fuel] bounds its depth, and
    [None] means the bound was exceeded. *)
Fixpoint resolve (fuel : nat) (registry : list (string * VdomPlugin))
    (ev : VdomLifecycleEvent) (n : string) (st : ResolveState)
    : option ResolveState :=
  match fuel with
  | O => None
  | S fuel' =>
      if setHas n (snd st) then Some st
      else
        match mapGet String.eqb n registry with
        | None => Some st
        | Some plugin =>
            let afterDeps :=
              match dependencies plugin with
              | Some deps =>
                  fold_left (fun acc dep =>
                               match acc with
                               | Some st' => resolve fuel' registry ev dep st'
                               | None => None
                               end)
                            deps (Some st)
              | None => Some st
              end in
            match afterDeps with
            | Some (pluginsAcc, resolved) =>
                Some (if includes ev (runsOn plugin)
                      then (pluginsAcc ++ [plugin])%list else pluginsAcc,
                      setAdd n resolved)
            | None => None
            end
        end
  end.

(** [for (const name of this.plugins.keys()) resolve(name)]. *)
Definition resolveAll (fuel : nat) (registry : list (string * VdomPlugin))
    (ev : VdomLifecycleEvent) (names : list string) (st : ResolveState)
    : option ResolveState :=
  fold_left (fun acc n =>
               match acc with
               | Some st' => resolve fuel registry ev n st'
               | None => None
               end)
            names (Some st).

Definition pluginsForEvent (fuel : nat) (m : Manager)
    (ev : VdomLifecycleEvent) : option (list VdomPlugin) :=
  option_map fst
    (resolveAll fuel (plugins m) ev (mapKeys (plugins m)) ([], [])).

Definition getPluginsForEvent (fuel : nat) (ev : VdomLifecycleEvent)
    : M (list VdomPlugin) :=
  m <- getMgr ;;
  match pluginsForEvent fuel m ev with
  | Some pluginsToRun => ret pluginsToRun
  | None => overflow
  end.

(** The manager calls a handler makes while it runs. *)
Definition runOp (owner : string) (op : MgrOp VdomPlugin) : M unit :=
  match op with
  | OpRegister p => register p
  | OpUnregister n => unregister n
  | OpEnable n => enable n
  | OpDisable n => disable n
  | OpSetConfig n c => setConfig n c
  | OpEmit type payload =>
      (* ctx.emit(type, data) *)
      emit lifecycle_emit (DLifecycleEmit owner type payload)
  end.

(** [await plugin.handler(ctx)]. *)
Definition awaitHandler (plugin : VdomPlugin) (ctx : PluginContext)
    : M PluginResult :=
  record (HandlerCalled (name plugin) ctx) ;;;
  forEach (ops (handler plugin ctx)) (runOp (name plugin)) ;;;
  match outcome (handler plugin ctx) with
  | Returns r => ret r
  | Rejects e => throw e
  | NeverSettles => pending
  end.

Definition Results : Type := list (string * PluginResult).

(** The body of the [for (const plugin of pluginsToRun)] loop. *)
Definition dispatchOne (ev : VdomLifecycleEvent) (context : HostContext)
    (plugin : VdomPlugin) (results : Results) : M Results :=
  isOn <- isEnabled (name plugin) ;;
  if negb isOn then ret results
  else
    emit plugin_started (DStarted (name plugin) ev) ;;;
    cfg <- getConfig (name plugin) ;;
    let ctx := {| host := context; event := ev; config := cfg |} in
    tryCatch
      (result <- awaitHandler plugin ctx ;;
       emit plugin_completed (DCompleted (name plugin) result) ;;;
       ret (mapSet String.eqb (name plugin) result results))
      (fun e =>
         let result :=
           {| success := false; data := None;
              error := Some (errorText e) |} in
         emit plugin_error (DError (name plugin) e) ;;;
         ret (mapSet String.eqb (name plugin) result results)).

Fixpoint dispatch (ev : VdomLifecycleEvent) (context : HostContext)
    (pluginsToRun : list VdomPlugin) (results : Results) : M Results :=
  match pluginsToRun with
  | [] => ret results
  | plugin :: rest =>
      results' <- dispatchOne ev context plugin results ;;
      dispatch ev context rest results'
  end.

Definition runEvent (fuel : nat) (ev : VdomLifecycleEvent)
    (context : HostContext) : M Results :=
  pluginsToRun <- getPluginsForEvent fuel ev ;;
  dispatch ev context pluginsToRun [].

(** [clear()]. *)
Definition clear : M unit :=
  m <- getMgr ;;
  forEach (mapValues (plugins m)) (fun plugin =>
    match cleanup plugin with
    | Some c => callCleanup (name plugin) c
    | None => ret tt
    end) ;;;
  modifyMgr (fun _ => emptyManager).

(** [plugin.commands], an absent list read as empty. *)
Definition commandsOf (p : VdomPlugin) : list PluginCommand :=
  match commands p with Some cs => cs | None => [] end.

(** Modelled from the spec: the normalized failure result
    [{success: false, error: text}] of [executeCommand]. *)
Definition commandFailure (text : string) : CommandResult :=
  {| cmdSuccess := false; content := None; cmdError := Some text |}.

(** Modelled from the spec: the awaited call of the command handler inside
    [executeCommand]. *)
Definition awaitCommandHandler (pluginName : string) (cmd : PluginCommand)
    (ctx : CommandContext) : M CommandResult :=
  record (CommandHandlerCalled pluginName (commandId cmd)) ;;;
  match commandHandler cmd ctx with
  | Returns r => ret r
  | Rejects e => throw e
  | NeverSettles => pending
  end.

(** Modelled from the spec: [executeCommand], which [IPluginManager]
    declares and the command tests call but whose body is not in
    [runtime.ts].  Per the spec it fails with a not-found error if the plugin
    is unregistered or does not own a command with that id, fails with a
    not-enabled error if the plugin is currently disabled, and otherwise
    publishes [command:started], invokes the command handler with the
    entity context and the plugin's current configuration, and publishes
    [command:completed], or [command:error] with a normalized failure
    result when the handler throws.  The wording of the error texts is
    not in the spec beyond "not found" and "not enabled". *)
Definition executeCommand (pluginName cmdId : string)
    (context : EntityContext) : M CommandResult :=
  m <- getMgr ;;
  match mapGet String.eqb pluginName (plugins m) with
  | None =>
      ret (commandFailure ("Plugin " ++ quote ++ pluginName ++ quote
                           ++ " not found"))
  | Some plugin =>
      match find (fun c => String.eqb (commandId c) cmdId)
                 (commandsOf plugin)
      with
      | None =>
          ret (commandFailure ("Command " ++ quote ++ cmdId ++ quote
                               ++ " not found"))
      | Some cmd =>
          isOn <- isEnabled pluginName ;;
          if negb isOn
          then ret (commandFailure ("Plugin " ++ quote ++ pluginName ++ quote
                                    ++ " is not enabled"))
          else
            emit command_started
              (DCommandStarted pluginName cmdId (nodeId (entity context))) ;;;
            cfg <- getConfig pluginName ;;
            tryCatch
              (result <- awaitCommandHandler pluginName cmd
                           {| target := context; cmdConfig := cfg |} ;;
               emit command_completed
                 (DCommandCompleted pluginName cmdId result) ;;;
               ret result)
              (fun e =>
                 emit command_error (DCommandError pluginName cmdId e) ;;;
                 ret (commandFailure (errorText e)))
      end
  end.

(** *** Vocabulary for the properties *)

(** What a projection [f] of log entries shows of the log. *)
Definition view {X : Type} (f : LogEntry -> list X) (w : World) : list X :=
  flat_map f (log w).

(** The computation adds nothing that [f] shows. *)
Definition silent {X A : Type} (f : LogEntry -> list X) (c : M A) : Prop :=
  forall w, view f (snd (c w)) = view f w.

(** The computation returns or throws; it neither waits for ever nor
    exceeds the recursion bound. *)
Definition settles {A : Type} (c : M A) : Prop :=
  forall w, match fst (c w) with Ok _ | Throw _ => True | _ => False end.

(** The computation returns or waits for ever; no exception leaves it. *)
Definition contained {A : Type} (c : M A) : Prop :=
  forall w, match fst (c w) with Ok _ | Pending => True | _ => False end.

(** The manager and the floating promises are left as they were. *)
Definition sameState (w w' : World) : Prop :=
  mgr w' = mgr w /\ floating w' = floating w.

(** Topics that only the dispatch loop of [runEvent] publishes. *)
Definition dispatchTopic (t : PluginManagerEvent) : bool :=
  match t with
  | plugin_started | plugin_completed | plugin_error => true
  | _ => false
  end.

(** A projection that shows nothing of what the registry methods and the
    bus write. *)
Definition offOps {X : Type} (f : LogEntry -> list X) : Prop :=
  (forall l t d, f (ListenerCalled l t d) = [])
  /\ (forall s, f (ConsoleError s) = [])
  /\ (forall n r, f (CleanupCalled n r) = [])
  /\ (forall t d, dispatchTopic t = false -> f (Emitted t d) = []).

(** The functions subscribed to [topic], in subscription order. *)
Definition listenersFor (topic : PluginManagerEvent) (m : Manager)
    : list Listener :=
  match mapGet topicEqb topic (listeners m) with
  | Some ls => ls
  | None => []
  end.

(** Projections of the log. *)

Definition listenerCall (e : LogEntry)
    : list (nat * PluginManagerEvent * EventData) :=
  match e with ListenerCalled l t d => [(l, t, d)] | _ => [] end.

Definition consoleErrors (e : LogEntry) : list string :=
  match e with ConsoleError s => [s] | _ => [] end.

(** [plugin:error] events published for plugin [n]. *)
Definition errorsFor (n : string) (e : LogEntry) : list Thrown :=
  match e with
  | Emitted plugin_error (DError n' err) =>
      if String.eqb n n' then [err] else []
  | _ => []
  end.

(** Names of the plugins whose handler was invoked. *)
Definition handlerCalls (e : LogEntry) : list string :=
  match e with HandlerCalled n _ => [n] | _ => [] end.

Definition cleanupCalls (e : LogEntry) : list (string * list string) :=
  match e with CleanupCalled n r => [(n, r)] | _ => [] end.

Definition commandCalls (e : LogEntry) : list (string * string) :=
  match e with CommandHandlerCalled p c => [(p, c)] | _ => [] end.

(** The context [runEvent] builds for plugin [p] in manager [m]. *)
Definition contextFor (ev : VdomLifecycleEvent) (context : HostContext)
    (p : VdomPlugin) (m : Manager) : PluginContext :=
  {| host := context; event := ev; config := configOf (name p) m |}.

(** The failure result [runEvent] synthesizes in its [catch]. *)
Definition failure (e : Thrown) : PluginResult :=
  {| success := false; data := None; error := Some (errorText e) |}.

(** The world in which the handler of [p] starts to run when its turn
    comes in world [w]: [plugin:started] has been published. *)
Definition started (ev : VdomLifecycleEvent) (p : VdomPlugin) (w : World)
    : World :=
  snd (emit plugin_started (DStarted (name p) ev) w).

(** The manager without plugin [n]: what the three [delete]s of
    [unregister] leave. *)
Definition without (n : string) (m : Manager) : Manager :=
  {| plugins := mapDelete String.eqb n (plugins m);
     enabledPlugins := setDelete n (enabledPlugins m);
     pluginConfigs := mapDelete String.eqb n (pluginConfigs m);
     listeners := listeners m |}.

(** Every plugin is stored under its own name, as [register] does. *)
Definition wfRegistry (registry : list (string * VdomPlugin)) : Prop :=
  forall k p, In (k, p) registry -> name p = k.

(** Plugin [a] is registered and declares [b] among its dependencies. *)
Definition dependsOn (registry : list (string * VdomPlugin)) (a b : string)
    : Prop :=
  exists p deps,
    mapGet String.eqb a registry = Some p
    /\ dependencies p = Some deps /\ In b deps.

(** A non-empty set of names in which every name depends on a name of the
    set: it contains a dependency cycle. *)
Definition cyclic (registry : list (string * VdomPlugin)) (C : list string)
    : Prop :=
  C <> [] /\ forall c, In c C -> exists c', In c' C /\ dependsOn registry c c'.

(** No name of [S] is marked resolved. *)
Definition unresolved (S : list string) (st : ResolveState) : Prop :=
  forall s, In s S -> setHas s (snd st) = false.

(** [S] holds the names whose [resolve] call is in progress while [n] is
    being resolved: each of them depends on another one or on [n]. *)
Definition chain (registry : list (string * VdomPlugin)) (S : list string)
    (n : string) : Prop :=
  forall s, In s S ->
    exists d, dependsOn registry s d /\ (In d S \/ d = n).

(** The array built so far holds registered plugins, once each, all of
    them marked resolved. *)
Definition accInv (registry : list (string * VdomPlugin)) (st : ResolveState)
    : Prop :=
  NoDup (map name (fst st))
  /\ forall a, In a (fst st) ->
       setHas (name a) (snd st) = true
       /\ mapGet String.eqb (name a) registry = Some a.

(** The resolved set only grows. *)
Definition grows (st st' : ResolveState) : Prop :=
  forall s, setHas s (snd st) = true -> setHas s (snd st') = true.

(** [l] is [l'] with some elements left out. *)
Inductive Subseq {A : Type} : list A -> list A -> Prop :=
| Subseq_nil : Subseq [] []
| Subseq_skip (a : A) (l l' : list A) : Subseq l l' -> Subseq l (a :: l')
| Subseq_take (a : A) (l l' : list A) :
    Subseq l l' -> Subseq (a :: l) (a :: l').

(** What the start of a dispatch determines: the names of the plugins of
    the run list that are enabled then. *)
Definition enabledAtStart (fuel : nat) (m : Manager)
    (ev : VdomLifecycleEvent) : option (list string) :=
  option_map
    (fun l => map name (filter (fun p => setHas (name p) (enabledPlugins m)) l))
    (pluginsForEvent fuel m ev).

(** [text.includes(part)]. *)
Definition contains (part text : string) : Prop :=
  exists before after, text = before ++ part ++ after.

(** *** Managers used as scenarios *)

Definition okResult : PluginResult :=
  {| success := true; data := None; error := None |}.

Definition quietHandler : PluginContext -> HandlerRun VdomPlugin :=
  fun _ => mkHandlerRun [] (Returns okResult).

(** A plugin that runs on [ready], enabled by default. *)
Definition plainPlugin (n : string) (deps : option (list string))
    (h : PluginContext -> HandlerRun VdomPlugin) : VdomPlugin :=
  {| name := n; description := ""; runsOn := [ready]; handler := h;
     commands := None; configSchema := None; defaultEnabled := Some true;
     cleanup := None; dependencies := deps |}.

(** The manager after registering the plugins of [l], all enabled. *)
Definition managerOf (l : list VdomPlugin) : Manager :=
  {| plugins := map (fun p => (name p, p)) l;
     enabledPlugins := map name l;
     pluginConfigs := [];
     listeners := [] |}.

Definition hostContext : HostContext :=
  {| documentId := "doc-1"; hostPageNumber := None |}.

(** [A] depends on [B] and [B] on [A]. *)
Definition cyclePluginA : VdomPlugin :=
  plainPlugin "A" (Some ["B"]) quietHandler.

Definition cyclePluginB : VdomPlugin :=
  plainPlugin "B" (Some ["A"]) quietHandler.

Definition cycleManager : Manager := managerOf [cyclePluginA; cyclePluginB].

(** A plugin whose handler throws [Error('X')], and one after it. *)
Definition throwingPlugin : VdomPlugin :=
  plainPlugin "thrower" None
    (fun _ => mkHandlerRun [] (Rejects (ThrownError "X"))).

Definition laterPlugin : VdomPlugin := plainPlugin "later" None quietHandler.

(** A plugin whose handler disables the plugin after it. *)
Definition firstPlugin : VdomPlugin :=
  plainPlugin "first" None
    (fun _ => mkHandlerRun [OpDisable "second"] (Returns okResult)).

Definition secondPlugin : VdomPlugin := plainPlugin "second" None quietHandler.

(** A plugin whose handler registers another plugin. *)
Definition spawnedPlugin : VdomPlugin := plainPlugin "spawned" None quietHandler.

Definition spawnerPlugin : VdomPlugin :=
  plainPlugin "spawner" None
    (fun _ => mkHandlerRun [OpRegister spawnedPlugin] (Returns okResult)).

(** A plugin whose [cleanup] is asynchronous. *)
Definition asyncPlugin : VdomPlugin :=
  {| name := "p"; description := ""; runsOn := [ready];
     handler := quietHandler; commands := None; configSchema := None;
     defaultEnabled := Some true; cleanup := Some CleanupAsync;
     dependencies := None |}.

(** A registered, disabled plugin that owns the command [test-cmd]. *)
Definition testCommand : PluginCommand :=
  {| commandId := "test-cmd"; title := "Test Command"; contexts := [ctxAll];
     outputFormat := "markdown"; enabled := None; visible := None;
     commandHandler := fun _ =>
       Returns {| cmdSuccess := true; content := Some "test";
                  cmdError := None |} |}.

Definition commandPlugin : VdomPlugin :=
  {| name := "test-plugin"; description := "Test plugin"; runsOn := [];
     handler := quietHandler; commands := Some [testCommand];
     configSchema := None; defaultEnabled := Some false; cleanup := None;
     dependencies := None |}.

Definition disabledManager : Manager :=
  {| plugins := [("test-plugin", commandPlugin)]; enabledPlugins := [];
     pluginConfigs := []; listeners := [] |}.

Definition testEntity : EntityContext :=
  {| entity := {| nodeId := "node-1"; nodeType := "table";
                  nodeBBox := {| x1 := 0; y1 := 0; x2 := 100; y2 := 100 |};
                  nodePageNumber := 1 |};
     entityBBox := {| x1 := 0; y1 := 0; x2 := 100; y2 := 100 |};
     entityPageNumber := 1;
     entityDocumentId := "doc-1" |}.


(** *** Further vocabulary *)

(** Bus events published, in order. *)
Definition published (e : LogEntry)
    : list (PluginManagerEvent * EventData) :=
  match e with Emitted t d => [(t, d)] | _ => [] end.

(** Names of the plugins for which [plugin:completed] or [plugin:error]
    was published. *)
Definition outcomes (e : LogEntry) : list string :=
  match e with
  | Emitted plugin_completed (DCompleted n _) => [n]
  | Emitted plugin_error (DError n _) => [n]
  | _ => []
  end.

(** The world with manager [m]. *)
Definition setMgr (m : Manager) (w : World) : World :=
  {| mgr := m; log := log w; floating := floating w |}.

(** The manager with plugin [p] added: what [register] stores. *)
Definition withPlugin (p : VdomPlugin) (m : Manager) : Manager :=
  {| plugins := mapSet String.eqb (name p) p (plugins m);
     enabledPlugins :=
       match defaultEnabled p with
       | Some true => setAdd (name p) (enabledPlugins m)
       | _ => enabledPlugins m
       end;
     pluginConfigs :=
       match configSchema p with
       | Some schema =>
           mapSet String.eqb (name p)
             (fold_left (fun defaultConfig kf =>
                           mapSet String.eqb (fst kf) (default (snd kf))
                                  defaultConfig)
                        schema [])
             (pluginConfigs m)
       | None => pluginConfigs m
       end;
     listeners := listeners m |}.

(** The manager with the enabled set [s]. *)
Definition withEnabled (s : list string) (m : Manager) : Manager :=
  {| plugins := plugins m; enabledPlugins := s;
     pluginConfigs := pluginConfigs m; listeners := listeners m |}.

(** The manager with configuration [c] stored for [n]. *)
Definition withConfig (n : string) (c : JsRecord) (m : Manager) : Manager :=
  {| plugins := plugins m; enabledPlugins := enabledPlugins m;
     pluginConfigs := mapSet String.eqb n c (pluginConfigs m);
     listeners := listeners m |}.

(** The errors [register], [enable] and [setConfig] throw. *)
Definition alreadyRegistered (n : string) : Thrown :=
  ThrownError ("Plugin " ++ quote ++ n ++ quote ++ " is already registered").

Definition notRegistered (n : string) : Thrown :=
  ThrownError ("Plugin " ++ quote ++ n ++ quote ++ " is not registered").

(** Every key of the schema with its default, in schema order. *)
Definition defaultsOf (schema : PluginConfigSchema) : JsRecord :=
  map (fun kf => (fst kf, default (snd kf))) schema.

(** The maps of the manager are in step: every plugin is stored under its
    name, no key occurs twice, and only registered plugins are enabled or
    configured. *)
Definition consistent (m : Manager) : Prop :=
  wfRegistry (plugins m)
  /\ NoDup (mapKeys (plugins m))
  /\ NoDup (enabledPlugins m)
  /\ NoDup (mapKeys (pluginConfigs m))
  /\ (forall n, In n (enabledPlugins m) -> In n (mapKeys (plugins m)))
  /\ (forall n, In n (mapKeys (pluginConfigs m)) ->
                In n (mapKeys (plugins m))).

(** The plugin declares a [cleanup]. *)
Definition hasCleanup (p : VdomPlugin) : bool :=
  match cleanup p with Some _ => true | None => false end.

(** The plugin declares a [cleanup] that returns a promise. *)
Definition hasAsyncCleanup (p : VdomPlugin) : bool :=
  match cleanup p with Some CleanupAsync => true | _ => false end.

(** Plugin [p] runs on event [ev]. *)
Definition runsOnEvent (ev : VdomLifecycleEvent) (p : VdomPlugin) : bool :=
  includes ev (runsOn p).

(** In [acc], every plugin comes after the plugins it depends on, as far
    as these are registered and run on [ev]. *)
Definition depsFirst (registry : list (string * VdomPlugin))
    (ev : VdomLifecycleEvent) (acc : list VdomPlugin) : Prop :=
  forall l1 p l2 deps d q,
    acc = (l1 ++ p :: l2)%list ->
    dependencies p = Some deps -> In d deps ->
    mapGet String.eqb d registry = Some q -> runsOnEvent ev q = true ->
    In q l1.

(** What [getPluginsForEvent] maintains while it resolves names: the
    array is ordered, it holds every plugin that is marked resolved and
    runs on [ev], and it holds nothing else. *)
Definition orderInv (registry : list (string * VdomPlugin))
    (ev : VdomLifecycleEvent) (st : ResolveState) : Prop :=
  depsFirst registry ev (fst st)
  /\ (forall s q, setHas s (snd st) = true ->
                  mapGet String.eqb s registry = Some q ->
                  runsOnEvent ev q = true -> In q (fst st))
  /\ (forall a, In a (fst st) ->
                runsOnEvent ev a = true
                /\ exists n, mapGet String.eqb n registry = Some a).

(** *** Further scenarios *)

(** A plugin whose handler returns a promise that never settles. *)
Definition stalledPlugin : VdomPlugin :=
  plainPlugin "stalled" None (fun _ => mkHandlerRun [] NeverSettles).

(** A plugin whose [cleanup] throws [Error('boom')]. *)
Definition failingCleanupPlugin : VdomPlugin :=
  {| name := "failing"; description := ""; runsOn := [ready];
     handler := quietHandler; commands := None; configSchema := None;
     defaultEnabled := Some true;
     cleanup := Some (CleanupThrows (ThrownError "boom"));
     dependencies := None |}.

(** [A] depends on [B]; [B] depends on nothing. *)
Definition dependentPlugin : VdomPlugin :=
  plainPlugin "A" (Some ["B"]) quietHandler.

Definition independentPlugin : VdomPlugin :=
  plainPlugin "B" None quietHandler.

(** A listener that returns. *)
Definition quietListener (i : nat) : Listener :=
  {| listenerId := i; listenerRun := fun _ => None |}.

End Runtime.

(** ** Listeners that call back into the manager (src/runtime.ts)

    A function subscribed with [on] closes over the manager and may call
    it while [emit] runs, and [emit] iterates the [Set] of the event while
    such calls change it.  This model has both: a listener is the calls it
    makes on the manager; a [Set] is an object with an identity, which
    [emit] holds on to while [clear()] empties the [Map] of the events; and
    a [Set] keeps a deleted entry as an empty slot, as the iteration of a
    [Set] sees it. *)

Module Reentrant.
Import Runtime.
Local Open Scope string_scope.

(** A call a listener makes on the manager it closes over: [on], the
    closure [on] returned, [emit], [clear] and the synchronous methods
    that write the registry.  [CallOn] subscribes the function [listener],
    whose runs are [run].  The getters, which change nothing, are left
    out, as are [setReadyState], whose state is not modelled, and the
    asynchronous [runEvent]. *)
#[local] Unset Elimination Schemes.
Inductive Call : Type :=
| CallOn (topic : PluginManagerEvent) (listener : nat)
    (run : EventData -> list Call * option Thrown)
| CallOff (topic : PluginManagerEvent) (listener : nat)
| CallRegister (plugin : VdomPlugin)
| CallUnregister (n : string)
| CallEnable (n : string)
| CallDisable (n : string)
| CallSetConfig (n : string) (c : JsRecord)
| CallEmit (topic : PluginManagerEvent) (d : EventData)
| CallClear.
#[local] Set Elimination Schemes.

(** A subscribed function, identified by [subscriberId] as a [Set] of
    functions compares them.  One run is the calls it makes on the
    manager, in order, and the exception it throws at the end, if any; a
    call that throws ends the run with what it throws, the function
    catching nothing itself. *)
Record Subscriber : Type := mkSubscriber {
  subscriberId : nat;
  subscriberRun : EventData -> list Call * option Thrown
}.

(** The state: the [World] of the manager; the [Set] objects created so
    far, a [Set] being identified by its index in [sets]; and
    [this.listeners], the [Map] from an event to its [Set].  A [Set] of
    functions is the list of its entries in insertion order, a deleted
    entry staying as an empty slot ([None]); [add] appends.  The
    [listeners] of the manager in [world] are not used by this model. *)
Record State : Type := mkState {
  world : World;
  sets : list (list (option Subscriber));
  listenerSets : list (PluginManagerEvent * nat)
}.

Definition L (A : Type) : Type := State -> Res A * State.

Definition lret {A} (a : A) : L A := fun s => (Ok a, s).

Definition lbind {A B} (c : L A) (k : A -> L B) : L B :=
  fun s =>
    match c s with
    | (Ok a, s') => k a s'
    | (Throw e, s') => (Throw e, s')
    | (Pending, s') => (Pending, s')
    | (Overflow, s') => (Overflow, s')
    end.

Declare Scope live_scope.
Delimit Scope live_scope with live.
Notation "x <- c ;; k" := (lbind c (fun x => k))
  (at level 61, c at next level, right associativity) : live_scope.
Notation "c ;;; k" := (lbind c (fun _ => k))
  (at level 61, right associativity) : live_scope.
Local Open Scope live_scope.

(** [try { c } catch (e) { h e }]. *)
Definition ltry {A} (c : L A) (h : Thrown -> L A) : L A :=
  fun s =>
    match c s with
    | (Throw e, s') => h e s'
    | r => r
    end.

(** The state with [w] for its world. *)
Definition withWorld (w : World) (s : State) : State :=
  {| world := w; sets := sets s; listenerSets := listenerSets s |}.

(** A computation on the [World] of the manager. *)
Definition lift {A} (c : M A) : L A :=
  fun s => let '(r, w) := c (world s) in (r, withWorld w s).

(** [this.listeners.get(event)]: the [Set] of the event, if it has one. *)
Definition setOf (topic : PluginManagerEvent) (s : State) : option nat :=
  mapGet topicEqb topic (listenerSets s).

(** The entries of the [Set] [h]. *)
Definition slots (h : nat) (s : State) : list (option Subscriber) :=
  nth h (sets s) [].

(** The entry holds the function [l]. *)
Definition holds (l : nat) (entry : option Subscriber) : bool :=
  match entry with
  | Some l' => Nat.eqb l (subscriberId l')
  | None => false
  end.

Fixpoint updateAt {A} (i : nat) (f : A -> A) (l : list A) : list A :=
  match l, i with
  | [], _ => []
  | a :: l', O => f a :: l'
  | a :: l', S i' => a :: updateAt i' f l'
  end.

(** [this.listeners.set(event, new Set())]. *)
Definition newSet (topic : PluginManagerEvent) : L nat :=
  fun s =>
    (Ok (length (sets s)),
     {| world := world s;
        sets := (sets s ++ [[]])%list;
        listenerSets :=
          mapSet topicEqb topic (length (sets s)) (listenerSets s) |}).

(** [set.add(handler)] on the [Set] [h]. *)
Definition setAddTo (h : nat) (l : Subscriber) : L unit :=
  fun s =>
    (Ok tt,
     {| world := world s;
        sets := updateAt h (fun entries =>
                  if existsb (holds (subscriberId l)) entries
                  then entries else (entries ++ [Some l])%list) (sets s);
        listenerSets := listenerSets s |}).

(** [set.delete(handler)] on the [Set] [h]. *)
Definition setDeleteFrom (h : nat) (l : nat) : L unit :=
  fun s =>
    (Ok tt,
     {| world := world s;
        sets := updateAt h
                  (map (fun entry => if holds l entry then None else entry))
                  (sets s);
        listenerSets := listenerSets s |}).

(** [on(event, handler)]; the unsubscribe closure it returns is [off]. *)
Definition on (topic : PluginManagerEvent) (l : Subscriber) : L unit :=
  fun s =>
    match setOf topic s with
    | Some h => setAddTo h l s
    | None => (h <- newSet topic ;; setAddTo h l) s
    end.

Definition off (topic : PluginManagerEvent) (l : nat) : L unit :=
  fun s =>
    match setOf topic s with
    | Some h => setDeleteFrom h l s
    | None => (Ok tt, s)
    end.

(** [clear()]: the [cleanup] calls and the registry as in [Runtime.clear];
    [this.listeners.clear()] empties the [Map], the [Set] objects stay as
    they are. *)
Definition clear : L unit :=
  lift Runtime.clear ;;;
  fun s => (Ok tt, {| world := world s; sets := sets s; listenerSets := [] |}).

Section Methods.
(** [this.emit], defined below. *)
Variable emit : PluginManagerEvent -> EventData -> L unit.

Definition register (plugin : VdomPlugin) : L unit :=
  m <- lift getMgr ;;
  if mapHas String.eqb (name plugin) (plugins m)
  then lift (throw (ThrownError ("Plugin " ++ quote ++ name plugin ++ quote
                                 ++ " is already registered")))
  else
    lift (modifyMgr (fun m =>
      {| plugins := mapSet String.eqb (name plugin) plugin (plugins m);
         enabledPlugins :=
           match defaultEnabled plugin with
           | Some true => setAdd (name plugin) (enabledPlugins m)
           | _ => enabledPlugins m
           end;
         pluginConfigs :=
           match configSchema plugin with
           | Some schema =>
               mapSet String.eqb (name plugin)
                 (fold_left (fun defaultConfig kf =>
                               mapSet String.eqb (fst kf) (default (snd kf))
                                      defaultConfig)
                            schema [])
                 (pluginConfigs m)
           | None => pluginConfigs m
           end;
         listeners := listeners m |})) ;;;
    emit plugin_registered (DName (name plugin)).

Definition unregister (n : string) : L unit :=
  m <- lift getMgr ;;
  match mapGet String.eqb n (plugins m) with
  | Some plugin =>
      match cleanup plugin with
      | Some c => lift (callCleanup n c)
      | None => lret tt
      end
  | None => lret tt
  end ;;;
  lift (modifyMgr (fun m =>
    {| plugins := mapDelete String.eqb n (plugins m);
       enabledPlugins := setDelete n (enabledPlugins m);
       pluginConfigs := mapDelete String.eqb n (pluginConfigs m);
       listeners := listeners m |})) ;;;
  emit plugin_unregistered (DName n).

Definition enable (n : string) : L unit :=
  m <- lift getMgr ;;
  if negb (mapHas String.eqb n (plugins m))
  then lift (throw (ThrownError ("Plugin " ++ quote ++ n ++ quote
                                 ++ " is not registered")))
  else
    lift (modifyMgr (fun m =>
      {| plugins := plugins m;
         enabledPlugins := setAdd n (enabledPlugins m);
         pluginConfigs := pluginConfigs m;
         listeners := listeners m |})) ;;;
    emit plugin_enabled (DName n).

Definition disable (n : string) : L unit :=
  lift (modifyMgr (fun m =>
    {| plugins := plugins m;
       enabledPlugins := setDelete n (enabledPlugins m);
       pluginConfigs := pluginConfigs m;
       listeners := listeners m |})) ;;;
  emit plugin_disabled (DName n).

Definition setConfig (n : string) (c : JsRecord) : L unit :=
  m <- lift getMgr ;;
  if negb (mapHas String.eqb n (plugins m))
  then lift (throw (ThrownError ("Plugin " ++ quote ++ n ++ quote
                                 ++ " is not registered")))
  else
    existing <- lift (getConfig n) ;;
    lift (modifyMgr (fun m =>
      {| plugins := plugins m;
         enabledPlugins := enabledPlugins m;
         pluginConfigs :=
           mapSet String.eqb n (spread existing c) (pluginConfigs m);
         listeners := listeners m |})) ;;;
    merged <- lift (getConfig n) ;;
    emit plugin_configChanged (DConfigChanged n merged).

(** One call of a listener on the manager. *)
Definition runCall (c : Call) : L unit :=
  match c with
  | CallOn topic l run =>
      on topic {| subscriberId := l; subscriberRun := run |}
  | CallOff topic l => off topic l
  | CallRegister p => register p
  | CallUnregister n => unregister n
  | CallEnable n => enable n
  | CallDisable n => disable n
  | CallSetConfig n c => setConfig n c
  | CallEmit topic d => emit topic d
  | CallClear => clear
  end.

Fixpoint runCalls (cs : list Call) : L unit :=
  match cs with
  | [] => lret tt
  | c :: cs' => runCall c ;;; runCalls cs'
  end.

(** [handler(data)]. *)
Definition invoke (topic : PluginManagerEvent) (d : EventData)
    (l : Subscriber) : L unit :=
  lift (record (ListenerCalled (subscriberId l) topic d)) ;;;
  runCalls (fst (subscriberRun l d)) ;;;
  match snd (subscriberRun l d) with
  | None => lret tt
  | Some e => lift (throw e)
  end.

(** The body of [emit]'s loop: [try { handler(data) } catch (e) { ... }]. *)
Definition notify (topic : PluginManagerEvent) (d : EventData)
    (l : Subscriber) : L unit :=
  ltry (invoke topic d l)
       (fun e => lift (record (ConsoleError (handlerErrorLine topic e)))).

End Methods.

(** [for (const handler of handlers)] over the [Set] [h], from the entry
    of index [i] on: the [Set] is read anew at every step, so that an
    entry deleted before its turn is passed over and an entry added during
    the loop is reached.  [fuel] bounds the steps of the loop and the depth
    of the calls of [emit] from within listeners. *)
Fixpoint emitFrom (fuel : nat) (h : nat) (topic : PluginManagerEvent)
    (d : EventData) (i : nat) (s : State) {struct fuel} : Res unit * State :=
  match fuel with
  | O => (Overflow, s)
  | S fuel' =>
      match nth_error (slots h s) i with
      | None => (Ok tt, s)
      | Some None => emitFrom fuel' h topic d (S i) s
      | Some (Some l) =>
          (notify (fun topic' d' =>
                     lift (record (Emitted topic' d')) ;;;
                     fun s' =>
                       match setOf topic' s' with
                       | Some h' => emitFrom fuel' h' topic' d' 0 s'
                       | None => (Ok tt, s')
                       end)
                  topic d l ;;;
           emitFrom fuel' h topic d (S i)) s
      end
  end.

(** [emit(event, data)]: [handlers] is the [Set] the event has when [emit]
    is called. *)
Definition emit (fuel : nat) (topic : PluginManagerEvent) (d : EventData)
    : L unit :=
  lift (record (Emitted topic d)) ;;;
  fun s =>
    match setOf topic s with
    | Some h => emitFrom fuel h topic d 0 s
    | None => (Ok tt, s)
    end.

(** *** Vocabulary for the properties *)

(** The functions a [Set] holds, in insertion order. *)
Definition members (entries : list (option Subscriber)) : list Subscriber :=
  flat_map (fun entry => match entry with Some l => [l] | None => [] end)
           entries.

(** The entries of the [Set] of the event, none when it has no [Set]. *)
Definition entriesFor (topic : PluginManagerEvent) (s : State)
    : list (option Subscriber) :=
  match setOf topic s with
  | Some h => slots h s
  | None => []
  end.

(** The functions subscribed to the event, in subscription order. *)
Definition subscribed (topic : PluginManagerEvent) (s : State)
    : list Subscriber :=
  members (entriesFor topic s).

(** The functions subscribed to the event call nothing on the manager. *)
Definition quietFor (topic : PluginManagerEvent) (s : State) : Prop :=
  forall l d, In l (subscribed topic s) -> fst (subscriberRun l d) = [].

(** What the turn of a function that calls nothing on the manager adds
    to the log. *)
Definition turn (topic : PluginManagerEvent) (d : EventData)
    (l : Subscriber) : list LogEntry :=
  ListenerCalled (subscriberId l) topic d
  :: match snd (subscriberRun l d) with
     | Some e => [ConsoleError (handlerErrorLine topic e)]
     | None => []
     end.

(** The world with [entries] added to its log. *)
Definition logged (entries : list LogEntry) (w : World) : World :=
  {| mgr := mgr w; log := (log w ++ entries)%list; floating := floating w |}.

(** Every entry is kept or has become an empty slot; entries may have
    been added. *)
Definition evolved (before after : list (option Subscriber)) : Prop :=
  forall j entry,
    nth_error before j = Some entry ->
    nth_error after j = Some entry \/ nth_error after j = Some None.

(** From [s] to [s'] the log has grown and every [Set] has evolved. *)
Definition later (s s' : State) : Prop :=
  (exists added, log (world s') = (log (world s) ++ added)%list)
  /\ forall h, evolved (slots h s) (slots h s').

(** Whatever the state it starts in, the computation ends in a later one. *)
Definition keeps {A} (c : L A) : Prop := forall s, later s (snd (c s)).

(** [c'] does what [c] does wherever [c] stays within the bound on the
    steps. *)
Definition extends {A} (c c' : L A) : Prop :=
  forall s r s', c s = (r, s') -> r <> Overflow -> c' s = (r, s').

(** A computation on the world that only adds to the log. *)
Definition growsLog {A} (c : M A) : Prop :=
  forall w, exists added, log (snd (c w)) = (log w ++ added)%list.

(** The manager [m] after the given calls of [on], with an empty log. *)
Definition subscribedTo (m : Manager)
    (subs : list (PluginManagerEvent * Subscriber)) : State :=
  fold_left (fun s sub => snd (on (fst sub) (snd sub) s)) subs
            {| world := initWorld m; sets := []; listenerSets := [] |}.

(** *** Listeners used as scenarios *)

(** A function that returns. *)
Definition silentSubscriber (l : nat) : Subscriber :=
  {| subscriberId := l; subscriberRun := fun _ => ([], None) |}.

(** A function that throws [Error('boom')]. *)
Definition throwingSubscriber (l : nat) : Subscriber :=
  {| subscriberId := l;
     subscriberRun := fun _ => ([], Some (ThrownError "boom")) |}.

(** A function that unsubscribes the function [other] from [topic]. *)
Definition unsubscriber (l : nat) (topic : PluginManagerEvent) (other : nat)
    : Subscriber :=
  {| subscriberId := l;
     subscriberRun := fun _ => ([CallOff topic other], None) |}.

(** A function that subscribes a silent function [other] to [topic]. *)
Definition subscriber (l : nat) (topic : PluginManagerEvent) (other : nat)
    : Subscriber :=
  {| subscriberId := l;
     subscriberRun := fun _ => ([CallOn topic other (fun _ => ([], None))],
                                None) |}.

(** A function that calls [clear()] and then subscribes a silent function
    [other] to [topic]. *)
Definition clearer (l : nat) (topic : PluginManagerEvent) (other : nat)
    : Subscriber :=
  {| subscriberId := l;
     subscriberRun :=
       fun _ => ([CallClear; CallOn topic other (fun _ => ([], None))],
                 None) |}.

(** [emit] of [plugin:enabled] to the given subscribers: how it ends, and
    the functions invoked, in order. *)
Definition invokedBy (subs : list Subscriber) : Res unit * list nat :=
  let r := emit 16 plugin_enabled (DName "p")
             (subscribedTo emptyManager
                (map (fun l => (plugin_enabled, l)) subs)) in
  (fst r, map (fun c => fst (fst c)) (view listenerCall (world (snd r)))).

End Reentrant.

(** ** The handler of the table detector
       (src/plugins/coord-table-detector/index.ts) *)

Module TableDetectorHandler.
Import TableDetector.
Local Open Scope string_scope.

(** [block.textContent]: a string, a promise of one, or absent. *)
Inductive TextContent : Type :=
| TextString (s : string)
| TextPromise
| TextAbsent.

(** A node as [ctx.$(selector).toArray()] yields it, with the fields the
    handlers read.  [VdomNode] types [bbox] as always present; the
    handlers test [!block.bbox] all the same, so it is an option here. *)
Record OcrNode : Type := mkOcrNode {
  ocrId : string;                       (* id *)
  ocrBBox : option BBox;                (* bbox *)
  ocrPageNumber : nat;                  (* pageNumber *)
  ocrTextContent : TextContent;         (* textContent *)
  ocrOwnText : option string            (* _textContent *)
}.

(** The [clusterBlock] built for a block with a bounding box. *)
Definition toClusterBlock (block : OcrNode) (bb : BBox) : ClusterBlock :=
  let center := getBBoxCenter bb in
  {| id := ocrId block;
     bbox := bb;
     xCenter := fst center;
     yCenter := snd center;
     text := match ocrTextContent block with
             | TextString s => Some s
             | _ => ocrOwnText block
             end |}.

(** The loop that fills [blocksByPage], a [Map] from page number to the
    blocks of the page: blocks without a bounding box are skipped. *)
Definition groupByPage (ocrBlocks : list OcrNode)
    : list (nat * list ClusterBlock) :=
  fold_left
    (fun blocksByPage block =>
       match ocrBBox block with
       | None => blocksByPage
       | Some bb =>
           let pageBlocks :=
             match Runtime.mapGet Nat.eqb (ocrPageNumber block) blocksByPage
             with
             | Some l => l
             | None => []
             end in
           Runtime.mapSet Nat.eqb (ocrPageNumber block)
             (pageBlocks ++ [toClusterBlock block bb])%list blocksByPage
       end)
    ocrBlocks [].

(** The loop [for (const [pageNumber, blocks] of blocksByPage)];
    [now p] is the reading of [Date.now()] while page [p] is processed. *)
Definition detectAll (config : CoordTableDetectorConfig) (now : nat -> Z)
    (blocksByPage : list (nat * list ClusterBlock)) : list DetectedTable :=
  flat_map (fun pb => detectTablesOnPage (snd pb) (fst pb) config
                        (now (fst pb)))
           blocksByPage.

(** [[...new Set(l)]]: the distinct numbers of [l], in order of first
    occurrence. *)
Definition distinct (l : list nat) : list nat :=
  fold_left (fun s n => setAdd n s) l [].

(** [allTables] as [coordTableDetectorHandler] computes it from the blocks
    found and the configuration it resolved; without a block the handler
    returns early. *)
Definition handlerTables (config : CoordTableDetectorConfig) (now : nat -> Z)
    (ocrBlocks : list OcrNode) : list DetectedTable :=
  match ocrBlocks with
  | [] => []
  | _ => detectAll config now (groupByPage ocrBlocks)
  end.

(** [CoordTableDetectorStats] as the handler reports them, without
    [latencyMs], a difference of two clock readings, and without
    [avgConfidence], a mean of doubles.  The early return for no block
    does not report [pagesWithTables]. *)
Record CoordTableDetectorStats : Type := mkStats {
  totalBlocks : nat;
  tablesDetected : nat;
  pagesWithTables : option (list nat);
  blocksInTables : nat
}.

Definition handlerStats (config : CoordTableDetectorConfig) (now : nat -> Z)
    (ocrBlocks : list OcrNode) : CoordTableDetectorStats :=
  match ocrBlocks with
  | [] =>
      {| totalBlocks := 0; tablesDetected := 0; pagesWithTables := None;
         blocksInTables := 0 |}
  | _ =>
      let allTables := detectAll config now (groupByPage ocrBlocks) in
      {| totalBlocks := length ocrBlocks;
         tablesDetected := length allTables;
         pagesWithTables :=
           Some (sortBy (fun n => inject_Z (Z.of_nat n))
                        (distinct (map pageNumber allTables)));
         blocksInTables :=
           fold_left (fun sum t => (sum + length (blockIds t))%nat)
                     allTables 0%nat |}
  end.

(** *** Vocabulary for the properties *)

(** The cluster blocks of the blocks of [page] that have a bounding box,
    in document order. *)
Definition boxedOn (page : nat) (ocrBlocks : list OcrNode)
    : list ClusterBlock :=
  flat_map (fun block =>
              match ocrBBox block with
              | Some bb => if Nat.eqb page (ocrPageNumber block)
                           then [toClusterBlock block bb] else []
              | None => []
              end) ocrBlocks.

(** The blocks that have a bounding box. *)
Definition boxed (ocrBlocks : list OcrNode) : list OcrNode :=
  filter (fun block =>
            match ocrBBox block with Some _ => true | None => false end)
         ocrBlocks.

(** *** Pages used as scenarios *)

(** A block of width 40 and height 20 centred at [(cx, cy)] on [page]. *)
Definition nodeAt (i : string) (page : nat) (cx cy : Q) : OcrNode :=
  {| ocrId := i;
     ocrBBox := Some {| x1 := cx - 20; y1 := cy - 10;
                        x2 := cx + 20; y2 := cy + 10 |};
     ocrPageNumber := page; ocrTextContent := TextAbsent;
     ocrOwnText := None |}.

(** A node without a bounding box. *)
Definition unboxedNode (i : string) (page : nat) : OcrNode :=
  {| ocrId := i; ocrBBox := None; ocrPageNumber := page;
     ocrTextContent := TextAbsent; ocrOwnText := None |}.

(** The 3 x 2 grid on page 1, one block without a box on page 1 and one
    block on page 2. *)
Definition twoPages : list OcrNode :=
  [ nodeAt "b1" 1 20 10; nodeAt "b2" 1 80 10;
    nodeAt "b3" 1 20 50; nodeAt "b4" 1 80 50;
    unboxedNode "u" 1;
    nodeAt "b5" 1 20 90; nodeAt "b6" 1 80 90;
    nodeAt "c1" 2 20 10 ].

End TableDetectorHandler.

(** ** The orphan detector (src/plugins/orphan-detector/index.ts) *)

Module OrphanDetector.
Import Float64 Utils.
Local Open Scope string_scope.

(** [VdomNode] as the detector reads an OCR block or an entity: [id],
    [bbox], [pageNumber]. *)
Record OcrNode : Type := mkOcrNode {
  ocrId : string;
  ocrBBox : option BBox;
  ocrPageNumber : nat
}.

(** The callback of [semanticEntities.some]: the entity has a bounding
    box and [overlapRatio(block.bbox, entity.bbox) >= coverageThreshold]. *)
Definition covers (coverageThreshold : float) (blockBBox : BBox)
    (entity : OcrNode) : bool :=
  match ocrBBox entity with
  | None => false
  | Some entityBBox =>
      geb (overlapRatio blockBBox entityBBox) coverageThreshold
  end.

(** The callback of [ocrBlocks.filter]. *)
Definition isOrphan (coverageThreshold : float)
    (semanticEntities : list OcrNode) (block : OcrNode) : bool :=
  match ocrBBox block with
  | None => true
  | Some blockBBox =>
      negb (existsb (covers coverageThreshold blockBBox) semanticEntities)
  end.

(** [orphans] as [orphanDetectorHandler] computes them. *)
Definition orphansOf (coverageThreshold : float)
    (ocrBlocks semanticEntities : list OcrNode) : list OcrNode :=
  filter (isOrphan coverageThreshold semanticEntities) ocrBlocks.

Record OrphanDetectorStats : Type := mkOrphanStats {
  totalOcrBlocks : nat;
  coveredBlocks : nat;
  orphanBlocks : nat;
  coverageRatio : Q;
  pagesWithOrphans : list nat
}.

(** [stats] as [orphanDetectorHandler] computes them; the difference
    [ocrBlocks.length - orphans.length] is of two lengths the second of
    which is not the larger.  [coverageRatio] is the exact quotient of the
    two lengths, which the source rounds to the nearest double. *)
Definition orphanStats (coverageThreshold : float)
    (ocrBlocks semanticEntities : list OcrNode) : OrphanDetectorStats :=
  let orphans := orphansOf coverageThreshold ocrBlocks semanticEntities in
  {| totalOcrBlocks := length ocrBlocks;
     coveredBlocks := length ocrBlocks - length orphans;
     orphanBlocks := length orphans;
     coverageRatio :=
       if (0 <? length ocrBlocks)%nat
       then (TableDetector.len ocrBlocks - TableDetector.len orphans)
            / TableDetector.len ocrBlocks
       else 1;
     pagesWithOrphans :=
       TableDetector.sortBy (fun n => inject_Z (Z.of_nat n))
         (TableDetectorHandler.distinct (map ocrPageNumber orphans)) |}.

(** *** Nodes used as scenarios *)

(** A block of width 40 and height 20 centred at [(cx, cy)] on [page]. *)
Definition nodeAt (i : string) (page : nat) (cx cy : Z) : OcrNode :=
  {| ocrId := i;
     ocrBBox := Some (boxOf (cx - 20) (cy - 10) (cx + 20) (cy + 10));
     ocrPageNumber := page |}.

(** A node without a bounding box. *)
Definition unboxedNode (i : string) (page : nat) : OcrNode :=
  {| ocrId := i; ocrBBox := None; ocrPageNumber := page |}.

(** A [table] entity that spans the upper half of page 1. *)
Definition tableEntity : OcrNode :=
  {| ocrId := "t"; ocrBBox := Some (boxOf 0 0 100 60); ocrPageNumber := 1 |}.

(** Six blocks in three rows on page 1, one block without a box on page
    1 and one block on page 2. *)
Definition twoPages : list OcrNode :=
  [ nodeAt "b1" 1 20 10; nodeAt "b2" 1 80 10;
    nodeAt "b3" 1 20 50; nodeAt "b4" 1 80 50;
    unboxedNode "u" 1;
    nodeAt "b5" 1 20 90; nodeAt "b6" 1 80 90;
    nodeAt "c1" 2 20 10 ].

End OrphanDetector.

(** ** Validation of configurations (src/types.ts) *)

Module ConfigValidation.
Import Float64.
Local Open Scope string_scope.

(** A value of type [unknown].  [Other] stands for every value whose
    [typeof] is none of ['undefined'], ['boolean'], ['number'] and
    ['string'] and that is not [null] (an object, a function, a symbol);
    [ref] tells such values apart as [===] does. *)
Inductive Value : Type :=
| Undefined
| Null
| Boolean (b : bool)
| Number (x : float)
| Str (s : string)
| Other (ref : nat).

(** [a === b]. *)
Definition strictEq (a b : Value) : bool :=
  match a, b with
  | Undefined, Undefined => true
  | Null, Null => true
  | Boolean x, Boolean y => Bool.eqb x y
  | Number x, Number y => SFeqb x y
  | Str x, Str y => String.eqb x y
  | Other x, Other y => Nat.eqb x y
  | _, _ => false
  end.

(** An object as [config[key]] reads it: the value of the property
    [key], own or inherited, and [undefined] when there is none. *)
Definition JsObject : Type := string -> Value.

(** An entry of [ConfigField.options]. *)
Record SelectOption : Type := mkSelectOption {
  optionLabel : string;
  optionValue : Value
}.

(** [ConfigField], the fields [validatePluginConfig] reads: [type],
    [default], [min], [max] and [options]. *)
Record ConfigField : Type := mkConfigField {
  fieldType : string;
  fieldDefault : Value;
  fieldMin : option float;
  fieldMax : option float;
  fieldOptions : option (list SelectOption)
}.

(** [PluginConfigSchema], in the order of [Object.entries]. *)
Definition PluginConfigSchema : Type := list (string * ConfigField).

(** The error texts, each with the values its template interpolates:
    [`Missing required field: ${key}`], [`Field ${key} must be a
    number`], [`Field ${key} must be >= ${field.min}`], [`Field ${key}
    must be <= ${field.max}`], [`Field ${key} must be a string`],
    [`Field ${key} must be a boolean`], [`Field ${key} must be one of:
    ${values}`]. *)
Inductive ConfigError : Type :=
| MissingRequired (key : string)
| MustBeNumber (key : string)
| MustBeAtLeast (key : string) (bound : float)
| MustBeAtMost (key : string) (bound : float)
| MustBeString (key : string)
| MustBeBoolean (key : string)
| MustBeOneOf (key : string) (values : list Value).

(** [config[key] ?? field.default]. *)
Definition effectiveValue (config : JsObject) (key : string)
    (field : ConfigField) : Value :=
  match config key with
  | Undefined | Null => fieldDefault field
  | v => v
  end.

(** The body of the loop over the fields: the errors pushed for one. *)
Definition checkField (config : JsObject) (key : string)
    (field : ConfigField) : list ConfigError :=
  let value := effectiveValue config key field in
  match value with
  | Undefined => [MissingRequired key]
  | _ =>
      if String.eqb (fieldType field) "number" then
        match value with
        | Number v =>
            (match fieldMin field with
             | Some lo => if ltb v lo then [MustBeAtLeast key lo] else []
             | None => []
             end
             ++ match fieldMax field with
                | Some hi => if gtb v hi then [MustBeAtMost key hi] else []
                | None => []
                end)%list
        | _ => [MustBeNumber key]
        end
      else if String.eqb (fieldType field) "string" then
        match value with Str _ => [] | _ => [MustBeString key] end
      else if String.eqb (fieldType field) "boolean" then
        match value with Boolean _ => [] | _ => [MustBeBoolean key] end
      else if String.eqb (fieldType field) "select" then
        match fieldOptions field with
        | Some opts =>
            if existsb (fun o => strictEq (optionValue o) value) opts then []
            else [MustBeOneOf key (map optionValue opts)]
        | None => []
        end
      else []
  end.

(** [{ valid: boolean; errors: string[] }]. *)
Record Validation : Type := mkValidation {
  valid : bool;
  errors : list ConfigError
}.

Definition validatePluginConfig (config : JsObject)
    (schema : PluginConfigSchema) : Validation :=
  let errors := flat_map (fun kf => checkField config (fst kf) (snd kf))
                         schema in
  {| valid := (length errors =? 0)%nat; errors := errors |}.

(** *** Vocabulary for the properties *)

(** The value is defined and is what the type of the field asks for; a
    number is not below [min] and not above [max], which [NaN] is not
    either. *)
Definition conforms (v : Value) (field : ConfigField) : Prop :=
  v <> Undefined
  /\ (fieldType field = "number" ->
      exists x, v = Number x
                /\ (forall lo, fieldMin field = Some lo -> ltb x lo = false)
                /\ (forall hi, fieldMax field = Some hi -> gtb x hi = false))
  /\ (fieldType field = "string" -> exists s, v = Str s)
  /\ (fieldType field = "boolean" -> exists b, v = Boolean b)
  /\ (fieldType field = "select" ->
      forall opts, fieldOptions field = Some opts ->
        exists o, In o opts /\ strictEq (optionValue o) v = true).

(** The key an error names. *)
Definition errorKey (e : ConfigError) : string :=
  match e with
  | MissingRequired key | MustBeNumber key | MustBeAtLeast key _
  | MustBeAtMost key _ | MustBeString key | MustBeBoolean key
  | MustBeOneOf key _ => key
  end.

(** *** Objects and schemas used as scenarios *)

(** The properties every object literal inherits from
    [Object.prototype]. *)
Definition objectPrototype : list string :=
  ["constructor"; "hasOwnProperty"; "isPrototypeOf"; "propertyIsEnumerable";
   "toLocaleString"; "toString"; "valueOf"; "__proto__";
   "__defineGetter__"; "__defineSetter__"; "__lookupGetter__";
   "__lookupSetter__"].

(** The object literal with the given own properties. *)
Definition objectOf (own : list (string * Value)) : JsObject :=
  fun key =>
    match Runtime.mapGet String.eqb key own with
    | Some v => v
    | None =>
        if existsb (String.eqb key) objectPrototype
        then Other (String.length key) else Undefined
    end.

(** Two fields of [orphanDetectorConfigSchema]: the coverage threshold,
    a number between 0 and 1, and the badge color, one of three options. *)
Definition orphanRules : PluginConfigSchema :=
  [ ("coverageThreshold",
     {| fieldType := "number"; fieldDefault := Number Utils.half;
        fieldMin := Some zero; fieldMax := Some one; fieldOptions := None |});
    ("badgeColor",
     {| fieldType := "select"; fieldDefault := Str "orange";
        fieldMin := None; fieldMax := None;
        fieldOptions :=
          Some [ {| optionLabel := "Red"; optionValue := Str "red" |};
                 {| optionLabel := "Orange"; optionValue := Str "orange" |};
                 {| optionLabel := "Yellow"; optionValue := Str "yellow" |}
               ] |}) ].

(** A schema with a field named like an inherited property. *)
Definition inheritedRules : PluginConfigSchema :=
  [ ("toString",
     {| fieldType := "string"; fieldDefault := Str "x";
        fieldMin := None; fieldMax := None; fieldOptions := None |}) ].

End ConfigValidation.

(* ===================================================================== *)
(** * Part II: properties                                                 *)
(* ===================================================================== *)

(** ** Comparisons on numbers *)

Lemma Qge_bool_true (a b : Q) : Qge_bool a b = true <-> b <= a.
Proof. unfold Qge_bool. apply Qle_bool_iff. Qed.

Lemma Qge_bool_false (a b : Q) : Qge_bool a b = false <-> a < b.
Proof.
  unfold Qge_bool. split; intro H.
  - apply Qnot_le_lt. intro Hle. apply Qle_bool_iff in Hle. congruence.
  - destruct (Qle_bool b a) eqn:E; [|reflexivity].
    apply Qle_bool_iff in E. exfalso. exact (Qlt_not_le _ _ H E).
Qed.

Lemma Qgt_bool_true (a b : Q) : Qgt_bool a b = true <-> b < a.
Proof.
  unfold Qgt_bool. rewrite negb_true_iff. split; intro H.
  - apply Qnot_le_lt. intro Hle. apply Qle_bool_iff in Hle. congruence.
  - destruct (Qle_bool a b) eqn:E; [|reflexivity].
    apply Qle_bool_iff in E. exfalso. exact (Qlt_not_le _ _ H E).
Qed.

Lemma Qgt_bool_false (a b : Q) : Qgt_bool a b = false <-> a <= b.
Proof.
  unfold Qgt_bool. rewrite negb_false_iff. apply Qle_bool_iff.
Qed.

Lemma Qlt_bool_false (a b : Q) : Qlt_bool a b = false <-> b <= a.
Proof. apply Qgt_bool_false. Qed.

Lemma Qle_bool_false (a b : Q) : Qle_bool a b = false <-> b < a.
Proof. apply (Qge_bool_false b a). Qed.

(** ** Numbers in double precision *)

Module Float64Facts.
Import Float64.
Local Open Scope Z_scope.

Lemma compare_key (x y : float) :
  match SFcompare x y with
  | None => key x = None \/ key y = None
  | Some c =>
      exists kx ky, key x = Some kx /\ key y = Some ky
        /\ match c with
           | Lt => keyLt kx ky
           | Eq => kx = ky
           | Gt => keyLt ky kx
           end
  end.
Proof.
  destruct x as [sx|sx| |sx mx ex], y as [sy|sy| |sy my ey];
    try destruct sx; try destruct sy; cbn [SFcompare key];
    try (left; reflexivity); try (right; reflexivity);
    try (eexists; eexists; split; [reflexivity|]; split; [reflexivity|];
         cbn; first [reflexivity|lia]).
  - eexists; eexists. split; [reflexivity|]. split; [reflexivity|].
    destruct (Z.compare_spec ex ey); cbn; try lia.
    change (PosDef.Pos.compare_cont Eq mx my) with (Pos.compare mx my).
    destruct (Pos.compare_spec mx my); cbn; subst; try lia. reflexivity.
  - eexists; eexists. split; [reflexivity|]. split; [reflexivity|].
    destruct (Z.compare_spec ex ey); cbn; try lia.
    change (PosDef.Pos.compare_cont Eq mx my) with (Pos.compare mx my).
    destruct (Pos.compare_spec mx my); cbn; subst; try lia. reflexivity.
Qed.

Lemma keyLt_irrefl (a : Z * Z * Z) : ~ keyLt a a.
Proof. destruct a as [[a1 a2] a3]. cbn. lia. Qed.

Lemma keyLt_trans (a b c : Z * Z * Z) : keyLt a b -> keyLt b c -> keyLt a c.
Proof.
  destruct a as [[a1 a2] a3], b as [[b1 b2] b3], c as [[c1 c2] c3]. cbn. lia.
Qed.

Lemma keyLt_asym (a b : Z * Z * Z) : keyLt a b -> ~ keyLt b a.
Proof. destruct a as [[a1 a2] a3], b as [[b1 b2] b3]. cbn. lia. Qed.

Lemma keyLt_total (a b : Z * Z * Z) : keyLt a b \/ a = b \/ keyLt b a.
Proof.
  destruct a as [[a1 a2] a3], b as [[b1 b2] b3]. cbn.
  destruct (Z.lt_total a1 b1) as [H|[H|H]]; [lia| |lia].
  destruct (Z.lt_total a2 b2) as [H2|[H2|H2]]; [lia| |lia].
  destruct (Z.lt_total a3 b3) as [H3|[H3|H3]]; [lia| |lia].
  right. left. congruence.
Qed.

(** [x < y] and [x <= y] through the keys. *)
Lemma ltb_key (x y : float) :
  ltb x y = true
  <-> exists kx ky, key x = Some kx /\ key y = Some ky /\ keyLt kx ky.
Proof.
  unfold ltb, SFltb. pose proof (compare_key x y) as H.
  destruct (SFcompare x y) as [[| |]|].
  - destruct H as (kx & ky & Hx & Hy & E). subst ky. split; [discriminate|].
    intros (kx' & ky' & Hx' & Hy' & Hlt). exfalso.
    rewrite Hx in Hx'. rewrite Hy in Hy'. inversion Hx'; inversion Hy'; subst.
    exact (keyLt_irrefl _ Hlt).
  - split; [intros _; exact H|reflexivity].
  - destruct H as (kx & ky & Hx & Hy & Hgt). split; [discriminate|].
    intros (kx' & ky' & Hx' & Hy' & Hlt). exfalso.
    rewrite Hx in Hx'. rewrite Hy in Hy'. inversion Hx'; inversion Hy'; subst.
    exact (keyLt_asym _ _ Hlt Hgt).
  - split; [discriminate|].
    intros (kx' & ky' & Hx' & Hy' & _). destruct H; congruence.
Qed.

Lemma leb_key (x y : float) :
  leb x y = true
  <-> exists kx ky, key x = Some kx /\ key y = Some ky /\ ~ keyLt ky kx.
Proof.
  unfold leb, SFleb. pose proof (compare_key x y) as H.
  destruct (SFcompare x y) as [[| |]|].
  - destruct H as (kx & ky & Hx & Hy & E). subst ky.
    split; [|reflexivity]. intros _. exists kx, kx.
    split; [exact Hx|]. split; [exact Hy|apply keyLt_irrefl].
  - destruct H as (kx & ky & Hx & Hy & Hlt).
    split; [|reflexivity]. intros _. exists kx, ky.
    split; [exact Hx|]. split; [exact Hy|apply keyLt_asym, Hlt].
  - destruct H as (kx & ky & Hx & Hy & Hgt). split; [discriminate|].
    intros (kx' & ky' & Hx' & Hy' & Hn). exfalso.
    rewrite Hx in Hx'. rewrite Hy in Hy'. inversion Hx'; inversion Hy'; subst.
    exact (Hn Hgt).
  - split; [discriminate|].
    intros (kx' & ky' & Hx' & Hy' & _). destruct H; congruence.
Qed.

Lemma key_number (x : float) : isNumber x <-> exists k, key x = Some k.
Proof.
  unfold isNumber, nan. split.
  - intro H. destruct x as [s|[|]| |[|] m e]; try (eexists; reflexivity).
    congruence.
  - intros [k Hk] E. subst x. discriminate.
Qed.

Lemma leb_number (x y : float) :
  leb x y = true -> isNumber x /\ isNumber y.
Proof.
  intro H. apply leb_key in H. destruct H as (kx & ky & Hx & Hy & _).
  split; apply key_number; eexists; eassumption.
Qed.

Lemma ltb_number (x y : float) :
  ltb x y = true -> isNumber x /\ isNumber y.
Proof.
  intro H. apply ltb_key in H. destruct H as (kx & ky & Hx & Hy & _).
  split; apply key_number; eexists; eassumption.
Qed.

Lemma leb_refl (x : float) : isNumber x -> leb x x = true.
Proof.
  intro H. apply key_number in H. destruct H as [k Hk].
  apply leb_key. exists k, k. split; [exact Hk|].
  split; [exact Hk|apply keyLt_irrefl].
Qed.

Lemma leb_trans (x y z : float) :
  leb x y = true -> leb y z = true -> leb x z = true.
Proof.
  rewrite !leb_key.
  intros (kx & ky & Hx & Hy & H1) (ky' & kz & Hy' & Hz & H2).
  rewrite Hy in Hy'. inversion Hy'; subst ky'.
  exists kx, kz. split; [exact Hx|]. split; [exact Hz|].
  intro H. destruct (keyLt_total kx ky) as [L|[E|L]].
  - apply H2. exact (keyLt_trans _ _ _ H L).
  - subst ky. exact (H2 H).
  - exact (H1 L).
Qed.

Lemma ltb_leb (x y : float) : ltb x y = true -> leb x y = true.
Proof.
  rewrite ltb_key, leb_key. intros (kx & ky & Hx & Hy & H).
  exists kx, ky. split; [exact Hx|]. split; [exact Hy|].
  apply keyLt_asym, H.
Qed.

Lemma ltb_not_geb (x y : float) : ltb x y = true -> geb x y = false.
Proof.
  intro H. unfold geb. fold (leb y x).
  destruct (leb y x) eqn:E; [|reflexivity]. exfalso.
  apply ltb_key in H. apply leb_key in E.
  destruct H as (kx & ky & Hx & Hy & H).
  destruct E as (ky' & kx' & Hy' & Hx' & E).
  rewrite Hx in Hx'. rewrite Hy in Hy'. inversion Hx'; inversion Hy'; subst.
  exact (E H).
Qed.

Lemma leb_ltb_trans (x y z : float) :
  leb x y = true -> ltb y z = true -> ltb x z = true.
Proof.
  rewrite !ltb_key, leb_key.
  intros (kx & ky & Hx & Hy & H1) (ky' & kz & Hy' & Hz & H2).
  rewrite Hy in Hy'. inversion Hy'; subst ky'.
  exists kx, kz. split; [exact Hx|]. split; [exact Hz|].
  destruct (keyLt_total kx ky) as [L|[E|L]].
  - exact (keyLt_trans _ _ _ L H2).
  - subst ky. exact H2.
  - contradiction.
Qed.

Lemma ltb_leb_trans (x y z : float) :
  ltb x y = true -> leb y z = true -> ltb x z = true.
Proof.
  rewrite !ltb_key, leb_key.
  intros (kx & ky & Hx & Hy & H1) (ky' & kz & Hy' & Hz & H2).
  rewrite Hy in Hy'. inversion Hy'; subst ky'.
  exists kx, kz. split; [exact Hx|]. split; [exact Hz|].
  destruct (keyLt_total ky kz) as [L|[E|L]].
  - exact (keyLt_trans _ _ _ H1 L).
  - subst kz. exact H1.
  - contradiction.
Qed.

(** Zeros of either sign, and equal numbers otherwise, have one key. *)
Lemma key_same (x y : float) :
  isNumber x -> key x = key y -> same x y.
Proof.
  intros Hx E. unfold same, isZero.
  destruct x as [sx|[|]| |[|] mx ex], y as [sy|[|]| |[|] my ey];
    cbn [key] in E; try discriminate; try (left; reflexivity);
    try (right; split; eexists; reflexivity).
  all: left; inversion E; f_equal; lia.
Qed.

Lemma same_key (x y : float) : same x y -> key x = key y.
Proof.
  intros [->|[[s ->] [s' ->]]]; reflexivity.
Qed.

Lemma max_spec (x y : float) :
  isNumber x -> isNumber y ->
  (leb y x = true /\ same (max x y) x)
  \/ (ltb x y = true /\ max x y = y).
Proof.
  intros Hx Hy. unfold max. pose proof (compare_key x y) as H.
  unfold ltb, leb, SFltb, SFleb.
  pose proof (compare_key y x) as H'.
  destruct (SFcompare x y) as [[| |]|].
  - left. destruct H as (kx & ky & Kx & Ky & E). subst ky. split.
    + fold (SFleb y x). fold (leb y x). apply leb_key. exists kx, kx.
      split; [exact Ky|]. split; [exact Kx|apply keyLt_irrefl].
    + destruct x as [[|]| | |]; try (left; reflexivity).
      apply key_same; [exact Hy|]. congruence.
  - right. split; reflexivity.
  - left. destruct H as (kx & ky & Kx & Ky & G). split.
    + fold (SFleb y x). fold (leb y x). apply leb_key. exists ky, kx.
      split; [exact Ky|]. split; [exact Kx|apply keyLt_asym, G].
    + left. reflexivity.
  - exfalso. destruct H as [H|H]; [apply key_number in Hx|apply key_number in Hy];
      destruct Hx as [k Hk] || destruct Hy as [k Hk]; congruence.
Qed.

Lemma min_spec (x y : float) :
  isNumber x -> isNumber y ->
  (leb x y = true /\ same (min x y) x)
  \/ (ltb y x = true /\ min x y = y).
Proof.
  intros Hx Hy. unfold min. pose proof (compare_key x y) as H.
  destruct (SFcompare x y) as [[| |]|] eqn:C.
  - left. destruct H as (kx & ky & Kx & Ky & E). subst ky. split.
    + apply leb_key. exists kx, kx.
      split; [exact Kx|]. split; [exact Ky|apply keyLt_irrefl].
    + destruct x as [[|]| | |]; try (left; reflexivity).
      apply key_same; [exact Hy|]. congruence.
  - left. destruct H as (kx & ky & Kx & Ky & L). split.
    + apply leb_key. exists kx, ky.
      split; [exact Kx|]. split; [exact Ky|apply keyLt_asym, L].
    + left. reflexivity.
  - right. destruct H as (kx & ky & Kx & Ky & G). split; [|reflexivity].
    apply ltb_key. exists ky, kx. auto.
  - exfalso. destruct H as [H|H]; [apply key_number in Hx|apply key_number in Hy];
      destruct Hx as [k Hk] || destruct Hy as [k Hk]; congruence.
Qed.

Lemma ltb_same (x x' y y' : float) :
  same x x' -> same y y' -> ltb x y = ltb x' y'.
Proof.
  intros Hx Hy. apply same_key in Hx, Hy.
  destruct (ltb x y) eqn:E; symmetry.
  - apply ltb_key. apply ltb_key in E. rewrite <- Hx, <- Hy. exact E.
  - destruct (ltb x' y') eqn:E'; [|reflexivity].
    apply ltb_key in E'. rewrite <- Hx, <- Hy in E'. apply ltb_key in E'.
    congruence.
Qed.

Lemma ltb_not_zeros (x y : float) :
  ltb x y = true -> ~ (isZero x /\ isZero y).
Proof.
  intros H [[s ->] [s' ->]]. discriminate.
Qed.

(** A difference does not depend on the sign of a zero operand, the other
    operand not being zero. *)
Lemma sub_same (x x' y y' : float) :
  same x x' -> same y y' -> ~ (isZero x /\ isZero y) ->
  sub x y = sub x' y'.
Proof.
  intros [->|[[s ->] [s' ->]]] [->|[[t ->] [t' ->]]] Hnz;
    try reflexivity.
  - destruct x' as [u|u| |u m e]; try reflexivity.
    exfalso. apply Hnz. split; eexists; reflexivity.
  - destruct y' as [u|u| |u m e]; try reflexivity.
    exfalso. apply Hnz. split; eexists; reflexivity.
  - exfalso. apply Hnz. split; eexists; reflexivity.
Qed.

(** A finite number other than zero divided by itself is 1: the quotient
    of the mantissas is exact. *)
Lemma div_self (s : bool) (m : positive) (e : Z) :
  div (S754_finite s m e) (S754_finite s m e) = one.
Proof.
  unfold div, SFdiv, SFdiv_core_binary.
  replace (Zdigits2 (Z.pos m) + e - (Zdigits2 (Z.pos m) + e)) with 0 by lia.
  replace (e - e) with 0 by lia.
  change (Z.min (fexp prec emax 0) 0) with (-53).
  change (0 - -53) with 53.
  cbv iota.
  assert (E : Z.div_eucl (Z.shiftl (Z.pos m) 53) (Z.pos m)
              = (9007199254740992, 0)).
  { rewrite Z.shiftl_mul_pow2 by lia.
    pose proof (Z.div_eucl_eq (Z.pos m * 2 ^ 53) (Z.pos m)) as H.
    pose proof (Z.mod_pos_bound (Z.pos m * 2 ^ 53) (Z.pos m)) as B.
    unfold Z.modulo in B.
    destruct (Z.div_eucl (Z.pos m * 2 ^ 53) (Z.pos m)) as [q r].
    specialize (H ltac:(lia)). specialize (B ltac:(lia)).
    change (2 ^ 53) with 9007199254740992 in *.
    assert (q = 9007199254740992) by nia. subst q.
    assert (r = 0) by lia. subst r. reflexivity. }
  rewrite E.
  assert (L : new_location (Z.pos m) 0 = loc_Exact).
  { unfold new_location. destruct (Z.even (Z.pos m)); reflexivity. }
  rewrite L. rewrite xorb_nilpotent. reflexivity.
Qed.

End Float64Facts.

(** ** Geometry *)

Module UtilsFacts.
Import Float64 Float64Facts Utils.

Lemma leb_same (x x' y y' : float) :
  same x x' -> same y y' -> leb x y = leb x' y'.
Proof.
  intros Hx Hy. apply same_key in Hx, Hy.
  destruct (leb x y) eqn:E; symmetry.
  - apply leb_key. apply leb_key in E. rewrite <- Hx, <- Hy. exact E.
  - destruct (leb x' y') eqn:E'; [|reflexivity].
    apply leb_key in E'. rewrite <- Hx, <- Hy in E'. apply leb_key in E'.
    congruence.
Qed.

Lemma same_refl (x : float) : same x x.
Proof. left. reflexivity. Qed.

Lemma max_number (x y : float) :
  isNumber x -> isNumber y -> isNumber (max x y).
Proof.
  intros Hx Hy. destruct (max_spec x y Hx Hy) as [[_ S]|[_ ->]]; [|exact Hy].
  apply key_number. apply key_number in Hx. destruct Hx as [k Hk].
  exists k. rewrite (same_key _ _ S). exact Hk.
Qed.

Lemma min_number (x y : float) :
  isNumber x -> isNumber y -> isNumber (min x y).
Proof.
  intros Hx Hy. destruct (min_spec x y Hx Hy) as [[_ S]|[_ ->]]; [|exact Hy].
  apply key_number. apply key_number in Hx. destruct Hx as [k Hk].
  exists k. rewrite (same_key _ _ S). exact Hk.
Qed.

Lemma max_ge_l (x y : float) :
  isNumber x -> isNumber y -> leb x (max x y) = true.
Proof.
  intros Hx Hy. destruct (max_spec x y Hx Hy) as [[_ S]|[L ->]].
  - rewrite (leb_same x x (max x y) x (same_refl x) S). apply leb_refl, Hx.
  - apply ltb_leb, L.
Qed.

Lemma max_ge_r (x y : float) :
  isNumber x -> isNumber y -> leb y (max x y) = true.
Proof.
  intros Hx Hy. destruct (max_spec x y Hx Hy) as [[L S]|[_ ->]].
  - rewrite (leb_same y y (max x y) x (same_refl y) S). exact L.
  - apply leb_refl, Hy.
Qed.

Lemma min_le_l (x y : float) :
  isNumber x -> isNumber y -> leb (min x y) x = true.
Proof.
  intros Hx Hy. destruct (min_spec x y Hx Hy) as [[_ S]|[L ->]].
  - rewrite (leb_same (min x y) x x x S (same_refl x)). apply leb_refl, Hx.
  - apply ltb_leb, L.
Qed.

Lemma min_le_r (x y : float) :
  isNumber x -> isNumber y -> leb (min x y) y = true.
Proof.
  intros Hx Hy. destruct (min_spec x y Hx Hy) as [[L S]|[_ ->]].
  - rewrite (leb_same (min x y) x y y S (same_refl y)). exact L.
  - apply leb_refl, Hy.
Qed.

(** The test for an empty intersection succeeds as soon as some lower
    bound is not below some upper bound. *)
Lemma empty_test (lo lo' hi hi' : float) :
  isNumber lo -> isNumber lo' -> isNumber hi -> isNumber hi' ->
  leb hi lo = true \/ leb hi lo' = true
  \/ leb hi' lo = true \/ leb hi' lo' = true ->
  geb (max lo lo') (min hi hi') = true.
Proof.
  intros Hlo Hlo' Hhi Hhi' H. unfold geb. fold (leb (min hi hi') (max lo lo')).
  pose proof (max_ge_l lo lo' Hlo Hlo') as L1.
  pose proof (max_ge_r lo lo' Hlo Hlo') as L2.
  pose proof (min_le_l hi hi' Hhi Hhi') as U1.
  pose proof (min_le_r hi hi' Hhi Hhi') as U2.
  destruct H as [H|[H|[H|H]]].
  - exact (leb_trans _ _ _ U1 (leb_trans _ _ _ H L1)).
  - exact (leb_trans _ _ _ U1 (leb_trans _ _ _ H L2)).
  - exact (leb_trans _ _ _ U2 (leb_trans _ _ _ H L1)).
  - exact (leb_trans _ _ _ U2 (leb_trans _ _ _ H L2)).
Qed.

Lemma overlapRatio_empty (a b : BBox) :
  geb (x1 (intersection a b)) (x2 (intersection a b)) = true
  \/ geb (y1 (intersection a b)) (y2 (intersection a b)) = true ->
  overlapRatio a b = zero.
Proof.
  intro H. unfold overlapRatio. cbv zeta. cbn [intersection x1 x2 y1 y2] in H.
  destruct H as [-> | ->]; [reflexivity|].
  rewrite orb_true_r. reflexivity.
Qed.

Lemma overlapRatio_nonempty (a b : BBox) :
  wellFormed (intersection a b) ->
  overlapRatio a b
  = if gtb (area a) zero then div (area (intersection a b)) (area a)
    else zero.
Proof.
  intros [Hx Hy]. cbn [intersection x1 x2 y1 y2] in Hx, Hy.
  unfold overlapRatio. cbv zeta.
  rewrite (ltb_not_geb _ _ Hx), (ltb_not_geb _ _ Hy). reflexivity.
Qed.

Lemma disjoint_empty (a b : BBox) :
  numbers a -> numbers b -> disjoint a b -> overlapRatio a b = zero.
Proof.
  intros (A1 & A2 & A3 & A4) (B1 & B2 & B3 & B4) D.
  apply overlapRatio_empty. cbn [intersection x1 x2 y1 y2].
  destruct D as [D|[D|[D|D]]].
  - left. apply empty_test; auto.
  - left. apply empty_test; auto.
  - right. apply empty_test; auto.
  - right. apply empty_test; auto.
Qed.

Lemma degenerate_empty (a b : BBox) :
  numbers a -> numbers b -> degenerate a \/ degenerate b ->
  overlapRatio a b = zero.
Proof.
  intros (A1 & A2 & A3 & A4) (B1 & B2 & B3 & B4) D.
  apply overlapRatio_empty. cbn [intersection x1 x2 y1 y2].
  unfold degenerate, geb in D. fold (leb (x2 a) (x1 a)) in D.
  fold (leb (y2 a) (y1 a)) in D. fold (leb (x2 b) (x1 b)) in D.
  fold (leb (y2 b) (y1 b)) in D.
  destruct D as [[D|D]|[D|D]].
  - left. apply empty_test; auto.
  - right. apply empty_test; auto.
  - left. apply empty_test; auto 6.
  - right. apply empty_test; auto 6.
Qed.

(** For a well-formed [a] inside [b] the intersection computed is [a], up
    to the sign of a zero, and its area is the area of [a]. *)
Lemma inside_intersection (a b : BBox) :
  numbers a -> numbers b -> wellFormed a -> inside a b ->
  wellFormed (intersection a b) /\ area (intersection a b) = area a.
Proof.
  intros (A1 & A2 & A3 & A4) (B1 & B2 & B3 & B4) [Wx Wy] (I1 & I2 & I3 & I4).
  assert (Sx1 : same (max (x1 a) (x1 b)) (x1 a)).
  { destruct (max_spec (x1 a) (x1 b) A1 B1) as [[_ S]|[L E]]; [exact S|].
    rewrite E. apply key_same; [exact B1|].
    apply leb_key in I1. apply ltb_key in L.
    destruct I1 as (kb & ka & Kb & Ka & N).
    destruct L as (ka' & kb' & Ka' & Kb' & L).
    rewrite Ka in Ka'. rewrite Kb in Kb'. inversion Ka'; inversion Kb'; subst.
    contradiction. }
  assert (Sy1 : same (max (y1 a) (y1 b)) (y1 a)).
  { destruct (max_spec (y1 a) (y1 b) A2 B2) as [[_ S]|[L E]]; [exact S|].
    rewrite E. apply key_same; [exact B2|].
    apply leb_key in I3. apply ltb_key in L.
    destruct I3 as (kb & ka & Kb & Ka & N).
    destruct L as (ka' & kb' & Ka' & Kb' & L).
    rewrite Ka in Ka'. rewrite Kb in Kb'. inversion Ka'; inversion Kb'; subst.
    contradiction. }
  assert (Sx2 : same (min (x2 a) (x2 b)) (x2 a)).
  { destruct (min_spec (x2 a) (x2 b) A3 B3) as [[_ S]|[L E]]; [exact S|].
    rewrite E. apply key_same; [exact B3|].
    apply leb_key in I2. apply ltb_key in L.
    destruct I2 as (ka & kb & Ka & Kb & N).
    destruct L as (kb' & ka' & Kb' & Ka' & L).
    rewrite Ka in Ka'. rewrite Kb in Kb'. inversion Ka'; inversion Kb'; subst.
    contradiction. }
  assert (Sy2 : same (min (y2 a) (y2 b)) (y2 a)).
  { destruct (min_spec (y2 a) (y2 b) A4 B4) as [[_ S]|[L E]]; [exact S|].
    rewrite E. apply key_same; [exact B4|].
    apply leb_key in I4. apply ltb_key in L.
    destruct I4 as (ka & kb & Ka & Kb & N).
    destruct L as (kb' & ka' & Kb' & Ka' & L).
    rewrite Ka in Ka'. rewrite Kb in Kb'. inversion Ka'; inversion Kb'; subst.
    contradiction. }
  split.
  - split; cbn [intersection x1 x2 y1 y2].
    + rewrite (ltb_same _ _ _ _ Sx1 Sx2). exact Wx.
    + rewrite (ltb_same _ _ _ _ Sy1 Sy2). exact Wy.
  - unfold area. cbn [intersection x1 x2 y1 y2].
    rewrite (sub_same _ _ _ _ Sx2 Sx1), (sub_same _ _ _ _ Sy2 Sy1).
    + reflexivity.
    + intros [Z2 Z1]. apply (ltb_not_zeros _ _ Wy). split.
      * destruct Sy1 as [E|[_ Z]]; [rewrite <- E; exact Z1|exact Z].
      * destruct Sy2 as [E|[_ Z]]; [rewrite <- E; exact Z2|exact Z].
    + intros [Z2 Z1]. apply (ltb_not_zeros _ _ Wx). split.
      * destruct Sx1 as [E|[_ Z]]; [rewrite <- E; exact Z1|exact Z].
      * destruct Sx2 as [E|[_ Z]]; [rewrite <- E; exact Z2|exact Z].
Qed.

Lemma overlapRatio_inside (a b : BBox) :
  numbers a -> numbers b -> wellFormed a -> inside a b ->
  overlapRatio a b
  = if gtb (area a) zero then div (area a) (area a) else zero.
Proof.
  intros Na Nb W I.
  destruct (inside_intersection a b Na Nb W I) as [Wi E].
  rewrite (overlapRatio_nonempty a b Wi), E. reflexivity.
Qed.

Lemma overlapRatio_inside_one (a b : BBox) :
  numbers a -> numbers b -> wellFormed a -> inside a b ->
  finitePositive (area a) -> overlapRatio a b = one.
Proof.
  intros Na Nb W I (m & e & E).
  rewrite (overlapRatio_inside a b Na Nb W I), E. apply div_self.
Qed.

(** The boxes of the examples: their areas, and the ratios they give. *)
Example overlapRatio_extremes :
  area boxHuge = S754_infinity false
  /\ overlapRatio boxHuge boxHuge = nan
  /\ area boxTiny = zero
  /\ overlapRatio boxTiny boxUnit = zero
  /\ overlapRatio boxSmall boxLarge = one
  /\ overlapRatio boxLarge boxSmall = quarter.
Proof. repeat split; vm_compute; reflexivity. Qed.

(** C10, as stated, does not hold: the square of side [1e200] has
    [x1 < x2] and [y1 < y2], an area above 0 and lies inside itself, but
    its area is computed as [Infinity] and the ratio as [NaN]. *)
Lemma overlapRatio_overflow_counterexample :
  ~ (forall a b, numbers a -> numbers b -> wellFormed a ->
                 gtb (area a) zero = true -> inside a b ->
                 overlapRatio a b = one).
Proof.
  intro H.
  assert (N : numbers boxHuge)
    by (repeat split; intro E; vm_compute in E; discriminate E).
  specialize (H boxHuge boxHuge N N).
  assert (E : overlapRatio boxHuge boxHuge = nan) by (vm_compute; reflexivity).
  rewrite E in H. discriminate H.
  - split; vm_compute; reflexivity.
  - vm_compute. reflexivity.
  - repeat split; vm_compute; reflexivity.
Qed.

(** C10, amended.  For boxes whose coordinates are numbers,
    [overlapRatio(a, b)] is 0 when the boxes do not overlap.  When [a],
    with [x1 < x2] and [y1 < y2], lies fully inside [b], it is the area of
    [a] divided by itself: 1 when that area, as computed in double
    precision, is positive and finite, [NaN] when it has overflowed to
    [Infinity], and 0 when it has underflowed to 0.  The ratio is relative
    to the area of [a], hence not symmetric; a degenerate box on either
    side gives 0; and the division is reached only with a divisor above
    0. *)
Theorem overlapRatio_spec (a b : BBox) :
  numbers a -> numbers b ->
  (disjoint a b -> overlapRatio a b = zero)
  /\ (wellFormed a -> inside a b ->
      (finitePositive (area a) -> overlapRatio a b = one)
      /\ (area a = S754_infinity false -> overlapRatio a b = nan)
      /\ (isZero (area a) -> overlapRatio a b = zero))
  /\ (wellFormed (intersection a b) -> gtb (area a) zero = true ->
      overlapRatio a b = div (area (intersection a b)) (area a))
  /\ (overlapRatio boxSmall boxLarge = one
      /\ overlapRatio boxLarge boxSmall = quarter)
  /\ (degenerate a \/ degenerate b -> overlapRatio a b = zero)
  /\ (gtb (area a) zero = false -> overlapRatio a b = zero).
Proof.
  intros Na Nb.
  split; [|split; [|split; [|split; [|split]]]].
  - apply disjoint_empty; assumption.
  - intros W I. split; [|split].
    + apply overlapRatio_inside_one; assumption.
    + intro E. rewrite (overlapRatio_inside a b Na Nb W I), E. reflexivity.
    + intros [s E]. rewrite (overlapRatio_inside a b Na Nb W I), E.
      reflexivity.
  - intros W G. rewrite (overlapRatio_nonempty a b W), G. reflexivity.
  - split; vm_compute; reflexivity.
  - apply degenerate_empty; assumption.
  - intro G. unfold overlapRatio. cbv zeta. fold (area a). rewrite G.
    destruct (geb _ _ || geb _ _); reflexivity.
Qed.

(** The statement above at concrete boxes: a box away from [boxSmall], a
    box inside [boxLarge], a flat box. *)
Lemma overlapRatio_spec_witness :
  overlapRatio boxSmall boxAway = zero
  /\ overlapRatio boxSmall boxLarge = one
  /\ overlapRatio boxFlat boxLarge = zero.
Proof.
  assert (Ns : numbers boxSmall)
    by (repeat split; intro E; vm_compute in E; discriminate E).
  assert (Nl : numbers boxLarge)
    by (repeat split; intro E; vm_compute in E; discriminate E).
  assert (Na : numbers boxAway)
    by (repeat split; intro E; vm_compute in E; discriminate E).
  assert (Nf : numbers boxFlat)
    by (repeat split; intro E; vm_compute in E; discriminate E).
  destruct (overlapRatio_spec boxSmall boxAway Ns Na) as (H1 & _).
  destruct (overlapRatio_spec boxSmall boxLarge Ns Nl) as (_ & H2 & _).
  destruct (overlapRatio_spec boxFlat boxLarge Nf Nl)
    as (_ & _ & _ & _ & H5 & _).
  split; [|split].
  - apply H1. left. vm_compute. reflexivity.
  - apply H2.
    + split; vm_compute; reflexivity.
    + repeat split; vm_compute; reflexivity.
    + eexists; eexists. vm_compute. reflexivity.
  - apply H5. left. left. vm_compute. reflexivity.
Defined.

(** X2.  [bboxContains(outer, inner, threshold)], for boxes whose
    coordinates are numbers: a box with [x1 < x2] and [y1 < y2] that lies
    inside [outer] and whose area is computed as a positive finite number
    is contained for every threshold up to 1; a box that shares no
    interior point with [outer], or a degenerate box, is contained for no
    positive threshold; what is contained at a threshold is contained at
    every smaller one; and nothing is contained at the threshold [NaN]. *)
Theorem bboxContains_spec (outer inner : BBox) (threshold : float) :
  numbers outer -> numbers inner ->
  (wellFormed inner -> inside inner outer -> finitePositive (area inner) ->
   leb threshold one = true ->
   bboxContains outer inner threshold = true)
  /\ (disjoint inner outer \/ degenerate inner \/ degenerate outer ->
      ltb zero threshold = true ->
      bboxContains outer inner threshold = false)
  /\ (forall t', leb t' threshold = true ->
        bboxContains outer inner threshold = true ->
        bboxContains outer inner t' = true)
  /\ (threshold = nan -> bboxContains outer inner threshold = false).
Proof.
  intros No Ni. unfold bboxContains.
  split; [|split; [|split]].
  - intros W I F T.
    rewrite (overlapRatio_inside_one inner outer Ni No W I F). exact T.
  - intros D T.
    assert (E : overlapRatio inner outer = zero).
    { destruct D as [D|D]; [apply disjoint_empty; assumption|].
      apply degenerate_empty; assumption. }
    rewrite E. apply ltb_not_geb, T.
  - intros t' Ht H. unfold geb in *.
    exact (leb_trans _ _ _ Ht H).
  - intros ->. unfold geb, nan. unfold SFleb.
    destruct (overlapRatio inner outer); reflexivity.
Qed.

(** The statement above for [boxSmall] in [boxLarge] and in [boxAway],
    with the default threshold. *)
Lemma bboxContains_spec_witness :
  bboxContains boxLarge boxSmall half = true
  /\ bboxContains boxAway boxSmall half = false.
Proof.
  assert (Ns : numbers boxSmall)
    by (repeat split; intro E; vm_compute in E; discriminate E).
  assert (Nl : numbers boxLarge)
    by (repeat split; intro E; vm_compute in E; discriminate E).
  assert (Na : numbers boxAway)
    by (repeat split; intro E; vm_compute in E; discriminate E).
  destruct (bboxContains_spec boxLarge boxSmall half Nl Ns) as (H1 & _).
  destruct (bboxContains_spec boxAway boxSmall half Na Ns) as (_ & H2 & _).
  split.
  - apply H1.
    + split; vm_compute; reflexivity.
    + repeat split; vm_compute; reflexivity.
    + eexists; eexists. vm_compute. reflexivity.
    + vm_compute. reflexivity.
  - apply H2.
    + left. left. vm_compute. reflexivity.
    + vm_compute. reflexivity.
Defined.

End UtilsFacts.

(** ** Spatial table detection *)

Module TableDetectorFacts.
Import TableDetector.
Local Open Scope string_scope.

(** *** Sorting and scattered lists *)

Section SortFacts.
Context {A : Type} (key : A -> Q).

Lemma insertBy_perm (a : A) (l : list A) :
  Permutation (insertBy key a l) (a :: l).
Proof.
  induction l as [|b l IH]; simpl.
  - reflexivity.
  - destruct (Qle_bool (key a) (key b)).
    + reflexivity.
    + rewrite IH. apply perm_swap.
Qed.

Lemma sortBy_perm (l : list A) : Permutation (sortBy key l) l.
Proof.
  induction l as [|a l IH]; simpl.
  - reflexivity.
  - rewrite insertBy_perm. constructor. exact IH.
Qed.

End SortFacts.

Lemma scatteredQ_perm (tol : Q) (l l' : list Q) :
  Permutation l l' -> scatteredQ tol l -> scatteredQ tol l'.
Proof.
  induction 1 as [|x l l' HP IH|x y l|l l' l'' HP1 IH1 HP2 IH2];
    cbn [scatteredQ].
  - trivial.
  - intros [HF HS]. split; [|auto].
    eapply Permutation_Forall; eauto.
  - intros [HF [HF' HS]]. inversion HF as [|? ? Hyx HFl]; subst.
    split; [|split; assumption].
    constructor; [|assumption]. cbv beta. rewrite Qabs_Qminus. exact Hyx.
  - auto.
Qed.

Lemma scattered_perm {A : Type} (key : A -> Q) (tol : Q) (l l' : list A) :
  Permutation l l' -> scattered key tol l -> scattered key tol l'.
Proof.
  intros HP. apply scatteredQ_perm. apply Permutation_map. exact HP.
Qed.

(** *** Rows of scattered blocks *)

Lemma meanYCenter_single (b : ClusterBlock) : meanYCenter [b] == yCenter b.
Proof. unfold meanYCenter, len. simpl. field. Qed.

Lemma rowLoop_scattered (tol : Q) (rest : list ClusterBlock) :
  forall (rows : list RowCluster) (c : ClusterBlock) (y : Q),
    scattered yCenter tol (c :: rest) ->
    rowLoop tol rest rows {| rowYCenter := y; blocks := [c] |}
    = (rows ++ map singletonRow (c :: rest))%list.
Proof.
  induction rest as [|b rest IH]; intros rows c y HS.
  - reflexivity.
  - destruct HS as [HF HS]. cbn [map] in HF, HS.
    inversion HF as [|? ? Hcb HFrest]; subst.
    cbn [rowLoop blocks].
    assert (E : Qle_bool (Qabs (yCenter b - meanYCenter [c])) tol = false).
    { apply Qle_bool_false.
      rewrite meanYCenter_single, Qabs_Qminus. exact Hcb. }
    rewrite E. rewrite IH by exact HS.
    rewrite <- app_assoc. reflexivity.
Qed.

(** Blocks that are pairwise further apart than the tolerance each form a
    row of their own. *)
Lemma clusterIntoRows_scattered (tol : Q) (bs : list ClusterBlock) :
  scattered yCenter tol bs ->
  clusterIntoRows bs tol = map singletonRow (sortBy yCenter bs).
Proof.
  intro HS. unfold clusterIntoRows.
  assert (HS' : scattered yCenter tol (sortBy yCenter bs)).
  { eapply scattered_perm; [|exact HS]. symmetry. apply sortBy_perm. }
  destruct (sortBy yCenter bs) as [|c rest]; [reflexivity|].
  apply (rowLoop_scattered tol rest [] c (yCenter c) HS').
Qed.

(** *** Columns of scattered blocks *)

Lemma collect_singletons (l : list ClusterBlock) (s : nat) :
  map itemX
    (flat_map
       (fun ir => map (fun b => {| itemX := xCenter b; rowIdx := fst ir |})
                      (blocks (snd ir)))
       (combine (seq s (length (map singletonRow l))) (map singletonRow l)))
  = map xCenter l.
Proof.
  revert s. induction l as [|b l IH]; intro s; simpl.
  - reflexivity.
  - f_equal. apply IH.
Qed.

Lemma mergeIntoCluster_far (tol : Q) (item : XItem)
    (cs : list ColumnCluster) :
  Forall (fun c => tol < Qabs (itemX item - colXCenter c)) cs ->
  mergeIntoCluster tol item cs = None.
Proof.
  induction 1 as [|c cs Hc _ IH]; cbn [mergeIntoCluster].
  - reflexivity.
  - apply Qle_bool_false in Hc. rewrite Hc, IH. reflexivity.
Qed.

Lemma clusterColumns_scattered (tol : Q) (items : list XItem) :
  forall cs : list ColumnCluster,
    Forall (fun it =>
              Forall (fun c => tol < Qabs (itemX it - colXCenter c)) cs)
           items ->
    scattered itemX tol items ->
    fold_left (addItem tol) items cs
    = (cs ++ map singletonColumn items)%list.
Proof.
  induction items as [|it items IH]; intros cs HF HS; cbn [fold_left map].
  - rewrite app_nil_r. reflexivity.
  - inversion HF as [|? ? Hit HFrest]; subst.
    destruct HS as [Hfar HS].
    assert (E : addItem tol cs it = (cs ++ [singletonColumn it])%list).
    { unfold addItem. rewrite (mergeIntoCluster_far tol it cs Hit).
      reflexivity. }
    rewrite E, IH.
    + rewrite <- app_assoc. reflexivity.
    + rewrite Forall_forall in HFrest, Hfar |- *. intros it' Hin.
      apply Forall_app. split; [apply HFrest, Hin|].
      constructor; [|constructor]. cbn [singletonColumn colXCenter].
      rewrite Qabs_Qminus. apply Hfar. apply in_map. exact Hin.
    + exact HS.
Qed.

(** No column cluster of horizontally scattered blocks is supported by two
    rows. *)
Lemma detectColumns_scattered (tolX : Q) (bs : list ClusterBlock)
    (minRows : nat) :
  (2 <= minRows)%nat ->
  scattered xCenter tolX bs ->
  detectColumns (map singletonRow (sortBy yCenter bs)) tolX minRows = [].
Proof.
  intros Hmin HS. unfold detectColumns.
  destruct (length (map singletonRow (sortBy yCenter bs)) <? minRows)%nat;
    [reflexivity|].
  destruct (length (collectXCenters _) =? 0)%nat; [reflexivity|].
  unfold clusterColumns. rewrite clusterColumns_scattered.
  - cbn [app].
    assert (E : forall l,
               filter (fun c => (minRows <=? length (rowSet c))%nat)
                      (map singletonColumn l) = []).
    { induction l as [|it l IHl]; simpl; [reflexivity|].
      destruct (minRows <=? 1)%nat eqn:E1;
        [apply Nat.leb_le in E1; lia|exact IHl]. }
    rewrite E. reflexivity.
  - apply Forall_forall. intros; constructor.
  - eapply scattered_perm; [symmetry; apply sortBy_perm|].
    unfold scattered, collectXCenters, indexed. rewrite collect_singletons.
    apply (scattered_perm xCenter tolX bs);
      [symmetry; apply sortBy_perm|exact HS].
Qed.

(** *** The 3 x 2 grid *)

(** The center fields of a [blockAt] block are what [getBBoxCenter] yields
    for its bounding box. *)
Lemma blockAt_center (i : string) (cx cy w h : Q) :
  fst (getBBoxCenter (bbox (blockAt i cx cy w h))) == cx
  /\ snd (getBBoxCenter (bbox (blockAt i cx cy w h))) == cy.
Proof. unfold getBBoxCenter; simpl. split; field. Qed.

Lemma gridPage_rows (w h : Q) : clusterIntoRows (gridPage w h) 15 = gridRows w h.
Proof. reflexivity. Qed.

Lemma gridPage_columns (w h : Q) :
  detectColumns (gridRows w h) 20 2 = [240 # 12; 960 # 12].
Proof. reflexivity. Qed.

Lemma gridPage_grid (w h : Q) :
  buildGrid (gridRows w h) [240 # 12; 960 # 12] 20 = gridCells w h.
Proof. reflexivity. Qed.

Lemma consistency_uniform (m v m' : Q) :
  m == m' -> v == 0 -> 0 < m' -> consistency m v == 1.
Proof.
  intros Hm Hv Hpos. unfold consistency.
  destruct (Qgt_bool m 0) eqn:E.
  - rewrite Hv. field. lra.
  - apply Qgt_bool_false in E. lra.
Qed.

Lemma gridPage_confidence (w h : Q) :
  0 < w -> 0 < h -> calculateConfidence (gridCells w h) == 1.
Proof.
  intros Hw Hh.
  cbv [gridCells calculateConfidence cellOf blockAt filled blockId cellBBox
       bbox id text length Nat.eqb Nat.ltb Nat.leb map filter fold_left
       flat_map seq nth_error app sum len x1 x2 y1 y2 Nat.mul Nat.add
       Z.of_nat Pos.of_succ_nat Pos.succ inject_Z].
  rewrite (consistency_uniform _ _ h), (consistency_uniform _ _ w);
    try assumption; try field.
  unfold Qeq; vm_compute; reflexivity.
Qed.

(** C3.  On the page of six equally sized blocks with vertical centers
    10, 10, 50, 50, 90, 90 and horizontal centers 20, 80, 20, 80, 20, 80,
    with [rowTolerance] 15, [columnTolerance] 20, [minRows] 2 and
    [minColumns] 2, the detector reports exactly one table; it has 3 rows
    and 2 columns, each of its 6 cells is bound to a source block, and its
    confidence is at least 0.9. *)
Theorem grid_3x2_detected (w h threshold : Q) (page : nat) (now : Z)
    (overlays dbg : bool) (style : string) :
  0 < w -> 0 < h -> threshold <= 1 ->
  exists t,
    detectTablesOnPage (gridPage w h) page
      (mkConfig 15 20 2 2 threshold overlays style dbg) now = [t]
    /\ rowCount t = 3%nat /\ columnCount t = 2%nat
    /\ map (map blockId) (grid t)
       = [[Some "b1"; Some "b2"]; [Some "b3"; Some "b4"];
          [Some "b5"; Some "b6"]]
    /\ 9 # 10 <= confidence t.
Proof.
  intros Hw Hh Ht.
  unfold detectTablesOnPage.
  cbn [rowTolerance columnTolerance minRows minColumns confidenceThreshold].
  rewrite gridPage_rows, gridPage_columns, gridPage_grid.
  change (length (gridPage w h) <? 2 * 2)%nat with false.
  change (length (gridRows w h) <? 2)%nat with false.
  change (length [240 # 12; 960 # 12] <? 2)%nat with false.
  cbv iota.
  pose proof (gridPage_confidence w h Hw Hh) as Hc.
  destruct (Qlt_bool (calculateConfidence (gridCells w h)) threshold) eqn:E.
  - apply Qgt_bool_true in E. rewrite Hc in E. lra.
  - eexists; split; [reflexivity|].
    cbn [rowCount columnCount grid confidence].
    repeat split. rewrite Hc. lra.
Qed.

(** The statement above for blocks 40 wide and 20 high and the default
    threshold 0.7. *)
Lemma grid_3x2_detected_witness :
  exists t,
    detectTablesOnPage (gridPage 40 20) 1 defaultConfig 0 = [t]
    /\ rowCount t = 3%nat /\ columnCount t = 2%nat
    /\ map (map blockId) (grid t)
       = [[Some "b1"; Some "b2"]; [Some "b3"; Some "b4"];
          [Some "b5"; Some "b6"]]
    /\ 9 # 10 <= confidence t.
Proof.
  apply (grid_3x2_detected 40 20 (7 # 10) 1 0 true false "2px solid #3b82f6");
    [reflexivity|reflexivity|discriminate].
Defined.

(** *** Scattered pages *)

Lemma alignedPage_scattered : scattered yCenter 15 alignedPage.
Proof.
  unfold scattered, alignedPage; cbn [map yCenter blockAt scatteredQ].
  repeat split; repeat constructor.
Qed.

(** The page of [alignedPage] has no two blocks within [rowTolerance] of
    each other vertically, and a 4 x 2 table of confidence 0.8 is
    reported on it. *)
Example alignedPage_table :
  length (clusterIntoRows alignedPage 15) = 4%nat
  /\ map (fun t => (rowCount t, columnCount t, Qred (confidence t)))
         (detectTablesOnPage alignedPage 1 defaultConfig 0)
     = [(4%nat, 2%nat, 4 # 5)].
Proof. split; reflexivity. Qed.

(** C4, as stated, does not hold: four blocks with no two vertical centers
    within [rowTolerance] of each other form four rows, which is not
    fewer than [minRows], and a table is reported on [alignedPage]. *)
Lemma scattered_rows_counterexample :
  ~ (forall bs page cfg now,
       length bs = 4%nat -> minRows cfg = 2%nat -> minColumns cfg = 2%nat ->
       scattered yCenter (rowTolerance cfg) bs ->
       detectTablesOnPage bs page cfg now = []).
Proof.
  intro H.
  specialize (H alignedPage 1%nat defaultConfig 0%Z eq_refl eq_refl eq_refl
                alignedPage_scattered).
  vm_compute in H. discriminate.
Qed.

(** C4, amended.  For every page with exactly 4 blocks ([minRows] 2,
    [minColumns] 2) such that no two blocks' vertical centers lie within
    [rowTolerance] of each other and no two blocks' horizontal centers lie
    within [columnTolerance] of each other, the blocks form 4 rows and the
    detector reports no table: no column is supported by [minRows] rows. *)
Theorem scattered_blocks_no_table (bs : list ClusterBlock) (page : nat)
    (cfg : CoordTableDetectorConfig) (now : Z) :
  length bs = 4%nat -> minRows cfg = 2%nat -> minColumns cfg = 2%nat ->
  scattered yCenter (rowTolerance cfg) bs ->
  scattered xCenter (columnTolerance cfg) bs ->
  length (clusterIntoRows bs (rowTolerance cfg)) = 4%nat
  /\ detectColumns (clusterIntoRows bs (rowTolerance cfg))
       (columnTolerance cfg) (minRows cfg) = []
  /\ detectTablesOnPage bs page cfg now = [].
Proof.
  intros Hlen Hr Hc HY HX.
  rewrite (clusterIntoRows_scattered _ _ HY).
  assert (Hcols : detectColumns (map singletonRow (sortBy yCenter bs))
                    (columnTolerance cfg) (minRows cfg) = []).
  { apply detectColumns_scattered; [rewrite Hr; auto with arith|exact HX]. }
  split; [|split; [exact Hcols|]].
  - rewrite length_map, (Permutation_length (sortBy_perm yCenter bs)).
    exact Hlen.
  - unfold detectTablesOnPage.
    rewrite (clusterIntoRows_scattered _ _ HY), Hcols, Hr, Hc, Hlen.
    rewrite length_map, (Permutation_length (sortBy_perm yCenter bs)), Hlen.
    reflexivity.
Qed.

(** The statement above on [scatteredPage] with the default
    configuration. *)
Lemma scattered_blocks_no_table_witness :
  length (clusterIntoRows scatteredPage 15) = 4%nat
  /\ detectColumns (clusterIntoRows scatteredPage 15) 20 2 = []
  /\ detectTablesOnPage scatteredPage 1 defaultConfig 0 = [].
Proof.
  apply (scattered_blocks_no_table scatteredPage 1 defaultConfig 0);
    try reflexivity;
    unfold scattered, scatteredPage;
    cbn [map yCenter xCenter blockAt scatteredQ rowTolerance columnTolerance
         defaultConfig];
    repeat split; repeat constructor.
Defined.

(** *** Column centers *)

(** C5 at the failing input: merging the x-centers 20 (row 0) and 30
    (row 1) leaves one column cluster whose center is 70/3, while the mean
    of the merged x-centers is 25.  The update weights the old center by
    [rowSet.size], read after the row index has been added, instead of by
    the number of x-centers merged so far. *)
Theorem column_center_is_not_the_mean :
  exists c,
    clusterColumns 20 twoItems = [c]
    /\ rowSet c = [0%nat; 1%nat]
    /\ colXCenter c == 70 # 3
    /\ mean (map itemX twoItems) == 25
    /\ ~ colXCenter c == mean (map itemX twoItems)
    /\ map Qred (detectColumns twoRows 20 2) = [70 # 3].
Proof.
  eexists. split; [reflexivity|]. cbn [rowSet colXCenter].
  split; [reflexivity|]. split; [reflexivity|]. split; [reflexivity|].
  split; [discriminate|reflexivity].
Qed.


(** *** Sorting *)

Section SortedFacts.
Context {A : Type} (key : A -> Q).

Lemma insertBy_In (a x : A) (l : list A) :
  In x (insertBy key a l) -> x = a \/ In x l.
Proof.
  intro H. apply (Permutation_in _ (insertBy_perm key a l)) in H.
  destruct H as [<-|H]; auto.
Qed.

Lemma insertBy_ascending (a : A) (l : list A) :
  ascending key l -> ascending key (insertBy key a l).
Proof.
  unfold ascending. induction 1 as [|b l Hs IH Hb]; cbn [insertBy].
  - constructor; constructor.
  - destruct (Qle_bool (key a) (key b)) eqn:E.
    + apply Qle_bool_iff in E. constructor.
      * constructor; assumption.
      * constructor; [exact E|].
        rewrite Forall_forall in Hb |- *. intros x Hx.
        apply Qle_trans with (key b); auto.
    + apply Qle_bool_false in E. constructor; [exact IH|].
      rewrite Forall_forall in Hb |- *. intros x Hx.
      apply insertBy_In in Hx. destruct Hx as [->|Hx]; [lra|auto].
Qed.

Lemma sortBy_ascending (l : list A) : ascending key (sortBy key l).
Proof.
  induction l as [|a l IH]; cbn [sortBy fold_right].
  - constructor.
  - apply insertBy_ascending, IH.
Qed.

End SortedFacts.

(** *** Rows in general *)

Lemma rowLoop_blocks (tol : Q) (rest : list ClusterBlock) :
  forall rows cur,
    flat_map blocks (rowLoop tol rest rows cur)
    = (flat_map blocks rows ++ blocks cur ++ rest)%list.
Proof.
  induction rest as [|b rest IH]; intros rows cur; cbn [rowLoop].
  - rewrite flat_map_app. cbn [flat_map blocks]. rewrite !app_nil_r.
    reflexivity.
  - destruct (Qle_bool _ _).
    + rewrite IH. cbn [blocks]. rewrite <- app_assoc. reflexivity.
    + rewrite IH, flat_map_app. cbn [flat_map blocks].
      rewrite app_nil_r, <- app_assoc. reflexivity.
Qed.

Lemma rowLoop_Forall (P : RowCluster -> Prop) (tol : Q)
    (rest : list ClusterBlock) :
  (forall bs, bs <> [] ->
              P {| rowYCenter := meanYCenter bs; blocks := bs |}) ->
  forall rows cur,
    Forall P rows -> blocks cur <> [] ->
    Forall P (rowLoop tol rest rows cur).
Proof.
  intro HP. induction rest as [|b rest IH]; intros rows cur Hrows Hcur;
    cbn [rowLoop].
  - apply Forall_app. split; [exact Hrows|]. constructor; [|constructor].
    apply HP, Hcur.
  - destruct (Qle_bool _ _).
    + apply IH; [exact Hrows|]. cbn [blocks].
      intro E. apply app_eq_nil in E. destruct E; discriminate.
    + apply IH; [|cbn [blocks]; discriminate].
      apply Forall_app. split; [exact Hrows|]. constructor; [|constructor].
      apply HP, Hcur.
Qed.

(** Read row after row, the blocks are the input sorted by vertical
    center. *)
Lemma clusterIntoRows_blocks (bs : list ClusterBlock) (tol : Q) :
  flat_map blocks (clusterIntoRows bs tol) = sortBy yCenter bs.
Proof.
  unfold clusterIntoRows.
  destruct (sortBy yCenter bs) as [|first rest]; [reflexivity|].
  rewrite rowLoop_blocks. reflexivity.
Qed.

(** X3.  [clusterIntoRows] partitions the blocks: every block is in
    exactly one row, read row after row the blocks are the blocks as
    [sort] orders them, in ascending order of their vertical centers, no
    row is empty, and the [yCenter] of every row is the mean of the
    vertical centers of its blocks. *)
Theorem clusterIntoRows_partition (bs : list ClusterBlock) (tol : Q) :
  flat_map blocks (clusterIntoRows bs tol) = sortBy yCenter bs
  /\ Permutation (flat_map blocks (clusterIntoRows bs tol)) bs
  /\ ascending yCenter (flat_map blocks (clusterIntoRows bs tol))
  /\ Forall (fun r => blocks r <> []
                      /\ rowYCenter r = meanYCenter (blocks r))
            (clusterIntoRows bs tol).
Proof.
  pose proof (clusterIntoRows_blocks bs tol) as H.
  split; [exact H|]. split; [rewrite H; apply sortBy_perm|].
  split; [rewrite H; apply sortBy_ascending|].
  unfold clusterIntoRows.
  destruct (sortBy yCenter bs) as [|first rest]; [constructor|].
  apply rowLoop_Forall.
  - intros l Hl. cbn [blocks rowYCenter]. split; [exact Hl|reflexivity].
  - constructor.
  - cbn [blocks]. discriminate.
Qed.

Lemma Sorted_snoc_replace {A} (R : A -> A -> Prop) (l : list A) (a a' : A) :
  (forall p, R p a -> R p a') ->
  Sorted R (l ++ [a])%list -> Sorted R (l ++ [a'])%list.
Proof.
  intro H. induction l as [|x l IH]; cbn [app]; intro Hs.
  - repeat constructor.
  - inversion Hs as [|? ? Hs' Hhd]; subst. constructor; [apply IH, Hs'|].
    destruct l as [|y l]; cbn [app] in *.
    + inversion Hhd; subst. constructor. auto.
    + inversion Hhd; subst. constructor. assumption.
Qed.

Lemma Sorted_snoc {A} (R : A -> A -> Prop) (l : list A) (a b : A) :
  R a b -> Sorted R (l ++ [a])%list -> Sorted R ((l ++ [a]) ++ [b])%list.
Proof.
  intro H. induction l as [|x l IH]; cbn [app]; intro Hs.
  - repeat constructor. exact H.
  - inversion Hs as [|? ? Hs' Hhd]; subst. constructor; [apply IH, Hs'|].
    destruct l as [|y l]; cbn [app] in *.
    + inversion Hhd; subst. constructor. assumption.
    + inversion Hhd; subst. constructor. assumption.
Qed.

Lemma accreted_single (tol : Q) (b : ClusterBlock) : accreted tol [b].
Proof.
  intros pre x post E Hpre. destruct pre as [|p pre]; [congruence|].
  destruct pre; discriminate.
Qed.

Lemma accreted_snoc (tol : Q) (bs : list ClusterBlock) (b : ClusterBlock) :
  accreted tol bs -> Qabs (yCenter b - meanYCenter bs) <= tol ->
  accreted tol (bs ++ [b])%list.
Proof.
  intros Hacc Hb pre x post E Hpre.
  induction post as [|y post' _] using rev_ind.
  - apply app_inj_tail in E. destruct E as [-> ->]. exact Hb.
  - change (pre ++ x :: post' ++ [y])%list
      with (pre ++ (x :: post') ++ [y])%list in E.
    rewrite app_assoc in E. apply app_inj_tail in E. destruct E as [-> _].
    apply (Hacc pre x post'); [reflexivity|exact Hpre].
Qed.

(** What holds of the rows closed so far and of the current row is kept
    by both branches of the loop, and so holds when the loop ends. *)
Lemma rowLoop_inv (P : list RowCluster -> RowCluster -> Prop) (tol : Q) :
  (forall rows cur b,
     P rows cur -> Qabs (yCenter b - meanYCenter (blocks cur)) <= tol ->
     P rows {| rowYCenter := rowYCenter cur;
               blocks := (blocks cur ++ [b])%list |}) ->
  (forall rows cur b,
     P rows cur -> tol < Qabs (yCenter b - meanYCenter (blocks cur)) ->
     P (rows ++ [ {| rowYCenter := meanYCenter (blocks cur);
                     blocks := blocks cur |} ])%list
       {| rowYCenter := yCenter b; blocks := [b] |}) ->
  forall rest rows cur,
    P rows cur ->
    exists rows' cur',
      P rows' cur'
      /\ rowLoop tol rest rows cur
         = (rows' ++ [ {| rowYCenter := meanYCenter (blocks cur');
                          blocks := blocks cur' |} ])%list.
Proof.
  intros Hsame Hnew. induction rest as [|b rest IH]; intros rows cur HP;
    cbn [rowLoop].
  - exists rows, cur. split; [exact HP|reflexivity].
  - destruct (Qle_bool _ _) eqn:E.
    + apply Qle_bool_iff in E. apply IH. apply Hsame; assumption.
    + apply Qle_bool_false in E. apply IH. apply Hnew; assumption.
Qed.

(** X4.  The rows are formed greedily along the sorted blocks: within a
    row, every block after the first lies within the tolerance of the mean
    vertical center of the blocks before it in the row; and the first
    block of every row after the first lies further than the tolerance
    from the mean vertical center of the row before. *)
Theorem clusterIntoRows_greedy (bs : list ClusterBlock) (tol : Q) :
  Forall (fun r => accreted tol (blocks r)) (clusterIntoRows bs tol)
  /\ Sorted (startsFar tol) (clusterIntoRows bs tol).
Proof.
  unfold clusterIntoRows.
  destruct (sortBy yCenter bs) as [|first rest]; [split; constructor|].
  destruct (rowLoop_inv
              (fun rows cur =>
                 blocks cur <> []
                 /\ Forall (fun r => accreted tol (blocks r))
                           (rows ++ [cur])%list
                 /\ Sorted (startsFar tol) (rows ++ [cur])%list)
              tol) with (rest := rest) (rows := @nil RowCluster)
              (cur := {| rowYCenter := yCenter first; blocks := [first] |})
    as (rows' & cur' & (Hne & Hacc & Hsep) & ->).
  - intros rows cur b (Hne & Hacc & Hsep) Hb. cbn [blocks].
    split; [intro E; apply app_eq_nil in E; destruct E; discriminate|].
    apply Forall_app in Hacc. destruct Hacc as [Hrows Hcur].
    inversion Hcur as [|? ? Hc _]; subst.
    split.
    + apply Forall_app. split; [exact Hrows|].
      constructor; [|constructor]. cbn [blocks].
      apply accreted_snoc; assumption.
    + eapply Sorted_snoc_replace; [|exact Hsep].
      intros p. unfold startsFar. cbn [blocks].
      destruct (blocks cur) as [|c cs]; [congruence|]. cbn [app]. auto.
  - intros rows cur b (Hne & Hacc & Hsep) Hb. cbn [blocks].
    split; [discriminate|].
    apply Forall_app in Hacc. destruct Hacc as [Hrows Hcur].
    inversion Hcur as [|? ? Hc _]; subst.
    split.
    + apply Forall_app. split.
      * apply Forall_app. split; [exact Hrows|].
        constructor; [exact Hc|constructor].
      * constructor; [apply accreted_single|constructor].
    + apply Sorted_snoc.
      * unfold startsFar. cbn [blocks]. exact Hb.
      * eapply Sorted_snoc_replace; [|exact Hsep].
        intros p. unfold startsFar. cbn [blocks]. auto.
  - cbn [blocks app]. split; [discriminate|]. split.
    + constructor; [apply accreted_single|constructor].
    + repeat constructor.
  - split.
    + apply Forall_app in Hacc. destruct Hacc as [Hrows Hcur].
      inversion Hcur as [|? ? Hc _]; subst.
      apply Forall_app. split; [exact Hrows|].
      constructor; [exact Hc|constructor].
    + eapply Sorted_snoc_replace; [|exact Hsep].
      intros p. unfold startsFar. cbn [blocks]. auto.
Qed.

(** *** Columns in general *)

Lemma len_nonneg {A} (l : list A) : 0 <= len l.
Proof.
  unfold len. change 0 with (inject_Z 0). rewrite <- Zle_Qle. lia.
Qed.

Lemma setAdd_length (n : nat) (s : list nat) :
  (length (setAdd n s) <= S (length s))%nat.
Proof.
  unfold setAdd. destruct (existsb (Nat.eqb n) s); [lia|].
  rewrite length_app. cbn [length]. lia.
Qed.

Lemma support_cons (c : ColumnCluster) (cs : list ColumnCluster) :
  support (c :: cs) = (length (rowSet c) + support cs)%nat.
Proof. reflexivity. Qed.

Lemma mergeIntoCluster_support (tol : Q) (item : XItem)
    (cs cs' : list ColumnCluster) :
  mergeIntoCluster tol item cs = Some cs' ->
  (support cs' <= S (support cs))%nat.
Proof.
  revert cs'. induction cs as [|c cs IH]; intros cs' Hm;
    cbn [mergeIntoCluster] in Hm; [discriminate|].
  destruct (Qle_bool _ _).
  - inversion Hm; subst. rewrite !support_cons. cbn [rowSet].
    pose proof (setAdd_length (rowIdx item) (rowSet c)). lia.
  - destruct (mergeIntoCluster tol item cs) as [m|]; [|discriminate].
    inversion Hm; subst. specialize (IH m eq_refl).
    rewrite !support_cons. lia.
Qed.

Lemma clusterColumns_support (tol : Q) (items : list XItem) :
  forall cs,
    (support (fold_left (addItem tol) items cs)
     <= support cs + length items)%nat.
Proof.
  induction items as [|it items IH]; intro cs; cbn [fold_left length];
    [lia|].
  specialize (IH (addItem tol cs it)).
  assert (support (addItem tol cs it) <= S (support cs))%nat; [|lia].
  unfold addItem. destruct (mergeIntoCluster tol it cs) as [m|] eqn:E.
  - exact (mergeIntoCluster_support tol it cs m E).
  - unfold support. rewrite map_app, list_sum_app. cbn [map list_sum
      fold_right rowSet length]. lia.
Qed.

Lemma supported_columns (minRows : nat) (cs : list ColumnCluster) :
  (length (filter (fun c => (minRows <=? length (rowSet c))%nat) cs)
   * minRows <= support cs)%nat.
Proof.
  induction cs as [|c cs IH]; [cbn; lia|].
  rewrite support_cons. cbn [filter].
  destruct (minRows <=? length (rowSet c))%nat eqn:E.
  - apply Nat.leb_le in E. cbn [length]. lia.
  - lia.
Qed.

Lemma collectXCenters_length (rows : list RowCluster) :
  length (collectXCenters rows) = length (flat_map blocks rows).
Proof.
  unfold collectXCenters, indexed. generalize 0%nat.
  induction rows as [|r rows IH]; intro i; [reflexivity|].
  cbn [length seq combine flat_map fst snd].
  rewrite !length_app, length_map, (IH (S i)). reflexivity.
Qed.

(** X5.  The column positions [detectColumns] returns are in ascending
    order.  Each of them stands for a cluster that holds x-centers of at
    least [minRows] rows, and every block is in at most one cluster, so
    that [minRows] times the number of columns is at most the number of
    blocks of the rows; there is no column when there are fewer than
    [minRows] rows.  None of this depends on the values the centers of
    the clusters take. *)
Theorem detectColumns_ascending_supported (rows : list RowCluster)
    (tol : Q) (minRows : nat) :
  StronglySorted Qle (detectColumns rows tol minRows)
  /\ (length (detectColumns rows tol minRows) * minRows
      <= length (flat_map blocks rows))%nat
  /\ ((length rows < minRows)%nat -> detectColumns rows tol minRows = []).
Proof.
  unfold detectColumns. split; [|split].
  - destruct (length rows <? minRows)%nat; [constructor|].
    destruct (length (collectXCenters rows) =? 0)%nat; [constructor|].
    apply (sortBy_ascending (fun c : Q => c)).
  - destruct (length rows <? minRows)%nat; [cbn; lia|].
    destruct (length (collectXCenters rows) =? 0)%nat; [cbn; lia|].
    rewrite (Permutation_length (sortBy_perm _ _)), length_map.
    pose proof (supported_columns minRows
                  (clusterColumns tol (sortBy itemX (collectXCenters rows))))
      as H1.
    pose proof (clusterColumns_support tol
                  (sortBy itemX (collectXCenters rows)) []) as H2.
    fold (clusterColumns tol (sortBy itemX (collectXCenters rows))) in H2.
    rewrite (Permutation_length (sortBy_perm _ _)),
      collectXCenters_length in H2.
    change (support []) with 0%nat in H2. lia.
  - intro H. apply Nat.ltb_lt in H. rewrite H. reflexivity.
Qed.

(** [twoRows], one block each, at x-centers 20 and 30: one column. *)
Example detectColumns_on_twoRows :
  length (detectColumns twoRows 20 2) = 1%nat
  /\ length (flat_map blocks twoRows) = 2%nat
  /\ detectColumns twoRows 20 3 = [].
Proof. repeat split. Qed.

(** *** The grid in general *)

Lemma nth_error_combine_seq {A} (l : list A) :
  forall s i,
    nth_error (combine (seq s (length l)) l) i
    = option_map (pair (s + i)%nat) (nth_error l i).
Proof.
  induction l as [|a l IH]; intros s i; cbn [length seq combine].
  - destruct i; reflexivity.
  - destruct i as [|i]; cbn [nth_error option_map].
    + rewrite Nat.add_0_r. reflexivity.
    + rewrite IH. rewrite Nat.add_succ_r. reflexivity.
Qed.

Lemma nth_error_indexed {A} (l : list A) (i : nat) :
  nth_error (indexed l) i = option_map (pair i) (nth_error l i).
Proof. unfold indexed. apply nth_error_combine_seq. Qed.

Lemma length_indexed {A} (l : list A) : length (indexed l) = length l.
Proof.
  unfold indexed. rewrite length_combine, length_seq. apply Nat.min_id.
Qed.

(** The cell [buildGrid] makes for the row of index [r] and the column of
    index [c]. *)
Lemma buildGrid_nth (rows : list RowCluster) (columns : list Q) (tol : Q)
    (r c : nat) (gr : list GridCell) (cell : GridCell) :
  nth_error (buildGrid rows columns tol) r = Some gr ->
  nth_error gr c = Some cell ->
  exists rw colX,
    nth_error rows r = Some rw /\ nth_error columns c = Some colX
    /\ row cell = r /\ col cell = c
    /\ match find (fun b => Qle_bool (Qabs (xCenter b - colX)) tol)
                  (blocks rw) with
       | Some b => blockId cell = Some (id b) /\ cellBBox cell = bbox b
                   /\ cellText cell = text b
       | None => blockId cell = None /\ cellText cell = None
       end.
Proof.
  unfold buildGrid. intros Hr Hc.
  rewrite nth_error_map, nth_error_indexed in Hr.
  destruct (nth_error rows r) as [rw|]; [|discriminate].
  cbn [option_map fst snd] in Hr. inversion Hr; subst gr; clear Hr.
  rewrite nth_error_map, nth_error_indexed in Hc.
  destruct (nth_error columns c) as [colX|]; [|discriminate].
  cbn [option_map fst snd] in Hc. inversion Hc; subst cell; clear Hc.
  exists rw, colX. split; [reflexivity|]. split; [reflexivity|].
  destruct (find _ (blocks rw)) as [b|];
    cbn [row col blockId cellBBox cellText]; repeat split.
Qed.

Lemma buildGrid_length (rows : list RowCluster) (columns : list Q)
    (tol : Q) :
  length (buildGrid rows columns tol) = length rows.
Proof. unfold buildGrid. rewrite length_map. apply length_indexed. Qed.

Lemma buildGrid_row_length (rows : list RowCluster) (columns : list Q)
    (tol : Q) :
  Forall (fun gr => length gr = length columns)
         (buildGrid rows columns tol).
Proof.
  unfold buildGrid. rewrite Forall_forall. intros gr Hgr.
  apply in_map_iff in Hgr. destruct Hgr as (ir & <- & _).
  rewrite length_map. apply length_indexed.
Qed.

(** X6.  The grid [buildGrid] returns is rectangular: it has one row per
    row cluster, every row has one cell per column, and the cell at row
    [r] and column [c] carries [row = r] and [col = c]. *)
Theorem buildGrid_shape (rows : list RowCluster) (columns : list Q)
    (tol : Q) :
  length (buildGrid rows columns tol) = length rows
  /\ Forall (fun gr => length gr = length columns)
            (buildGrid rows columns tol)
  /\ forall r c gr cell,
       nth_error (buildGrid rows columns tol) r = Some gr ->
       nth_error gr c = Some cell ->
       row cell = r /\ col cell = c.
Proof.
  split; [apply buildGrid_length|]. split; [apply buildGrid_row_length|].
  intros r c gr cell Hr Hc.
  destruct (buildGrid_nth _ _ _ _ _ _ _ Hr Hc)
    as (rw & colX & _ & _ & H1 & H2 & _).
  split; [exact H1|exact H2].
Qed.

(** X7.  A cell of the grid that is bound to a block holds the id, the
    box and the text of a block of its row whose x-center lies within the
    tolerance of the position of its column; a cell that is bound to no
    block means that no block of the row lies within the tolerance of the
    column. *)
Theorem buildGrid_cells (rows : list RowCluster) (columns : list Q)
    (tol : Q) (r c : nat) (gr : list GridCell) (cell : GridCell) :
  nth_error (buildGrid rows columns tol) r = Some gr ->
  nth_error gr c = Some cell ->
  exists rw colX,
    nth_error rows r = Some rw /\ nth_error columns c = Some colX
    /\ match blockId cell with
       | Some i =>
           exists b, In b (blocks rw) /\ id b = i
                     /\ Qabs (xCenter b - colX) <= tol
                     /\ cellBBox cell = bbox b /\ cellText cell = text b
       | None =>
           forall b, In b (blocks rw) -> tol < Qabs (xCenter b - colX)
       end.
Proof.
  intros Hr Hc.
  destruct (buildGrid_nth _ _ _ _ _ _ _ Hr Hc)
    as (rw & colX & Hrw & HcolX & _ & _ & Hcell).
  exists rw, colX. split; [exact Hrw|]. split; [exact HcolX|].
  destruct (find _ (blocks rw)) as [b|] eqn:E.
  - destruct Hcell as (-> & Hb & Ht). apply find_some in E.
    destruct E as [Hin Hle]. apply Qle_bool_iff in Hle.
    exists b. auto.
  - destruct Hcell as (-> & _). intros b Hb.
    apply (find_none _ _ E) in Hb. apply Qle_bool_false in Hb. exact Hb.
Qed.

(** The statement above at the second cell of the second row of the
    3 x 2 grid. *)
Lemma buildGrid_cells_witness :
  exists rw colX,
    nth_error (gridRows 40 20) 1 = Some rw
    /\ nth_error [240 # 12; 960 # 12] 1 = Some colX
    /\ exists b, In b (blocks rw) /\ id b = "b4"
                 /\ Qabs (xCenter b - colX) <= 20
                 /\ bbox (blockAt "b4" 80 50 40 20) = bbox b
                 /\ None = text b.
Proof.
  exact (buildGrid_cells (gridRows 40 20) [240 # 12; 960 # 12] 20 1 1
           [cellOf (blockAt "b3" 20 50 40 20) 1 0;
            cellOf (blockAt "b4" 80 50 40 20) 1 1]
           (cellOf (blockAt "b4" 80 50 40 20) 1 1) eq_refl eq_refl).
Defined.

(** *** The box of a table *)

Lemma fold_Qmin_le (l : list Q) :
  forall a, fold_left Qmin l a <= a
            /\ forall x, In x l -> fold_left Qmin l a <= x.
Proof.
  induction l as [|b l IH]; intro a; cbn [fold_left].
  - split; [apply Qle_refl|intros x []].
  - destruct (IH (Qmin a b)) as [H1 H2].
    pose proof (Q.le_min_l a b). pose proof (Q.le_min_r a b).
    split; [lra|]. intros x [<-|Hx]; [lra|auto].
Qed.

Lemma fold_Qmax_ge (l : list Q) :
  forall a, a <= fold_left Qmax l a
            /\ forall x, In x l -> x <= fold_left Qmax l a.
Proof.
  induction l as [|b l IH]; intro a; cbn [fold_left].
  - split; [apply Qle_refl|intros x []].
  - destruct (IH (Qmax a b)) as [H1 H2].
    pose proof (Q.le_max_l a b). pose proof (Q.le_max_r a b).
    split; [lra|]. intros x [<-|Hx]; [lra|auto].
Qed.

Lemma minOf_le (l : list Q) (x : Q) : In x l -> minOf l <= x.
Proof.
  destruct l as [|a l]; [intros []|]. cbn [minOf].
  destruct (fold_Qmin_le l a) as [H1 H2]. intros [<-|Hx]; auto.
Qed.

Lemma maxOf_ge (l : list Q) (x : Q) : In x l -> x <= maxOf l.
Proof.
  destruct l as [|a l]; [intros []|]. cbn [maxOf].
  destruct (fold_Qmax_ge l a) as [H1 H2]. intros [<-|Hx]; auto.
Qed.

Lemma fold_Qmin_attained (l : list Q) :
  forall a, fold_left Qmin l a == a
            \/ exists x, In x l /\ fold_left Qmin l a == x.
Proof.
  induction l as [|b l IH]; intro a; cbn [fold_left].
  - left. reflexivity.
  - destruct (IH (Qmin a b)) as [H|(x & Hx & H)].
    + destruct (Q.min_spec a b) as [[_ E]|[_ E]].
      * left. exact (Qeq_trans _ _ _ H E).
      * right. exists b. split; [left; reflexivity|].
        exact (Qeq_trans _ _ _ H E).
    + right. exists x. split; [right; exact Hx|exact H].
Qed.

Lemma fold_Qmax_attained (l : list Q) :
  forall a, fold_left Qmax l a == a
            \/ exists x, In x l /\ fold_left Qmax l a == x.
Proof.
  induction l as [|b l IH]; intro a; cbn [fold_left].
  - left. reflexivity.
  - destruct (IH (Qmax a b)) as [H|(x & Hx & H)].
    + destruct (Q.max_spec a b) as [[_ E]|[_ E]].
      * right. exists b. split; [left; reflexivity|].
        exact (Qeq_trans _ _ _ H E).
      * left. exact (Qeq_trans _ _ _ H E).
    + right. exists x. split; [right; exact Hx|exact H].
Qed.

Lemma minOf_attained (l : list Q) :
  l <> [] -> exists x, In x l /\ minOf l == x.
Proof.
  destruct l as [|a l]; [congruence|]. intros _. cbn [minOf].
  destruct (fold_Qmin_attained l a) as [H|(x & Hx & H)].
  - exists a. split; [left; reflexivity|exact H].
  - exists x. split; [right; exact Hx|exact H].
Qed.

Lemma maxOf_attained (l : list Q) :
  l <> [] -> exists x, In x l /\ maxOf l == x.
Proof.
  destruct l as [|a l]; [congruence|]. intros _. cbn [maxOf].
  destruct (fold_Qmax_attained l a) as [H|(x & Hx & H)].
  - exists a. split; [left; reflexivity|exact H].
  - exists x. split; [right; exact Hx|exact H].
Qed.

Lemma tableBBox_inside (bs : list ClusterBlock) (b : ClusterBlock) :
  In b bs -> Geometry.inside (bbox b) (computeTableBBox bs).
Proof.
  intro Hin. unfold Geometry.inside, computeTableBBox.
  destruct bs as [|b0 bs']; [destruct Hin|].
  set (l := b0 :: bs') in *. cbn [x1 y1 x2 y2].
  repeat split.
  - apply minOf_le. apply (in_map (fun b => x1 (bbox b))), Hin.
  - apply maxOf_ge. apply (in_map (fun b => x2 (bbox b))), Hin.
  - apply minOf_le. apply (in_map (fun b => y1 (bbox b))), Hin.
  - apply maxOf_ge. apply (in_map (fun b => y2 (bbox b))), Hin.
Qed.

(** X8.  For a non-empty list of blocks, [computeTableBBox] returns the
    smallest box that encloses the box of every block: it encloses each
    of them, and every box that encloses each of them encloses it. *)
Theorem computeTableBBox_smallest (bs : list ClusterBlock) :
  bs <> [] ->
  (forall b, In b bs -> Geometry.inside (bbox b) (computeTableBBox bs))
  /\ (forall box,
        (forall b, In b bs -> Geometry.inside (bbox b) box) ->
        Geometry.inside (computeTableBBox bs) box).
Proof.
  intro Hne. split; [intros b; apply tableBBox_inside|].
  intros box Hbox. unfold Geometry.inside, computeTableBBox.
  destruct bs as [|b0 bs']; [congruence|].
  set (l := b0 :: bs') in *. cbn [x1 y1 x2 y2].
  assert (Hne' : forall f : ClusterBlock -> Q, map f l <> [])
    by (intro f; discriminate).
  repeat split.
  - destruct (minOf_attained _ (Hne' (fun b => x1 (bbox b))))
      as (x & Hx & ->).
    apply in_map_iff in Hx. destruct Hx as (b & <- & Hb). apply (Hbox b Hb).
  - destruct (maxOf_attained _ (Hne' (fun b => x2 (bbox b))))
      as (x & Hx & ->).
    apply in_map_iff in Hx. destruct Hx as (b & <- & Hb). apply (Hbox b Hb).
  - destruct (minOf_attained _ (Hne' (fun b => y1 (bbox b))))
      as (x & Hx & ->).
    apply in_map_iff in Hx. destruct Hx as (b & <- & Hb). apply (Hbox b Hb).
  - destruct (maxOf_attained _ (Hne' (fun b => y2 (bbox b))))
      as (x & Hx & ->).
    apply in_map_iff in Hx. destruct Hx as (b & <- & Hb). apply (Hbox b Hb).
Qed.

(** The statement above on the four blocks of [alignedPage]. *)
Lemma computeTableBBox_smallest_witness :
  (forall b, In b alignedPage ->
             Geometry.inside (bbox b) (computeTableBBox alignedPage))
  /\ (forall box,
        (forall b, In b alignedPage -> Geometry.inside (bbox b) box) ->
        Geometry.inside (computeTableBBox alignedPage) box).
Proof.
  apply (computeTableBBox_smallest alignedPage). discriminate.
Defined.

(** *** What a page yields *)

Lemma calculateConfidence_range (grid : list (list GridCell)) :
  0 <= calculateConfidence grid <= 1.
Proof.
  unfold calculateConfidence.
  destruct grid as [|row0 rest]; [split; discriminate|].
  destruct (length row0 =? 0)%nat; [split; discriminate|].
  cbv zeta. split.
  - apply Q.min_glb; [discriminate|apply Q.le_max_l].
  - apply Q.le_min_l.
Qed.

(** What holds of a table that [detectTablesOnPage] reports. *)
Lemma page_table_facts (bs : list ClusterBlock) (page : nat)
    (cfg : CoordTableDetectorConfig) (now : Z) (t : DetectedTable) :
  In t (detectTablesOnPage bs page cfg now) ->
  detectTablesOnPage bs page cfg now = [t]
  /\ pageNumber t = page
  /\ (minRows cfg * minColumns cfg <= length bs)%nat
  /\ (minRows cfg <= rowCount t)%nat
  /\ (minColumns cfg <= columnCount t)%nat
  /\ confidenceThreshold cfg <= confidence t
  /\ 0 <= confidence t <= 1
  /\ length (grid t) = rowCount t
  /\ Forall (fun gr => length gr = columnCount t) (grid t)
  /\ Permutation (blockIds t) (map id bs)
  /\ forall b, In b bs -> Geometry.inside (bbox b) (tableBBox t).
Proof.
  unfold detectTablesOnPage.
  destruct (length bs <? minRows cfg * minColumns cfg)%nat eqn:E1;
    [intros []|].
  destruct (length (clusterIntoRows bs (rowTolerance cfg)) <? minRows cfg)%nat
    eqn:E2; [intros []|].
  destruct (length (detectColumns _ _ _) <? minColumns cfg)%nat eqn:E3;
    [intros []|].
  destruct (Qlt_bool _ _) eqn:E4; [intros []|].
  intros [<-|[]].
  cbn [pageNumber rowCount columnCount confidence grid blockIds tableBBox].
  apply Nat.ltb_ge in E1, E2, E3. apply Qlt_bool_false in E4.
  assert (Hperm : Permutation
                    (flat_map blocks (clusterIntoRows bs (rowTolerance cfg)))
                    bs).
  { rewrite clusterIntoRows_blocks. apply sortBy_perm. }
  split; [reflexivity|]. split; [reflexivity|]. split; [exact E1|].
  split; [exact E2|]. split; [exact E3|]. split; [exact E4|].
  split; [apply calculateConfidence_range|].
  split; [apply buildGrid_length|]. split; [apply buildGrid_row_length|].
  split; [apply Permutation_map; exact Hperm|].
  intros b Hb. apply tableBBox_inside.
  apply (Permutation_in _ (Permutation_sym Hperm)), Hb.
Qed.

(** X9.  [detectTablesOnPage] reports at most one table for a page, and
    a table it reports carries the page number, stems from at least
    [minRows * minColumns] blocks, has at least [minRows] rows and
    [minColumns] columns, a confidence of at least the threshold and within
    0 and 1, a grid of [rowCount] rows of [columnCount] cells, the ids of
    all blocks of the page, each once, and a box that encloses every block
    of the page. *)
Theorem detectTablesOnPage_table (bs : list ClusterBlock) (page : nat)
    (cfg : CoordTableDetectorConfig) (now : Z) :
  detectTablesOnPage bs page cfg now = []
  \/ exists t,
       detectTablesOnPage bs page cfg now = [t]
       /\ pageNumber t = page
       /\ (minRows cfg * minColumns cfg <= length bs)%nat
       /\ (minRows cfg <= rowCount t)%nat
       /\ (minColumns cfg <= columnCount t)%nat
       /\ confidenceThreshold cfg <= confidence t
       /\ 0 <= confidence t <= 1
       /\ length (grid t) = rowCount t
       /\ Forall (fun gr => length gr = columnCount t) (grid t)
       /\ Permutation (blockIds t) (map id bs)
       /\ forall b, In b bs -> Geometry.inside (bbox b) (tableBBox t).
Proof.
  destruct (detectTablesOnPage bs page cfg now) as [|t rest] eqn:E;
    [left; reflexivity|].
  right. exists t.
  assert (Hin : In t (detectTablesOnPage bs page cfg now))
    by (rewrite E; left; reflexivity).
  apply page_table_facts in Hin. rewrite E in Hin. exact Hin.
Qed.

End TableDetectorFacts.

(** ** Plugin orchestration runtime *)

Module RuntimeFacts.
Import Runtime.
Local Open Scope string_scope.
Local Open Scope mgr_scope.

(** *** What a computation adds to the log *)

Section Silent.
Context {X : Type} (f : LogEntry -> list X).

Lemma silent_ret {A} (a : A) : silent f (ret a).
Proof. intro w. reflexivity. Qed.

Lemma silent_throw {A} (e : Thrown) : silent f (@throw A e).
Proof. intro w. reflexivity. Qed.

Lemma silent_pending {A} : silent f (@pending A).
Proof. intro w. reflexivity. Qed.

Lemma silent_overflow {A} : silent f (@overflow A).
Proof. intro w. reflexivity. Qed.

Lemma silent_getMgr : silent f getMgr.
Proof. intro w. reflexivity. Qed.

Lemma silent_modifyMgr (g : Manager -> Manager) : silent f (modifyMgr g).
Proof. intro w. reflexivity. Qed.

Lemma silent_float (n : string) : silent f (float n).
Proof. intro w. reflexivity. Qed.

Lemma view_record (e : LogEntry) (w : World) :
  view f (snd (record e w)) = (view f w ++ f e)%list.
Proof.
  unfold view, record. simpl. rewrite flat_map_app. simpl.
  rewrite app_nil_r. reflexivity.
Qed.

Lemma silent_record (e : LogEntry) : f e = [] -> silent f (record e).
Proof. intros H w. rewrite view_record, H, app_nil_r. reflexivity. Qed.

Lemma silent_bind {A B} (c : M A) (k : A -> M B) :
  silent f c -> (forall a, silent f (k a)) -> silent f (bind c k).
Proof.
  intros Hc Hk w. unfold bind. specialize (Hc w).
  destruct (c w) as [[a|e| |] w']; simpl in *; try exact Hc.
  rewrite Hk. exact Hc.
Qed.

Lemma silent_tryCatch {A} (c : M A) (h : Thrown -> M A) :
  silent f c -> (forall e, silent f (h e)) -> silent f (tryCatch c h).
Proof.
  intros Hc Hh w. unfold tryCatch. specialize (Hc w).
  destruct (c w) as [[a|e| |] w']; simpl in *; try exact Hc.
  rewrite Hh. exact Hc.
Qed.

Lemma silent_forEach {A} (l : list A) (body : A -> M unit) :
  (forall a, silent f (body a)) -> silent f (forEach l body).
Proof.
  intro Hb. induction l as [|a l IH]; simpl.
  - apply silent_ret.
  - apply silent_bind; [apply Hb | intros _; exact IH].
Qed.

Lemma silent_if {A} (b : bool) (c1 c2 : M A) :
  silent f c1 -> silent f c2 -> silent f (if b then c1 else c2).
Proof. destruct b; auto. Qed.

End Silent.


(** *** Publishing on the bus *)

Lemma notify_one (topic : PluginManagerEvent) (d : EventData) (l : Listener) (w : World) :
  exists w',
    notify topic d l w = (Ok tt, w')
    /\ sameState w w'
    /\ view listenerCall w' = (view listenerCall w ++ [(listenerId l, topic, d)])%list
    /\ view consoleErrors w'
       = (view consoleErrors w
          ++ match listenerRun l d with
             | Some e => [handlerErrorLine topic e]
             | None => []
             end)%list.
Proof.
  unfold notify, tryCatch, callListener, bind, record, sameState, view. simpl.
  destruct (listenerRun l d) as [e|]; simpl; eexists; (split; [reflexivity|]);
    simpl; rewrite ?flat_map_app; simpl; rewrite ?app_nil_r; auto.
Qed.

Lemma notify_all (topic : PluginManagerEvent) (d : EventData) (ls : list Listener) :
  forall w, exists w',
    forEach ls (notify topic d) w = (Ok tt, w')
    /\ sameState w w'
    /\ view listenerCall w'
       = (view listenerCall w ++ map (fun l => (listenerId l, topic, d)) ls)%list
    /\ view consoleErrors w'
       = (view consoleErrors w
          ++ flat_map (fun l => match listenerRun l d with
                                | Some e => [handlerErrorLine topic e]
                                | None => []
                                end) ls)%list.
Proof.
  induction ls as [|l ls IH]; intro w.
  - exists w. simpl. rewrite !app_nil_r. unfold sameState. auto.
  - destruct (notify_one topic d l w) as (w1 & E1 & [S1 S1'] & L1 & C1).
    destruct (IH w1) as (w2 & E2 & [S2 S2'] & L2 & C2).
    exists w2. cbn [forEach]. unfold bind at 1. rewrite E1, E2.
    unfold sameState. rewrite S2, S2', L2, L1, C2, C1. cbn [map flat_map].
    rewrite <- !app_assoc. auto.
Qed.

(** [emit] calls every function subscribed to the topic, in subscription
    order, whether or not an earlier one threw, and returns. *)
Lemma emit_run (topic : PluginManagerEvent) (d : EventData) (w : World) :
  exists w',
    emit topic d w = (Ok tt, w')
    /\ sameState w w'
    /\ view listenerCall w'
       = (view listenerCall w
          ++ map (fun l => (listenerId l, topic, d))
                 (listenersFor topic (mgr w)))%list
    /\ view consoleErrors w'
       = (view consoleErrors w
          ++ flat_map (fun l => match listenerRun l d with
                                | Some e => [handlerErrorLine topic e]
                                | None => []
                                end)
                      (listenersFor topic (mgr w)))%list.
Proof.
  unfold emit, listenersFor.
  unfold bind at 1. unfold record at 1. cbn [fst snd].
  unfold bind at 1. unfold getMgr at 1. cbn [mgr].
  set (w0 := {| mgr := mgr w; log := (log w ++ [Emitted topic d])%list;
                floating := floating w |}).
  assert (V : view listenerCall w0 = view listenerCall w).
  { unfold view, w0. simpl. rewrite flat_map_app. simpl. apply app_nil_r. }
  assert (V' : view consoleErrors w0 = view consoleErrors w).
  { unfold view, w0. simpl. rewrite flat_map_app. simpl. apply app_nil_r. }
  destruct (mapGet topicEqb topic (listeners (mgr w))) as [ls|].
  - destruct (notify_all topic d ls w0) as (w' & E & [S S'] & L & C).
    exists w'. rewrite E, L, C, V, V'. unfold sameState. rewrite S, S'. auto.
  - exists w0. unfold ret. cbn [map flat_map]. rewrite V, V', !app_nil_r.
    unfold sameState. auto.
Qed.


(** *** How a computation ends *)

Section Settles.

Lemma settles_ret {A} (a : A) : settles (ret a).
Proof. intro w. exact I. Qed.

Lemma settles_throw {A} (e : Thrown) : settles (@throw A e).
Proof. intro w. exact I. Qed.

Lemma settles_getMgr : settles getMgr.
Proof. intro w. exact I. Qed.

Lemma settles_modifyMgr (g : Manager -> Manager) : settles (modifyMgr g).
Proof. intro w. exact I. Qed.

Lemma settles_float (n : string) : settles (float n).
Proof. intro w. exact I. Qed.

Lemma settles_record (e : LogEntry) : settles (record e).
Proof. intro w. exact I. Qed.

Lemma settles_bind {A B} (c : M A) (k : A -> M B) :
  settles c -> (forall a, settles (k a)) -> settles (bind c k).
Proof.
  intros Hc Hk w. unfold bind. specialize (Hc w).
  destruct (c w) as [[a|e| |] w']; simpl in *; try contradiction; auto.
  apply Hk.
Qed.

Lemma settles_tryCatch {A} (c : M A) (h : Thrown -> M A) :
  settles c -> (forall e, settles (h e)) -> settles (tryCatch c h).
Proof.
  intros Hc Hh w. unfold tryCatch. specialize (Hc w).
  destruct (c w) as [[a|e| |] w']; simpl in *; try contradiction; auto.
  apply Hh.
Qed.

Lemma settles_forEach {A} (l : list A) (body : A -> M unit) :
  (forall a, settles (body a)) -> settles (forEach l body).
Proof.
  intro Hb. induction l as [|a l IH]; simpl.
  - apply settles_ret.
  - apply settles_bind; [apply Hb | intros _; exact IH].
Qed.

End Settles.

(** *** Registry methods *)

Ltac silence :=
  repeat first
    [ apply silent_ret | apply silent_throw | apply silent_getMgr
    | apply silent_modifyMgr | apply silent_float | apply silent_pending
    | apply silent_overflow
    | apply silent_record;
      try solve [ assumption | reflexivity
                | match goal with H : offOps _ |- _ => apply H; reflexivity end ]
    | apply silent_bind; [|intro] | apply silent_tryCatch; [|intro]
    | apply silent_forEach; intro
    | match goal with
      | |- silent _ (match ?x with _ => _ end) => destruct x
      end ].

Ltac settle :=
  repeat first
    [ apply settles_ret | apply settles_throw | apply settles_getMgr
    | apply settles_modifyMgr | apply settles_float | apply settles_record
    | apply settles_bind; [|intro] | apply settles_tryCatch; [|intro]
    | apply settles_forEach; intro
    | match goal with
      | |- settles (match ?x with _ => _ end) => destruct x
      end ].

Section Ops.
Context {X : Type} (f : LogEntry -> list X) (Hf : offOps f).

Lemma silent_emit topic d : f (Emitted topic d) = [] -> silent f (emit topic d).
Proof. intro H. unfold emit. silence. Qed.

Lemma silent_getConfig n : silent f (getConfig n).
Proof. unfold getConfig. silence. Qed.

Lemma silent_isEnabled n : silent f (isEnabled n).
Proof. unfold isEnabled. silence. Qed.

Lemma silent_runOp owner op : silent f (runOp owner op).
Proof.
  destruct op; cbn [runOp];
    [ unfold register | unfold unregister, callCleanup | unfold enable
    | unfold disable | unfold setConfig | ];
    silence; apply silent_emit; apply Hf; reflexivity.
Qed.

End Ops.

Lemma settles_emit topic d : settles (emit topic d).
Proof. unfold emit. settle. Qed.

Lemma settles_runOp owner op : settles (runOp owner op).
Proof.
  destruct op; cbn [runOp];
    [ unfold register | unfold unregister, callCleanup | unfold enable
    | unfold disable | unfold setConfig | ];
    settle; apply settles_emit.
Qed.


(** *** One step of the dispatch loop *)

Lemma emit_eq topic d w : emit topic d w = (Ok tt, snd (emit topic d w)).
Proof.
  destruct (emit_run topic d w) as (w' & E & _). rewrite E. reflexivity.
Qed.

Lemma emit_sameState topic d w : sameState w (snd (emit topic d w)).
Proof.
  destruct (emit_run topic d w) as (w' & E & S & _). rewrite E. exact S.
Qed.

Lemma emit_mgr topic d w : mgr (snd (emit topic d w)) = mgr w.
Proof. apply emit_sameState. Qed.

Lemma dispatchOne_disabled ev context p results w :
  setHas (name p) (enabledPlugins (mgr w)) = false ->
  dispatchOne ev context p results w = (Ok results, w).
Proof.
  intro H. unfold dispatchOne, isEnabled, bind, getMgr, ret. cbn. rewrite H.
  reflexivity.
Qed.

Lemma dispatchOne_enabled ev context p results w :
  setHas (name p) (enabledPlugins (mgr w)) = true ->
  dispatchOne ev context p results w =
  match awaitHandler p (contextFor ev context p (mgr w)) (started ev p w) with
  | (Ok result, wh) =>
      (Ok (mapSet String.eqb (name p) result results),
       snd (emit plugin_completed (DCompleted (name p) result) wh))
  | (Throw e, wh) =>
      (Ok (mapSet String.eqb (name p) (failure e) results),
       snd (emit plugin_error (DError (name p) e) wh))
  | (Pending, wh) => (Pending, wh)
  | (Overflow, wh) => (Overflow, wh)
  end.
Proof.
  intro H. unfold dispatchOne.
  unfold bind at 1. unfold isEnabled, bind, getMgr, ret. cbn [fst snd]. rewrite H.
  cbn [negb]. rewrite emit_eq.
  unfold getConfig, bind, getMgr, ret. fold (started ev p w).
  unfold started at 1. rewrite emit_mgr. fold (configOf (name p) (mgr w)).
  fold (contextFor ev context p (mgr w)).
  unfold tryCatch.
  destruct (awaitHandler p (contextFor ev context p (mgr w)) (started ev p w))
    as [[result|e| |] wh]; try reflexivity.
  - rewrite emit_eq. reflexivity.
  - rewrite emit_eq. reflexivity.
Qed.


(** *** Maps and sets *)

Section OrderedMapFacts.
Context {V : Type}.

Lemma mapGet_In (k : string) (v : V) (m : list (string * V)) :
  mapGet String.eqb k m = Some v -> In (k, v) m.
Proof.
  induction m as [|[k' v'] m IH]; simpl; [discriminate|].
  destruct (String.eqb k k') eqn:E.
  - apply String.eqb_eq in E. intro H. inversion H; subst. left; reflexivity.
  - intro H. right. apply IH, H.
Qed.

Lemma mapGet_mapSet_same (k : string) (v : V) (m : list (string * V)) :
  mapGet String.eqb k (mapSet String.eqb k v m) = Some v.
Proof.
  induction m as [|[k' v'] m IH]; simpl.
  - rewrite String.eqb_refl. reflexivity.
  - destruct (String.eqb k k') eqn:E; simpl.
    + rewrite String.eqb_refl. reflexivity.
    + rewrite E. exact IH.
Qed.

Lemma mapGet_mapSet_other (k k' : string) (v : V) (m : list (string * V)) :
  k <> k' ->
  mapGet String.eqb k (mapSet String.eqb k' v m) = mapGet String.eqb k m.
Proof.
  intro Hne. apply String.eqb_neq in Hne.
  induction m as [|[k0 v0] m IH]; simpl.
  - rewrite Hne. reflexivity.
  - destruct (String.eqb k' k0) eqn:E; simpl.
    + apply String.eqb_eq in E. subst k0. rewrite Hne. reflexivity.
    + destruct (String.eqb k k0); [reflexivity|exact IH].
Qed.

Lemma mapGet_mapDelete (k : string) (m : list (string * V)) :
  mapGet String.eqb k (mapDelete String.eqb k m) = None.
Proof.
  induction m as [|[k' v'] m IH]; simpl; [reflexivity|].
  destruct (String.eqb k k') eqn:E; simpl; [exact IH|].
  rewrite E. exact IH.
Qed.

Lemma mapGet_keys (k : string) (v : V) (m : list (string * V)) :
  mapGet String.eqb k m = Some v -> In k (mapKeys m).
Proof.
  intro H. apply mapGet_In in H. unfold mapKeys.
  change k with (fst (k, v)). apply in_map, H.
Qed.

End OrderedMapFacts.

Lemma setHas_In (n : string) (s : list string) : setHas n s = true <-> In n s.
Proof.
  unfold setHas. rewrite existsb_exists. split.
  - intros (x & Hin & E). apply String.eqb_eq in E. subst. exact Hin.
  - intro H. exists n. split; [exact H|apply String.eqb_refl].
Qed.

Lemma setHas_setAdd (s n : string) (l : list string) :
  setHas s (setAdd n l) = String.eqb s n || setHas s l.
Proof.
  unfold setAdd. destruct (setHas n l) eqn:E.
  - destruct (String.eqb s n) eqn:E'; [|reflexivity].
    apply String.eqb_eq in E'. subst. rewrite E. reflexivity.
  - unfold setHas. rewrite existsb_app. simpl.
    rewrite orb_false_r, orb_comm. reflexivity.
Qed.

Lemma setHas_setDelete_same (n : string) (l : list string) :
  setHas n (setDelete n l) = false.
Proof.
  unfold setHas, setDelete. induction l as [|a l IH]; simpl; [reflexivity|].
  destruct (String.eqb n a) eqn:E; simpl; [exact IH|].
  rewrite E. exact IH.
Qed.

(** *** Dependency resolution *)

Section Resolve.
Context (registry : list (string * VdomPlugin)) (ev : VdomLifecycleEvent).

Lemma resolveAll_nil fuel st : resolveAll fuel registry ev [] st = Some st.
Proof. reflexivity. Qed.

Lemma resolveAll_stuck fuel names :
  fold_left (fun acc n => match acc with
                          | Some st' => resolve fuel registry ev n st'
                          | None => None
                          end) names None = None.
Proof. induction names; simpl; auto. Qed.

Lemma resolveAll_cons fuel n names st :
  resolveAll fuel registry ev (n :: names) st =
  match resolve fuel registry ev n st with
  | Some st' => resolveAll fuel registry ev names st'
  | None => None
  end.
Proof.
  unfold resolveAll. simpl.
  destruct (resolve fuel registry ev n st); [reflexivity|apply resolveAll_stuck].
Qed.

Lemma resolve_step fuel n st :
  resolve (S fuel) registry ev n st =
  if setHas n (snd st) then Some st
  else match mapGet String.eqb n registry with
       | None => Some st
       | Some plugin =>
           match match dependencies plugin with
                 | Some deps => resolveAll fuel registry ev deps st
                 | None => Some st
                 end with
           | Some (pluginsAcc, resolved) =>
               Some (if includes ev (runsOn plugin)
                     then (pluginsAcc ++ [plugin])%list else pluginsAcc,
                     setAdd n resolved)
           | None => None
           end
       end.
Proof. reflexivity. Qed.

End Resolve.


(** *** Dependency cycles *)

Section Cycle.
Context (registry : list (string * VdomPlugin)) (ev : VdomLifecycleEvent)
        (C : list string) (HC : cyclic registry C).

(** While no name of the cycle is marked resolved, a call of [resolve]
    either exceeds every bound or is on a name outside the cycle and
    leaves the cycle unmarked. *)
Lemma resolve_cycle fuel :
  forall n st st',
    unresolved C st -> resolve fuel registry ev n st = Some st' ->
    unresolved C st' /\ ~ In n C.
Proof.
  induction fuel as [|fuel IH]; intros n st st' Hclean Hres; [discriminate|].
  assert (Hall : forall deps st0 st1,
             unresolved C st0 -> resolveAll fuel registry ev deps st0 = Some st1 ->
             unresolved C st1 /\ forall d, In d deps -> ~ In d C).
  { induction deps as [|d deps IHd]; intros st0 st1 H0 H1.
    - rewrite resolveAll_nil in H1. inversion H1; subst. split; [exact H0|].
      intros d [].
    - rewrite resolveAll_cons in H1.
      destruct (resolve fuel registry ev d st0) as [st2|] eqn:E; [|discriminate].
      destruct (IH d st0 st2 H0 E) as [H2 Hd].
      destruct (IHd st2 st1 H2 H1) as [H3 Hds].
      split; [exact H3|]. intros d' [<-|Hin]; auto. }
  rewrite resolve_step in Hres.
  destruct (setHas n (snd st)) eqn:Hn.
  { inversion Hres; subst. split; [exact Hclean|].
    intro Hin. rewrite (Hclean n Hin) in Hn. discriminate. }
  destruct (mapGet String.eqb n registry) as [plugin|] eqn:Hget.
  2:{ inversion Hres; subst. split; [exact Hclean|].
      intro Hin. destruct HC as [_ HC'].
      destruct (HC' n Hin) as (c' & _ & p & deps & Hp & _). congruence. }
  destruct (match dependencies plugin with
            | Some deps => resolveAll fuel registry ev deps st
            | None => Some st
            end) as [[pluginsAcc resolved]|] eqn:Hdeps; [|discriminate].
  inversion Hres; subst st'; clear Hres.
  assert (Hout : ~ In n C).
  { intro Hin. destruct HC as [_ HC'].
    destruct (HC' n Hin) as (c' & Hc' & p & deps & Hp & Hd & Hin').
    rewrite Hget in Hp. inversion Hp; subst p. rewrite Hd in Hdeps.
    destruct (Hall deps st _ Hclean Hdeps) as [_ Hno].
    exact (Hno c' Hin' Hc'). }
  split; [|exact Hout].
  intros c Hc. cbn [snd]. rewrite setHas_setAdd.
  assert (Hclean1 : unresolved C (pluginsAcc, resolved)).
  { destruct (dependencies plugin) as [deps|].
    - exact (proj1 (Hall deps st _ Hclean Hdeps)).
    - inversion Hdeps; subst. exact Hclean. }
  pose proof (Hclean1 c Hc) as Hc1. cbn [snd] in Hc1.
  rewrite Hc1, orb_false_r.
  apply String.eqb_neq. intro; subst. contradiction.
Qed.

Lemma resolveAll_cycle fuel :
  forall names st st',
    unresolved C st -> resolveAll fuel registry ev names st = Some st' ->
    unresolved C st' /\ forall n, In n names -> ~ In n C.
Proof.
  induction names as [|n names IHn]; intros st st' H0 H1.
  - rewrite resolveAll_nil in H1. inversion H1; subst. split; [exact H0|].
    intros n [].
  - rewrite resolveAll_cons in H1.
    destruct (resolve fuel registry ev n st) as [st2|] eqn:E; [|discriminate].
    destruct (resolve_cycle fuel n st st2 H0 E) as [H2 Hn].
    destruct (IHn st2 st' H2 H1) as [H3 Hns].
    split; [exact H3|]. intros n' [<-|Hin]; auto.
Qed.

End Cycle.

(** With a dependency cycle among the registered plugins, dependency
    resolution exceeds every recursion bound. *)
Lemma cycle_never_resolves (m : Manager) (ev : VdomLifecycleEvent) (C : list string) :
  cyclic (plugins m) C -> forall fuel, pluginsForEvent fuel m ev = None.
Proof.
  intros HC fuel. unfold pluginsForEvent.
  destruct (resolveAll fuel (plugins m) ev (mapKeys (plugins m)) ([], []))
    as [st'|] eqn:E; [|reflexivity].
  exfalso.
  destruct (resolveAll_cycle (plugins m) ev C HC fuel (mapKeys (plugins m))
              ([], []) st' (fun _ _ => eq_refl) E)
    as [_ Hno].
  destruct HC as [Hne HC'].
  destruct C as [|c C']; [congruence|].
  destruct (HC' c (or_introl eq_refl)) as (c' & _ & p & deps & Hp & _).
  exact (Hno c (mapGet_keys _ _ _ Hp) (or_introl eq_refl)).
Qed.

(** *** The run list *)

Section RunList.
Context (registry : list (string * VdomPlugin)) (ev : VdomLifecycleEvent)
        (Hwf : wfRegistry registry).

Lemma resolve_inv fuel :
  forall S n st st',
    unresolved S st -> chain registry S n -> accInv registry st ->
    resolve fuel registry ev n st = Some st' ->
    unresolved S st' /\ ~ In n S /\ accInv registry st' /\ grows st st'.
Proof.
  induction fuel as [|fuel IH]; intros S n st st' HU HCh HA Hres; [discriminate|].
  assert (Hall : forall deps S0 st0 st1,
             unresolved S0 st0 -> (forall d, In d deps -> chain registry S0 d) ->
             accInv registry st0 ->
             resolveAll fuel registry ev deps st0 = Some st1 ->
             unresolved S0 st1 /\ (forall d, In d deps -> ~ In d S0)
             /\ accInv registry st1 /\ grows st0 st1).
  { induction deps as [|d deps IHd]; intros S0 st0 st1 H0 Hc Ha H1.
    - rewrite resolveAll_nil in H1. inversion H1; subst.
      split; [exact H0|]. split; [intros d []|]. split; [exact Ha|].
      intros s Hs; exact Hs.
    - rewrite resolveAll_cons in H1.
      destruct (resolve fuel registry ev d st0) as [st2|] eqn:E; [|discriminate].
      destruct (IH S0 d st0 st2 H0 (Hc d (or_introl eq_refl)) Ha E)
        as (H2 & Hd & Ha2 & Hg2).
      destruct (IHd S0 st2 st1 H2 (fun d' Hd' => Hc d' (or_intror Hd')) Ha2 H1)
        as (H3 & Hds & Ha3 & Hg3).
      split; [exact H3|]. split; [|split; [exact Ha3|]].
      + intros d' [<-|Hin]; auto.
      + intros s Hs. apply Hg3, Hg2, Hs. }
  rewrite resolve_step in Hres.
  destruct (setHas n (snd st)) eqn:Hn.
  { inversion Hres; subst. split; [exact HU|]. split; [|split; [exact HA|]].
    - intro Hin. rewrite (HU n Hin) in Hn. discriminate.
    - intros s Hs; exact Hs. }
  destruct (mapGet String.eqb n registry) as [plugin|] eqn:Hget.
  2:{ inversion Hres; subst. split; [exact HU|]. split; [|split; [exact HA|]].
      - intro Hin. destruct (HCh n Hin) as (d & (p & deps & Hp & _) & _).
        congruence.
      - intros s Hs; exact Hs. }
  destruct (match dependencies plugin with
            | Some deps => resolveAll fuel registry ev deps st
            | None => Some st
            end) as [[pluginsAcc resolved]|] eqn:Hdeps; [|discriminate].
  inversion Hres; subst st'; clear Hres.
  assert (HU' : unresolved (n :: S) st).
  { intros s [<-|Hs]; [exact Hn|exact (HU s Hs)]. }
  assert (Hafter : unresolved (n :: S) (pluginsAcc, resolved)
                   /\ (forall deps, dependencies plugin = Some deps ->
                       forall d, In d deps -> ~ In d (n :: S))
                   /\ accInv registry (pluginsAcc, resolved)
                   /\ grows st (pluginsAcc, resolved)).
  { destruct (dependencies plugin) as [deps|] eqn:Hd.
    - assert (Hc : forall d, In d deps -> chain registry (n :: S) d).
      { intros d Hin s [<-|Hs].
        - exists d. split; [|right; reflexivity].
          exists plugin, deps. auto.
        - destruct (HCh s Hs) as (d' & Hdep & [Hd'|Hd']).
          + exists d'. split; [exact Hdep|left; right; exact Hd'].
          + exists d'. split; [exact Hdep|left; left; symmetry; exact Hd']. }
      destruct (Hall deps (n :: S) st _ HU' Hc HA Hdeps) as (H1 & H2 & H3 & H4).
      split; [exact H1|]. split; [|split; [exact H3|exact H4]].
      intros deps' E; inversion E; subst; exact H2.
    - inversion Hdeps; subst.
      split; [exact HU'|]. split; [discriminate|]. split; [exact HA|].
      intros s Hs; exact Hs. }
  destruct Hafter as (HU1 & Hnone & (Hnd & Hacc) & Hg).
  assert (Hout : ~ In n S).
  { intro Hin. destruct (HCh n Hin) as (d & (p & deps & Hp & Hd & Hind) & Hor).
    rewrite Hget in Hp. inversion Hp; subst p.
    apply (Hnone deps Hd d Hind).
    destruct Hor as [Hs | ->]; [right; exact Hs|left; reflexivity]. }
  assert (Hname : name plugin = n) by (apply Hwf, mapGet_In, Hget).
  assert (Hfresh : ~ In n (map name pluginsAcc)).
  { intro Hin. apply in_map_iff in Hin. destruct Hin as (a & Ha & Hina).
    destruct (Hacc a Hina) as [Hset _]. cbn [snd] in Hset.
    pose proof (HU1 n (or_introl eq_refl)) as Hno. cbn [snd] in Hno.
    rewrite Ha in Hset. congruence. }
  split; [|split; [exact Hout|split]].
  - intros s Hs. cbn [snd]. rewrite setHas_setAdd.
    pose proof (HU1 s (or_intror Hs)) as Hs1. cbn [snd] in Hs1.
    rewrite Hs1, orb_false_r. apply String.eqb_neq. intro; subst. contradiction.
  - split.
    + cbn [fst]. destruct (includes ev (runsOn plugin)); [|exact Hnd].
      rewrite map_app. cbn [map].
      apply NoDup_app; [exact Hnd|repeat constructor; intros []|].
      intros x Hx [<-|[]]. rewrite Hname in Hx. contradiction.
    + cbn [fst snd]. intros a Ha.
      assert (Hcases : In a pluginsAcc \/ a = plugin).
      { destruct (includes ev (runsOn plugin)); [|left; exact Ha].
        apply in_app_or in Ha. destruct Ha as [Ha|[<-|[]]]; auto. }
      rewrite setHas_setAdd. destruct Hcases as [Hin | ->].
      * destruct (Hacc a Hin) as [Hset Hreg]. cbn [snd] in Hset.
        rewrite Hset, orb_true_r. auto.
      * rewrite Hname, String.eqb_refl. split; [reflexivity|exact Hget].
  - intros s Hs. cbn [snd]. rewrite setHas_setAdd.
    pose proof (Hg s Hs) as Hs1. cbn [snd] in Hs1.
    rewrite Hs1. apply orb_true_r.
Qed.

Lemma resolveAll_inv fuel :
  forall names st st',
    accInv registry st -> resolveAll fuel registry ev names st = Some st' -> accInv registry st'.
Proof.
  induction names as [|n names IHn]; intros st st' Ha H1.
  - rewrite resolveAll_nil in H1. inversion H1; subst. exact Ha.
  - rewrite resolveAll_cons in H1.
    destruct (resolve fuel registry ev n st) as [st2|] eqn:E; [|discriminate].
    apply (IHn st2 st'); [|exact H1].
    apply (resolve_inv fuel [] n st st2); try assumption.
    + intros s [].
    + intros s [].
Qed.

End RunList.

(** The run list of an event holds plugins registered when it is computed,
    each at most once. *)
Lemma pluginsForEvent_NoDup fuel m ev runList :
  wfRegistry (plugins m) ->
  pluginsForEvent fuel m ev = Some runList ->
  NoDup (map name runList)
  /\ forall p, In p runList -> mapGet String.eqb (name p) (plugins m) = Some p.
Proof.
  intros Hwf H. unfold pluginsForEvent in H.
  destruct (resolveAll fuel (plugins m) ev (mapKeys (plugins m)) ([], []))
    as [[acc res]|] eqn:E; [|discriminate].
  inversion H; subst runList. cbn [fst].
  assert (Hinv := resolveAll_inv (plugins m) ev Hwf fuel (mapKeys (plugins m))
                    ([], []) (acc, res)).
  cbn [fst snd] in Hinv.
  destruct Hinv as [Hnd Hacc]; [|exact E|].
  - split; [constructor|intros a []].
  - split; [exact Hnd|]. intros p Hp. apply Hacc, Hp.
Qed.


(** *** The dispatch loop *)

Lemma offOps_errorsFor n : offOps (errorsFor n).
Proof.
  repeat split; try reflexivity.
  intros t d H. destruct t; try discriminate; reflexivity.
Qed.

Lemma offOps_handlerCalls : offOps handlerCalls.
Proof. repeat split; reflexivity. Qed.

Lemma view_app {X} (f : LogEntry -> list X) (w : World) (e : LogEntry) :
  view f {| mgr := mgr w; log := (log w ++ [e])%list; floating := floating w |}
  = (view f w ++ f e)%list.
Proof. apply view_record. Qed.

Lemma bind_assoc {A B C} (c : M A) (k : A -> M B) (k' : B -> M C) (w : World) :
  bind (bind c k) k' w = bind c (fun a => bind (k a) k') w.
Proof.
  unfold bind. destruct (c w) as [[a|e| |] w']; reflexivity.
Qed.

Lemma bind_ext {A B} (c : M A) (k k' : A -> M B) (w : World) :
  (forall a w', k a w' = k' a w') -> bind c k w = bind c k' w.
Proof.
  intro H. unfold bind. destruct (c w) as [[a|e| |] w']; auto.
Qed.

Lemma settles_awaitOps p pctx :
  settles (forEach (ops (handler p pctx)) (runOp (name p))).
Proof. apply settles_forEach. intro op. apply settles_runOp. Qed.

Lemma awaitHandler_outcome p pctx w :
  fst (awaitHandler p pctx w) <> Overflow.
Proof.
  unfold awaitHandler. unfold bind at 1. unfold record at 1. cbn [fst snd].
  unfold bind.
  match goal with |- context [forEach ?l ?b ?w0] =>
    pose proof (settles_awaitOps p pctx w0) as H;
    destruct (forEach l b w0) as [[[]|e| |] w1]
  end; cbn [fst] in *; try contradiction; try discriminate.
  destruct (outcome (handler p pctx)); discriminate.
Qed.

Lemma awaitHandler_calls p pctx w :
  view handlerCalls (snd (awaitHandler p pctx w))
  = (view handlerCalls w ++ [name p])%list.
Proof.
  unfold awaitHandler. unfold bind at 1. unfold record at 1. cbn [fst snd].
  match goal with |- view _ (snd (?k ?w0)) = _ =>
    assert (S : silent handlerCalls k)
  end.
  { pose proof offOps_handlerCalls. silence. apply silent_runOp. assumption. }
  rewrite S, view_app. reflexivity.
Qed.

Lemma silent_awaitHandler {X} (f : LogEntry -> list X) p pctx :
  offOps f -> f (HandlerCalled (name p) pctx) = [] ->
  silent f (awaitHandler p pctx).
Proof.
  intros Hf Hc. unfold awaitHandler. silence. apply silent_runOp. assumption.
Qed.

Lemma silent_dispatchOne_errors n ev context q results :
  name q <> n -> silent (errorsFor n) (dispatchOne ev context q results).
Proof.
  intro Hne. pose proof (offOps_errorsFor n) as Hf.
  assert (He : forall e, errorsFor n (Emitted plugin_error (DError (name q) e)) = []).
  { intro e. cbn. destruct (String.eqb n (name q)) eqn:E; [|reflexivity].
    apply String.eqb_eq in E. congruence. }
  unfold dispatchOne. silence; try apply He.
  apply silent_runOp; assumption.
Qed.

Lemma silent_dispatch_errors n ev context l :
  ~ In n (map name l) ->
  forall results, silent (errorsFor n) (dispatch ev context l results).
Proof.
  induction l as [|q l IH]; intros Hn results; cbn [dispatch].
  - apply silent_ret.
  - apply silent_bind.
    + apply silent_dispatchOne_errors. intro E. apply Hn. left. exact E.
    + intro r. apply IH. intro Hin. apply Hn. right. exact Hin.
Qed.

Lemma contained_dispatchOne ev context p results :
  contained (dispatchOne ev context p results).
Proof.
  intro w. destruct (setHas (name p) (enabledPlugins (mgr w))) eqn:E.
  - rewrite (dispatchOne_enabled _ _ _ _ _ E).
    pose proof (awaitHandler_outcome p (contextFor ev context p (mgr w))
                  (started ev p w)) as H.
    destruct (awaitHandler _ _ _) as [[r|e| |] wh]; cbn [fst] in *;
      try exact I. congruence.
  - rewrite (dispatchOne_disabled _ _ _ _ _ E). exact I.
Qed.

Lemma contained_dispatch ev context l :
  forall results, contained (dispatch ev context l results).
Proof.
  induction l as [|q l IH]; intros results w; cbn [dispatch].
  - exact I.
  - unfold bind. pose proof (contained_dispatchOne ev context q results w) as H.
    destruct (dispatchOne ev context q results w) as [[r|e| |] w'];
      cbn [fst] in *; try contradiction; try exact I.
    apply IH.
Qed.

Lemma dispatch_app ev context l1 l2 results w :
  dispatch ev context (l1 ++ l2) results w
  = bind (dispatch ev context l1 results)
         (fun r => dispatch ev context l2 r) w.
Proof.
  revert results w. induction l1 as [|q l1 IH]; intros results w.
  - reflexivity.
  - cbn [app dispatch]. rewrite bind_assoc. apply bind_ext.
    intros r w'. apply IH.
Qed.

Lemma dispatchOne_results ev context q results w results' w' n :
  name q <> n ->
  dispatchOne ev context q results w = (Ok results', w') ->
  mapGet String.eqb n results' = mapGet String.eqb n results.
Proof.
  intros Hne H. destruct (setHas (name q) (enabledPlugins (mgr w))) eqn:E.
  - rewrite (dispatchOne_enabled _ _ _ _ _ E) in H.
    destruct (awaitHandler _ _ _) as [[r|e| |] wh]; inversion H; subst;
      apply mapGet_mapSet_other; congruence.
  - rewrite (dispatchOne_disabled _ _ _ _ _ E) in H. inversion H; subst.
    reflexivity.
Qed.

Lemma dispatch_results ev context l n :
  ~ In n (map name l) ->
  forall results w results' w',
    dispatch ev context l results w = (Ok results', w') ->
    mapGet String.eqb n results' = mapGet String.eqb n results.
Proof.
  induction l as [|q l IH]; intros Hn results w results' w' H; cbn [dispatch] in H.
  - inversion H; subst. reflexivity.
  - unfold bind in H.
    destruct (dispatchOne ev context q results w) as [[r|e| |] w1] eqn:E;
      try discriminate.
    rewrite (IH (fun Hin => Hn (or_intror Hin)) _ _ _ _ H).
    apply (dispatchOne_results _ _ _ _ _ _ _ _ (fun E' => Hn (or_introl E')) E).
Qed.

(** In a dispatch that completes, the turn of every plugin of the list
    comes. *)
Lemma dispatch_turn ev context l1 q l2 results w results' w' :
  dispatch ev context (l1 ++ q :: l2) results w = (Ok results', w') ->
  exists rq wq, dispatch ev context l1 results w = (Ok rq, wq).
Proof.
  rewrite dispatch_app. unfold bind.
  destruct (dispatch ev context l1 results w) as [[r|e| |] w1]; try discriminate.
  intros _. eauto.
Qed.

(** When its turn comes, an enabled plugin has its handler invoked. *)
Lemma dispatchOne_invokes ev context q results w :
  setHas (name q) (enabledPlugins (mgr w)) = true ->
  view handlerCalls (snd (dispatchOne ev context q results w))
  = (view handlerCalls w ++ [name q])%list.
Proof.
  intro E. rewrite (dispatchOne_enabled _ _ _ _ _ E).
  pose proof (awaitHandler_calls q (contextFor ev context q (mgr w))
                (started ev q w)) as H.
  assert (Hs : view handlerCalls (started ev q w) = view handlerCalls w).
  { unfold started. apply silent_emit; [apply offOps_handlerCalls|reflexivity]. }
  rewrite Hs in H.
  destruct (awaitHandler _ _ _) as [[r|e| |] wh]; cbn [snd] in *; try exact H.
  - rewrite <- H. apply silent_emit; [apply offOps_handlerCalls|reflexivity].
  - rewrite <- H. apply silent_emit; [apply offOps_handlerCalls|reflexivity].
Qed.

(** *** Fault isolation *)

Lemma view_emit {X} (f : LogEntry -> list X) topic d w :
  offOps f ->
  view f (snd (emit topic d w)) = (view f w ++ f (Emitted topic d))%list.
Proof.
  intro Hf. unfold emit. unfold bind at 1. unfold record at 1. cbn [fst snd].
  match goal with |- view _ (snd (?k ?w0)) = _ =>
    assert (S : silent f k) by silence
  end.
  rewrite S, view_app. reflexivity.
Qed.

Lemma runEvent_eq fuel ev context w runList :
  pluginsForEvent fuel (mgr w) ev = Some runList ->
  runEvent fuel ev context w = dispatch ev context runList [] w.
Proof.
  intro H. unfold runEvent, getPluginsForEvent, bind, getMgr. cbn [fst snd].
  rewrite H. reflexivity.
Qed.

Lemma NoDup_middle {A} (l1 l2 : list A) (a : A) :
  NoDup (l1 ++ a :: l2) -> ~ In a l1 /\ ~ In a l2.
Proof.
  intro H. apply NoDup_remove_2 in H. split; intro Hin; apply H, in_or_app; auto.
Qed.

(** C2.  When the turn of an enabled plugin [p] of the run list comes and
    its handler throws or rejects with [Error(x)], the step of the loop
    completes normally: [{success: false, error: x}] is recorded for [p],
    exactly one [plugin:error] event is published for it, the loop goes on
    with the plugins after [p], and no exception leaves [runEvent].  When
    [runEvent] returns, the returned map holds that failure for [p], one
    [plugin:error] event has been published for [p] in all, and the turn
    of every plugin after [p] has come, its handler being invoked if the
    plugin is enabled then. *)
Theorem runEvent_fault_isolation
    (fuel : nat) (ev : VdomLifecycleEvent) (context : HostContext)
    (w0 : World) (pre : list VdomPlugin) (p : VdomPlugin)
    (post : list VdomPlugin) (results : Results) (w : World) (x : string) :
  wfRegistry (plugins (mgr w0)) ->
  pluginsForEvent fuel (mgr w0) ev = Some (pre ++ p :: post)%list ->
  dispatch ev context pre [] w0 = (Ok results, w) ->
  setHas (name p) (enabledPlugins (mgr w)) = true ->
  fst (awaitHandler p (contextFor ev context p (mgr w)) (started ev p w))
    = Throw (ThrownError x) ->
  exists results1 w1,
    dispatchOne ev context p results w = (Ok results1, w1)
    /\ mapGet String.eqb (name p) results1
       = Some {| success := false; data := None; error := Some x |}
    /\ view (errorsFor (name p)) w1
       = (view (errorsFor (name p)) w0 ++ [ThrownError x])%list
    /\ runEvent fuel ev context w0 = dispatch ev context post results1 w1
    /\ (forall e wF, runEvent fuel ev context w0 <> (Throw e, wF))
    /\ (forall resultsF wF,
          runEvent fuel ev context w0 = (Ok resultsF, wF) ->
          mapGet String.eqb (name p) resultsF
          = Some {| success := false; data := None; error := Some x |}
          /\ view (errorsFor (name p)) wF
             = (view (errorsFor (name p)) w0 ++ [ThrownError x])%list
          /\ forall post1 q post2,
               post = (post1 ++ q :: post2)%list ->
               exists rq wq,
                 dispatch ev context post1 results1 w1 = (Ok rq, wq)
                 /\ (setHas (name q) (enabledPlugins (mgr wq)) = true ->
                     view handlerCalls (snd (dispatchOne ev context q rq wq))
                     = (view handlerCalls wq ++ [name q])%list)).
Proof.
  intros Hwf Hrun Hpre Hen Hthrow.
  destruct (pluginsForEvent_NoDup _ _ _ _ Hwf Hrun) as [Hnd _].
  rewrite map_app in Hnd. cbn [map] in Hnd.
  destruct (NoDup_middle _ _ _ Hnd) as [Hnpre Hnpost].
  pose proof (dispatchOne_enabled ev context p results w Hen) as Hone.
  pose proof (silent_awaitHandler (errorsFor (name p)) p
                (contextFor ev context p (mgr w)) (offOps_errorsFor _) eq_refl
                (started ev p w)) as Hsil.
  destruct (awaitHandler p (contextFor ev context p (mgr w)) (started ev p w))
    as [res wh]. cbn [fst snd] in *. subst res.
  set (results1 := mapSet String.eqb (name p) (failure (ThrownError x)) results) in *.
  set (w1 := snd (emit plugin_error (DError (name p) (ThrownError x)) wh)) in *.
  assert (Hview : view (errorsFor (name p)) w1
                  = (view (errorsFor (name p)) w0 ++ [ThrownError x])%list).
  { unfold w1. rewrite view_emit by apply offOps_errorsFor.
    cbn [errorsFor]. rewrite String.eqb_refl, Hsil.
    unfold started. rewrite silent_emit;
      [|apply offOps_errorsFor|reflexivity].
    pose proof (silent_dispatch_errors (name p) ev context pre Hnpre [] w0) as Hp.
    rewrite Hpre in Hp. cbn [snd] in Hp. rewrite Hp. reflexivity. }
  assert (Hgo : runEvent fuel ev context w0 = dispatch ev context post results1 w1).
  { rewrite (runEvent_eq _ _ _ _ _ Hrun), dispatch_app. unfold bind at 1.
    rewrite Hpre. cbn [dispatch]. unfold bind at 1. rewrite Hone. reflexivity. }
  exists results1, w1.
  split; [exact Hone|]. split; [apply mapGet_mapSet_same|].
  split; [exact Hview|]. split; [exact Hgo|]. split.
  - intros e wF Hf. rewrite Hgo in Hf.
    pose proof (contained_dispatch ev context post results1 w1) as Hc.
    rewrite Hf in Hc. exact Hc.
  - intros resultsF wF HF. rewrite Hgo in HF. split; [|split].
    + rewrite (dispatch_results _ _ _ _ Hnpost _ _ _ _ HF).
      apply mapGet_mapSet_same.
    + pose proof (silent_dispatch_errors (name p) ev context post Hnpost
                    results1 w1) as Hp.
      rewrite HF in Hp. cbn [snd] in Hp. rewrite Hp. exact Hview.
    + intros post1 q post2 Hsplit. subst post.
      destruct (dispatch_turn _ _ _ _ _ _ _ _ _ HF) as (rq & wq & Hq).
      exists rq, wq. split; [exact Hq|]. apply dispatchOne_invokes.
Qed.


(** *** Mutations during a dispatch *)

Lemma Subseq_nil_l {A} (l : list A) : Subseq [] l.
Proof. induction l; constructor; assumption. Qed.

Lemma Subseq_In {A} (l l' : list A) : Subseq l l' -> forall a, In a l -> In a l'.
Proof.
  induction 1 as [|b l l' _ IH|b l l' _ IH]; intros a Ha.
  - exact Ha.
  - right. apply IH, Ha.
  - destruct Ha as [<-|Ha]; [left; reflexivity|right; apply IH, Ha].
Qed.

Lemma dispatchOne_calls ev context q results w :
  view handlerCalls (snd (dispatchOne ev context q results w))
  = (view handlerCalls w
     ++ if setHas (name q) (enabledPlugins (mgr w)) then [name q] else [])%list.
Proof.
  destruct (setHas (name q) (enabledPlugins (mgr w))) eqn:E.
  - apply dispatchOne_invokes, E.
  - rewrite (dispatchOne_disabled _ _ _ _ _ E). cbn [snd].
    rewrite app_nil_r. reflexivity.
Qed.

Lemma dispatch_calls ev context l :
  forall results w,
  exists invoked,
    view handlerCalls (snd (dispatch ev context l results w))
    = (view handlerCalls w ++ invoked)%list
    /\ Subseq invoked (map name l).
Proof.
  induction l as [|q l IH]; intros results w; cbn [dispatch].
  - exists []. rewrite app_nil_r. split; [reflexivity|constructor].
  - pose proof (dispatchOne_calls ev context q results w) as Hq.
    unfold bind.
    destruct (dispatchOne ev context q results w) as [[r|e| |] w1];
      cbn [snd] in *.
    + destruct (IH r w1) as (inv & Hv & Hs).
      destruct (setHas (name q) (enabledPlugins (mgr w))).
      * exists (name q :: inv). rewrite Hv, Hq, <- app_assoc.
        split; [reflexivity|]. cbn [map]. apply Subseq_take. exact Hs.
      * exists inv. rewrite Hv, Hq, app_nil_r.
        split; [reflexivity|]. cbn [map]. apply Subseq_skip. exact Hs.
    + eexists. split; [exact Hq|].
      destruct (setHas _ _); cbn [map]; [apply Subseq_take|]; apply Subseq_nil_l.
    + eexists. split; [exact Hq|].
      destruct (setHas _ _); cbn [map]; [apply Subseq_take|]; apply Subseq_nil_l.
    + eexists. split; [exact Hq|].
      destruct (setHas _ _); cbn [map]; [apply Subseq_take|]; apply Subseq_nil_l.
Qed.

Lemma mapGet_mapSet_cases {V} (n k : string) (v : V) (m : list (string * V)) :
  mapGet String.eqb n (mapSet String.eqb k v m) <> None ->
  n = k \/ mapGet String.eqb n m <> None.
Proof.
  intro H. destruct (String.eqb n k) eqn:E.
  - left. apply String.eqb_eq, E.
  - right. apply String.eqb_neq in E.
    rewrite mapGet_mapSet_other in H by exact E. exact H.
Qed.

Lemma dispatchOne_keys ev context q results w results' w' n :
  dispatchOne ev context q results w = (Ok results', w') ->
  mapGet String.eqb n results' <> None ->
  n = name q \/ mapGet String.eqb n results <> None.
Proof.
  intros H Hn. destruct (setHas (name q) (enabledPlugins (mgr w))) eqn:E.
  - rewrite (dispatchOne_enabled _ _ _ _ _ E) in H.
    destruct (awaitHandler _ _ _) as [[r|e| |] wh]; inversion H; subst;
      apply mapGet_mapSet_cases in Hn; exact Hn.
  - rewrite (dispatchOne_disabled _ _ _ _ _ E) in H. inversion H; subst.
    right. exact Hn.
Qed.

Lemma dispatch_keys ev context l n :
  forall results w results' w',
    dispatch ev context l results w = (Ok results', w') ->
    mapGet String.eqb n results' <> None ->
    In n (map name l) \/ mapGet String.eqb n results <> None.
Proof.
  induction l as [|q l IH]; intros results w results' w' H Hn;
    cbn [dispatch] in H.
  - inversion H; subst. right. exact Hn.
  - unfold bind in H.
    destruct (dispatchOne ev context q results w) as [[r|e| |] w1] eqn:E;
      try discriminate.
    destruct (IH _ _ _ _ H Hn) as [Hin|Hr].
    + left. right. exact Hin.
    + destruct (dispatchOne_keys _ _ _ _ _ _ _ _ E Hr) as [->|Hr'].
      * left. left. reflexivity.
      * right. exact Hr'.
Qed.

(** C8, amended.  The run list is computed once, when the dispatch starts:
    the handlers invoked for the event in progress are a subsequence of it
    and only its plugins get a result, so a plugin registered during the
    dispatch is not invoked for this event.  Whether a plugin of the list
    is invoked is decided when its turn comes, from the enabled set as it
    is then: disabled then, it is skipped; enabled then, its handler is
    invoked. *)
Theorem run_list_fixed_at_start
    (fuel : nat) (ev : VdomLifecycleEvent) (context : HostContext)
    (w0 : World) (runList : list VdomPlugin) :
  pluginsForEvent fuel (mgr w0) ev = Some runList ->
  (exists invoked,
     view handlerCalls (snd (runEvent fuel ev context w0))
     = (view handlerCalls w0 ++ invoked)%list
     /\ Subseq invoked (map name runList))
  /\ (forall resultsF wF n,
        runEvent fuel ev context w0 = (Ok resultsF, wF) ->
        mapGet String.eqb n resultsF <> None -> In n (map name runList))
  /\ (forall pre q post results w,
        runList = (pre ++ q :: post)%list ->
        dispatch ev context pre [] w0 = (Ok results, w) ->
        (setHas (name q) (enabledPlugins (mgr w)) = false ->
         dispatchOne ev context q results w = (Ok results, w))
        /\ (setHas (name q) (enabledPlugins (mgr w)) = true ->
            view handlerCalls (snd (dispatchOne ev context q results w))
            = (view handlerCalls w ++ [name q])%list)).
Proof.
  intro Hrun. rewrite (runEvent_eq _ _ _ _ _ Hrun).
  split; [apply dispatch_calls|]. split.
  - intros resultsF wF n HF Hn.
    destruct (dispatch_keys _ _ _ _ _ _ _ _ HF Hn) as [Hin|Hr]; [exact Hin|].
    exfalso. apply Hr. reflexivity.
  - intros pre q post results w _ _. split.
    + apply dispatchOne_disabled.
    + apply dispatchOne_invokes.
Qed.

(** C8, as stated, does not hold: the handler of [firstPlugin] disables
    [secondPlugin], which was listed and enabled when the dispatch started
    and is not invoked for the event in progress. *)
Lemma in_flight_disable_counterexample :
  ~ (forall fuel ev context w0 names resultsF wF,
       enabledAtStart fuel (mgr w0) ev = Some names ->
       runEvent fuel ev context w0 = (Ok resultsF, wF) ->
       view handlerCalls wF = (view handlerCalls w0 ++ names)%list
       /\ mapKeys resultsF = names).
Proof.
  intro H.
  destruct (runEvent 10 ready hostContext
              (initWorld (managerOf [firstPlugin; secondPlugin])))
    as [r wF] eqn:E.
  vm_compute in E. inversion E; subst; clear E.
  specialize (H 10%nat ready hostContext
                (initWorld (managerOf [firstPlugin; secondPlugin]))
                ["first"; "second"] _ _ eq_refl eq_refl).
  destruct H as [H _]. vm_compute in H. discriminate.
Qed.


(** A plugin registered by a handler is not invoked for the event in
    progress; the next event invokes it. *)
Example registered_in_flight_runs_next :
  let w1 := snd (runEvent 5 ready hostContext
                   (initWorld (managerOf [spawnerPlugin]))) in
  let w2 := snd (runEvent 5 ready hostContext (initWorld (mgr w1))) in
  view handlerCalls w1 = ["spawner"]
  /\ registeredNames (mgr w1) = ["spawner"; "spawned"]
  /\ view handlerCalls w2 = ["spawner"; "spawned"].
Proof. repeat split. Qed.

(** *** Unregistering *)

Lemma offOps_cleanupCalls_emit topic d w :
  view cleanupCalls (snd (emit topic d w)) = view cleanupCalls w.
Proof.
  unfold emit.
  match goal with |- view _ (snd (?k w)) = _ =>
    assert (S : silent cleanupCalls k)
  end.
  { silence. }
  apply S.
Qed.

Lemma mapGet_values {V} (k : string) (v : V) (m : list (string * V)) :
  mapGet String.eqb k m = Some v -> In v (mapValues m).
Proof.
  intro H. apply mapGet_In in H. unfold mapValues.
  change v with (snd (k, v)). apply in_map, H.
Qed.

Lemma bind_ok {A B} (c : M A) (k : A -> M B) (w w' : World) (a : A) :
  c w = (Ok a, w') -> bind c k w = k a w'.
Proof. intro H. unfold bind. rewrite H. reflexivity. Qed.

Lemma callCleanup_returns (n : string) (c : CleanupRun) (w : World) :
  (forall e, c <> CleanupThrows e) ->
  callCleanup n c w =
  (Ok tt,
   {| mgr := mgr w;
      log := (log w ++ [CleanupCalled n (registeredNames (mgr w))])%list;
      floating := (floating w
                   ++ match c with CleanupAsync => [n] | _ => [] end)%list |}).
Proof.
  intro Hsync. unfold callCleanup, bind, getMgr, record, ret, float.
  cbn [fst snd mgr log floating].
  destruct c as [|e|]; cbn [fst snd mgr log floating].
  - rewrite app_nil_r. reflexivity.
  - exfalso. exact (Hsync e eq_refl).
  - reflexivity.
Qed.

Lemma unregister_eq (n : string) (w : World) :
  unregister n w =
  match
    match mapGet String.eqb n (plugins (mgr w)) with
    | Some plugin =>
        match cleanup plugin with
        | Some c => callCleanup n c w
        | None => (Ok tt, w)
        end
    | None => (Ok tt, w)
    end
  with
  | (Ok _, w1) =>
      emit plugin_unregistered (DName n)
        {| mgr := without n (mgr w1); log := log w1;
           floating := floating w1 |}
  | (Throw e, w1) => (Throw e, w1)
  | (Pending, w1) => (Pending, w1)
  | (Overflow, w1) => (Overflow, w1)
  end.
Proof.
  unfold unregister, bind, getMgr. cbn [fst snd].
  destruct (mapGet String.eqb n (plugins (mgr w))) as [plugin|];
    [destruct (cleanup plugin) as [c|]|]; reflexivity.
Qed.




(** *** Commands *)

Lemma string_app_assoc (a b c : string) : (a ++ b) ++ c = a ++ b ++ c.
Proof. induction a as [|ch a IH]; simpl; [reflexivity|]. rewrite IH. reflexivity. Qed.

(** C6.  [executeCommand] on a registered but disabled plugin that owns
    the command returns [{success: false}] with an error text that
    contains "not enabled"; the world is unchanged, so the command handler
    is not invoked and nothing is published. *)
Theorem executeCommand_disabled
    (pluginName cmdId : string) (context : EntityContext) (w : World)
    (p : VdomPlugin) (cmd : PluginCommand) :
  mapGet String.eqb pluginName (plugins (mgr w)) = Some p ->
  find (fun c => String.eqb (commandId c) cmdId) (commandsOf p) = Some cmd ->
  setHas pluginName (enabledPlugins (mgr w)) = false ->
  exists r,
    executeCommand pluginName cmdId context w = (Ok r, w)
    /\ cmdSuccess r = false
    /\ (exists text, cmdError r = Some text /\ contains "not enabled" text)
    /\ view commandCalls (snd (executeCommand pluginName cmdId context w))
       = view commandCalls w.
Proof.
  intros Hget Hfind Hoff.
  unfold executeCommand, isEnabled, bind, getMgr, ret. cbn [fst snd].
  rewrite Hget. fold (commandsOf p). rewrite Hfind, Hoff. cbn [negb].
  eexists. split; [reflexivity|]. split; [reflexivity|]. split; [|reflexivity].
  eexists. split; [reflexivity|].
  exists ("Plugin " ++ quote ++ pluginName ++ quote ++ " is "), "".
  cbn. rewrite !string_app_assoc. reflexivity.
Qed.

(** *** Resolution of a two-plugin cycle *)

(** C1 at the failing input: with [A] depending on [B] and [B] on [A], no
    recursion bound lets dependency resolution return, and [runEvent]
    reports the overflow without having dispatched anything. *)
Theorem cyclic_dependencies_overflow (fuel : nat) (ev : VdomLifecycleEvent) :
  pluginsForEvent fuel cycleManager ev = None
  /\ runEvent fuel ev hostContext (initWorld cycleManager)
     = (Overflow, initWorld cycleManager).
Proof.
  assert (H : pluginsForEvent fuel cycleManager ev = None).
  { apply (cycle_never_resolves cycleManager ev ["A"; "B"]).
    split; [discriminate|].
    intros c [<-|[<-|[]]].
    - exists "B". split; [right; left; reflexivity|].
      exists cyclePluginA, ["B"]. repeat split. left; reflexivity.
    - exists "A". split; [left; reflexivity|].
      exists cyclePluginB, ["A"]. repeat split. left; reflexivity. }
  split; [exact H|].
  unfold runEvent, getPluginsForEvent, bind, getMgr. cbn [fst snd initWorld mgr].
  rewrite H. reflexivity.
Qed.

(** *** The bus *)

Lemma topicEqb_refl (t : PluginManagerEvent) : topicEqb t t = true.
Proof.
  unfold topicEqb. destruct (PluginManagerEvent_eq_dec t t); congruence.
Qed.

Lemma listeners_mapSet (t : PluginManagerEvent) (ls : list Listener)
    (m : list (PluginManagerEvent * list Listener)) :
  mapGet topicEqb t (mapSet topicEqb t ls m) = Some ls.
Proof.
  induction m as [|[t' ls'] m IH]; simpl.
  - rewrite topicEqb_refl. reflexivity.
  - destruct (topicEqb t t') eqn:E; simpl.
    + rewrite topicEqb_refl. reflexivity.
    + rewrite E. exact IH.
Qed.

(** [on] puts a function that is not yet subscribed after the functions
    already subscribed to the topic: the order of [listenersFor] is the
    order of subscription. *)
Lemma on_appends (topic : PluginManagerEvent) (l : Listener) (w : World) :
  existsb (fun l' => Nat.eqb (listenerId l) (listenerId l'))
          (listenersFor topic (mgr w)) = false ->
  listenersFor topic (mgr (snd (on topic l w)))
  = (listenersFor topic (mgr w) ++ [l])%list.
Proof.
  intro Hnew. unfold on, modifyMgr, listenersFor in *. cbn [snd mgr listeners].
  rewrite listeners_mapSet.
  destruct (mapGet topicEqb topic (listeners (mgr w))) as [ls|];
    rewrite Hnew; reflexivity.
Qed.

(** Three subscribers, the second of which throws: all three are called,
    in order, and the error is logged. *)
Example emit_with_throwing_listener :
  let m := {| plugins := []; enabledPlugins := []; pluginConfigs := [];
              listeners :=
                [(plugin_enabled,
                  [ {| listenerId := 1; listenerRun := fun _ => None |};
                    {| listenerId := 2;
                       listenerRun := fun _ => Some (ThrownError "boom") |};
                    {| listenerId := 3; listenerRun := fun _ => None |} ])] |} in
  emit plugin_enabled (DName "p") (initWorld m)
  = (Ok tt,
     {| mgr := m;
        log := [ Emitted plugin_enabled (DName "p");
                 ListenerCalled 1 plugin_enabled (DName "p");
                 ListenerCalled 2 plugin_enabled (DName "p");
                 ConsoleError "Error in event handler for plugin:enabled: boom";
                 ListenerCalled 3 plugin_enabled (DName "p") ];
        floating := [] |}).
Proof. reflexivity. Qed.

(** *** The registry keeps plugins under their names *)

Lemma wfRegistry_managerOf (l : list VdomPlugin) :
  wfRegistry (plugins (managerOf l)).
Proof.
  intros k p Hin. cbn [managerOf plugins] in Hin.
  apply in_map_iff in Hin. destruct Hin as (q & E & _).
  inversion E; subst. reflexivity.
Qed.

Lemma mapSet_In {V : Type} (k k0 : string) (v v0 : V)
    (m : list (string * V)) :
  In (k, v) (mapSet String.eqb k0 v0 m) -> (k, v) = (k0, v0) \/ In (k, v) m.
Proof.
  induction m as [|[k' v'] m IH]; simpl.
  - intros [H|[]]. left. symmetry. exact H.
  - destruct (String.eqb k0 k'); simpl.
    + intros [H|H]; [left; symmetry; exact H|right; right; exact H].
    + intros [H|H]; [right; left; exact H|].
      destruct (IH H) as [H'|H']; [left; exact H'|right; right; exact H'].
Qed.

(** [register] and [unregister] keep every plugin under its own name. *)
Lemma register_wfRegistry (p : VdomPlugin) (w : World) :
  wfRegistry (plugins (mgr w)) ->
  wfRegistry (plugins (mgr (snd (register p w)))).
Proof.
  intro Hwf. unfold register. unfold bind at 1. unfold getMgr at 1.
  cbn [fst snd].
  destruct (mapHas String.eqb (name p) (plugins (mgr w))); [exact Hwf|].
  unfold bind. unfold modifyMgr at 1. cbn [fst snd].
  rewrite emit_eq. cbn [snd]. rewrite emit_mgr. cbn [mgr plugins].
  intros k q Hin. apply mapSet_In in Hin.
  destruct Hin as [E|Hin]; [inversion E; subst; reflexivity|].
  apply Hwf, Hin.
Qed.

Lemma unregister_wfRegistry (n : string) (w : World) :
  wfRegistry (plugins (mgr w)) ->
  wfRegistry (plugins (mgr (snd (unregister n w)))).
Proof.
  intro Hwf. rewrite unregister_eq.
  assert (Hm : forall c, mgr (snd (callCleanup n c w)) = mgr w).
  { intro c. unfold callCleanup, bind, getMgr, record, ret, throw, float.
    cbn [fst snd]. destruct c; reflexivity. }
  destruct (mapGet String.eqb n (plugins (mgr w))) as [plugin|].
  - destruct (cleanup plugin) as [c|].
    + specialize (Hm c).
      destruct (callCleanup n c w) as [[[]|e| |] w1]; cbn [snd] in *;
        try (rewrite Hm; exact Hwf).
      rewrite emit_mgr. cbn [mgr without plugins]. rewrite Hm.
      intros k q Hin. apply filter_In in Hin. apply Hwf, Hin.
    + rewrite emit_mgr. cbn [mgr without plugins].
      intros k q Hin. apply filter_In in Hin. apply Hwf, Hin.
  - rewrite emit_mgr. cbn [mgr without plugins].
    intros k q Hin. apply filter_In in Hin. apply Hwf, Hin.
Qed.

Lemma runOp_wfRegistry (owner : string) (op : MgrOp VdomPlugin) (w : World) :
  wfRegistry (plugins (mgr w)) ->
  wfRegistry (plugins (mgr (snd (runOp owner op w)))).
Proof.
  intro Hwf. destruct op as [p|n|n|n|n c|t d]; cbn [runOp].
  - apply register_wfRegistry, Hwf.
  - apply unregister_wfRegistry, Hwf.
  - unfold enable. unfold bind at 1. unfold getMgr at 1. cbn [fst snd].
    destruct (negb (mapHas String.eqb n (plugins (mgr w)))); [exact Hwf|].
    unfold bind. unfold modifyMgr at 1. cbn [fst snd].
    rewrite emit_eq. cbn [snd]. rewrite emit_mgr. exact Hwf.
  - unfold disable. unfold bind. unfold modifyMgr at 1. cbn [fst snd].
    rewrite emit_eq. cbn [snd]. rewrite emit_mgr. exact Hwf.
  - unfold setConfig. unfold bind at 1. unfold getMgr at 1. cbn [fst snd].
    destruct (negb (mapHas String.eqb n (plugins (mgr w)))); [exact Hwf|].
    unfold getConfig, bind, getMgr, ret, modifyMgr. cbn [fst snd mgr].
    rewrite emit_eq. cbn [snd]. rewrite emit_mgr. exact Hwf.
  - rewrite emit_mgr. exact Hwf.
Qed.

(** Every manager built from the empty one by calls of its methods keeps
    plugins under their names. *)
Lemma calls_wfRegistry (owner : string) (calls : list (MgrOp VdomPlugin)) :
  forall w,
    wfRegistry (plugins (mgr w)) ->
    wfRegistry (plugins (mgr (snd (forEach calls (runOp owner) w)))).
Proof.
  induction calls as [|op calls IH]; intros w Hwf; cbn [forEach].
  - exact Hwf.
  - unfold bind. pose proof (runOp_wfRegistry owner op w Hwf) as H1.
    destruct (runOp owner op w) as [[[]|e| |] w1]; cbn [snd] in *;
      try exact H1.
    apply IH, H1.
Qed.

(** *** Dependency resolution on acyclic registries *)

Section Termination.
Context (registry : list (string * VdomPlugin)) (ev : VdomLifecycleEvent).

(** More fuel does not change a result. *)
Lemma resolve_mono (fuel : nat) :
  forall n st st',
    resolve fuel registry ev n st = Some st' ->
    forall fuel', (fuel <= fuel')%nat ->
      resolve fuel' registry ev n st = Some st'.
Proof.
  induction fuel as [|fuel IH]; intros n st st' H fuel' Hle; [discriminate|].
  destruct fuel' as [|fuel']; [lia|].
  assert (Hall : forall deps st0 st1,
             resolveAll fuel registry ev deps st0 = Some st1 ->
             resolveAll fuel' registry ev deps st0 = Some st1).
  { induction deps as [|d deps IHd]; intros st0 st1 H1.
    - exact H1.
    - rewrite resolveAll_cons in *.
      destruct (resolve fuel registry ev d st0) as [st2|] eqn:E; [|discriminate].
      rewrite (IH d st0 st2 E fuel') by lia. apply IHd, H1. }
  rewrite resolve_step in *.
  destruct (setHas n (snd st)); [exact H|].
  destruct (mapGet String.eqb n registry) as [plugin|]; [|exact H].
  destruct (dependencies plugin) as [deps|]; [|exact H].
  destruct (resolveAll fuel registry ev deps st) as [st1|] eqn:E; [|discriminate].
  rewrite (Hall deps st st1 E). exact H.
Qed.

Context (rank : string -> nat)
        (Hrank : forall a b, dependsOn registry a b -> (rank b < rank a)%nat).

(** When every dependency has a smaller rank, that is when the declared
    dependencies are acyclic, [resolve] returns within a depth of one more
    than the rank of the name. *)
Lemma resolve_terminates (k : nat) :
  forall n st, (rank n <= k)%nat ->
    exists st', resolve (S k) registry ev n st = Some st'.
Proof.
  induction k as [k IH] using lt_wf_ind. intros n st Hn.
  rewrite resolve_step.
  destruct (setHas n (snd st)); [eexists; reflexivity|].
  destruct (mapGet String.eqb n registry) as [plugin|] eqn:Hget;
    [|eexists; reflexivity].
  destruct (dependencies plugin) as [deps|] eqn:Hd.
  - assert (Hall : forall ds st0,
               (forall d, In d ds -> In d deps) ->
               exists st1, resolveAll k registry ev ds st0 = Some st1).
    { induction ds as [|d ds IHd]; intros st0 Hsub.
      - eexists. reflexivity.
      - assert (Hlt : (rank d < rank n)%nat).
        { apply Hrank. exists plugin, deps. repeat split; auto.
          apply Hsub. left. reflexivity. }
        destruct k as [|k']; [lia|].
        destruct (IH k' (Nat.lt_succ_diag_r k') d st0) as [st2 E]; [lia|].
        rewrite resolveAll_cons, E.
        apply IHd. intros d' Hd'. apply Hsub. right. exact Hd'. }
    destruct (Hall deps st (fun d H => H)) as [[acc res] E].
    rewrite E. eexists; reflexivity.
  - destruct st as [acc res]. eexists; reflexivity.
Qed.

End Termination.

(** X20.  With acyclic dependencies [getPluginsForEvent] returns: when
    every plugin ranks above the registered plugins it declares as
    dependencies, a bound on the depth of the recursion exists under which
    the run list of the event is computed. *)
Theorem acyclic_dependencies_resolve (m : Manager) (ev : VdomLifecycleEvent)
    (rank : string -> nat) :
  (forall a b, dependsOn (plugins m) a b -> (rank b < rank a)%nat) ->
  exists fuel runList, pluginsForEvent fuel m ev = Some runList.
Proof.
  intro Hrank.
  set (k := list_max (map rank (mapKeys (plugins m)))).
  exists (S k).
  assert (Hall : forall names st,
             (forall n, In n names -> (rank n <= k)%nat) ->
             exists st', resolveAll (S k) (plugins m) ev names st = Some st').
  { induction names as [|n names IHn]; intros st Hk.
    - eexists. reflexivity.
    - destruct (resolve_terminates (plugins m) ev rank Hrank k n st) as [st1 E].
      { apply Hk. left. reflexivity. }
      rewrite resolveAll_cons, E. apply IHn.
      intros n' Hn'. apply Hk. right. exact Hn'. }
  destruct (Hall (mapKeys (plugins m)) ([], [])) as [[acc res] E].
  - intros n Hn. unfold k.
    pose proof (list_max_le (map rank (mapKeys (plugins m)))
                  (list_max (map rank (mapKeys (plugins m))))) as [Hmax _].
    specialize (Hmax (Nat.le_refl _)).
    rewrite Forall_forall in Hmax. apply Hmax. apply in_map. exact Hn.
  - exists acc. unfold pluginsForEvent. rewrite E. reflexivity.
Qed.

(** Without a cycle the run list is computed: dependencies come first. *)
Example pluginsForEvent_acyclic :
  option_map (map name)
    (pluginsForEvent 5
       (managerOf [ plainPlugin "A" (Some ["B"]) quietHandler;
                    plainPlugin "B" None quietHandler;
                    plainPlugin "C" (Some ["A"; "B"]) quietHandler ])
       ready)
  = Some ["B"; "A"; "C"].
Proof. reflexivity. Qed.

(** *** The statements above at scenarios *)

(** C2 on [throwingPlugin] followed by [laterPlugin]. *)
Lemma runEvent_fault_isolation_witness :
  exists results1 w1,
    dispatchOne ready hostContext throwingPlugin []
      (initWorld (managerOf [throwingPlugin; laterPlugin]))
    = (Ok results1, w1)
    /\ mapGet String.eqb "thrower" results1
       = Some {| success := false; data := None; error := Some "X" |}
    /\ view (errorsFor "thrower") w1 = [ThrownError "X"]
    /\ runEvent 5 ready hostContext
         (initWorld (managerOf [throwingPlugin; laterPlugin]))
       = dispatch ready hostContext [laterPlugin] results1 w1.
Proof.
  destruct (runEvent_fault_isolation 5 ready hostContext
              (initWorld (managerOf [throwingPlugin; laterPlugin]))
              [] throwingPlugin [laterPlugin] []
              (initWorld (managerOf [throwingPlugin; laterPlugin])) "X")
    as (results1 & w1 & H1 & H2 & H3 & H4 & _).
  - apply wfRegistry_managerOf.
  - reflexivity.
  - reflexivity.
  - reflexivity.
  - reflexivity.
  - exists results1, w1. auto.
Defined.

Example runEvent_with_throwing_plugin :
  fst (runEvent 5 ready hostContext
         (initWorld (managerOf [throwingPlugin; laterPlugin])))
  = Ok [ ("thrower", {| success := false; data := None; error := Some "X" |});
         ("later", okResult) ].
Proof. reflexivity. Qed.

(** C6 on the disabled [commandPlugin]. *)
Lemma executeCommand_disabled_witness :
  exists r,
    executeCommand "test-plugin" "test-cmd" testEntity
      (initWorld disabledManager)
    = (Ok r, initWorld disabledManager)
    /\ cmdSuccess r = false
    /\ (exists text, cmdError r = Some text /\ contains "not enabled" text)
    /\ view commandCalls
         (snd (executeCommand "test-plugin" "test-cmd" testEntity
                 (initWorld disabledManager)))
       = view commandCalls (initWorld disabledManager).
Proof.
  apply (executeCommand_disabled "test-plugin" "test-cmd" testEntity
           (initWorld disabledManager) commandPlugin testCommand);
    reflexivity.
Defined.

(** With the same plugin enabled, the command handler is invoked. *)
Example executeCommand_enabled :
  let m := {| plugins := [("test-plugin", commandPlugin)];
              enabledPlugins := ["test-plugin"];
              pluginConfigs := []; listeners := [] |} in
  let r := executeCommand "test-plugin" "test-cmd" testEntity (initWorld m) in
  fst r = Ok {| cmdSuccess := true; content := Some "test"; cmdError := None |}
  /\ view commandCalls (snd r) = [("test-plugin", "test-cmd")].
Proof. split; reflexivity. Qed.


(** C8, amended, on [firstPlugin] and [secondPlugin]. *)
Lemma run_list_fixed_at_start_witness :
  (exists invoked,
     view handlerCalls
       (snd (runEvent 5 ready hostContext
               (initWorld (managerOf [firstPlugin; secondPlugin]))))
     = invoked
     /\ Subseq invoked ["first"; "second"])
  /\ (forall resultsF wF n,
        runEvent 5 ready hostContext
          (initWorld (managerOf [firstPlugin; secondPlugin]))
        = (Ok resultsF, wF) ->
        mapGet String.eqb n resultsF <> None ->
        In n ["first"; "second"]).
Proof.
  destruct (run_list_fixed_at_start 5 ready hostContext
              (initWorld (managerOf [firstPlugin; secondPlugin]))
              [firstPlugin; secondPlugin] eq_refl)
    as ((invoked & H1 & H2) & H3 & _).
  split.
  - exists invoked. split; [exact H1|exact H2].
  - exact H3.
Defined.


(** *** More on maps and sets *)

Section StringMapFacts.
Context {V : Type}.

Lemma mapHas_keys (k : string) (m : list (string * V)) :
  mapHas String.eqb k m = true <-> In k (mapKeys m).
Proof.
  unfold mapHas, mapKeys.
  induction m as [|[k0 v0] m IH]; cbn [mapGet map fst In].
  - split; [discriminate|intros []].
  - destruct (String.eqb k k0) eqn:E.
    + apply String.eqb_eq in E. subst. split; auto.
    + apply String.eqb_neq in E. rewrite IH. split; [auto|].
      intros [H|H]; [congruence|exact H].
Qed.

Lemma mapHas_false (k : string) (m : list (string * V)) :
  mapHas String.eqb k m = false <-> ~ In k (mapKeys m).
Proof.
  rewrite <- mapHas_keys. destruct (mapHas String.eqb k m); split; congruence.
Qed.

Lemma mapKeys_mapSet (k : string) (v : V) (m : list (string * V)) :
  mapKeys (mapSet String.eqb k v m)
  = if mapHas String.eqb k m then mapKeys m else (mapKeys m ++ [k])%list.
Proof.
  unfold mapKeys, mapHas.
  induction m as [|[k0 v0] m IH]; cbn [mapSet mapGet map app].
  - reflexivity.
  - destruct (String.eqb k k0) eqn:E; cbn [map fst].
    + apply String.eqb_eq in E. subst. reflexivity.
    + rewrite IH. destruct (mapGet String.eqb k m); reflexivity.
Qed.

(** [set] on a key that is not present adds the entry at the end. *)
Lemma mapSet_fresh (k : string) (v : V) (m : list (string * V)) :
  mapHas String.eqb k m = false ->
  mapSet String.eqb k v m = (m ++ [(k, v)])%list.
Proof.
  unfold mapHas.
  induction m as [|[k0 v0] m IH]; cbn [mapSet mapGet app]; intro H.
  - reflexivity.
  - destruct (String.eqb k k0); [discriminate|]. rewrite IH by exact H.
    reflexivity.
Qed.

Lemma mapKeys_mapDelete (k : string) (m : list (string * V)) :
  mapKeys (mapDelete String.eqb k m)
  = filter (fun k' => negb (String.eqb k k')) (mapKeys m).
Proof.
  unfold mapKeys, mapDelete.
  induction m as [|[k0 v0] m IH]; cbn [filter map fst]; [reflexivity|].
  destruct (String.eqb k k0); cbn [negb map fst]; rewrite IH; reflexivity.
Qed.

Lemma mapDelete_fresh (k : string) (m : list (string * V)) :
  ~ In k (mapKeys m) -> mapDelete String.eqb k m = m.
Proof.
  unfold mapKeys, mapDelete.
  induction m as [|[k0 v0] m IH]; cbn [filter map fst In]; intro H;
    [reflexivity|].
  destruct (String.eqb k k0) eqn:E.
  - apply String.eqb_eq in E. subst. exfalso. apply H. left. reflexivity.
  - cbn [negb]. rewrite IH; [reflexivity|].
    intro Hin. apply H. right. exact Hin.
Qed.

Lemma mapDelete_mapSet_fresh (k : string) (v : V) (m : list (string * V)) :
  ~ In k (mapKeys m) -> mapDelete String.eqb k (mapSet String.eqb k v m) = m.
Proof.
  intro H. rewrite mapSet_fresh by (apply mapHas_false, H).
  unfold mapDelete. rewrite filter_app. cbn [filter fst].
  rewrite String.eqb_refl. cbn [negb]. rewrite app_nil_r.
  apply mapDelete_fresh, H.
Qed.

Lemma mapGet_NoDup_In (k : string) (v : V) (m : list (string * V)) :
  NoDup (mapKeys m) -> In (k, v) m -> mapGet String.eqb k m = Some v.
Proof.
  unfold mapKeys.
  induction m as [|[k0 v0] m IH]; cbn [mapGet map fst In]; [intros _ []|].
  intros Hnd [E|Hin].
  - inversion E; subst. rewrite String.eqb_refl. reflexivity.
  - inversion Hnd as [|? ? Hk0 Hnd']; subst.
    destruct (String.eqb k k0) eqn:E.
    + apply String.eqb_eq in E. subst k0. exfalso. apply Hk0.
      change k with (fst (k, v)). apply in_map, Hin.
    + apply IH; assumption.
Qed.

Lemma NoDup_mapSet_keys (k : string) (v : V) (m : list (string * V)) :
  NoDup (mapKeys m) -> NoDup (mapKeys (mapSet String.eqb k v m)).
Proof.
  intro H. rewrite mapKeys_mapSet.
  destruct (mapHas String.eqb k m) eqn:E; [exact H|].
  apply NoDup_app; [exact H|repeat constructor; intros []|].
  intros x Hx [<-|[]]. apply mapHas_false in E. contradiction.
Qed.

Lemma In_mapSet_keys (n k : string) (v : V) (m : list (string * V)) :
  In n (mapKeys (mapSet String.eqb k v m)) <-> n = k \/ In n (mapKeys m).
Proof.
  rewrite mapKeys_mapSet. destruct (mapHas String.eqb k m) eqn:E.
  - apply mapHas_keys in E. split; [auto|]. intros [->|H]; assumption.
  - rewrite in_app_iff. cbn [In]. split.
    + intros [H|[<-|[]]]; auto.
    + intros [->|H]; auto.
Qed.

End StringMapFacts.

Lemma In_setAdd (n k : string) (s : list string) :
  In n (setAdd k s) <-> n = k \/ In n s.
Proof.
  rewrite <- !setHas_In, setHas_setAdd, orb_true_iff, String.eqb_eq.
  reflexivity.
Qed.

Lemma setAdd_fresh (n : string) (s : list string) :
  ~ In n s -> setAdd n s = (s ++ [n])%list.
Proof.
  intro H. unfold setAdd. destruct (setHas n s) eqn:E; [|reflexivity].
  apply setHas_In in E. contradiction.
Qed.

Lemma NoDup_setAdd (k : string) (s : list string) :
  NoDup s -> NoDup (setAdd k s).
Proof.
  intro H. unfold setAdd. destruct (setHas k s) eqn:E; [exact H|].
  apply NoDup_app; [exact H|repeat constructor; intros []|].
  intros x Hx [<-|[]]. apply setHas_In in Hx. congruence.
Qed.

Lemma In_setDelete (n k : string) (s : list string) :
  In n (setDelete k s) <-> n <> k /\ In n s.
Proof.
  unfold setDelete. rewrite filter_In, negb_true_iff, String.eqb_neq.
  split; intros [H1 H2]; split; auto.
Qed.

Lemma setHas_setDelete (n k : string) (s : list string) :
  setHas n (setDelete k s) = negb (String.eqb n k) && setHas n s.
Proof.
  unfold setHas, setDelete. induction s as [|a s IH]; cbn [filter existsb].
  - rewrite andb_false_r. reflexivity.
  - destruct (String.eqb k a) eqn:E; cbn [negb existsb].
    + apply String.eqb_eq in E. subst a. rewrite IH.
      destruct (String.eqb n k); reflexivity.
    + rewrite IH. destruct (String.eqb n a) eqn:E'; [|reflexivity].
      apply String.eqb_eq in E'. subst a.
      rewrite String.eqb_sym, E. reflexivity.
Qed.

Lemma setDelete_fresh (k : string) (s : list string) :
  ~ In k s -> setDelete k s = s.
Proof.
  unfold setDelete. induction s as [|a s IH]; cbn [filter In]; intro H;
    [reflexivity|].
  destruct (String.eqb k a) eqn:E.
  - apply String.eqb_eq in E. subst. exfalso. apply H. left. reflexivity.
  - cbn [negb]. rewrite IH; [reflexivity|].
    intro Hin. apply H. right. exact Hin.
Qed.

Lemma setDelete_setAdd_fresh (k : string) (s : list string) :
  ~ In k s -> setDelete k (setAdd k s) = s.
Proof.
  intro H. rewrite (setAdd_fresh k s H).
  unfold setDelete. rewrite filter_app. cbn [filter].
  rewrite String.eqb_refl. cbn [negb]. rewrite app_nil_r.
  apply setDelete_fresh, H.
Qed.

Lemma keep_NoDup {A} (f : A -> bool) (l : list A) :
  NoDup l -> NoDup (filter f l).
Proof.
  induction 1 as [|a l Ha Hnd IH]; cbn [filter]; [constructor|].
  destruct (f a); [|exact IH]. constructor; [|exact IH].
  intro Hin. apply filter_In in Hin. apply Ha, Hin.
Qed.

(** *** The registry methods as state transformers *)

Lemma published_emit topic d w :
  view published (snd (emit topic d w))
  = (view published w ++ [(topic, d)])%list.
Proof.
  unfold emit. unfold bind at 1. unfold record at 1. cbn [fst snd].
  match goal with |- view _ (snd (?k ?w0)) = _ =>
    assert (S : silent published k) by silence
  end.
  rewrite S, view_app. reflexivity.
Qed.

Lemma handlerCalls_emit topic d w :
  view handlerCalls (snd (emit topic d w)) = view handlerCalls w.
Proof. apply silent_emit; [apply offOps_handlerCalls|reflexivity]. Qed.

Lemma register_eq (p : VdomPlugin) (w : World) :
  register p w =
  if mapHas String.eqb (name p) (plugins (mgr w))
  then (Throw (alreadyRegistered (name p)), w)
  else emit plugin_registered (DName (name p))
         (setMgr (withPlugin p (mgr w)) w).
Proof.
  unfold register, bind, getMgr. cbn [fst snd].
  destruct (mapHas String.eqb (name p) (plugins (mgr w))); reflexivity.
Qed.

Lemma enable_eq (n : string) (w : World) :
  enable n w =
  if mapHas String.eqb n (plugins (mgr w))
  then emit plugin_enabled (DName n)
         (setMgr (withEnabled (setAdd n (enabledPlugins (mgr w))) (mgr w)) w)
  else (Throw (notRegistered n), w).
Proof.
  unfold enable, bind, getMgr. cbn [fst snd].
  destruct (mapHas String.eqb n (plugins (mgr w))); reflexivity.
Qed.

Lemma disable_eq (n : string) (w : World) :
  disable n w =
  emit plugin_disabled (DName n)
    (setMgr (withEnabled (setDelete n (enabledPlugins (mgr w))) (mgr w)) w).
Proof. reflexivity. Qed.

Lemma setConfig_eq (n : string) (c : JsRecord) (w : World) :
  setConfig n c w =
  if mapHas String.eqb n (plugins (mgr w))
  then
    let m' := withConfig n (spread (configOf n (mgr w)) c) (mgr w) in
    emit plugin_configChanged (DConfigChanged n (configOf n m')) (setMgr m' w)
  else (Throw (notRegistered n), w).
Proof.
  unfold setConfig, bind, getMgr. cbn [fst snd].
  destruct (mapHas String.eqb n (plugins (mgr w))); reflexivity.
Qed.

Lemma clear_eq (w : World) :
  clear w =
  match forEach (mapValues (plugins (mgr w)))
          (fun plugin =>
             match cleanup plugin with
             | Some c => callCleanup (name plugin) c
             | None => ret tt
             end) w
  with
  | (Ok _, w1) => (Ok tt, setMgr emptyManager w1)
  | (Throw e, w1) => (Throw e, w1)
  | (Pending, w1) => (Pending, w1)
  | (Overflow, w1) => (Overflow, w1)
  end.
Proof.
  unfold clear, bind, getMgr, modifyMgr. cbn [fst snd].
  destruct (forEach _ _ w) as [[[]|e| |] w1]; reflexivity.
Qed.

Lemma callCleanup_mgr (n : string) (c : CleanupRun) (w : World) :
  mgr (snd (callCleanup n c w)) = mgr w.
Proof.
  unfold callCleanup, bind, getMgr, record, ret, throw, float.
  cbn [fst snd]. destruct c; reflexivity.
Qed.

Lemma unregister_mgr (n : string) (w : World) :
  mgr (snd (unregister n w)) = mgr w
  \/ mgr (snd (unregister n w)) = without n (mgr w).
Proof.
  rewrite unregister_eq.
  destruct (mapGet String.eqb n (plugins (mgr w))) as [plugin|].
  - destruct (cleanup plugin) as [c|].
    + pose proof (callCleanup_mgr n c w) as Hm.
      destruct (callCleanup n c w) as [[[]|e| |] w1]; cbn [snd] in *; auto.
      right. rewrite emit_mgr. cbn [mgr]. rewrite Hm. reflexivity.
    + right. rewrite emit_mgr. reflexivity.
  - right. rewrite emit_mgr. reflexivity.
Qed.

(** What holds before a loop and is kept by its body holds after it,
    however the loop ends. *)
Lemma forEach_preserves {A} (I : World -> Prop) (body : A -> M unit)
    (l : list A) :
  (forall a w, I w -> I (snd (body a w))) ->
  forall w, I w -> I (snd (forEach l body w)).
Proof.
  intro Hb. induction l as [|a l IH]; intros w Hw; cbn [forEach].
  - exact Hw.
  - unfold bind. pose proof (Hb a w Hw) as H1.
    destruct (body a w) as [[[]|e| |] w1]; cbn [snd] in *; auto.
Qed.

Lemma cleanupAll_mgr (l : list VdomPlugin) (w : World) :
  mgr (snd (forEach l (fun plugin =>
                         match cleanup plugin with
                         | Some c => callCleanup (name plugin) c
                         | None => ret tt
                         end) w)) = mgr w.
Proof.
  apply (forEach_preserves (fun w' => mgr w' = mgr w)); [|reflexivity].
  intros a w' Hw'. rewrite <- Hw'.
  destruct (cleanup a) as [c|]; [apply callCleanup_mgr|reflexivity].
Qed.

Lemma clear_mgr (w : World) :
  mgr (snd (clear w)) = mgr w \/ mgr (snd (clear w)) = emptyManager.
Proof.
  rewrite clear_eq.
  pose proof (cleanupAll_mgr (mapValues (plugins (mgr w))) w) as H1.
  destruct (forEach _ _ w) as [[[]|e| |] w1]; cbn [snd] in *;
    [right; reflexivity|left; exact H1..].
Qed.

(** *** The maps of the manager stay in step *)

Lemma consistent_empty : consistent emptyManager.
Proof.
  unfold consistent, emptyManager; cbn.
  split; [intros k p []|].
  split; [constructor|]. split; [constructor|]. split; [constructor|].
  split; intros n [].
Qed.

Lemma consistent_managerOf (l : list VdomPlugin) :
  NoDup (map name l) -> consistent (managerOf l).
Proof.
  intro Hnd.
  assert (Hk : mapKeys (plugins (managerOf l)) = map name l).
  { unfold mapKeys, managerOf; cbn [plugins]. rewrite map_map. reflexivity. }
  unfold consistent. rewrite Hk. cbn [managerOf enabledPlugins pluginConfigs].
  split; [apply wfRegistry_managerOf|].
  split; [exact Hnd|]. split; [exact Hnd|]. split; [constructor|].
  split; [auto|intros n []].
Qed.

Lemma consistent_withPlugin (p : VdomPlugin) (m : Manager) :
  consistent m -> consistent (withPlugin p m).
Proof.
  intros (Hwf & Hk & He & Hc & Hek & Hck).
  unfold consistent, withPlugin; cbn [plugins enabledPlugins pluginConfigs].
  split; [|split; [|split; [|split; [|split]]]].
  - intros k q Hin. apply mapSet_In in Hin.
    destruct Hin as [E|Hin]; [inversion E; subst; reflexivity|].
    apply Hwf, Hin.
  - apply NoDup_mapSet_keys, Hk.
  - destruct (defaultEnabled p) as [[|]|]; try exact He.
    apply NoDup_setAdd, He.
  - destruct (configSchema p); [apply NoDup_mapSet_keys, Hc|exact Hc].
  - intros n Hn. apply In_mapSet_keys.
    destruct (defaultEnabled p) as [[|]|]; try (right; apply Hek, Hn).
    apply In_setAdd in Hn. destruct Hn as [->|Hn]; [left; reflexivity|].
    right. apply Hek, Hn.
  - intros n Hn. apply In_mapSet_keys.
    destruct (configSchema p); [|right; apply Hck, Hn].
    apply In_mapSet_keys in Hn. destruct Hn as [->|Hn]; [left; reflexivity|].
    right. apply Hck, Hn.
Qed.

Lemma consistent_without (n : string) (m : Manager) :
  consistent m -> consistent (without n m).
Proof.
  intros (Hwf & Hk & He & Hc & Hek & Hck).
  unfold consistent, without; cbn [plugins enabledPlugins pluginConfigs].
  rewrite !mapKeys_mapDelete.
  split; [|split; [|split; [|split; [|split]]]].
  - intros k q Hin. apply filter_In in Hin. apply Hwf, Hin.
  - apply keep_NoDup, Hk.
  - apply keep_NoDup, He.
  - apply keep_NoDup, Hc.
  - intros n' Hn'. apply In_setDelete in Hn'. destruct Hn' as [Hne Hin].
    apply filter_In. split; [apply Hek, Hin|].
    apply negb_true_iff, String.eqb_neq. congruence.
  - intros n' Hn'. apply filter_In in Hn'. destruct Hn' as [Hin Hne].
    apply filter_In. split; [apply Hck, Hin|exact Hne].
Qed.

Lemma consistent_enable (n : string) (m : Manager) :
  mapHas String.eqb n (plugins m) = true ->
  consistent m -> consistent (withEnabled (setAdd n (enabledPlugins m)) m).
Proof.
  intros Hreg (Hwf & Hk & He & Hc & Hek & Hck).
  unfold consistent, withEnabled; cbn [plugins enabledPlugins pluginConfigs].
  repeat (split; try assumption).
  - apply NoDup_setAdd, He.
  - intros n' Hn'. apply In_setAdd in Hn'. destruct Hn' as [->|Hn'].
    + apply mapHas_keys, Hreg.
    + apply Hek, Hn'.
Qed.

Lemma consistent_disable (n : string) (m : Manager) :
  consistent m -> consistent (withEnabled (setDelete n (enabledPlugins m)) m).
Proof.
  intros (Hwf & Hk & He & Hc & Hek & Hck).
  unfold consistent, withEnabled; cbn [plugins enabledPlugins pluginConfigs].
  repeat (split; try assumption).
  - apply keep_NoDup, He.
  - intros n' Hn'. apply In_setDelete in Hn'. apply Hek, Hn'.
Qed.

Lemma consistent_withConfig (n : string) (c : JsRecord) (m : Manager) :
  mapHas String.eqb n (plugins m) = true ->
  consistent m -> consistent (withConfig n c m).
Proof.
  intros Hreg (Hwf & Hk & He & Hc & Hek & Hck).
  unfold consistent, withConfig; cbn [plugins enabledPlugins pluginConfigs].
  repeat (split; try assumption).
  - apply NoDup_mapSet_keys, Hc.
  - intros n' Hn'. apply In_mapSet_keys in Hn'. destruct Hn' as [->|Hn'].
    + apply mapHas_keys, Hreg.
    + apply Hck, Hn'.
Qed.

Lemma runOp_consistent (owner : string) (op : MgrOp VdomPlugin) (w : World) :
  consistent (mgr w) -> consistent (mgr (snd (runOp owner op w))).
Proof.
  intro H. destruct op as [p|n|n|n|n c|t d]; cbn [runOp].
  - rewrite register_eq.
    destruct (mapHas String.eqb (name p) (plugins (mgr w))); [exact H|].
    rewrite emit_mgr. apply consistent_withPlugin, H.
  - destruct (unregister_mgr n w) as [E|E]; rewrite E;
      [exact H|apply consistent_without, H].
  - rewrite enable_eq.
    destruct (mapHas String.eqb n (plugins (mgr w))) eqn:E; [|exact H].
    rewrite emit_mgr. apply consistent_enable; assumption.
  - rewrite disable_eq, emit_mgr. apply consistent_disable, H.
  - rewrite setConfig_eq.
    destruct (mapHas String.eqb n (plugins (mgr w))) eqn:E; [|exact H].
    cbv zeta. rewrite emit_mgr. apply consistent_withConfig; assumption.
  - rewrite emit_mgr. exact H.
Qed.

Lemma awaitHandler_consistent (p : VdomPlugin) (pctx : PluginContext)
    (w : World) :
  consistent (mgr w) -> consistent (mgr (snd (awaitHandler p pctx w))).
Proof.
  intro H. unfold awaitHandler. unfold bind at 1. unfold record at 1.
  cbn [fst snd]. unfold bind.
  match goal with |- context [forEach ?l ?b ?w0] =>
    pose proof (forEach_preserves (fun w => consistent (mgr w)) b l
                  (fun a w => runOp_consistent _ a w) w0 H) as H1;
    destruct (forEach l b w0) as [[[]|e| |] w1]
  end; cbn [snd] in *; try exact H1.
  destruct (outcome (handler p pctx)); exact H1.
Qed.

Lemma dispatchOne_consistent ev context p results w :
  consistent (mgr w) ->
  consistent (mgr (snd (dispatchOne ev context p results w))).
Proof.
  intro H. destruct (setHas (name p) (enabledPlugins (mgr w))) eqn:E.
  - rewrite (dispatchOne_enabled _ _ _ _ _ E).
    assert (Hs : consistent (mgr (started ev p w))).
    { unfold started. rewrite emit_mgr. exact H. }
    pose proof (awaitHandler_consistent p (contextFor ev context p (mgr w))
                  _ Hs) as H1.
    destruct (awaitHandler _ _ _) as [[r|e| |] wh]; cbn [snd] in *;
      rewrite ?emit_mgr; exact H1.
  - rewrite (dispatchOne_disabled _ _ _ _ _ E). exact H.
Qed.

Lemma dispatch_consistent ev context l :
  forall results w,
    consistent (mgr w) ->
    consistent (mgr (snd (dispatch ev context l results w))).
Proof.
  induction l as [|q l IH]; intros results w H; cbn [dispatch].
  - exact H.
  - unfold bind. pose proof (dispatchOne_consistent ev context q results w H).
    destruct (dispatchOne ev context q results w) as [[r|e| |] w1];
      cbn [snd] in *; auto.
Qed.

(** X10.  The manager starts consistent and every method keeps it so,
    whatever the handlers it runs call on it: every plugin is stored under
    its own name, no name is registered, enabled or configured twice, and
    only registered plugins are enabled or hold a configuration. *)
Theorem manager_stays_consistent :
  consistent emptyManager
  /\ forall w, consistent (mgr w) ->
       (forall p, consistent (mgr (snd (register p w))))
       /\ (forall n, consistent (mgr (snd (unregister n w))))
       /\ (forall n, consistent (mgr (snd (enable n w))))
       /\ (forall n, consistent (mgr (snd (disable n w))))
       /\ (forall n c, consistent (mgr (snd (setConfig n c w))))
       /\ (forall t l, consistent (mgr (snd (on t l w))))
       /\ (forall t l, consistent (mgr (snd (off t l w))))
       /\ consistent (mgr (snd (clear w)))
       /\ (forall fuel ev context,
             consistent (mgr (snd (runEvent fuel ev context w)))).
Proof.
  split; [apply consistent_empty|]. intros w H.
  split; [intro p; apply (runOp_consistent "" (OpRegister p) w H)|].
  split; [intro n; apply (runOp_consistent "" (OpUnregister n) w H)|].
  split; [intro n; apply (runOp_consistent "" (OpEnable n) w H)|].
  split; [intro n; apply (runOp_consistent "" (OpDisable n) w H)|].
  split; [intros n c; apply (runOp_consistent "" (OpSetConfig n c) w H)|].
  split; [intros t l; exact H|].
  split.
  { intros t l. unfold off, modifyMgr. cbn [snd mgr].
    destruct (mapGet topicEqb t (listeners (mgr w))); exact H. }
  split.
  { destruct (clear_mgr w) as [E|E]; rewrite E;
      [exact H|apply consistent_empty]. }
  intros fuel ev context.
  unfold runEvent, getPluginsForEvent. unfold bind at 1.
  unfold bind at 1. unfold getMgr at 1. cbn [fst snd].
  destruct (pluginsForEvent fuel (mgr w) ev) as [l|]; cbn [ret overflow].
  - apply dispatch_consistent, H.
  - exact H.
Qed.

(** The statement above after an event whose handler registers a
    plugin. *)
Lemma manager_stays_consistent_witness :
  consistent
    (mgr (snd (runEvent 5 ready hostContext
                 (initWorld (managerOf [spawnerPlugin]))))).
Proof.
  destruct manager_stays_consistent as [_ H].
  apply (H (initWorld (managerOf [spawnerPlugin]))).
  apply consistent_managerOf. repeat constructor. intros [].
Defined.

(** *** Registering *)

Lemma defaults_fold (schema : PluginConfigSchema) :
  NoDup (mapKeys schema) ->
  forall acc,
    (forall k, In k (mapKeys schema) -> ~ In k (mapKeys acc)) ->
    fold_left (fun defaultConfig kf =>
                 mapSet String.eqb (fst kf) (default (snd kf)) defaultConfig)
              schema acc
    = (acc ++ defaultsOf schema)%list.
Proof.
  unfold mapKeys, defaultsOf.
  induction schema as [|[k f] schema IH]; cbn [map fold_left fst snd];
    intros Hnd acc Hacc.
  - rewrite app_nil_r. reflexivity.
  - inversion Hnd as [|? ? Hk Hnd']; subst.
    rewrite mapSet_fresh by (apply mapHas_false, Hacc; left; reflexivity).
    rewrite IH; [rewrite <- app_assoc; reflexivity|exact Hnd'|].
    intros k' Hk' Hin.
    rewrite map_app, in_app_iff in Hin. cbn [map fst In] in Hin.
    destruct Hin as [Hin|[<-|[]]].
    + apply (Hacc k'); [right; exact Hk'|exact Hin].
    + contradiction.
Qed.

Lemma without_withPlugin (p : VdomPlugin) (m : Manager) :
  ~ In (name p) (mapKeys (plugins m)) ->
  (forall n, In n (enabledPlugins m) -> In n (mapKeys (plugins m))) ->
  (forall n, In n (mapKeys (pluginConfigs m)) -> In n (mapKeys (plugins m))) ->
  without (name p) (withPlugin p m) = m.
Proof.
  intros Hnk Hek Hck. destruct m as [ps en cf ls].
  unfold without, withPlugin.
  cbn [plugins enabledPlugins pluginConfigs listeners] in *.
  f_equal.
  - apply mapDelete_mapSet_fresh, Hnk.
  - assert (Hne : ~ In (name p) en) by (intro Hin; apply Hnk, Hek, Hin).
    destruct (defaultEnabled p) as [[|]|];
      [apply setDelete_setAdd_fresh|apply setDelete_fresh..]; exact Hne.
  - assert (Hnc : ~ In (name p) (mapKeys cf))
      by (intro Hin; apply Hnk, Hck, Hin).
    destruct (configSchema p);
      [apply mapDelete_mapSet_fresh|apply mapDelete_fresh]; exact Hnc.
Qed.

(** *** Configuring *)

(** Lookup in [{ ...existing, ...config }]: the last entry of [config]
    for the key, if there is one, else the entry of [existing]. *)
Lemma mapGet_spread (k : string) (config existing : JsRecord) :
  mapGet String.eqb k (spread existing config)
  = match mapGet String.eqb k (rev config) with
    | Some v => Some v
    | None => mapGet String.eqb k existing
    end.
Proof.
  unfold spread. revert existing.
  induction config as [|[k0 v0] config IH]; intro existing;
    cbn [fold_left rev fst snd].
  - reflexivity.
  - rewrite IH.
    assert (E : mapGet String.eqb k (rev config ++ [(k0, v0)])%list
                = match mapGet String.eqb k (rev config) with
                  | Some v => Some v
                  | None => if String.eqb k k0 then Some v0 else None
                  end).
    { generalize (rev config). intro l.
      induction l as [|[k1 v1] l IHl]; cbn [app mapGet]; [reflexivity|].
      destruct (String.eqb k k1); [reflexivity|exact IHl]. }
    rewrite E. destruct (mapGet String.eqb k (rev config)); [reflexivity|].
    destruct (String.eqb k k0) eqn:Ek.
    + apply String.eqb_eq in Ek. subst k0. apply mapGet_mapSet_same.
    + apply String.eqb_neq in Ek. apply mapGet_mapSet_other, Ek.
Qed.

(** *** Subscribing *)

Lemma topicEqb_eq (a b : PluginManagerEvent) : topicEqb a b = true <-> a = b.
Proof.
  unfold topicEqb. destruct (PluginManagerEvent_eq_dec a b); split;
    congruence.
Qed.

Lemma listeners_mapSet_other (t t' : PluginManagerEvent) (ls : list Listener)
    (m : list (PluginManagerEvent * list Listener)) :
  t <> t' ->
  mapGet topicEqb t (mapSet topicEqb t' ls m) = mapGet topicEqb t m.
Proof.
  intro Hne.
  assert (E : topicEqb t t' = false).
  { destruct (topicEqb t t') eqn:E; [|reflexivity].
    apply topicEqb_eq in E. contradiction. }
  induction m as [|[t0 l0] m IH]; cbn [mapSet mapGet].
  - rewrite E. reflexivity.
  - destruct (topicEqb t' t0) eqn:E0; cbn [mapGet].
    + apply topicEqb_eq in E0. subst t0. rewrite E. reflexivity.
    + destruct (topicEqb t t0); [reflexivity|exact IH].
Qed.

(** X15.  [on(event, handler)] subscribes a function once: a function
    that is subscribed already is not added again, a new one is put after
    the functions subscribed before.  The function [on] returns removes
    the subscription, so that the functions subscribed to the event are
    those subscribed before without [handler]: exactly those subscribed
    before if [handler] was not among them.  Neither call touches the
    subscriptions of another event, and neither publishes or logs
    anything. *)
Theorem on_off_spec (topic : PluginManagerEvent) (l : Listener) (w : World) :
  let subscribed :=
    existsb (fun l' => Nat.eqb (listenerId l) (listenerId l'))
            (listenersFor topic (mgr w)) in
  let w1 := snd (on topic l w) in
  let w2 := snd (off topic (listenerId l) w1) in
  listenersFor topic (mgr w1)
  = (if subscribed then listenersFor topic (mgr w)
     else (listenersFor topic (mgr w) ++ [l])%list)
  /\ listenersFor topic (mgr w2)
     = filter (fun l' => negb (Nat.eqb (listenerId l) (listenerId l')))
              (listenersFor topic (mgr w))
  /\ (subscribed = false ->
      listenersFor topic (mgr w2) = listenersFor topic (mgr w))
  /\ (forall t, t <> topic ->
        listenersFor t (mgr w1) = listenersFor t (mgr w)
        /\ listenersFor t (mgr w2) = listenersFor t (mgr w))
  /\ log w2 = log w.
Proof.
  cbv zeta.
  assert (H1 : listenersFor topic (mgr (snd (on topic l w)))
               = if existsb (fun l' => Nat.eqb (listenerId l) (listenerId l'))
                            (listenersFor topic (mgr w))
                 then listenersFor topic (mgr w)
                 else (listenersFor topic (mgr w) ++ [l])%list).
  { unfold on, modifyMgr, listenersFor. cbn [snd mgr listeners].
    rewrite listeners_mapSet.
    destruct (mapGet topicEqb topic (listeners (mgr w))); reflexivity. }
  assert (H2 : forall w',
             listenersFor topic (mgr (snd (off topic (listenerId l) w')))
             = filter (fun l' => negb (Nat.eqb (listenerId l) (listenerId l')))
                      (listenersFor topic (mgr w'))).
  { intro w'. unfold off, modifyMgr, listenersFor. cbn [snd mgr].
    destruct (mapGet topicEqb topic (listeners (mgr w'))) as [ls|] eqn:E.
    - cbn [listeners]. rewrite listeners_mapSet. reflexivity.
    - rewrite E. reflexivity. }
  assert (Hfilter : forall ls,
             existsb (fun l' => Nat.eqb (listenerId l) (listenerId l')) ls
             = false ->
             filter (fun l' => negb (Nat.eqb (listenerId l) (listenerId l')))
                    ls = ls).
  { induction ls as [|a ls IH]; cbn [existsb filter]; [reflexivity|].
    intro E. apply orb_false_iff in E. destruct E as [E1 E2].
    rewrite E1. cbn [negb]. rewrite IH by exact E2. reflexivity. }
  assert (H3 : listenersFor topic
                 (mgr (snd (off topic (listenerId l) (snd (on topic l w)))))
               = filter (fun l' => negb (Nat.eqb (listenerId l) (listenerId l')))
                        (listenersFor topic (mgr w))).
  { rewrite H2, H1.
    destruct (existsb _ (listenersFor topic (mgr w))) eqn:E; [reflexivity|].
    rewrite filter_app. cbn [filter]. rewrite Nat.eqb_refl. cbn [negb].
    apply app_nil_r. }
  split; [exact H1|]. split; [exact H3|]. split.
  { intro E. rewrite H3. apply Hfilter, E. }
  split.
  - intros t Hne.
    assert (Hon : listenersFor t (mgr (snd (on topic l w)))
                  = listenersFor t (mgr w)).
    { unfold on, modifyMgr, listenersFor. cbn [snd mgr listeners].
      rewrite listeners_mapSet_other by exact Hne. reflexivity. }
    split; [exact Hon|]. rewrite <- Hon.
    unfold off, modifyMgr, listenersFor. cbn [snd mgr].
    destruct (mapGet topicEqb topic (listeners (mgr (snd (on topic l w)))));
      [|reflexivity].
    cbn [listeners]. rewrite listeners_mapSet_other by exact Hne. reflexivity.
  - reflexivity.
Qed.

(** The statement above for a second subscriber of [plugin:enabled]. *)
Lemma on_off_spec_witness :
  let w := snd (on plugin_enabled (quietListener 1) (initWorld emptyManager)) in
  let w1 := snd (on plugin_enabled (quietListener 2) w) in
  let w2 := snd (off plugin_enabled 2 w1) in
  listenersFor plugin_enabled (mgr w1) = [quietListener 1; quietListener 2]
  /\ listenersFor plugin_enabled (mgr w2) = [quietListener 1].
Proof.
  cbv zeta.
  destruct (on_off_spec plugin_enabled (quietListener 2)
              (snd (on plugin_enabled (quietListener 1)
                      (initWorld emptyManager))))
    as (H1 & _ & H3 & _).
  split; [exact H1|]. apply H3. reflexivity.
Defined.

(** *** Clearing *)

(** The calls [clear] makes when no [cleanup] throws: the [cleanup] of
    every plugin that declares one, in registration order. *)
Lemma cleanupAll_run (registered : list string) (l : list VdomPlugin) :
  (forall p e, In p l -> cleanup p <> Some (CleanupThrows e)) ->
  forall w,
    registeredNames (mgr w) = registered ->
    exists w',
      forEach l (fun plugin =>
                   match cleanup plugin with
                   | Some c => callCleanup (name plugin) c
                   | None => ret tt
                   end) w = (Ok tt, w')
      /\ mgr w' = mgr w
      /\ view cleanupCalls w'
         = (view cleanupCalls w
            ++ map (fun p => (name p, registered)) (filter hasCleanup l))%list
      /\ view published w' = view published w
      /\ floating w'
         = (floating w ++ map name (filter hasAsyncCleanup l))%list.
Proof.
  induction l as [|p l IH]; intros Hsync w Hreg; cbn [forEach filter map].
  - exists w. rewrite !app_nil_r. repeat split.
  - assert (Hl : forall q e, In q l -> cleanup q <> Some (CleanupThrows e))
      by (intros q e Hq; apply Hsync; right; exact Hq).
    unfold bind. unfold hasCleanup at 1, hasAsyncCleanup at 1.
    destruct (cleanup p) as [c|] eqn:Hc.
    + rewrite (callCleanup_returns (name p) c w)
        by (intros e E; subst c; exact (Hsync p e (or_introl eq_refl) Hc)).
      match goal with |- context [forEach l _ ?w0] =>
        destruct (IH Hl w0 Hreg) as (w' & E & Hm & Hv & Hp & Hf)
      end.
      exists w'. rewrite E. split; [reflexivity|]. split; [exact Hm|].
      rewrite Hv, Hp, Hf. unfold view. cbn [log floating].
      rewrite !flat_map_app. cbn [flat_map cleanupCalls published map].
      rewrite Hreg, !app_nil_r, <- !app_assoc.
      split; [reflexivity|]. split; [reflexivity|].
      destruct c; reflexivity.
    + unfold ret at 1.
      destruct (IH Hl w Hreg) as (w' & E & Hm & Hv & Hp & Hf).
      exists w'. rewrite E. auto.
Qed.

(** X16.  When no [cleanup] throws, [clear] calls the [cleanup] of every
    plugin that declares one, once, in registration order and while all
    plugins are still registered; it awaits none of them; it then leaves
    the manager empty: no plugin, nothing enabled, no configuration, no
    listener; and it publishes no event. *)
Theorem clear_empties (w : World) :
  (forall p e, In p (mapValues (plugins (mgr w))) ->
               cleanup p <> Some (CleanupThrows e)) ->
  exists w',
    clear w = (Ok tt, w')
    /\ mgr w' = emptyManager
    /\ view cleanupCalls w'
       = (view cleanupCalls w
          ++ map (fun p => (name p, registeredNames (mgr w)))
                 (filter hasCleanup (mapValues (plugins (mgr w)))))%list
    /\ view published w' = view published w
    /\ floating w'
       = (floating w
          ++ map name
               (filter hasAsyncCleanup (mapValues (plugins (mgr w)))))%list.
Proof.
  intro Hsync. rewrite clear_eq.
  destruct (cleanupAll_run (registeredNames (mgr w))
              (mapValues (plugins (mgr w))) Hsync w eq_refl)
    as (w' & E & Hm & Hv & Hp & Hf).
  rewrite E. eexists. split; [reflexivity|].
  split; [reflexivity|]. split; [exact Hv|]. split; [exact Hp|exact Hf].
Qed.

(** The statement above on [asyncPlugin] and [laterPlugin]. *)
Lemma clear_empties_witness :
  exists w',
    clear (initWorld (managerOf [asyncPlugin; laterPlugin])) = (Ok tt, w')
    /\ mgr w' = emptyManager
    /\ view cleanupCalls w' = [("p", ["p"; "later"])]
    /\ view published w' = []
    /\ floating w' = ["p"].
Proof.
  apply (clear_empties (initWorld (managerOf [asyncPlugin; laterPlugin]))).
  intros p e [<-|[<-|[]]]; discriminate.
Defined.

(** X17.  A [cleanup] that throws is not caught.  [clear] stops at the
    first plugin whose [cleanup] throws: the exception leaves [clear], the
    [cleanup] of no later plugin is called, and nothing is cleared.
    [unregister] of such a plugin throws as well: the plugin stays
    registered, enabled and configured as it was, and
    [plugin:unregistered] is not published. *)
Theorem throwing_cleanup_aborts (w : World) (pre post : list VdomPlugin)
    (p : VdomPlugin) (e : Thrown) :
  mapValues (plugins (mgr w)) = (pre ++ p :: post)%list ->
  (forall q e', In q pre -> cleanup q <> Some (CleanupThrows e')) ->
  cleanup p = Some (CleanupThrows e) ->
  (exists w',
     clear w = (Throw e, w')
     /\ mgr w' = mgr w
     /\ view cleanupCalls w'
        = (view cleanupCalls w
           ++ map (fun q => (name q, registeredNames (mgr w)))
                  (filter hasCleanup pre)
           ++ [(name p, registeredNames (mgr w))])%list)
  /\ (mapGet String.eqb (name p) (plugins (mgr w)) = Some p ->
      exists w',
        unregister (name p) w = (Throw e, w')
        /\ mgr w' = mgr w
        /\ view published w' = view published w).
Proof.
  intros Hsplit Hpre Hp. split.
  - rewrite clear_eq, Hsplit.
    assert (Happ : forall (l1 l2 : list VdomPlugin) body w0,
               forEach (l1 ++ l2)%list body w0
               = bind (forEach l1 body) (fun _ => forEach l2 body) w0).
    { induction l1 as [|a l1 IH]; intros l2 body w0; cbn [app forEach].
      - reflexivity.
      - rewrite bind_assoc. apply bind_ext. intros _ w1. apply IH. }
    rewrite Happ. unfold bind at 1.
    destruct (cleanupAll_run (registeredNames (mgr w)) pre Hpre w eq_refl)
      as (w1 & E & Hm & Hv & _ & _).
    rewrite E. cbn [forEach]. unfold bind at 1. rewrite Hp.
    unfold callCleanup, bind, getMgr, record, throw. cbn [fst snd].
    eexists. split; [reflexivity|]. cbn [mgr].
    split; [exact Hm|].
    unfold view at 1. cbn [log]. rewrite flat_map_app.
    fold (view cleanupCalls w1). rewrite Hv, Hm.
    cbn [flat_map cleanupCalls]. rewrite app_nil_r, <- app_assoc. reflexivity.
  - intro Hget. rewrite unregister_eq, Hget, Hp.
    unfold callCleanup, bind, getMgr, record, throw. cbn [fst snd].
    eexists. split; [reflexivity|]. cbn [mgr]. split; [reflexivity|].
    unfold view. cbn [log]. rewrite flat_map_app. cbn [flat_map published].
    rewrite app_nil_r. reflexivity.
Qed.

(** The statement above on [failingCleanupPlugin], registered between
    [asyncPlugin] and [laterPlugin]. *)
Lemma throwing_cleanup_aborts_witness :
  let m := managerOf [asyncPlugin; failingCleanupPlugin; laterPlugin] in
  (exists w',
     clear (initWorld m) = (Throw (ThrownError "boom"), w')
     /\ mgr w' = m
     /\ view cleanupCalls w'
        = [("p", ["p"; "failing"; "later"]);
           ("failing", ["p"; "failing"; "later"])])
  /\ (exists w',
        unregister "failing" (initWorld m) = (Throw (ThrownError "boom"), w')
        /\ mgr w' = m
        /\ view published w' = []).
Proof.
  cbv zeta.
  destruct (throwing_cleanup_aborts
              (initWorld
                 (managerOf [asyncPlugin; failingCleanupPlugin; laterPlugin]))
              [asyncPlugin] [laterPlugin] failingCleanupPlugin
              (ThrownError "boom")) as [H1 H2].
  - reflexivity.
  - intros q e' [<-|[]]. discriminate.
  - reflexivity.
  - split; [exact H1|]. apply H2. reflexivity.
Defined.

(** *** The order of the run list *)

Section Order.
Context (registry : list (string * VdomPlugin)) (ev : VdomLifecycleEvent).

Lemma depsFirst_snoc (acc : list VdomPlugin) (p : VdomPlugin) :
  depsFirst registry ev acc ->
  (forall deps d q, dependencies p = Some deps -> In d deps ->
                    mapGet String.eqb d registry = Some q ->
                    runsOnEvent ev q = true -> In q acc) ->
  depsFirst registry ev (acc ++ [p])%list.
Proof.
  intros Hacc Hp l1 x l2 deps d q E Hd Hin Hq Hrun.
  induction l2 as [|y l2' _] using rev_ind.
  - apply app_inj_tail in E. destruct E as [-> ->].
    apply (Hp deps d q); assumption.
  - change (l1 ++ x :: l2' ++ [y])%list
      with (l1 ++ (x :: l2') ++ [y])%list in E.
    rewrite app_assoc in E. apply app_inj_tail in E. destruct E as [-> _].
    apply (Hacc l1 x l2' deps d q); auto.
Qed.

Lemma resolve_order (fuel : nat) :
  forall n st st',
    orderInv registry ev st ->
    resolve fuel registry ev n st = Some st' ->
    orderInv registry ev st' /\ grows st st'
    /\ (mapGet String.eqb n registry <> None -> setHas n (snd st') = true).
Proof.
  induction fuel as [|fuel IH]; intros n st st' HI Hres; [discriminate|].
  assert (Hall : forall deps st0 st1,
             orderInv registry ev st0 ->
             resolveAll fuel registry ev deps st0 = Some st1 ->
             orderInv registry ev st1 /\ grows st0 st1
             /\ forall d, In d deps -> mapGet String.eqb d registry <> None ->
                          setHas d (snd st1) = true).
  { induction deps as [|d deps IHd]; intros st0 st1 H0 H1.
    - rewrite resolveAll_nil in H1. inversion H1; subst.
      split; [exact H0|]. split; [intros s Hs; exact Hs|intros d []].
    - rewrite resolveAll_cons in H1.
      destruct (resolve fuel registry ev d st0) as [st2|] eqn:E;
        [|discriminate].
      destruct (IH d st0 st2 H0 E) as (H2 & Hg2 & Hd2).
      destruct (IHd st2 st1 H2 H1) as (H3 & Hg3 & Hd3).
      split; [exact H3|]. split; [intros s Hs; apply Hg3, Hg2, Hs|].
      intros d' [<-|Hin] Hreg; [apply Hg3, Hd2, Hreg|apply Hd3; assumption]. }
  rewrite resolve_step in Hres.
  destruct (setHas n (snd st)) eqn:Hn.
  { inversion Hres; subst. split; [exact HI|].
    split; [intros s Hs; exact Hs|intros _; exact Hn]. }
  destruct (mapGet String.eqb n registry) as [plugin|] eqn:Hget.
  2:{ inversion Hres; subst. split; [exact HI|].
      split; [intros s Hs; exact Hs|congruence]. }
  destruct (match dependencies plugin with
            | Some deps => resolveAll fuel registry ev deps st
            | None => Some st
            end) as [[acc1 res1]|] eqn:Hdeps; [|discriminate].
  inversion Hres; subst st'; clear Hres.
  assert (Hafter : orderInv registry ev (acc1, res1) /\ grows st (acc1, res1)
                   /\ forall deps d, dependencies plugin = Some deps ->
                        In d deps -> mapGet String.eqb d registry <> None ->
                        setHas d res1 = true).
  { destruct (dependencies plugin) as [deps|].
    - destruct (Hall deps st _ HI Hdeps) as (H1 & H2 & H3).
      split; [exact H1|]. split; [exact H2|].
      intros deps' d E; inversion E; subst. apply H3.
    - inversion Hdeps; subst. split; [exact HI|].
      split; [intros s Hs; exact Hs|discriminate]. }
  destruct Hafter as ((Hdf & Hres1 & Hacc1) & Hg & Hdone).
  cbn [fst snd] in *.
  split; [|split].
  - unfold orderInv. cbn [fst snd]. fold (runsOnEvent ev plugin).
    split; [|split].
    + destruct (runsOnEvent ev plugin); [|exact Hdf].
      apply depsFirst_snoc; [exact Hdf|].
      intros deps d q Hd Hin Hq Hrun. apply (Hres1 d q); auto.
      apply (Hdone deps d Hd Hin). congruence.
    + intros s q Hs Hq Hrun. rewrite setHas_setAdd in Hs.
      apply orb_true_iff in Hs. destruct Hs as [Hs|Hs].
      * apply String.eqb_eq in Hs. subst s.
        rewrite Hget in Hq. inversion Hq; subst q. rewrite Hrun.
        apply in_or_app. right. left. reflexivity.
      * pose proof (Hres1 s q Hs Hq Hrun) as Hin.
        destruct (runsOnEvent ev plugin); [apply in_or_app; left|]; exact Hin.
    + intros a Ha.
      destruct (runsOnEvent ev plugin) eqn:Hrun; [|apply Hacc1, Ha].
      apply in_app_or in Ha. destruct Ha as [Ha|[<-|[]]]; [apply Hacc1, Ha|].
      split; [exact Hrun|]. exists n. exact Hget.
  - intros s Hs. cbn [snd]. rewrite setHas_setAdd.
    pose proof (Hg s Hs) as Hs1. cbn [snd] in Hs1.
    rewrite Hs1. apply orb_true_r.
  - intros _. cbn [snd]. rewrite setHas_setAdd, String.eqb_refl. reflexivity.
Qed.

Lemma resolveAll_order (fuel : nat) :
  forall names st st',
    orderInv registry ev st ->
    resolveAll fuel registry ev names st = Some st' ->
    orderInv registry ev st' /\ grows st st'
    /\ forall n, In n names -> mapGet String.eqb n registry <> None ->
                 setHas n (snd st') = true.
Proof.
  induction names as [|n names IHn]; intros st st' H0 H1.
  - rewrite resolveAll_nil in H1. inversion H1; subst.
    split; [exact H0|]. split; [intros s Hs; exact Hs|intros n []].
  - rewrite resolveAll_cons in H1.
    destruct (resolve fuel registry ev n st) as [st2|] eqn:E; [|discriminate].
    destruct (resolve_order fuel n st st2 H0 E) as (H2 & Hg2 & Hd2).
    destruct (IHn st2 st' H2 H1) as (H3 & Hg3 & Hd3).
    split; [exact H3|]. split; [intros s Hs; apply Hg3, Hg2, Hs|].
    intros n' [<-|Hin] Hreg; [apply Hg3, Hd2, Hreg|apply Hd3; assumption].
Qed.

End Order.

(** X18.  When [getPluginsForEvent] returns, the run list holds every
    registered plugin that runs on the event and nothing else, and every
    plugin comes after the plugins it declares as dependencies that are
    registered and run on the event. *)
Theorem run_list_dependencies_first (fuel : nat) (m : Manager)
    (ev : VdomLifecycleEvent) (runList : list VdomPlugin) :
  pluginsForEvent fuel m ev = Some runList ->
  (forall n p, mapGet String.eqb n (plugins m) = Some p ->
               runsOnEvent ev p = true -> In p runList)
  /\ (forall p, In p runList ->
        runsOnEvent ev p = true
        /\ exists n, mapGet String.eqb n (plugins m) = Some p)
  /\ depsFirst (plugins m) ev runList.
Proof.
  unfold pluginsForEvent. intro H.
  destruct (resolveAll fuel (plugins m) ev (mapKeys (plugins m)) ([], []))
    as [[acc res]|] eqn:E; [|discriminate].
  inversion H; subst runList; clear H. cbn [fst].
  assert (H0 : orderInv (plugins m) ev ([], [])).
  { split; [|split].
    - intros l1 p l2 deps d q E0. destruct l1; discriminate.
    - intros s q Hs. discriminate.
    - intros a []. }
  destruct (resolveAll_order (plugins m) ev fuel _ _ _ H0 E)
    as ((Hdf & Hres & Hacc) & _ & Hdone).
  cbn [fst snd] in *.
  split; [|split; [exact Hacc|exact Hdf]].
  intros n p Hget Hrun. apply (Hres n p); [|exact Hget|exact Hrun].
  apply Hdone; [apply (mapGet_keys _ _ _ Hget)|congruence].
Qed.

(** The statement above on [dependentPlugin], registered before the
    plugin it depends on. *)
Lemma run_list_dependencies_first_witness :
  (forall n p,
     mapGet String.eqb n
       (plugins (managerOf [dependentPlugin; independentPlugin])) = Some p ->
     runsOnEvent ready p = true ->
     In p [independentPlugin; dependentPlugin])
  /\ depsFirst (plugins (managerOf [dependentPlugin; independentPlugin]))
       ready [independentPlugin; dependentPlugin].
Proof.
  destruct (run_list_dependencies_first 5
              (managerOf [dependentPlugin; independentPlugin]) ready
              [independentPlugin; dependentPlugin] eq_refl)
    as (H1 & _ & H3).
  split; [exact H1|exact H3].
Defined.

(** X19.  When no plugin declares a dependency that is registered, the
    run list is the registered plugins that run on the event, in
    registration order; a declared dependency that is not registered is
    passed over. *)
Theorem run_list_registration_order (fuel : nat) (m : Manager)
    (ev : VdomLifecycleEvent) :
  (2 <= fuel)%nat ->
  NoDup (mapKeys (plugins m)) ->
  (forall n p deps d,
     In (n, p) (plugins m) -> dependencies p = Some deps -> In d deps ->
     mapGet String.eqb d (plugins m) = None) ->
  pluginsForEvent fuel m ev
  = Some (filter (runsOnEvent ev) (mapValues (plugins m))).
Proof.
  intros Hfuel Hnd Hdeps. unfold pluginsForEvent.
  destruct fuel as [|[|fuel]]; try lia.
  set (registry := plugins m) in *.
  assert (Hskip : forall deps st,
             (forall d, In d deps -> mapGet String.eqb d registry = None) ->
             resolveAll (S fuel) registry ev deps st = Some st).
  { induction deps as [|d deps IHd]; intros st Hd.
    - reflexivity.
    - rewrite resolveAll_cons, resolve_step.
      rewrite (Hd d (or_introl eq_refl)).
      destruct (setHas d (snd st)); apply IHd; intros d' Hd';
        apply Hd; right; exact Hd'. }
  assert (Hloop : forall todo done,
             registry = (done ++ todo)%list ->
             resolveAll (S (S fuel)) registry ev (mapKeys todo)
               (filter (runsOnEvent ev) (mapValues done), mapKeys done)
             = Some (filter (runsOnEvent ev) (mapValues registry),
                     mapKeys registry)).
  { induction todo as [|[n p] todo IH]; intros done E.
    - rewrite app_nil_r in E. subst done. reflexivity.
    - change (mapKeys ((n, p) :: todo)) with (n :: mapKeys todo).
      rewrite resolveAll_cons, resolve_step. cbn [fst snd].
      assert (Hin : In (n, p) registry)
        by (rewrite E; apply in_or_app; right; left; reflexivity).
      assert (Hfresh : ~ In n (mapKeys done)).
      { unfold registry in Hnd. fold registry in Hnd. rewrite E in Hnd.
        unfold mapKeys in Hnd |- *. rewrite map_app in Hnd.
        cbn [map fst] in Hnd.
        apply NoDup_remove_2 in Hnd. intro H. apply Hnd, in_or_app. left.
        exact H. }
      assert (Hno : setHas n (mapKeys done) = false).
      { destruct (setHas n (mapKeys done)) eqn:Es; [|reflexivity].
        apply setHas_In in Es. contradiction. }
      rewrite Hno, (mapGet_NoDup_In n p registry Hnd Hin).
      assert (Hd : forall deps,
                 dependencies p = Some deps ->
                 resolveAll (S fuel) registry ev deps
                   (filter (runsOnEvent ev) (mapValues done), mapKeys done)
                 = Some (filter (runsOnEvent ev) (mapValues done),
                         mapKeys done)).
      { intros deps Ed. apply Hskip. intros d Hdin.
        apply (Hdeps n p deps d); assumption. }
      destruct (dependencies p) as [deps|] eqn:Ed;
        [rewrite (Hd deps eq_refl)|];
        rewrite (setAdd_fresh n _ Hfresh).
      all: specialize (IH (done ++ [(n, p)])%list).
      all: rewrite <- app_assoc in IH; specialize (IH E).
      all: unfold mapValues, mapKeys in IH |- *.
      all: rewrite !map_app, filter_app in IH; cbn [map filter fst snd] in IH.
      all: fold (runsOnEvent ev p).
      all: destruct (runsOnEvent ev p); [exact IH|].
      all: rewrite app_nil_r in IH; exact IH. }
  exact (f_equal (option_map fst) (Hloop registry [] eq_refl)).
Qed.

(** The statement above on [throwingPlugin] and [laterPlugin]. *)
Lemma run_list_registration_order_witness :
  pluginsForEvent 2 (managerOf [throwingPlugin; laterPlugin]) ready
  = Some (filter (runsOnEvent ready)
                 (mapValues
                    (plugins (managerOf [throwingPlugin; laterPlugin])))).
Proof.
  apply (run_list_registration_order 2
           (managerOf [throwingPlugin; laterPlugin]) ready).
  - apply Nat.le_refl.
  - repeat constructor; [intros [H|[]]; discriminate|intros []].
  - intros n p deps d [E|[E|[]]] Hd; inversion E; subst; discriminate.
Defined.

(** The statement of [acyclic_dependencies_resolve] on
    [dependentPlugin] and [independentPlugin], ranked 1 and 0. *)
Lemma acyclic_dependencies_resolve_witness :
  exists fuel runList,
    pluginsForEvent fuel (managerOf [dependentPlugin; independentPlugin])
      ready = Some runList.
Proof.
  apply (acyclic_dependencies_resolve
           (managerOf [dependentPlugin; independentPlugin]) ready
           (fun n => if String.eqb n "A" then 1%nat else 0%nat)).
  intros a b (p & deps & Hp & Hd & Hin).
  cbn [managerOf plugins map mapGet dependentPlugin independentPlugin
       plainPlugin name] in Hp.
  destruct (String.eqb a "A") eqn:Ea.
  - inversion Hp; subst p. cbn in Hd. inversion Hd; subst deps.
    destruct Hin as [<-|[]]. cbn. apply Nat.lt_0_1.
  - destruct (String.eqb a "B"); [|discriminate].
    inversion Hp; subst p. discriminate.
Defined.

(** *** A handler that never settles *)

Lemma offOps_outcomes : offOps outcomes.
Proof.
  repeat split; try reflexivity.
  intros t d H. destruct t; try discriminate; reflexivity.
Qed.

(** X22.  When the turn of an enabled plugin of the run list comes and
    the promise its handler returns never settles, [runEvent] never
    returns: the handler of the plugin has been invoked, no handler is
    invoked after it, and neither [plugin:completed] nor [plugin:error]
    is published for the plugin or for a plugin after it. *)
Theorem unsettled_handler_stalls
    (fuel : nat) (ev : VdomLifecycleEvent) (context : HostContext)
    (w0 : World) (pre : list VdomPlugin) (p : VdomPlugin)
    (post : list VdomPlugin) (results : Results) (w : World) :
  pluginsForEvent fuel (mgr w0) ev = Some (pre ++ p :: post)%list ->
  dispatch ev context pre [] w0 = (Ok results, w) ->
  setHas (name p) (enabledPlugins (mgr w)) = true ->
  fst (awaitHandler p (contextFor ev context p (mgr w)) (started ev p w))
    = Pending ->
  exists wF,
    runEvent fuel ev context w0 = (Pending, wF)
    /\ view handlerCalls wF = (view handlerCalls w ++ [name p])%list
    /\ view outcomes wF = view outcomes w.
Proof.
  intros Hrun Hpre Hen Hpend.
  pose proof (dispatchOne_enabled ev context p results w Hen) as Hone.
  pose proof (awaitHandler_calls p (contextFor ev context p (mgr w))
                (started ev p w)) as Hcalls.
  pose proof (silent_awaitHandler outcomes p
                (contextFor ev context p (mgr w)) offOps_outcomes eq_refl
                (started ev p w)) as Hsil.
  destruct (awaitHandler p (contextFor ev context p (mgr w)) (started ev p w))
    as [res wh]. cbn [fst snd] in *. subst res.
  exists wh. split; [|split].
  - rewrite (runEvent_eq _ _ _ _ _ Hrun), dispatch_app. unfold bind at 1.
    rewrite Hpre. cbn [dispatch]. unfold bind at 1. rewrite Hone. reflexivity.
  - rewrite Hcalls. unfold started. rewrite handlerCalls_emit. reflexivity.
  - rewrite Hsil. unfold started.
    apply silent_emit; [apply offOps_outcomes|reflexivity].
Qed.

(** The statement above on [stalledPlugin] followed by [laterPlugin]. *)
Lemma unsettled_handler_stalls_witness :
  exists wF,
    runEvent 5 ready hostContext
      (initWorld (managerOf [stalledPlugin; laterPlugin]))
    = (Pending, wF)
    /\ view handlerCalls wF = ["stalled"]
    /\ view outcomes wF = [].
Proof.
  apply (unsettled_handler_stalls 5 ready hostContext
           (initWorld (managerOf [stalledPlugin; laterPlugin]))
           [] stalledPlugin [laterPlugin] []
           (initWorld (managerOf [stalledPlugin; laterPlugin])));
    reflexivity.
Defined.

End RuntimeFacts.

(** ** Listeners that call back into the manager *)

Module ReentrantFacts.
Import Runtime RuntimeFacts Reentrant.
Local Open Scope string_scope.
Local Open Scope live_scope.

(** *** The loop of [emit] *)

Lemma emitFrom_step (fuel h : nat) (topic : PluginManagerEvent)
    (d : EventData) (i : nat) (s : State) :
  emitFrom (S fuel) h topic d i s
  = match nth_error (slots h s) i with
    | None => (Ok tt, s)
    | Some None => emitFrom fuel h topic d (S i) s
    | Some (Some l) =>
        (notify (emit fuel) topic d l ;;; emitFrom fuel h topic d (S i)) s
    end.
Proof. reflexivity. Qed.

Lemma notify_returns emit0 (topic : PluginManagerEvent) (d : EventData)
    (l : Subscriber) (s : State) (e : Thrown) :
  fst (notify emit0 topic d l s) <> Throw e.
Proof.
  unfold notify, ltry.
  destruct (invoke emit0 topic d l s) as [[[]|e'| |] s1]; cbn; discriminate.
Qed.

Lemma emitFrom_returns (fuel h : nat) (topic : PluginManagerEvent)
    (d : EventData) :
  forall i s e, fst (emitFrom fuel h topic d i s) <> Throw e.
Proof.
  induction fuel as [|fuel IH]; intros i s e; [discriminate|].
  rewrite emitFrom_step.
  destruct (nth_error (slots h s) i) as [[l|]|]; [|apply IH|discriminate].
  unfold lbind. pose proof (notify_returns (emit fuel) topic d l s) as H.
  destruct (notify (emit fuel) topic d l s) as [[[]|e'| |] s1]; cbn in *;
    try discriminate; [apply IH|].
  exfalso. exact (H e' eq_refl).
Qed.

(** *** What every call keeps *)

Lemma evolved_refl (l : list (option Subscriber)) : evolved l l.
Proof. intros j entry H. left. exact H. Qed.

Lemma evolved_trans (a b c : list (option Subscriber)) :
  evolved a b -> evolved b c -> evolved a c.
Proof.
  intros H1 H2 j entry H. destruct (H1 j entry H) as [E|E].
  - exact (H2 j entry E).
  - right. destruct (H2 j None E); assumption.
Qed.

Lemma later_refl (s : State) : later s s.
Proof.
  split; [exists []; rewrite app_nil_r; reflexivity|].
  intro h. apply evolved_refl.
Qed.

Lemma later_trans (a b c : State) : later a b -> later b c -> later a c.
Proof.
  intros [[t1 E1] H1] [[t2 E2] H2]. split.
  - exists (t1 ++ t2)%list. rewrite E2, E1, app_assoc. reflexivity.
  - intro h. exact (evolved_trans _ _ _ (H1 h) (H2 h)).
Qed.

(** Changing one [Set] so that it evolves makes every [Set] evolve. *)
Lemma evolved_updateAt (f : list (option Subscriber) -> list (option Subscriber))
    (Hf : forall entries, evolved entries (f entries)) :
  forall (l : list (list (option Subscriber))) (h h' : nat),
    evolved (nth h' l []) (nth h' (updateAt h f l) []).
Proof.
  induction l as [|a l IH]; intros h h';
    [destruct h; cbn [updateAt]; apply evolved_refl|].
  destruct h as [|h]; destruct h' as [|h']; cbn [updateAt nth];
    try apply evolved_refl; [apply Hf|apply IH].
Qed.

Lemma nth_new_set (l : list (list (option Subscriber))) (h : nat) :
  nth h (l ++ [[]])%list [] = nth h l [].
Proof.
  revert h. induction l as [|a l IH]; intros [|h]; cbn [app nth];
    try reflexivity; [destruct h; reflexivity|apply IH].
Qed.

Lemma keeps_lret {A} (a : A) : keeps (lret a).
Proof. intro s. apply later_refl. Qed.

Lemma keeps_lbind {A B} (c : L A) (k : A -> L B) :
  keeps c -> (forall a, keeps (k a)) -> keeps (lbind c k).
Proof.
  intros Hc Hk s. unfold lbind. pose proof (Hc s) as H1.
  destruct (c s) as [[a|e| |] s1]; cbn [snd] in *; try exact H1.
  exact (later_trans _ _ _ H1 (Hk a s1)).
Qed.

Lemma keeps_ltry {A} (c : L A) (h : Thrown -> L A) :
  keeps c -> (forall e, keeps (h e)) -> keeps (ltry c h).
Proof.
  intros Hc Hh s. unfold ltry. pose proof (Hc s) as H1.
  destruct (c s) as [[a|e| |] s1]; cbn [snd] in *; try exact H1.
  exact (later_trans _ _ _ H1 (Hh e s1)).
Qed.

Lemma keeps_lift {A} (c : M A) : growsLog c -> keeps (lift c).
Proof.
  intros H s. unfold lift. specialize (H (world s)).
  destruct (c (world s)) as [r w]. cbn [snd] in *. split; [exact H|].
  intro h. apply evolved_refl.
Qed.

Lemma growsLog_ret {A} (a : A) : growsLog (ret a).
Proof. intro w. exists []. rewrite app_nil_r. reflexivity. Qed.

Lemma growsLog_bind {A B} (c : M A) (k : A -> M B) :
  growsLog c -> (forall a, growsLog (k a)) -> growsLog (bind c k).
Proof.
  intros Hc Hk w. unfold bind. destruct (Hc w) as [t1 E1].
  destruct (c w) as [[a|e| |] w1]; cbn [snd] in *;
    try (exists t1; exact E1).
  destruct (Hk a w1) as [t2 E2]. exists (t1 ++ t2)%list.
  rewrite E2, E1, app_assoc. reflexivity.
Qed.

Lemma growsLog_record (e : LogEntry) : growsLog (record e).
Proof. intro w. exists [e]. reflexivity. Qed.

Lemma growsLog_getMgr : growsLog getMgr.
Proof. intro w. exists []. rewrite app_nil_r. reflexivity. Qed.

Lemma growsLog_throw {A} (e : Thrown) : growsLog (@throw A e).
Proof. intro w. exists []. rewrite app_nil_r. reflexivity. Qed.

Lemma growsLog_modifyMgr (f : Manager -> Manager) : growsLog (modifyMgr f).
Proof. intro w. exists []. rewrite app_nil_r. reflexivity. Qed.

Lemma growsLog_getConfig (n : string) : growsLog (getConfig n).
Proof. intro w. exists []. rewrite app_nil_r. reflexivity. Qed.

Lemma growsLog_callCleanup (n : string) (c : CleanupRun) :
  growsLog (callCleanup n c).
Proof.
  intro w. exists [CleanupCalled n (registeredNames (mgr w))].
  destruct c; reflexivity.
Qed.

Lemma growsLog_forEach {A} (l : list A) (body : A -> M unit) :
  (forall a, growsLog (body a)) -> growsLog (forEach l body).
Proof.
  intro H. induction l as [|a l IH]; cbn [forEach]; [apply growsLog_ret|].
  apply growsLog_bind; [apply H|]. intros _. exact IH.
Qed.

Lemma growsLog_clear : growsLog Runtime.clear.
Proof.
  unfold Runtime.clear. apply growsLog_bind; [apply growsLog_getMgr|].
  intro m. apply growsLog_bind; [|intros _; apply growsLog_modifyMgr].
  apply growsLog_forEach. intro p.
  destruct (cleanup p); [apply growsLog_callCleanup|apply growsLog_ret].
Qed.

Lemma keeps_record (e : LogEntry) : keeps (lift (record e)).
Proof. apply keeps_lift, growsLog_record. Qed.

Lemma keeps_getMgr : keeps (lift getMgr).
Proof. apply keeps_lift, growsLog_getMgr. Qed.

Lemma keeps_throw {A} (e : Thrown) : keeps (lift (@throw A e)).
Proof. apply keeps_lift, growsLog_throw. Qed.

Lemma keeps_modifyMgr (f : Manager -> Manager) : keeps (lift (modifyMgr f)).
Proof. apply keeps_lift, growsLog_modifyMgr. Qed.

Lemma keeps_getConfig (n : string) : keeps (lift (getConfig n)).
Proof. apply keeps_lift, growsLog_getConfig. Qed.

Lemma keeps_callCleanup (n : string) (c : CleanupRun) :
  keeps (lift (callCleanup n c)).
Proof. apply keeps_lift, growsLog_callCleanup. Qed.

Lemma keeps_setAddTo (h : nat) (l : Subscriber) : keeps (setAddTo h l).
Proof.
  intro s. unfold setAddTo. cbn [snd]. split.
  - exists []. rewrite app_nil_r. reflexivity.
  - intro h'. unfold slots. cbn [sets]. apply evolved_updateAt.
    intro entries. destruct (existsb _ _); [apply evolved_refl|].
    intros j entry H. left. rewrite nth_error_app1; [exact H|].
    apply nth_error_Some. congruence.
Qed.

Lemma keeps_setDeleteFrom (h l : nat) : keeps (setDeleteFrom h l).
Proof.
  intro s. unfold setDeleteFrom. cbn [snd]. split.
  - exists []. rewrite app_nil_r. reflexivity.
  - intro h'. unfold slots. cbn [sets]. apply evolved_updateAt.
    intros entries j entry H. rewrite nth_error_map, H. cbn [option_map].
    destruct (holds l entry); auto.
Qed.

Lemma keeps_newSet (topic : PluginManagerEvent) : keeps (newSet topic).
Proof.
  intro s. unfold newSet. cbn [snd]. split.
  - exists []. rewrite app_nil_r. reflexivity.
  - intro h. unfold slots. cbn [sets]. rewrite nth_new_set.
    apply evolved_refl.
Qed.

Lemma keeps_on (topic : PluginManagerEvent) (l : Subscriber) :
  keeps (on topic l).
Proof.
  intro s. unfold on. destruct (setOf topic s) as [h|].
  - apply keeps_setAddTo.
  - apply (keeps_lbind (newSet topic) (fun h => setAddTo h l)).
    + apply keeps_newSet.
    + intro h. apply keeps_setAddTo.
Qed.

Lemma keeps_off (topic : PluginManagerEvent) (l : nat) : keeps (off topic l).
Proof.
  intro s. unfold off. destruct (setOf topic s) as [h|].
  - apply keeps_setDeleteFrom.
  - apply later_refl.
Qed.

Lemma keeps_clear : keeps clear.
Proof.
  unfold clear. apply keeps_lbind; [apply keeps_lift, growsLog_clear|].
  intros _ s. cbn [snd]. split.
  - exists []. rewrite app_nil_r. reflexivity.
  - intro h. apply evolved_refl.
Qed.

Section MethodsKeep.
Variable emit0 : PluginManagerEvent -> EventData -> L unit.
Hypothesis emit0_keeps : forall topic d, keeps (emit0 topic d).

Lemma keeps_register (p : VdomPlugin) : keeps (register emit0 p).
Proof.
  unfold register. apply keeps_lbind; [apply keeps_getMgr|]. intro m.
  destruct (mapHas String.eqb (name p) (plugins m)); [apply keeps_throw|].
  apply keeps_lbind; [apply keeps_modifyMgr|]. intros _. apply emit0_keeps.
Qed.

Lemma keeps_unregister (n : string) : keeps (unregister emit0 n).
Proof.
  unfold unregister. apply keeps_lbind; [apply keeps_getMgr|]. intro m.
  apply keeps_lbind.
  - destruct (mapGet String.eqb n (plugins m)) as [p|]; [|apply keeps_lret].
    destruct (cleanup p); [apply keeps_callCleanup|apply keeps_lret].
  - intros _. apply keeps_lbind; [apply keeps_modifyMgr|].
    intros _. apply emit0_keeps.
Qed.

Lemma keeps_enable (n : string) : keeps (enable emit0 n).
Proof.
  unfold enable. apply keeps_lbind; [apply keeps_getMgr|]. intro m.
  destruct (negb (mapHas String.eqb n (plugins m))); [apply keeps_throw|].
  apply keeps_lbind; [apply keeps_modifyMgr|]. intros _. apply emit0_keeps.
Qed.

Lemma keeps_disable (n : string) : keeps (disable emit0 n).
Proof.
  unfold disable. apply keeps_lbind; [apply keeps_modifyMgr|].
  intros _. apply emit0_keeps.
Qed.

Lemma keeps_setConfig (n : string) (c : JsRecord) :
  keeps (setConfig emit0 n c).
Proof.
  unfold setConfig. apply keeps_lbind; [apply keeps_getMgr|]. intro m.
  destruct (negb (mapHas String.eqb n (plugins m))); [apply keeps_throw|].
  apply keeps_lbind; [apply keeps_getConfig|]. intro existing.
  apply keeps_lbind; [apply keeps_modifyMgr|]. intros _.
  apply keeps_lbind; [apply keeps_getConfig|]. intro merged.
  apply emit0_keeps.
Qed.

Lemma keeps_runCall (c : Call) : keeps (runCall emit0 c).
Proof.
  destruct c; cbn [runCall];
    auto using keeps_on, keeps_off, keeps_register, keeps_unregister,
      keeps_enable, keeps_disable, keeps_setConfig, keeps_clear.
Qed.

Lemma keeps_runCalls (cs : list Call) : keeps (runCalls emit0 cs).
Proof.
  induction cs as [|c cs IH]; cbn [runCalls]; [apply keeps_lret|].
  apply keeps_lbind; [apply keeps_runCall|]. intros _. exact IH.
Qed.

Lemma keeps_invoke (topic : PluginManagerEvent) (d : EventData)
    (l : Subscriber) : keeps (invoke emit0 topic d l).
Proof.
  unfold invoke. apply keeps_lbind; [apply keeps_record|]. intros _.
  apply keeps_lbind; [apply keeps_runCalls|]. intros _.
  destruct (snd (subscriberRun l d)); [apply keeps_throw|apply keeps_lret].
Qed.

Lemma keeps_notify (topic : PluginManagerEvent) (d : EventData)
    (l : Subscriber) : keeps (notify emit0 topic d l).
Proof.
  unfold notify. apply keeps_ltry; [apply keeps_invoke|].
  intro e. apply keeps_record.
Qed.

End MethodsKeep.

Lemma keeps_emitFrom (fuel : nat) :
  forall h topic d i, keeps (emitFrom fuel h topic d i).
Proof.
  induction fuel as [|fuel IH]; intros h topic d i s; [apply later_refl|].
  rewrite emitFrom_step.
  assert (Hemit : forall t d', keeps (emit fuel t d')).
  { intros t d'. unfold emit. apply keeps_lbind; [apply keeps_record|].
    intros _ s'. destruct (setOf t s'); [apply IH|apply later_refl]. }
  destruct (nth_error (slots h s) i) as [[l|]|];
    [|apply IH|apply later_refl].
  apply (keeps_lbind (notify (emit fuel) topic d l)
                     (fun _ => emitFrom fuel h topic d (S i))).
  - apply keeps_notify, Hemit.
  - intros _. apply IH.
Qed.

Lemma keeps_emit (fuel : nat) (topic : PluginManagerEvent) (d : EventData) :
  keeps (emit fuel topic d).
Proof.
  unfold emit. apply keeps_lbind; [apply keeps_record|].
  intros _ s. destruct (setOf topic s);
    [apply keeps_emitFrom|apply later_refl].
Qed.

(** The turn of a function starts with the record of its invocation. *)
Lemma notify_logs emit0 (topic : PluginManagerEvent) (d : EventData)
    (l : Subscriber) (s : State) :
  (forall t d', keeps (emit0 t d')) ->
  exists added,
    log (world (snd (notify emit0 topic d l s)))
    = (log (world s) ++ ListenerCalled (subscriberId l) topic d :: added)%list.
Proof.
  intro Hemit. unfold notify, ltry, invoke. unfold lbind at 1.
  unfold lift at 1, record at 1. cbn [fst snd world].
  set (s1 := withWorld _ s).
  assert (H : keeps (runCalls emit0 (fst (subscriberRun l d)) ;;;
                     match snd (subscriberRun l d) with
                     | Some e => lift (throw e)
                     | None => lret tt
                     end)).
  { apply keeps_lbind; [apply keeps_runCalls, Hemit|]. intros _.
    destruct (snd (subscriberRun l d)); [apply keeps_throw|apply keeps_lret]. }
  destruct (H s1) as [[t1 E1] _].
  destruct ((runCalls emit0 (fst (subscriberRun l d)) ;;;
             match snd (subscriberRun l d) with
             | Some e => lift (throw e)
             | None => lret tt
             end) s1) as [[[]|e| |] s2]; cbn [snd] in *.
  - exists t1. rewrite E1. unfold s1. cbn [withWorld world log].
    rewrite <- app_assoc. reflexivity.
  - exists (t1 ++ [ConsoleError (handlerErrorLine topic e)])%list.
    unfold lift, record. cbn [snd withWorld world log]. rewrite E1. unfold s1.
    cbn [withWorld world log]. rewrite <- !app_assoc. reflexivity.
  - exists t1. rewrite E1. unfold s1. cbn [withWorld world log].
    rewrite <- app_assoc. reflexivity.
  - exists t1. rewrite E1. unfold s1. cbn [withWorld world log].
    rewrite <- app_assoc. reflexivity.
Qed.

(** When the loop returns, every entry of the [Set] from [i] on that holds
    a function has had its turn. *)
Lemma emitFrom_reaches (fuel h : nat) (topic : PluginManagerEvent)
    (d : EventData) :
  forall i s s',
    emitFrom fuel h topic d i s = (Ok tt, s') ->
    exists added,
      log (world s') = (log (world s) ++ added)%list
      /\ forall j l, (i <= j)%nat ->
           nth_error (slots h s') j = Some (Some l) ->
           In (ListenerCalled (subscriberId l) topic d) added.
Proof.
  induction fuel as [|fuel IH]; intros i s s' E; [discriminate|].
  rewrite emitFrom_step in E.
  destruct (nth_error (slots h s) i) as [[l0|]|] eqn:Hi.
  - unfold lbind in E.
    pose proof (keeps_notify (emit fuel) (keeps_emit fuel) topic d l0 s)
      as [_ Hev1].
    destruct (notify_logs (emit fuel) topic d l0 s (keeps_emit fuel))
      as [t1 E1].
    destruct (notify (emit fuel) topic d l0 s) as [[[]|e| |] s1];
      try discriminate. cbn [snd] in *.
    destruct (IH (S i) s1 s' E) as (t2 & E2 & H2).
    pose proof (keeps_emitFrom fuel h topic d (S i) s1) as [_ Hev2].
    rewrite E in Hev2. cbn [snd] in Hev2.
    exists (ListenerCalled (subscriberId l0) topic d :: t1 ++ t2)%list.
    split.
    { rewrite E2, E1, <- app_assoc. reflexivity. }
    intros j l Hj Hl.
    destruct (Nat.eq_dec j i) as [->|Hne].
    + destruct (evolved_trans _ _ _ (Hev1 h) (Hev2 h) i _ Hi)
        as [H|H]; rewrite H in Hl; inversion Hl; subst.
      left. reflexivity.
    + right. apply in_or_app. right. apply (H2 j l); [lia|exact Hl].
  - destruct (IH (S i) s s' E) as (t2 & E2 & H2).
    pose proof (keeps_emitFrom fuel h topic d (S i) s) as [_ Hev].
    rewrite E in Hev. cbn [snd] in Hev.
    exists t2. split; [exact E2|]. intros j l Hj Hl.
    destruct (Nat.eq_dec j i) as [->|Hne].
    + destruct (Hev h i _ Hi) as [H|H]; rewrite H in Hl; discriminate.
    + apply (H2 j l); [lia|exact Hl].
  - inversion E; subst s'. exists []. split; [rewrite app_nil_r; reflexivity|].
    intros j l Hj Hl. exfalso.
    assert (nth_error (slots h s) j = None).
    { apply nth_error_None. apply nth_error_None in Hi. lia. }
    congruence.
Qed.

Lemma members_In (entries : list (option Subscriber)) (l : Subscriber) :
  In l (members entries) <-> exists j, nth_error entries j = Some (Some l).
Proof.
  unfold members. rewrite in_flat_map. split.
  - intros ([l'|] & Hin & Hl); [|destruct Hl].
    destruct Hl as [<-|[]]. apply In_nth_error in Hin. exact Hin.
  - intros [j Hj]. exists (Some l). split; [|left; reflexivity].
    eapply nth_error_In, Hj.
Qed.

(** What [emit] adds to the log when it returns: the invocation of every
    function that the [Set] it iterated holds at that moment. *)
Lemma emit_reaches (fuel : nat) (topic : PluginManagerEvent) (d : EventData)
    (s s' : State) :
  emit fuel topic d s = (Ok tt, s') ->
  exists added,
    log (world s') = (log (world s) ++ added)%list
    /\ forall h l, setOf topic s = Some h -> In l (members (slots h s')) ->
         In (ListenerCalled (subscriberId l) topic d) added.
Proof.
  intro E. unfold emit, lbind, lift, record in E.
  cbn [world withWorld sets listenerSets] in E.
  change (setOf topic (withWorld {| mgr := mgr (world s);
                                    log := (log (world s)
                                            ++ [Emitted topic d])%list;
                                    floating := floating (world s) |} s))
    with (setOf topic s) in E.
  destruct (setOf topic s) as [h|] eqn:Hset.
  - destruct (emitFrom_reaches fuel h topic d 0 _ s' E) as (t & Ht & Hcalls).
    cbn [withWorld world log] in Ht. exists (Emitted topic d :: t)%list.
    split.
    + rewrite Ht, <- app_assoc. reflexivity.
    + intros h' l Hh Hl. inversion Hh; subst h'.
      apply members_In in Hl. destruct Hl as [j Hj].
      right. apply (Hcalls j l); [lia|exact Hj].
  - inversion E; subst s'. exists [Emitted topic d]. split; [reflexivity|].
    intros h l Hh. discriminate Hh.
Qed.

(** *** The bound on the steps *)

Lemma extends_refl {A} (c : L A) : extends c c.
Proof. intros s r s' E _. exact E. Qed.

Lemma extends_trans {A} (a b c : L A) :
  extends a b -> extends b c -> extends a c.
Proof. intros H1 H2 s r s' E Hr. exact (H2 s r s' (H1 s r s' E Hr) Hr). Qed.

Lemma extends_lbind {A B} (c c' : L A) (k k' : A -> L B) :
  extends c c' -> (forall a, extends (k a) (k' a)) ->
  extends (lbind c k) (lbind c' k').
Proof.
  intros Hc Hk s r s' E Hr. unfold lbind in *.
  destruct (c s) as [[a|e| |] s1] eqn:Ec.
  - rewrite (Hc s _ _ Ec) by discriminate. exact (Hk a s1 r s' E Hr).
  - rewrite (Hc s _ _ Ec) by discriminate. exact E.
  - rewrite (Hc s _ _ Ec) by discriminate. exact E.
  - inversion E; subst. contradiction.
Qed.

Lemma extends_ltry {A} (c c' : L A) (h : Thrown -> L A) :
  extends c c' -> extends (ltry c h) (ltry c' h).
Proof.
  intros Hc s r s' E Hr. unfold ltry in *.
  destruct (c s) as [[a|e| |] s1] eqn:Ec.
  - rewrite (Hc s _ _ Ec) by discriminate. exact E.
  - rewrite (Hc s _ _ Ec) by discriminate. exact E.
  - rewrite (Hc s _ _ Ec) by discriminate. exact E.
  - inversion E; subst. contradiction.
Qed.

Section MethodsExtend.
Variables emit0 emit1 : PluginManagerEvent -> EventData -> L unit.
Hypothesis emit_extends : forall topic d, extends (emit0 topic d) (emit1 topic d).

Lemma extends_register (p : VdomPlugin) :
  extends (register emit0 p) (register emit1 p).
Proof.
  unfold register. apply extends_lbind; [apply extends_refl|]. intro m.
  destruct (mapHas String.eqb (name p) (plugins m)); [apply extends_refl|].
  apply extends_lbind; [apply extends_refl|]. intros _. apply emit_extends.
Qed.

Lemma extends_unregister (n : string) :
  extends (unregister emit0 n) (unregister emit1 n).
Proof.
  unfold unregister. apply extends_lbind; [apply extends_refl|]. intro m.
  apply extends_lbind; [apply extends_refl|]. intros _.
  apply extends_lbind; [apply extends_refl|]. intros _. apply emit_extends.
Qed.

Lemma extends_enable (n : string) :
  extends (enable emit0 n) (enable emit1 n).
Proof.
  unfold enable. apply extends_lbind; [apply extends_refl|]. intro m.
  destruct (negb (mapHas String.eqb n (plugins m))); [apply extends_refl|].
  apply extends_lbind; [apply extends_refl|]. intros _. apply emit_extends.
Qed.

Lemma extends_disable (n : string) :
  extends (disable emit0 n) (disable emit1 n).
Proof.
  unfold disable. apply extends_lbind; [apply extends_refl|].
  intros _. apply emit_extends.
Qed.

Lemma extends_setConfig (n : string) (c : JsRecord) :
  extends (setConfig emit0 n c) (setConfig emit1 n c).
Proof.
  unfold setConfig. apply extends_lbind; [apply extends_refl|]. intro m.
  destruct (negb (mapHas String.eqb n (plugins m))); [apply extends_refl|].
  apply extends_lbind; [apply extends_refl|]. intro existing.
  apply extends_lbind; [apply extends_refl|]. intros _.
  apply extends_lbind; [apply extends_refl|]. intro merged.
  apply emit_extends.
Qed.

Lemma extends_runCall (c : Call) : extends (runCall emit0 c) (runCall emit1 c).
Proof.
  destruct c; cbn [runCall];
    auto using extends_refl, extends_register, extends_unregister,
      extends_enable, extends_disable, extends_setConfig.
Qed.

Lemma extends_runCalls (cs : list Call) :
  extends (runCalls emit0 cs) (runCalls emit1 cs).
Proof.
  induction cs as [|c cs IH]; cbn [runCalls]; [apply extends_refl|].
  apply extends_lbind; [apply extends_runCall|]. intros _. exact IH.
Qed.

Lemma extends_notify (topic : PluginManagerEvent) (d : EventData)
    (l : Subscriber) :
  extends (notify emit0 topic d l) (notify emit1 topic d l).
Proof.
  unfold notify, invoke. apply extends_ltry.
  apply extends_lbind; [apply extends_refl|]. intros _.
  apply extends_lbind; [apply extends_runCalls|]. intros _.
  apply extends_refl.
Qed.

End MethodsExtend.

Lemma emitFrom_more_fuel (fuel : nat) :
  forall h topic d i,
    extends (emitFrom fuel h topic d i) (emitFrom (S fuel) h topic d i).
Proof.
  induction fuel as [|fuel IH]; intros h topic d i s r s' E Hr.
  - inversion E; subst. contradiction.
  - rewrite emitFrom_step in E. rewrite emitFrom_step.
    assert (Hemit : forall t d', extends (emit fuel t d') (emit (S fuel) t d')).
    { intros t d'. unfold emit. apply extends_lbind; [apply extends_refl|].
      intros _ s0 r0 s0' E0 Hr0.
      destruct (setOf t s0); [exact (IH _ _ _ _ _ _ _ E0 Hr0)|exact E0]. }
    destruct (nth_error (slots h s) i) as [[l|]|].
    + revert E Hr.
      apply (extends_lbind (notify (emit fuel) topic d l)
                           (notify (emit (S fuel)) topic d l)
                           (fun _ => emitFrom fuel h topic d (S i))
                           (fun _ => emitFrom (S fuel) h topic d (S i))).
      * apply extends_notify, Hemit.
      * intros _. apply IH.
    + exact (IH _ _ _ _ _ _ _ E Hr).
    + exact E.
Qed.

(** A result reached within a bound is reached within every larger one. *)
Lemma emit_more_fuel (fuel fuel' : nat) (topic : PluginManagerEvent)
    (d : EventData) :
  (fuel <= fuel')%nat -> extends (emit fuel topic d) (emit fuel' topic d).
Proof.
  induction 1 as [|fuel' _ IH]; [apply extends_refl|].
  apply (extends_trans _ _ _ IH). unfold emit.
  apply extends_lbind; [apply extends_refl|].
  intros _ s r s' E Hr.
  destruct (setOf topic s); [exact (emitFrom_more_fuel _ _ _ _ _ _ _ _ E Hr)|
                             exact E].
Qed.

(** *** Functions that call nothing on the manager *)

Lemma logged_logged (a b : list LogEntry) (w : World) :
  logged b (logged a w) = logged (a ++ b) w.
Proof. unfold logged. cbn [mgr log floating]. rewrite app_assoc. reflexivity. Qed.

Lemma notify_quiet emit0 (topic : PluginManagerEvent) (d : EventData)
    (l : Subscriber) (s : State) :
  fst (subscriberRun l d) = [] ->
  notify emit0 topic d l s
  = (Ok tt, withWorld (logged (turn topic d l) (world s)) s).
Proof.
  intro Hq. unfold notify, ltry, invoke, lbind, turn. rewrite Hq.
  cbn [runCalls]. unfold lift, record, lret, throw, withWorld.
  cbn [world sets listenerSets].
  destruct (snd (subscriberRun l d)) as [e|]; cbn [world sets listenerSets];
    unfold logged; cbn [mgr log floating]; rewrite <- ?app_assoc; reflexivity.
Qed.

Lemma skipn_nth {A} (l : list A) :
  forall i a, nth_error l i = Some a -> skipn i l = a :: skipn (S i) l.
Proof.
  induction l as [|b l IH]; intros [|i] a H; try discriminate.
  - inversion H. reflexivity.
  - exact (IH i a H).
Qed.

Lemma withWorld_same (s : State) : withWorld (world s) s = s.
Proof. destruct s. reflexivity. Qed.

Lemma logged_nil (w : World) : logged [] w = w.
Proof. destruct w. unfold logged. cbn [mgr log floating].
  rewrite app_nil_r. reflexivity. Qed.

Lemma emitFrom_quiet (fuel h : nat) (topic : PluginManagerEvent)
    (d : EventData) :
  forall i s,
    (forall l d', In l (members (slots h s)) -> fst (subscriberRun l d') = []) ->
    (length (slots h s) - i < fuel)%nat ->
    emitFrom fuel h topic d i s
    = (Ok tt,
       withWorld
         (logged (flat_map (fun entry =>
                              match entry with
                              | Some l => turn topic d l
                              | None => []
                              end)
                           (skipn i (slots h s)))
                 (world s)) s).
Proof.
  induction fuel as [|fuel IH]; intros i s Hq Hfuel; [lia|].
  rewrite emitFrom_step.
  pose proof (fun entry => skipn_nth (slots h s) i entry) as Hskip.
  destruct (nth_error (slots h s) i) as [[l|]|] eqn:Hi.
  - assert (Hl : In l (members (slots h s)))
      by (apply members_In; exists i; exact Hi).
    unfold lbind. rewrite (notify_quiet _ topic d l s (Hq l d Hl)).
    set (s1 := withWorld (logged (turn topic d l) (world s)) s).
    assert (Hs : slots h s1 = slots h s) by reflexivity.
    rewrite (IH (S i) s1).
    + rewrite Hs, (Hskip _ eq_refl). cbn [flat_map]. unfold s1, withWorld.
      cbn [world sets listenerSets]. rewrite logged_logged. reflexivity.
    + intros l' d' Hl'. apply Hq. exact Hl'.
    + rewrite Hs.
      assert (i < length (slots h s))%nat
        by (apply nth_error_Some; congruence).
      lia.
  - rewrite (IH (S i) s Hq).
    + rewrite (Hskip _ eq_refl). reflexivity.
    + assert (i < length (slots h s))%nat
        by (apply nth_error_Some; congruence).
      lia.
  - apply nth_error_None in Hi. rewrite skipn_all2 by exact Hi.
    cbn [flat_map]. rewrite logged_nil, withWorld_same. reflexivity.
Qed.

Lemma turns_members (topic : PluginManagerEvent) (d : EventData)
    (entries : list (option Subscriber)) :
  flat_map (fun entry => match entry with
                         | Some l => turn topic d l
                         | None => []
                         end) entries
  = flat_map (turn topic d) (members entries).
Proof.
  unfold members.
  induction entries as [|[l|] entries IH]; cbn [flat_map app];
    [reflexivity| |exact IH].
  rewrite IH. reflexivity.
Qed.

(** [emit] to functions that call nothing on the manager: each has its
    turn, in subscription order, and only the log changes. *)
Lemma emit_quiet (fuel : nat) (topic : PluginManagerEvent) (d : EventData)
    (s : State) :
  quietFor topic s ->
  (length (entriesFor topic s) < fuel)%nat ->
  emit fuel topic d s
  = (Ok tt,
     withWorld (logged (Emitted topic d
                        :: flat_map (turn topic d) (subscribed topic s))
                       (world s)) s).
Proof.
  intros Hq Hfuel. unfold emit, lbind, lift, record.
  set (s1 := withWorld _ s).
  change (setOf topic s1) with (setOf topic s).
  unfold quietFor, subscribed, entriesFor in *.
  destruct (setOf topic s) as [h|].
  - rewrite (emitFrom_quiet fuel h topic d 0 s1).
    + cbn [skipn]. change (slots h s1) with (slots h s).
      rewrite turns_members. unfold s1, withWorld, logged.
      cbn [world sets listenerSets mgr log floating].
      rewrite <- app_assoc. reflexivity.
    + exact Hq.
    + change (slots h s1) with (slots h s). lia.
  - cbn [members flat_map]. reflexivity.
Qed.

Lemma published_turns (topic : PluginManagerEvent) (d : EventData)
    (ls : list Subscriber) :
  flat_map published (flat_map (turn topic d) ls) = [].
Proof.
  induction ls as [|l ls IH]; [reflexivity|].
  cbn [flat_map]. rewrite flat_map_app, IH, app_nil_r.
  unfold turn. destruct (snd (subscriberRun l d)); reflexivity.
Qed.

(** [emit] to functions that call nothing on the manager publishes the
    event and leaves the manager and the subscriptions as they were. *)
Lemma emit_quiet_state (fuel : nat) (topic : PluginManagerEvent)
    (d : EventData) (s : State) :
  quietFor topic s -> (length (entriesFor topic s) < fuel)%nat ->
  exists s',
    emit fuel topic d s = (Ok tt, s')
    /\ mgr (world s') = mgr (world s)
    /\ floating (world s') = floating (world s)
    /\ sets s' = sets s
    /\ listenerSets s' = listenerSets s
    /\ view published (world s')
       = (view published (world s) ++ [(topic, d)])%list.
Proof.
  intros Hq Hfuel. rewrite (emit_quiet fuel topic d s Hq Hfuel).
  eexists. split; [reflexivity|]. cbn [withWorld world sets listenerSets].
  unfold view, logged. cbn [mgr log floating].
  rewrite !flat_map_app. cbn [flat_map published].
  rewrite published_turns, !app_nil_r.
  repeat split.
Qed.

(** *** The registry methods, unfolded *)

Lemma register_eq' (emit0 : PluginManagerEvent -> EventData -> L unit)
    (p : VdomPlugin) (s : State) :
  register emit0 p s =
  if mapHas String.eqb (name p) (plugins (mgr (world s)))
  then (Throw (alreadyRegistered (name p)), s)
  else emit0 plugin_registered (DName (name p))
         (withWorld (setMgr (withPlugin p (mgr (world s))) (world s)) s).
Proof.
  destruct s as [w st ls].
  unfold register, lbind, lift, getMgr, throw, modifyMgr, withWorld.
  cbn [fst snd world sets listenerSets].
  destruct (mapHas String.eqb (name p) (plugins (mgr w))); reflexivity.
Qed.

Lemma enable_eq' (emit0 : PluginManagerEvent -> EventData -> L unit)
    (n : string) (s : State) :
  enable emit0 n s =
  if mapHas String.eqb n (plugins (mgr (world s)))
  then emit0 plugin_enabled (DName n)
         (withWorld (setMgr (withEnabled
                               (setAdd n (enabledPlugins (mgr (world s))))
                               (mgr (world s))) (world s)) s)
  else (Throw (notRegistered n), s).
Proof.
  destruct s as [w st ls].
  unfold enable, lbind, lift, getMgr, throw, modifyMgr, withWorld.
  cbn [fst snd world sets listenerSets].
  destruct (mapHas String.eqb n (plugins (mgr w))); reflexivity.
Qed.

Lemma disable_eq' (emit0 : PluginManagerEvent -> EventData -> L unit)
    (n : string) (s : State) :
  disable emit0 n s =
  emit0 plugin_disabled (DName n)
    (withWorld (setMgr (withEnabled
                          (setDelete n (enabledPlugins (mgr (world s))))
                          (mgr (world s))) (world s)) s).
Proof. reflexivity. Qed.

Lemma setConfig_eq' (emit0 : PluginManagerEvent -> EventData -> L unit)
    (n : string) (c : JsRecord) (s : State) :
  setConfig emit0 n c s =
  if mapHas String.eqb n (plugins (mgr (world s)))
  then
    let m' := withConfig n (spread (configOf n (mgr (world s))) c)
                         (mgr (world s)) in
    emit0 plugin_configChanged (DConfigChanged n (configOf n m'))
      (withWorld (setMgr m' (world s)) s)
  else (Throw (notRegistered n), s).
Proof.
  destruct s as [w st ls].
  unfold setConfig, lbind, lift, getMgr, getConfig, throw, modifyMgr,
    withWorld.
  cbn [fst snd world sets listenerSets].
  destruct (mapHas String.eqb n (plugins (mgr w))); reflexivity.
Qed.

Lemma unregister_eq' (emit0 : PluginManagerEvent -> EventData -> L unit)
    (n : string) (s : State) :
  unregister emit0 n s =
  match
    match mapGet String.eqb n (plugins (mgr (world s))) with
    | Some plugin =>
        match cleanup plugin with
        | Some c => callCleanup n c (world s)
        | None => (Ok tt, world s)
        end
    | None => (Ok tt, world s)
    end
  with
  | (Ok _, w1) =>
      emit0 plugin_unregistered (DName n)
        (withWorld (setMgr (without n (mgr w1)) w1) s)
  | (Throw e, w1) => (Throw e, withWorld w1 s)
  | (Pending, w1) => (Pending, withWorld w1 s)
  | (Overflow, w1) => (Overflow, withWorld w1 s)
  end.
Proof.
  destruct s as [w st ls].
  unfold unregister, lbind, lift, getMgr, lret, withWorld.
  cbn [fst snd world sets listenerSets].
  destruct (mapGet String.eqb n (plugins (mgr w))) as [plugin|];
    [destruct (cleanup plugin) as [c|]|]; cbn [world sets listenerSets];
    try reflexivity.
  destruct (callCleanup n c w) as [[[]|e| |] w1]; reflexivity.
Qed.

(** *** [emit] *)



(** Three functions, the second of which throws: [emit] returns and all
    three are invoked, in order.  A function subscribed by the first has
    its turn in the same [emit]; a function unsubscribed by the first has
    none; and after [clear()] the iteration goes on over the [Set] it
    started with, so that a function subscribed after it has no turn. *)
Example emit_with_live_set :
  invokedBy [silentSubscriber 1; throwingSubscriber 2; silentSubscriber 3]
  = (Ok tt, [1; 2; 3]%nat)
  /\ invokedBy [subscriber 1 plugin_enabled 4; silentSubscriber 2]
     = (Ok tt, [1; 2; 4]%nat)
  /\ invokedBy [unsubscriber 1 plugin_enabled 2; silentSubscriber 2;
                silentSubscriber 3] = (Ok tt, [1; 3]%nat)
  /\ invokedBy [clearer 1 plugin_enabled 4; silentSubscriber 2]
     = (Ok tt, [1; 2]%nat).
Proof. repeat split. Qed.

(** *** The registry methods with listeners that stay out of the manager *)

(** X11.  [register] of a plugin whose name is not registered, the
    functions subscribed to [plugin:registered] making no call on the
    manager: it stores the plugin after the plugins registered before,
    enables it exactly if [defaultEnabled] is true, stores as its
    configuration every key of its schema with the default of the key, in
    schema order (and stores none for a plugin without schema), leaves the
    other plugins and the subscriptions as they were, and publishes
    [plugin:registered] once.  [register] of a name that is registered
    throws and changes nothing, whatever the subscribed functions do. *)
Theorem register_spec (fuel : nat) (p : VdomPlugin) (s : State) :
  (mapGet String.eqb (name p) (plugins (mgr (world s))) = None ->
   quietFor plugin_registered s ->
   (length (entriesFor plugin_registered s) < fuel)%nat ->
   exists s',
     register (emit fuel) p s = (Ok tt, s')
     /\ plugins (mgr (world s'))
        = (plugins (mgr (world s)) ++ [(name p, p)])%list
     /\ mapGet String.eqb (name p) (plugins (mgr (world s'))) = Some p
     /\ (forall n, setHas n (enabledPlugins (mgr (world s')))
                   = (match defaultEnabled p with
                      | Some true => String.eqb n (name p)
                      | _ => false
                      end || setHas n (enabledPlugins (mgr (world s)))))
     /\ (forall schema,
           configSchema p = Some schema -> NoDup (mapKeys schema) ->
           configOf (name p) (mgr (world s')) = defaultsOf schema)
     /\ (configSchema p = None ->
         pluginConfigs (mgr (world s')) = pluginConfigs (mgr (world s)))
     /\ (forall n, n <> name p ->
           configOf n (mgr (world s')) = configOf n (mgr (world s)))
     /\ sets s' = sets s
     /\ listenerSets s' = listenerSets s
     /\ view published (world s')
        = (view published (world s)
           ++ [(plugin_registered, DName (name p))])%list)
  /\ (mapGet String.eqb (name p) (plugins (mgr (world s))) <> None ->
      register (emit fuel) p s = (Throw (alreadyRegistered (name p)), s)).
Proof.
  rewrite register_eq'. unfold mapHas. split.
  - intros Hfresh Hq Hfuel. rewrite Hfresh.
    destruct (emit_quiet_state fuel plugin_registered (DName (name p))
                (withWorld (setMgr (withPlugin p (mgr (world s))) (world s)) s)
                Hq Hfuel)
      as (s' & E & Hm & _ & Hs & Hl & Hp).
    exists s'. split; [exact E|]. rewrite Hm, Hs, Hl, Hp.
    cbn [withWorld world sets listenerSets setMgr mgr withPlugin plugins
         enabledPlugins pluginConfigs].
    split; [apply mapSet_fresh; unfold mapHas; rewrite Hfresh;
            reflexivity|].
    split; [apply mapGet_mapSet_same|].
    split.
    { intro n. destruct (defaultEnabled p) as [[|]|]; try reflexivity.
      apply setHas_setAdd. }
    split.
    { intros schema Hsc Hnd. unfold configOf, withPlugin.
      cbn [pluginConfigs]. rewrite Hsc.
      rewrite mapGet_mapSet_same.
      rewrite (defaults_fold schema Hnd []); [reflexivity|]. intros k _ []. }
    split.
    { intro Hsc. rewrite Hsc. reflexivity. }
    split.
    { intros n Hne. unfold configOf, withPlugin. cbn [pluginConfigs].
      destruct (configSchema p); [|reflexivity].
      rewrite mapGet_mapSet_other by exact Hne. reflexivity. }
    repeat split.
  - intro Hdup.
    destruct (mapGet String.eqb (name p) (plugins (mgr (world s))));
      [reflexivity|congruence].
Qed.

(** The statement above on [spawnedPlugin], registered after
    [spawnerPlugin] with a throwing function subscribed, and a second
    time. *)
Lemma register_spec_witness :
  let s := subscribedTo (managerOf [spawnerPlugin])
             [(plugin_registered, throwingSubscriber 1)] in
  (exists s',
     register (emit 4) spawnedPlugin s = (Ok tt, s')
     /\ plugins (mgr (world s'))
        = [("spawner", spawnerPlugin); ("spawned", spawnedPlugin)]
     /\ view published (world s') = [(plugin_registered, DName "spawned")])
  /\ register (emit 4) spawnedPlugin
       (subscribedTo (managerOf [spawnerPlugin; spawnedPlugin]) [])
     = (Throw (alreadyRegistered "spawned"),
        subscribedTo (managerOf [spawnerPlugin; spawnedPlugin]) []).
Proof.
  cbv zeta.
  destruct (register_spec 4 spawnedPlugin
              (subscribedTo (managerOf [spawnerPlugin])
                 [(plugin_registered, throwingSubscriber 1)])) as [H _].
  destruct (register_spec 4 spawnedPlugin
              (subscribedTo (managerOf [spawnerPlugin; spawnedPlugin]) []))
    as [_ H'].
  split.
  - destruct H as (s' & H1 & H2 & _ & _ & _ & _ & _ & _ & _ & H9).
    + reflexivity.
    + intros l d [<-|[]]. reflexivity.
    + cbn. lia.
    + exists s'. split; [exact H1|]. split; [exact H2|exact H9].
  - apply H'. discriminate.
Defined.

(** X12.  In a consistent manager, the functions subscribed to
    [plugin:registered] and to [plugin:unregistered] making no call on the
    manager: registering a plugin under a name that is not registered and
    unregistering that name again, the [cleanup] of the plugin not
    throwing, leaves the manager as it was: the same plugins in the same
    order, the same enabled set, the same configurations and
    subscriptions; [plugin:registered] and [plugin:unregistered] are
    published, in this order. *)
Theorem register_unregister (fuel : nat) (p : VdomPlugin) (s : State) :
  consistent (mgr (world s)) ->
  mapGet String.eqb (name p) (plugins (mgr (world s))) = None ->
  (forall e, cleanup p <> Some (CleanupThrows e)) ->
  quietFor plugin_registered s -> quietFor plugin_unregistered s ->
  (length (entriesFor plugin_registered s) < fuel)%nat ->
  (length (entriesFor plugin_unregistered s) < fuel)%nat ->
  exists s1 s2,
    register (emit fuel) p s = (Ok tt, s1)
    /\ unregister (emit fuel) (name p) s1 = (Ok tt, s2)
    /\ mgr (world s2) = mgr (world s)
    /\ sets s2 = sets s
    /\ listenerSets s2 = listenerSets s
    /\ view published (world s2)
       = (view published (world s)
          ++ [(plugin_registered, DName (name p));
              (plugin_unregistered, DName (name p))])%list.
Proof.
  intros (Hwf & Hk & He & Hc & Hek & Hck) Hfresh Hsync Hq1 Hq2 Hf1 Hf2.
  assert (Hnk : ~ In (name p) (mapKeys (plugins (mgr (world s))))).
  { apply mapHas_false. unfold mapHas. rewrite Hfresh. reflexivity. }
  rewrite register_eq'. unfold mapHas. rewrite Hfresh.
  destruct (emit_quiet_state fuel plugin_registered (DName (name p))
              (withWorld (setMgr (withPlugin p (mgr (world s))) (world s)) s)
              Hq1 Hf1)
    as (s1 & E1 & Hm1 & _ & Hs1 & Hl1 & Hp1).
  cbn [withWorld world sets listenerSets setMgr mgr] in Hm1, Hs1, Hl1.
  change (view published (world (withWorld
            (setMgr (withPlugin p (mgr (world s))) (world s)) s)))
    with (view published (world s)) in Hp1.
  exists s1. rewrite E1.
  enough (exists s2,
            unregister (emit fuel) (name p) s1 = (Ok tt, s2)
            /\ mgr (world s2) = mgr (world s)
            /\ sets s2 = sets s
            /\ listenerSets s2 = listenerSets s
            /\ view published (world s2)
               = (view published (world s)
                  ++ [(plugin_registered, DName (name p));
                      (plugin_unregistered, DName (name p))])%list)
    as (s2 & H) by (exists s2; split; [reflexivity|exact H]).
  rewrite unregister_eq', Hm1.
  cbn [withPlugin plugins]. rewrite mapGet_mapSet_same.
  assert (Hout : forall w1,
             mgr w1 = withPlugin p (mgr (world s)) ->
             view published w1 = view published (world s1) ->
             exists s2,
               emit fuel plugin_unregistered (DName (name p))
                 (withWorld (setMgr (without (name p) (mgr w1)) w1) s1)
               = (Ok tt, s2)
               /\ mgr (world s2) = mgr (world s)
               /\ sets s2 = sets s
               /\ listenerSets s2 = listenerSets s
               /\ view published (world s2)
                  = (view published (world s)
                     ++ [(plugin_registered, DName (name p));
                         (plugin_unregistered, DName (name p))])%list).
  { intros w1 Hm Hv.
    destruct (emit_quiet_state fuel plugin_unregistered (DName (name p))
                (withWorld (setMgr (without (name p) (mgr w1)) w1) s1))
      as (s2 & E2 & Hm2 & _ & Hs2 & Hl2 & Hp2).
    - unfold quietFor, subscribed, entriesFor, setOf, slots, withWorld.
      cbn [sets listenerSets]. rewrite Hs1, Hl1. exact Hq2.
    - unfold entriesFor, setOf, slots, withWorld.
      cbn [sets listenerSets]. rewrite Hs1, Hl1. exact Hf2.
    - exists s2. split; [exact E2|].
      cbn [withWorld world sets listenerSets setMgr mgr] in Hm2, Hs2, Hl2.
      split; [rewrite Hm2, Hm; apply without_withPlugin; assumption|].
      split; [congruence|]. split; [congruence|].
      rewrite Hp2.
      change (view published (world (withWorld
                (setMgr (without (name p) (mgr w1)) w1) s1)))
        with (view published w1).
      rewrite Hv, Hp1, <- app_assoc. reflexivity. }
  destruct (cleanup p) as [c|] eqn:Hc'.
  - rewrite (callCleanup_returns (name p) c (world s1))
      by (intros e E; subst c; exact (Hsync e eq_refl)).
    apply Hout.
    + cbn [mgr]. exact Hm1.
    + unfold view. cbn [log]. rewrite flat_map_app. cbn [flat_map published].
      rewrite app_nil_r. reflexivity.
  - apply Hout; [exact Hm1|reflexivity].
Qed.

(** The statement above on [asyncPlugin], registered after
    [spawnerPlugin], with a throwing function subscribed to either
    event. *)
Lemma register_unregister_witness :
  let s := subscribedTo (managerOf [spawnerPlugin])
             [(plugin_registered, throwingSubscriber 1);
              (plugin_unregistered, throwingSubscriber 2)] in
  exists s1 s2,
    register (emit 4) asyncPlugin s = (Ok tt, s1)
    /\ unregister (emit 4) "p" s1 = (Ok tt, s2)
    /\ mgr (world s2) = managerOf [spawnerPlugin]
    /\ sets s2 = sets s
    /\ listenerSets s2 = listenerSets s
    /\ view published (world s2)
       = [(plugin_registered, DName "p"); (plugin_unregistered, DName "p")].
Proof.
  cbv zeta.
  apply (register_unregister 4 asyncPlugin
           (subscribedTo (managerOf [spawnerPlugin])
              [(plugin_registered, throwingSubscriber 1);
               (plugin_unregistered, throwingSubscriber 2)])).
  - apply consistent_managerOf. repeat constructor. intros [].
  - reflexivity.
  - discriminate.
  - intros l d [<-|[]]. reflexivity.
  - intros l d [<-|[]]. reflexivity.
  - cbn. lia.
  - cbn. lia.
Defined.

(** X13.  [enable] of a name that is not registered throws and changes
    nothing.  Of a registered name, the functions subscribed to
    [plugin:enabled] making no call on the manager, it makes [isEnabled]
    true for that name and leaves it as it was for every other, leaves the
    manager unchanged if the name was enabled already, and publishes
    [plugin:enabled] in either case.  [disable], the functions subscribed
    to [plugin:disabled] making no call on the manager, returns whatever
    the name: it makes [isEnabled] false for the name and leaves it as it
    was for every other, leaves the manager unchanged if the name was not
    enabled, and publishes [plugin:disabled] in either case.  [disable]
    never throws, whatever the subscribed functions do. *)
Theorem enable_disable_spec (fuel : nat) (n : string) (s : State) :
  (mapHas String.eqb n (plugins (mgr (world s))) = false ->
   enable (emit fuel) n s = (Throw (notRegistered n), s))
  /\ (mapHas String.eqb n (plugins (mgr (world s))) = true ->
      quietFor plugin_enabled s ->
      (length (entriesFor plugin_enabled s) < fuel)%nat ->
      exists s',
        enable (emit fuel) n s = (Ok tt, s')
        /\ (forall n', setHas n' (enabledPlugins (mgr (world s')))
                       = String.eqb n' n
                         || setHas n' (enabledPlugins (mgr (world s))))
        /\ (setHas n (enabledPlugins (mgr (world s))) = true ->
            mgr (world s') = mgr (world s))
        /\ plugins (mgr (world s')) = plugins (mgr (world s))
        /\ pluginConfigs (mgr (world s')) = pluginConfigs (mgr (world s))
        /\ sets s' = sets s
        /\ listenerSets s' = listenerSets s
        /\ view published (world s')
           = (view published (world s) ++ [(plugin_enabled, DName n)])%list)
  /\ (quietFor plugin_disabled s ->
      (length (entriesFor plugin_disabled s) < fuel)%nat ->
      exists s',
        disable (emit fuel) n s = (Ok tt, s')
        /\ (forall n', setHas n' (enabledPlugins (mgr (world s')))
                       = negb (String.eqb n' n)
                         && setHas n' (enabledPlugins (mgr (world s))))
        /\ (setHas n (enabledPlugins (mgr (world s))) = false ->
            mgr (world s') = mgr (world s))
        /\ plugins (mgr (world s')) = plugins (mgr (world s))
        /\ pluginConfigs (mgr (world s')) = pluginConfigs (mgr (world s))
        /\ sets s' = sets s
        /\ listenerSets s' = listenerSets s
        /\ view published (world s')
           = (view published (world s) ++ [(plugin_disabled, DName n)])%list)
  /\ (forall e, fst (disable (emit fuel) n s) <> Throw e).
Proof.
  split; [|split; [|split]].
  - intro H. rewrite enable_eq', H. reflexivity.
  - intros H Hq Hfuel. rewrite enable_eq', H.
    destruct (emit_quiet_state fuel plugin_enabled (DName n)
                (withWorld (setMgr (withEnabled
                              (setAdd n (enabledPlugins (mgr (world s))))
                              (mgr (world s))) (world s)) s) Hq Hfuel)
      as (s' & E & Hm & _ & Hs & Hl & Hp).
    exists s'. split; [exact E|]. rewrite Hm, Hs, Hl, Hp.
    cbn [withWorld world sets listenerSets setMgr mgr withEnabled
         plugins enabledPlugins pluginConfigs].
    split; [intro n'; apply setHas_setAdd|].
    split; [|repeat split].
    intro Hon. unfold setAdd. rewrite Hon. destruct (mgr (world s));
      reflexivity.
  - intros Hq Hfuel. rewrite disable_eq'.
    destruct (emit_quiet_state fuel plugin_disabled (DName n)
                (withWorld (setMgr (withEnabled
                              (setDelete n (enabledPlugins (mgr (world s))))
                              (mgr (world s))) (world s)) s) Hq Hfuel)
      as (s' & E & Hm & _ & Hs & Hl & Hp).
    exists s'. split; [exact E|]. rewrite Hm, Hs, Hl, Hp.
    cbn [withWorld world sets listenerSets setMgr mgr withEnabled
         plugins enabledPlugins pluginConfigs].
    split; [intro n'; apply setHas_setDelete|].
    split; [|repeat split].
    intro Hoff. rewrite setDelete_fresh.
    + destruct (mgr (world s)); reflexivity.
    + rewrite <- setHas_In. congruence.
  - intro e. rewrite disable_eq'. unfold emit, lbind, lift, record.
    destruct (setOf plugin_disabled (withWorld _ _));
      [apply emitFrom_returns|discriminate].
Qed.

(** The statement above on a name that is not registered and on
    [laterPlugin], which is enabled already, a throwing function being
    subscribed to [plugin:enabled]. *)
Lemma enable_disable_spec_witness :
  let s := subscribedTo (managerOf [laterPlugin])
             [(plugin_enabled, throwingSubscriber 1)] in
  enable (emit 4) "ghost" s = (Throw (notRegistered "ghost"), s)
  /\ (exists s',
        enable (emit 4) "later" s = (Ok tt, s')
        /\ mgr (world s') = managerOf [laterPlugin]
        /\ view published (world s') = [(plugin_enabled, DName "later")])
  /\ (exists s',
        disable (emit 4) "ghost" s = (Ok tt, s')
        /\ mgr (world s') = managerOf [laterPlugin]
        /\ view published (world s') = [(plugin_disabled, DName "ghost")]).
Proof.
  cbv zeta.
  set (s := subscribedTo (managerOf [laterPlugin])
              [(plugin_enabled, throwingSubscriber 1)]).
  destruct (enable_disable_spec 4 "ghost" s) as (H1 & _ & H3 & _).
  destruct (enable_disable_spec 4 "later" s) as (_ & H2 & _).
  split; [apply H1; reflexivity|]. split.
  - destruct H2 as (s' & E & _ & Hm & _ & _ & _ & _ & Hp).
    + reflexivity.
    + intros l d [<-|[]]. reflexivity.
    + cbn. lia.
    + exists s'. split; [exact E|].
      split; [apply Hm; reflexivity|exact Hp].
  - destruct H3 as (s' & E & _ & Hm & _ & _ & _ & _ & Hp).
    + intros l d [].
    + cbn. lia.
    + exists s'. split; [exact E|].
      split; [apply Hm; reflexivity|exact Hp].
Defined.



End ReentrantFacts.

(** ** The handler of the table detector *)

Module TableDetectorHandlerFacts.
Import TableDetector TableDetectorFacts TableDetectorHandler.
Import Runtime.
Local Open Scope string_scope.

Section NatMap.
Context {V : Type}.

Lemma natGet_natSet (k k' : nat) (v : V) (m : list (nat * V)) :
  mapGet Nat.eqb k (mapSet Nat.eqb k' v m)
  = if Nat.eqb k k' then Some v else mapGet Nat.eqb k m.
Proof.
  induction m as [|[k0 v0] m IH]; cbn [mapSet mapGet].
  - reflexivity.
  - destruct (Nat.eqb k' k0) eqn:E; cbn [mapGet].
    + apply Nat.eqb_eq in E. subst k0.
      destruct (Nat.eqb k k'); reflexivity.
    + destruct (Nat.eqb k k0) eqn:E0.
      * apply Nat.eqb_eq in E0. subst k0.
        rewrite Nat.eqb_sym, E. reflexivity.
      * exact IH.
Qed.

Lemma natSet_keys (k : nat) (v : V) (m : list (nat * V)) :
  mapKeys (mapSet Nat.eqb k v m)
  = if mapHas Nat.eqb k m then mapKeys m else (mapKeys m ++ [k])%list.
Proof.
  unfold mapKeys, mapHas.
  induction m as [|[k0 v0] m IH]; cbn [mapSet mapGet map app].
  - reflexivity.
  - destruct (Nat.eqb k k0) eqn:E; cbn [map fst].
    + apply Nat.eqb_eq in E. subst. reflexivity.
    + rewrite IH. destruct (mapGet Nat.eqb k m); reflexivity.
Qed.

Lemma natGet_keys (k : nat) (m : list (nat * V)) :
  mapHas Nat.eqb k m = true <-> In k (mapKeys m).
Proof.
  unfold mapHas, mapKeys.
  induction m as [|[k0 v0] m IH]; cbn [mapGet map fst In].
  - split; [discriminate|intros []].
  - destruct (Nat.eqb k k0) eqn:E.
    + apply Nat.eqb_eq in E. subst. split; auto.
    + apply Nat.eqb_neq in E. rewrite IH. split; [auto|].
      intros [H|H]; [congruence|exact H].
Qed.

Lemma natGet_In (k : nat) (v : V) (m : list (nat * V)) :
  NoDup (mapKeys m) -> In (k, v) m -> mapGet Nat.eqb k m = Some v.
Proof.
  unfold mapKeys.
  induction m as [|[k0 v0] m IH]; cbn [mapGet map fst In]; [intros _ []|].
  intros Hnd [E|Hin].
  - inversion E; subst. rewrite Nat.eqb_refl. reflexivity.
  - inversion Hnd as [|? ? Hk0 Hnd']; subst.
    destruct (Nat.eqb k k0) eqn:E.
    + apply Nat.eqb_eq in E. subst k0. exfalso. apply Hk0.
      change k with (fst (k, v)). apply in_map, Hin.
    + apply IH; assumption.
Qed.

End NatMap.

Lemma groupByPage_spec (ocrBlocks : list OcrNode) :
  forall acc,
    NoDup (mapKeys acc) ->
    let out :=
      fold_left
        (fun blocksByPage block =>
           match ocrBBox block with
           | None => blocksByPage
           | Some bb =>
               let pageBlocks :=
                 match mapGet Nat.eqb (ocrPageNumber block) blocksByPage with
                 | Some l => l
                 | None => []
                 end in
               mapSet Nat.eqb (ocrPageNumber block)
                 (pageBlocks ++ [toClusterBlock block bb])%list blocksByPage
           end) ocrBlocks acc in
    NoDup (mapKeys out)
    /\ forall p,
         match mapGet Nat.eqb p out with
         | Some l =>
             l = (match mapGet Nat.eqb p acc with Some l0 => l0 | None => [] end
                  ++ boxedOn p ocrBlocks)%list
         | None => mapGet Nat.eqb p acc = None /\ boxedOn p ocrBlocks = []
         end.
Proof.
  induction ocrBlocks as [|b bs IH]; intros acc Hnd; cbn [fold_left].
  - cbv zeta. split; [exact Hnd|]. intro p. cbn [boxedOn flat_map].
    destruct (mapGet Nat.eqb p acc); [rewrite app_nil_r|]; auto.
  - cbv zeta. destruct (ocrBBox b) as [bb|] eqn:Hbb.
    + match goal with |- context [fold_left _ bs ?a] => set (acc1 := a) end.
      assert (Hnd1 : NoDup (mapKeys acc1)).
      { unfold acc1. rewrite natSet_keys.
        destruct (mapHas Nat.eqb (ocrPageNumber b) acc) eqn:Hh; [exact Hnd|].
        apply NoDup_app; [exact Hnd|repeat constructor; intros []|].
        intros x Hx [<-|[]]. apply natGet_keys in Hx. congruence. }
      destruct (IH acc1 Hnd1) as [H1 H2]. cbv zeta in H1, H2.
      split; [exact H1|]. intro p. specialize (H2 p).
      unfold boxedOn. cbn [flat_map]. rewrite Hbb. fold (boxedOn p bs).
      unfold acc1 in H2 at 2 3. rewrite natGet_natSet in H2.
      destruct (Nat.eqb p (ocrPageNumber b)) eqn:Ep.
      * apply Nat.eqb_eq in Ep. subst p.
        destruct (mapGet Nat.eqb (ocrPageNumber b) (fold_left _ bs acc1)) as [l|].
        -- rewrite H2. destruct (mapGet Nat.eqb (ocrPageNumber b) acc);
             rewrite <- ?app_assoc; reflexivity.
        -- destruct H2 as [H2 _]. discriminate.
      * cbn [app]. exact H2.
    + destruct (IH acc Hnd) as [H1 H2]. cbv zeta in H1, H2.
      split; [exact H1|]. intro p. specialize (H2 p).
      unfold boxedOn. cbn [flat_map]. rewrite Hbb. cbn [app].
      exact H2.
Qed.

Lemma groupByPage_pages (ocrBlocks : list OcrNode) :
  NoDup (mapKeys (groupByPage ocrBlocks))
  /\ forall p l, In (p, l) (groupByPage ocrBlocks) -> l = boxedOn p ocrBlocks.
Proof.
  destruct (groupByPage_spec ocrBlocks [] (NoDup_nil _)) as [H1 H2].
  cbv zeta in H1, H2. fold (groupByPage ocrBlocks) in H1, H2.
  split; [exact H1|]. intros p l Hin.
  specialize (H2 p). rewrite (natGet_In p l _ H1 Hin) in H2. exact H2.
Qed.

(** What the handler uses of a table reported for one page. *)
Lemma page_tables (bs : list ClusterBlock) (page : nat)
    (cfg : CoordTableDetectorConfig) (now : Z) (t : DetectedTable) :
  In t (detectTablesOnPage bs page cfg now) ->
  detectTablesOnPage bs page cfg now = [t]
  /\ pageNumber t = page
  /\ (minRows cfg * minColumns cfg <= length bs)%nat
  /\ confidenceThreshold cfg <= confidence t <= 1
  /\ Permutation (blockIds t) (map id bs).
Proof.
  intro Hin.
  destruct (page_table_facts bs page cfg now t Hin)
    as (E & Hp & Hn & _ & _ & Hc & [_ Hc1] & _ & _ & Hperm & _).
  split; [exact E|]. split; [exact Hp|]. split; [exact Hn|].
  split; [split; assumption|exact Hperm].
Qed.

Lemma detectAll_In (cfg : CoordTableDetectorConfig) (now : nat -> Z)
    (groups : list (nat * list ClusterBlock)) (t : DetectedTable) :
  In t (detectAll cfg now groups) ->
  exists l, In (pageNumber t, l) groups
            /\ In t (detectTablesOnPage l (pageNumber t) cfg
                       (now (pageNumber t))).
Proof.
  unfold detectAll. intro H. apply in_flat_map in H.
  destruct H as ([p l] & Hin & Ht). cbn [fst snd] in Ht.
  destruct (page_tables _ _ _ _ _ Ht) as (_ & <- & _).
  exists l. auto.
Qed.

Lemma detectAll_pages (cfg : CoordTableDetectorConfig) (now : nat -> Z)
    (groups : list (nat * list ClusterBlock)) :
  NoDup (mapKeys groups) ->
  NoDup (map pageNumber (detectAll cfg now groups)).
Proof.
  unfold mapKeys, detectAll.
  induction groups as [|[p l] groups IH]; cbn [map flat_map fst snd];
    intro Hnd; [constructor|].
  inversion Hnd as [|? ? Hp Hnd']; subst.
  rewrite map_app. apply NoDup_app; [|apply IH, Hnd'|].
  - destruct (detectTablesOnPage l p cfg (now p)) as [|t ts] eqn:E;
      [constructor|].
    destruct (page_tables l p cfg (now p) t) as (E' & _).
    { rewrite E. left. reflexivity. }
    rewrite E in E'. inversion E'; subst ts.
    repeat constructor. intros [].
  - intros x Hx Hx'. apply in_map_iff in Hx. destruct Hx as (t & <- & Ht).
    destruct (page_tables _ _ _ _ _ Ht) as (_ & E & _).
    apply in_map_iff in Hx'. destruct Hx' as (t' & E' & Ht').
    apply detectAll_In in Ht'. destruct Ht' as (l' & Hin' & _).
    apply Hp. rewrite <- E, <- E'.
    change (pageNumber t') with (fst (pageNumber t', l')). apply in_map, Hin'.
Qed.

Lemma handlerTables_eq (cfg : CoordTableDetectorConfig) (now : nat -> Z)
    (ocrBlocks : list OcrNode) :
  handlerTables cfg now ocrBlocks = detectAll cfg now (groupByPage ocrBlocks).
Proof. destruct ocrBlocks; reflexivity. Qed.

Lemma handlerTables_pages (cfg : CoordTableDetectorConfig) (now : nat -> Z)
    (ocrBlocks : list OcrNode) :
  NoDup (map pageNumber (handlerTables cfg now ocrBlocks)).
Proof.
  rewrite handlerTables_eq. apply detectAll_pages, groupByPage_pages.
Qed.

(** X23.  The handler reports at most one table for a page, whatever the
    order in which the blocks of the pages arrive; a block without a box
    takes no part.  A table it reports for a page holds the ids of exactly
    the blocks of that page that have a box, each once; there are at least
    [minRows * minColumns] of them; it has at least [minRows] rows and
    [minColumns] columns and a confidence between the threshold and 1; and
    its box encloses the box of every such block. *)
Theorem handler_one_table_per_page (cfg : CoordTableDetectorConfig)
    (now : nat -> Z) (ocrBlocks : list OcrNode) :
  NoDup (map pageNumber (handlerTables cfg now ocrBlocks))
  /\ forall t, In t (handlerTables cfg now ocrBlocks) ->
       Permutation (blockIds t)
                   (map id (boxedOn (pageNumber t) ocrBlocks))
       /\ (minRows cfg * minColumns cfg
           <= length (boxedOn (pageNumber t) ocrBlocks))%nat
       /\ (minRows cfg <= rowCount t)%nat
       /\ (minColumns cfg <= columnCount t)%nat
       /\ confidenceThreshold cfg <= confidence t <= 1
       /\ forall b, In b (boxedOn (pageNumber t) ocrBlocks) ->
                    Geometry.inside (bbox b) (tableBBox t).
Proof.
  split; [apply handlerTables_pages|].
  intros t Ht. rewrite handlerTables_eq in Ht.
  destruct (groupByPage_pages ocrBlocks) as [_ Hgroups].
  apply detectAll_In in Ht. destruct Ht as (l & Hin & Ht).
  rewrite (Hgroups _ _ Hin) in Ht.
  destruct (page_table_facts _ _ _ _ _ Ht)
    as (_ & _ & Hn & Hr & Hc & Hlo & [_ Hhi] & _ & _ & Hperm & Hbox).
  split; [exact Hperm|]. split; [exact Hn|]. split; [exact Hr|].
  split; [exact Hc|]. split; [split; assumption|exact Hbox].
Qed.

Lemma natSet_total (k : nat) (x : ClusterBlock)
    (m : list (nat * list ClusterBlock)) :
  list_sum (map (fun g => length (snd g))
              (mapSet Nat.eqb k
                 (match mapGet Nat.eqb k m with Some l => l | None => [] end
                  ++ [x])%list m))
  = S (list_sum (map (fun g => length (snd g)) m)).
Proof.
  unfold list_sum.
  induction m as [|[k0 l0] m IH]; cbn [mapGet mapSet map fold_right snd].
  - reflexivity.
  - destruct (Nat.eqb k k0); cbn [map fold_right snd].
    + rewrite length_app. cbn [length]. lia.
    + rewrite IH. lia.
Qed.

Lemma groupByPage_total (ocrBlocks : list OcrNode) :
  list_sum (map (fun g => length (snd g)) (groupByPage ocrBlocks))
  = length (boxed ocrBlocks).
Proof.
  unfold groupByPage.
  assert (H : forall acc,
             list_sum (map (fun g => length (snd g))
                         (fold_left
                            (fun blocksByPage block =>
                               match ocrBBox block with
                               | None => blocksByPage
                               | Some bb =>
                                   let pageBlocks :=
                                     match mapGet Nat.eqb
                                             (ocrPageNumber block)
                                             blocksByPage with
                                     | Some l => l
                                     | None => []
                                     end in
                                   mapSet Nat.eqb (ocrPageNumber block)
                                     (pageBlocks
                                      ++ [toClusterBlock block bb])%list
                                     blocksByPage
                               end) ocrBlocks acc))
             = (list_sum (map (fun g => length (snd g)) acc)
                + length (boxed ocrBlocks))%nat).
  { induction ocrBlocks as [|b bs IH]; intro acc; cbn [fold_left boxed filter].
    - cbn [length]. lia.
    - rewrite IH. fold (boxed bs).
      destruct (ocrBBox b) as [bb|]; cbn [length]; [|reflexivity].
      cbv zeta. rewrite natSet_total. lia. }
  rewrite H. reflexivity.
Qed.

Lemma fold_sum_nat {A} (f : A -> nat) (l : list A) :
  forall n, fold_left (fun sum t => (sum + f t)%nat) l n
            = (n + list_sum (map f l))%nat.
Proof.
  unfold list_sum.
  induction l as [|a l IH]; intro n; cbn [fold_left map fold_right].
  - lia.
  - rewrite IH. lia.
Qed.

Lemma detectAll_blocks (cfg : CoordTableDetectorConfig) (now : nat -> Z)
    (groups : list (nat * list ClusterBlock)) :
  (list_sum (map (fun t => length (blockIds t)) (detectAll cfg now groups))
   <= list_sum (map (fun g => length (snd g)) groups))%nat.
Proof.
  unfold detectAll.
  induction groups as [|[p l] groups IH]; cbn [flat_map map fst snd].
  - apply Nat.le_refl.
  - rewrite map_app, list_sum_app.
    change (list_sum (length l :: ?r)) with (length l + list_sum r)%nat.
    enough (list_sum (map (fun t => length (blockIds t))
                        (detectTablesOnPage l p cfg (now p))) <= length l)%nat
      by lia.
    destruct (detectTablesOnPage l p cfg (now p)) as [|t rest] eqn:E;
      [cbn; lia|].
    destruct (page_tables l p cfg (now p) t) as (E' & _ & _ & _ & Hperm).
    { rewrite E. left. reflexivity. }
    rewrite E' in E. inversion E; subst rest. cbn [map].
    unfold list_sum; cbn [fold_right].
    rewrite (Permutation_length Hperm), length_map. lia.
Qed.

Lemma distinct_NoDup (l : list nat) : NoDup l -> distinct l = l.
Proof.
  unfold distinct.
  assert (H : forall acc, NoDup (acc ++ l) ->
              fold_left (fun s n => TableDetector.setAdd n s) l acc
              = (acc ++ l)%list).
  { induction l as [|n l IH]; intros acc Hnd; cbn [fold_left].
    - rewrite app_nil_r. reflexivity.
    - assert (Hn : existsb (Nat.eqb n) acc = false).
      { destruct (existsb (Nat.eqb n) acc) eqn:E; [|reflexivity].
        apply existsb_exists in E. destruct E as (x & Hx & Ex).
        apply Nat.eqb_eq in Ex. subst x.
        apply NoDup_remove_2 in Hnd. exfalso. apply Hnd.
        apply in_or_app. left. exact Hx. }
      unfold TableDetector.setAdd at 2. rewrite Hn.
      rewrite IH; rewrite <- app_assoc; [reflexivity|exact Hnd]. }
  intro Hnd. apply (H [] Hnd).
Qed.

Lemma ascending_strict (l : list nat) :
  NoDup l ->
  StronglySorted (fun a b => inject_Z (Z.of_nat a) <= inject_Z (Z.of_nat b)) l ->
  StronglySorted lt l.
Proof.
  induction 2 as [|a l Hs IH Ha]; [constructor|].
  inversion H as [|? ? Hnotin Hnd]; subst.
  constructor; [apply IH, Hnd|].
  rewrite Forall_forall in Ha |- *. intros x Hx.
  specialize (Ha x Hx). rewrite <- Zle_Qle in Ha.
  assert (a <> x) by (intro; subst; contradiction). lia.
Qed.

(** X24.  The statistics the handler reports agree with its tables:
    [tablesDetected] is their number; [blocksInTables] is at most the
    number of blocks that have a box, which is at most [totalBlocks];
    and [pagesWithTables] lists the pages of the tables, each once, in
    increasing order. *)
Theorem handler_stats_bounds (cfg : CoordTableDetectorConfig)
    (now : nat -> Z) (ocrBlocks : list OcrNode) :
  let s := handlerStats cfg now ocrBlocks in
  tablesDetected s = length (handlerTables cfg now ocrBlocks)
  /\ (blocksInTables s <= length (boxed ocrBlocks))%nat
  /\ (length (boxed ocrBlocks) <= totalBlocks s)%nat
  /\ (forall pages, pagesWithTables s = Some pages ->
        StronglySorted lt pages
        /\ Permutation pages (map pageNumber (handlerTables cfg now ocrBlocks))).
Proof.
  destruct ocrBlocks as [|b0 bs0].
  { cbn. repeat split; try lia; try discriminate. }
  pose proof (handlerTables_pages cfg now (b0 :: bs0)) as Hnd.
  unfold handlerStats, handlerTables in *. cbv iota zeta in *.
  set (ocrBlocks := b0 :: bs0) in *.
  set (allTables := detectAll cfg now (groupByPage ocrBlocks)) in *.
  cbn [tablesDetected blocksInTables totalBlocks pagesWithTables].
  split; [reflexivity|]. split; [|split].
  - rewrite fold_sum_nat. cbn [Nat.add].
    rewrite <- groupByPage_total. apply detectAll_blocks.
  - unfold boxed. apply filter_length_le.
  - intros pages E. inversion E; subst pages; clear E.
    rewrite (distinct_NoDup _ Hnd). split.
    + apply ascending_strict.
      * apply (Permutation_NoDup (Permutation_sym (sortBy_perm _ _)) Hnd).
      * apply (sortBy_ascending (fun n => inject_Z (Z.of_nat n))).
    + apply sortBy_perm.
Qed.

(** The handler on [twoPages]: one table, on page 1, of the six blocks
    with a box; the block without a box and the single block of page 2
    are in no table. *)
Example handler_on_twoPages :
  let tables := handlerTables defaultConfig (fun _ => 0%Z) twoPages in
  let stats := handlerStats defaultConfig (fun _ => 0%Z) twoPages in
  map pageNumber tables = [1%nat]
  /\ map blockIds tables = [["b1"; "b2"; "b3"; "b4"; "b5"; "b6"]]
  /\ (totalBlocks stats, tablesDetected stats, blocksInTables stats)
     = (8%nat, 1%nat, 6%nat)
  /\ pagesWithTables stats = Some [1%nat].
Proof. cbv zeta. repeat split; vm_compute; reflexivity. Qed.

End TableDetectorHandlerFacts.

(** ** The orphan detector *)

Module OrphanDetectorFacts.
Import Float64 Float64Facts Utils UtilsFacts OrphanDetector.
Local Open Scope string_scope.

Lemma covers_monotone (t t' : float) (bb : BBox) (e : OcrNode) :
  leb t t' = true -> covers t' bb e = true -> covers t bb e = true.
Proof.
  intro Hle. unfold covers. destruct (ocrBBox e) as [eb|]; [|auto].
  unfold geb. intro H. exact (leb_trans _ _ _ Hle H).
Qed.

(** X25.  Raising the coverage threshold never takes a block out of the
    orphans: the orphans at a threshold are among the orphans at every
    higher one. *)
Theorem orphans_monotone (t t' : float)
    (ocrBlocks semanticEntities : list OcrNode) :
  leb t t' = true ->
  incl (orphansOf t ocrBlocks semanticEntities)
       (orphansOf t' ocrBlocks semanticEntities).
Proof.
  intros Hle b Hb. unfold orphansOf in *. apply filter_In in Hb.
  destruct Hb as [Hin Ho]. apply filter_In. split; [exact Hin|].
  unfold isOrphan in *. destruct (ocrBBox b) as [bb|]; [|reflexivity].
  apply negb_true_iff in Ho. apply negb_true_iff.
  destruct (existsb (covers t' bb) semanticEntities) eqn:E; [|reflexivity].
  apply existsb_exists in E. destruct E as (e & He & Hc).
  rewrite <- Ho. symmetry. apply existsb_exists. exists e.
  split; [exact He|]. apply (covers_monotone t t'); assumption.
Qed.

(** The statement above on a block half of which the table covers. *)
Lemma orphans_monotone_witness :
  incl (orphansOf half
          [nodeAt "b1" 1 20 10; nodeAt "h" 1 20 60; nodeAt "b5" 1 20 90]
          [tableEntity])
       (orphansOf one
          [nodeAt "b1" 1 20 10; nodeAt "h" 1 20 60; nodeAt "b5" 1 20 90]
          [tableEntity]).
Proof. apply orphans_monotone. vm_compute. reflexivity. Defined.



Lemma distinct_spec (l : list nat) :
  NoDup (TableDetectorHandler.distinct l)
  /\ forall x, In x (TableDetectorHandler.distinct l) <-> In x l.
Proof.
  unfold TableDetectorHandler.distinct.
  assert (H : forall acc, NoDup acc ->
              NoDup (fold_left (fun s n => TableDetector.setAdd n s) l acc)
              /\ forall x, In x (fold_left (fun s n => TableDetector.setAdd n s)
                                   l acc)
                           <-> In x acc \/ In x l).
  { induction l as [|n l IH]; intros acc Hnd; cbn [fold_left].
    - split; [exact Hnd|]. intro x. cbn [In]. tauto.
    - assert (Hadd : NoDup (TableDetector.setAdd n acc)
                     /\ forall x, In x (TableDetector.setAdd n acc)
                                  <-> In x acc \/ x = n).
      { unfold TableDetector.setAdd.
        destruct (existsb (Nat.eqb n) acc) eqn:E.
        - split; [exact Hnd|]. intro x. split; [auto|].
          intros [H| ->]; [exact H|].
          apply existsb_exists in E. destruct E as (y & Hy & Ey).
          apply Nat.eqb_eq in Ey. subst y. exact Hy.
        - split.
          + apply NoDup_app; [exact Hnd|repeat constructor; intros []|].
            intros x Hx [E'|[]]. subst x.
            assert (existsb (Nat.eqb n) acc = true)
              by (apply existsb_exists; exists n; split;
                  [exact Hx|apply Nat.eqb_refl]).
            congruence.
          + intro x. rewrite in_app_iff. cbn [In]. split.
            * intros [H|[<-|[]]]; auto.
            * intros [H| ->]; auto. }
      destruct Hadd as [Hnd' Hin'].
      destruct (IH _ Hnd') as [H1 H2]. split; [exact H1|].
      intro x. rewrite H2, Hin'. cbn [In]. split.
      + intros [[H|H]|H]; auto.
      + intros [H|[H|H]]; auto. }
  destruct (H [] (NoDup_nil _)) as [H1 H2]. split; [exact H1|].
  intro x. rewrite H2. cbn [In]. tauto.
Qed.

(** X27.  The statistics of the orphan detector add up: covered and
    orphan blocks together are all blocks; the coverage ratio lies between
    0 and 1 and is 1 when there is no orphan (also when there is no block
    at all); and [pagesWithOrphans] lists, each once and in increasing
    order, exactly the pages that hold an orphan. *)
Theorem orphanStats_consistent (t : float)
    (ocrBlocks semanticEntities : list OcrNode) :
  let s := orphanStats t ocrBlocks semanticEntities in
  (coveredBlocks s + orphanBlocks s = totalOcrBlocks s)%nat
  /\ 0 <= coverageRatio s <= 1
  /\ (orphanBlocks s = 0%nat -> coverageRatio s == 1)
  /\ StronglySorted lt (pagesWithOrphans s)
  /\ (forall p, In p (pagesWithOrphans s)
                <-> exists b, In b (orphansOf t ocrBlocks semanticEntities)
                              /\ ocrPageNumber b = p).
Proof.
  cbv zeta. unfold orphanStats.
  cbn [coveredBlocks orphanBlocks totalOcrBlocks coverageRatio pagesWithOrphans].
  set (orphans := orphansOf t ocrBlocks semanticEntities).
  assert (Hle : (length orphans <= length ocrBlocks)%nat)
    by (apply filter_length_le).
  assert (HleQ : TableDetector.len orphans <= TableDetector.len ocrBlocks).
  { unfold TableDetector.len. rewrite <- Zle_Qle. lia. }
  assert (Hnn : 0 <= TableDetector.len orphans) by apply TableDetectorFacts.len_nonneg.
  split; [lia|]. split; [|split; [|split]].
  - destruct (0 <? length ocrBlocks)%nat eqn:E; [|split; discriminate].
    apply Nat.ltb_lt in E.
    assert (Hpos : 0 < TableDetector.len ocrBlocks).
    { unfold TableDetector.len. change 0 with (inject_Z 0).
      rewrite <- Zlt_Qlt. lia. }
    split.
    + apply Qle_shift_div_l; [exact Hpos|]. lra.
    + apply Qle_shift_div_r; [exact Hpos|]. lra.
  - intro H0. destruct (0 <? length ocrBlocks)%nat eqn:E; [|reflexivity].
    apply Nat.ltb_lt in E.
    assert (Hpos : 0 < TableDetector.len ocrBlocks).
    { unfold TableDetector.len. change 0 with (inject_Z 0).
      rewrite <- Zlt_Qlt. lia. }
    assert (E0 : TableDetector.len orphans == 0).
    { unfold TableDetector.len. rewrite H0. reflexivity. }
    rewrite E0. field. lra.
  - destruct (distinct_spec (map ocrPageNumber orphans)) as [Hnd _].
    apply TableDetectorHandlerFacts.ascending_strict.
    + apply (Permutation_NoDup
               (Permutation_sym (TableDetectorFacts.sortBy_perm _ _)) Hnd).
    + apply (TableDetectorFacts.sortBy_ascending (fun n => inject_Z (Z.of_nat n))).
  - intro p. destruct (distinct_spec (map ocrPageNumber orphans)) as [_ Hin].
    split.
    + intro H.
      apply (Permutation_in _ (TableDetectorFacts.sortBy_perm _ _)) in H.
      apply Hin, in_map_iff in H. destruct H as (b & E & Hb). exists b. auto.
    + intros (b & Hb & E).
      apply (Permutation_in _
               (Permutation_sym (TableDetectorFacts.sortBy_perm _ _))).
      apply Hin, in_map_iff. exists b. auto.
Qed.

(** The detector on [twoPages] with the table of page 1: the block of
    page 2 counts as covered by it, the two blocks below the table and
    the block without a box are orphans. *)
Example orphans_on_twoPages :
  let stats := orphanStats half twoPages [tableEntity] in
  map ocrId (orphansOf half twoPages [tableEntity]) = ["u"; "b5"; "b6"]
  /\ (totalOcrBlocks stats, coveredBlocks stats, orphanBlocks stats)
     = (8%nat, 5%nat, 3%nat)
  /\ coverageRatio stats == 5 # 8
  /\ pagesWithOrphans stats = [1%nat].
Proof. cbv zeta. repeat split; vm_compute; reflexivity. Qed.


End OrphanDetectorFacts.

(** ** Validation of configurations *)

Module ConfigValidationFacts.
Import Float64 ConfigValidation.
Local Open Scope string_scope.

Lemma checkField_conforms (config : JsObject) (key : string)
    (f : ConfigField) :
  checkField config key f = [] <-> conforms (effectiveValue config key f) f.
Proof.
  unfold checkField, conforms. cbv zeta.
  destruct (String.eqb (fieldType f) "number") eqn:En.
  { apply String.eqb_eq in En. rewrite En. cbn [String.eqb Ascii.eqb Bool.eqb].
    destruct (effectiveValue config key f) as [| |b|x|s|r]; split;
      try discriminate;
      try (intros (H & _); congruence);
      try (intros (_ & H & _); destruct (H eq_refl) as (x' & E & _);
           discriminate).
    - intro H. apply app_eq_nil in H. destruct H as [H1 H2].
      split; [discriminate|]. split; [|repeat split; discriminate].
      intros _. exists x. split; [reflexivity|]. split.
      + intros lo Hlo. rewrite Hlo in H1.
        destruct (ltb x lo); [discriminate|reflexivity].
      + intros hi Hhi. rewrite Hhi in H2.
        destruct (gtb x hi); [discriminate|reflexivity].
    - intros (_ & H & _). destruct (H eq_refl) as (x' & E & Hlo & Hhi).
      inversion E; subst x'.
      assert (E1 : match fieldMin f with
                   | Some lo => if ltb x lo then [MustBeAtLeast key lo]
                                else []
                   | None => []
                   end = []).
      { destruct (fieldMin f) as [lo|]; [|reflexivity].
        rewrite (Hlo lo eq_refl). reflexivity. }
      assert (E2 : match fieldMax f with
                   | Some hi => if gtb x hi then [MustBeAtMost key hi]
                                else []
                   | None => []
                   end = []).
      { destruct (fieldMax f) as [hi|]; [|reflexivity].
        rewrite (Hhi hi eq_refl). reflexivity. }
      rewrite E1, E2. reflexivity. }
  destruct (String.eqb (fieldType f) "string") eqn:Es.
  { apply String.eqb_eq in Es. rewrite Es.
    destruct (effectiveValue config key f) as [| |b|x|s|r]; split;
      try discriminate;
      try (intros (H & _); congruence);
      try (intros (_ & _ & H & _); destruct (H eq_refl) as (s' & E);
           discriminate).
    all: try reflexivity.
    all: intros _; split; [discriminate|]; repeat split; try discriminate;
      intros _; eexists; reflexivity. }
  destruct (String.eqb (fieldType f) "boolean") eqn:Eb.
  { apply String.eqb_eq in Eb. rewrite Eb.
    destruct (effectiveValue config key f) as [| |b|x|s|r]; split;
      try discriminate;
      try (intros (H & _); congruence);
      try (intros (_ & _ & _ & H & _); destruct (H eq_refl) as (s' & E);
           discriminate).
    all: try reflexivity.
    all: intros _; split; [discriminate|]; repeat split; try discriminate;
      intros _; eexists; reflexivity. }
  apply String.eqb_neq in En, Es, Eb.
  destruct (String.eqb (fieldType f) "select") eqn:El.
  { apply String.eqb_eq in El.
    set (v := effectiveValue config key f).
    assert (Hsel : match fieldOptions f with
                   | Some opts =>
                       if existsb (fun o => strictEq (optionValue o) v) opts
                       then []
                       else [MustBeOneOf key (map optionValue opts)]
                   | None => []
                   end = []
                   <-> forall opts, fieldOptions f = Some opts ->
                         exists o, In o opts
                                   /\ strictEq (optionValue o) v = true).
    { destruct (fieldOptions f) as [opts|].
      - destruct (existsb (fun o => strictEq (optionValue o) v) opts) eqn:E.
        + split; [|reflexivity]. intros _ opts' E'. inversion E'; subst.
          apply existsb_exists in E. exact E.
        + split; [discriminate|]. intro H.
          destruct (H opts eq_refl) as (o & Ho & Hv).
          assert (existsb (fun o => strictEq (optionValue o) v) opts = true)
            by (apply existsb_exists; exists o; auto).
          congruence.
      - split; [discriminate|reflexivity]. }
    destruct v as [| |b|x|s|r] eqn:Ev; split;
      try discriminate;
      try (intros (H & _); congruence);
      try (intro H; split; [discriminate|];
           split; [congruence|]; split; [congruence|];
           split; [congruence|]; intros _; apply Hsel, H);
      try (intros (_ & _ & _ & _ & H); apply Hsel, H, El). }
  apply String.eqb_neq in El.
  destruct (effectiveValue config key f) as [| |b|x|s|r]; split;
    try discriminate;
    try (intros (H & _); congruence);
    try reflexivity;
    intros _; (split; [discriminate|]); repeat split; congruence.
Qed.

(** X28.  [validatePluginConfig] reports [valid] exactly when, for every
    field of the schema, the value in effect ([config[key]], own or
    inherited, or the default of the field where that is [undefined] or
    [null]) is defined and is what the type of the field asks for: a
    number that is neither below [min] nor above [max] (as [NaN] is not),
    a string, a boolean, or one of the options. *)
Theorem validatePluginConfig_sound_complete (config : JsObject)
    (schema : PluginConfigSchema) :
  valid (validatePluginConfig config schema) = true
  <-> forall key f, In (key, f) schema ->
                    conforms (effectiveValue config key f) f.
Proof.
  unfold validatePluginConfig. cbv zeta. cbn [valid].
  rewrite Nat.eqb_eq, length_zero_iff_nil.
  induction schema as [|[k f] schema IH]; cbn [flat_map fst snd].
  - split; [intros _ key f []|reflexivity].
  - split.
    + intro H. apply app_eq_nil in H. destruct H as [H1 H2].
      intros key f' [E|Hin].
      * inversion E; subst. apply checkField_conforms, H1.
      * apply IH; assumption.
    + intro H.
      rewrite (proj2 (checkField_conforms config k f)
                 (H k f (or_introl eq_refl))).
      apply IH. intros key f' Hin. apply H. right. exact Hin.
Qed.

Lemma checkField_ext (config config' : JsObject) (key : string)
    (f : ConfigField) :
  config key = config' key ->
  checkField config key f = checkField config' key f.
Proof.
  intro H. unfold checkField, effectiveValue. rewrite H. reflexivity.
Qed.

Lemma checkField_keys (config : JsObject) (key : string) (f : ConfigField) :
  Forall (fun e => errorKey e = key) (checkField config key f).
Proof.
  unfold checkField. cbv zeta.
  destruct (effectiveValue config key f) as [| |b|x|s|r];
    repeat match goal with
           | |- Forall _ (if ?c then _ else _) => destruct c
           | |- Forall _ (match ?o with Some _ => _ | None => _ end) =>
               destruct o
           | |- Forall _ (_ ++ _)%list => apply Forall_app; split
           end;
    repeat constructor.
Qed.

(** X29.  [validatePluginConfig] reads the configuration at the keys of
    the schema only: configurations that agree on [config[key]] for every
    key of the schema validate alike, whatever else they hold; and every
    error it reports names a key of the schema. *)
Theorem validatePluginConfig_reads_schema_keys (schema : PluginConfigSchema) :
  (forall config config',
     (forall key, In key (Runtime.mapKeys schema) ->
                  config key = config' key) ->
     validatePluginConfig config schema = validatePluginConfig config' schema)
  /\ (forall config e,
        In e (errors (validatePluginConfig config schema)) ->
        In (errorKey e) (Runtime.mapKeys schema)).
Proof.
  split.
  - intros config config' H. unfold validatePluginConfig.
    assert (E : flat_map (fun kf => checkField config (fst kf) (snd kf)) schema
                = flat_map (fun kf => checkField config' (fst kf) (snd kf))
                           schema).
    { induction schema as [|[k f] schema IH]; cbn [flat_map fst snd];
        [reflexivity|].
      rewrite (checkField_ext config config' k f).
      - rewrite IH; [reflexivity|].
        intros key Hin. apply H. right. exact Hin.
      - apply H. left. reflexivity. }
    rewrite E. reflexivity.
  - intros config e. unfold validatePluginConfig. cbn [errors].
    intro Hin. apply in_flat_map in Hin. destruct Hin as ([k f] & Hkf & He).
    cbn [fst snd] in He.
    pose proof (checkField_keys config k f) as HF.
    rewrite Forall_forall in HF. rewrite (HF e He).
    unfold Runtime.mapKeys. change k with (fst (k, f)). apply in_map, Hkf.
Qed.

(** [validatePluginConfig] on [orphanRules]: the defaults pass, a
    threshold above [max] and a color that is no option are both reported,
    a threshold of [NaN] passes, and a key the schema does not name goes
    unnoticed. *)
Example validate_orphanRules :
  validatePluginConfig (objectOf []) orphanRules
  = {| valid := true; errors := [] |}
  /\ errors (validatePluginConfig
               (objectOf [("coverageThreshold", Number (ofZ 2));
                          ("badgeColor", Str "green")])
               orphanRules)
     = [MustBeAtMost "coverageThreshold" one;
        MustBeOneOf "badgeColor" [Str "red"; Str "orange"; Str "yellow"]]
  /\ errors (validatePluginConfig
               (objectOf [("coverageThreshold", Str "x");
                          ("other", Number one)])
               orphanRules)
     = [MustBeNumber "coverageThreshold"]
  /\ valid (validatePluginConfig
              (objectOf [("coverageThreshold", Number nan)]) orphanRules)
     = true.
Proof. repeat split. Qed.

(** A field named like a property that every object inherits: the empty
    configuration yields the inherited function instead of the default,
    and fails; a configuration with the key as own property passes. *)
Example validate_inherited_property :
  errors (validatePluginConfig (objectOf []) inheritedRules)
  = [MustBeString "toString"]
  /\ valid (validatePluginConfig (objectOf [("toString", Str "x")])
              inheritedRules)
     = true.
Proof. split; reflexivity. Qed.

End ConfigValidationFacts.
